(* ===== verification/_CoqProject ===== *)
-Q . S2P
Prelude.v
JsBase.v
Host.v
Extractor.v
Doubles.v
Playtime.v
Synthesis.v
Reconciler.v
IndexSpec.v
Loader.v
Trace.v
Jobs.v
Temporal.v
WellFormed.v
Interleave.v
Erasure.v
Reload.v
Disk.v
Overlap.v
Agreement.v
Merge.v
Console.v
DiskCalls.v
Plugin.v
Scenarios.v
