(* ===== verification/Prelude.v ===== *)
(** * Save Sync for RPG Maker MZ: a verification development

    The program ([src/McKathlin_SaveSync.js]) is a plugin that repairs the
    save index of an RPG Maker MZ game. The engine keeps, beside the save
    files [file0 .. fileN], an index [global] (an array with one summary
    record per slot) from which the load menu is drawn. The plugin replaces
    [DataManager.loadGlobalInfo]: after the index is loaded it walks every
    slot, synthesises a record for each save file the index does not know,
    deletes each record whose save file is gone, and persists the index when
    something changed.

    ** Parts of the program and the files that model them

    - [Prelude] (this file): the shared vocabulary. [completion] is the
      outcome of a JavaScript evaluation (normal or thrown); [prog] is the
      state-and-exception monad in which the stateful methods are written
      (state survives a throw, as in JavaScript); notations live in
      [prog_scope]; the hint database [savesync] (with the rewrite
      database [savesync_rw]) and the tactics
      [prog_simpl], [case_completion] drive the routine proofs; generic
      list facts.
    - [JsBase]: the JavaScript primitives the source relies on, with their
      corner cases written out: integers and [NaN] ([jsnum]),
      [Math.floor(x / k)], the remainder [%], [String(n)],
      [padStart]/[padZero], [Array.prototype.slice(0, end)] with a negative
      end, sparse arrays with holes ([jsarray], [arr_set] extends,
      [arr_delete] leaves a hole), truthiness of an array element.
    - [Host]: what the plugin is given. The class [Host] is the interface
      of the engine collaborators ([StorageManager.loadObject],
      [DataManager.savefileExists], [maxSavefiles], [makeSavename],
      [$dataSystem.gameTitle], [Date.now]); [SaveContents] is the minimal
      shape of a save payload the source reads (every field optional, the
      payload being duck typed); [World] is the mutable state of one pass
      (console, clock reads, the index array shared by [pendingGlobalInfo]
      and the parameter [globalInfo], [DataManager._globalInfo], the
      persisted index); [LogEntry] are the console messages of the source.
    - [Extractor]: [McKathlin.SaveSync.extractPartyMembers],
      [extractCharacters], [extractFaces], [extractPlaytime] (source lines
      173-204), pure functions into [completion].
    - [Doubles]: the numbers of [extractPlaytime] as the engine has them.
      A finite double is a rational; [rn] is the rounding of IEEE 754
      binary64 (to nearest, ties to even, 53 bits, subnormals), [fdiv]
      the operator [/], [ffloor] is [Math.floor], and
      [extractPlaytime64] is the method of lines 184-193 on these
      numbers, one rounding after each division.
    - [Synthesis]: [McKathlin.SaveSync.makeMissingSaveInfo] (lines
      143-171): the default record, the awaited payload load outside the
      [try], the three assignments inside it ([tryExtract]) and the
      [catch] that keeps what was assigned.
    - [Reconciler]: [DataManager.updateGlobalInfo] (lines 121-139): the
      body of the loop for one slot ([reconcileSlot]), the loop over the
      list of slots ([forSlots]), the loop as the source writes it, with
      its test before every iteration ([forLoop]), and the method. It is written against the interface
      [Synthesizer], which states what the loop needs of
      [makeMissingSaveInfo] (it leaves the index and the DataManager
      fields alone); [Synthesis] provides the instance.
    - [IndexSpec]: the abstract index, a [gmap] from slot to record, the
      abstraction function [absIndex] from arrays, the specification
      [reconcile_spec] of a pass, and the refinement theorem; the
      equivalence [index_equiv] of arrays that denote the same index and
      the [Proper] instances of the array operations.
    - [Loader]: [DataManager.loadGlobalInfo] (lines 92-116): the promise
      chain [then]/[catch]/[finally] as a sequential program, with
      [saveGlobalInfo] of the engine.
    - [Trace]: the pass with [makeMissingSaveInfo] as its helper, in
      closed form: [missing] and [stale] are the two conditions of the
      loop body (lines 124-126 and 130-132), [visited] the slots the loop
      reaches, [pass_entry] the element of a slot after the pass.
    - [Jobs]: the same chain at the grain at which JavaScript runs it. A
      [Phase] names the promise the chain is waiting for (the load of the
      index, line 94; the promise [finally] hangs on; the load of a
      payload, line 156; the promise of [makeMissingSaveInfo], awaited at
      line 127; the promise of [updateGlobalInfo]); the relation [job]
      has one rule for each callback or continuation that runs when that
      promise settles, [resume] being the loop up to its next [await];
      [run_job] and [run_jobs] are the executable form.
    - [Temporal]: runs that never end, as functions from positions to
      states, with [always], [stabilises], [leads_to] and [weakly_fair],
      and the rule that a ranking of the states which the fair action
      lowers gives its termination, for one action and for a family of
      actions that grows during the run. Nothing of the plugin.
    - [WellFormed]: the shape of an index record ([wf_info]: a face for
      each character, a playtime of three fields between two colons),
      of an index in memory ([wf_index]) and in storage ([dense]: no
      holes), of the state of the chain and of its phases.
    - [Interleave]: the chain among the other jobs of the engine. A
      [step] is a job of the chain or a step of the environment, a
      relation on [World] that is a parameter; [rank] counts the jobs the
      chain may still need in a phase; [eager] is the run in which
      nothing comes between the jobs.
    - [Erasure]: [erase] forgets the console, the clock and the
      timestamps of a configuration; two configurations with the same
      erasure are [similar].
    - [Disk]: the save directory as part of the state. [host_of] is the
      engine on a directory; a [djob] is a job of the chain run on the
      directory as it is at that moment; a [dstep] is a job or a step of
      an environment that may change the world and the directory.
    - [Overlap]: calls of [loadGlobalInfo] whose chains overlap. A
      [Chain] is the promise a call waits for with the array its own
      [pendingGlobalInfo] (line 93) refers to; the state [Calls] is the
      list of the chains called so far and the world they share; [call]
      (lines 92-94) appends a chain; a [chain_job] is a job of [Jobs] on
      the world as its chain sees it ([view], [config]); a [calls_step]
      is a job of a chain, a step of the rest of the engine or a call.
      [stalled] is the run that makes a list of moves and then stands
      still, [scheduled] the one that then gives the turn to the chain
      furthest from its end.
    - [Reload]: the [course] of a chain, which is the promise it waits
      for and its pending index without timestamps, and the simulation
      that two chains on one course stay on one course whatever
      [_globalInfo] and the storage hold; from it, what a second call of
      [loadGlobalInfo] does.
    - [Agreement]: the invariant of overlapping chains ([agreement]:
      each chain follows the sequential program started from what the
      storage held at the start or from what a single call leaves
      there, and the storage holds the former until a chain has saved or
      ended and the latter from then on) and the comparison of their
      outcome with that of a single call ([published_as_once],
      [stored_as_once]).
    - [Merge]: interleavings. [merged ls l] says that the log [l] is
      built from the streams [ls] of its writers, a line at a time;
      [deal] computes the streams of a log whose lines name their
      writer. Nothing of the plugin.
    - [Console]: what the chain writes to the console. [load_line] is
      the message of lines 97 or 100, [resume_log] what the loop writes
      up to its next [await] (the message of line 144 for the first slot
      it has to restore), [job_log] the messages of one job by the phase
      of the chain (lines 97, 100, 113, 144, 164, 167, 168), [chain_log]
      the messages of a whole call; [shared_console] and
      [console_merged] say that the console of a run is an interleaving
      of the streams of the engine and of the chains, the stream of the
      engine holding lines of a given kind [E] only.
    - [DiskCalls]: the chains of [Overlap] on the directory of [Disk].
      A [dchain_job] is a job of a chain on the engine [host_of d] of
      the directory of the moment, a [dcalls_step] a job of a chain, a
      step of the environment on the world and the directory, or a
      call; a [Move] is what a schedule does next (a job, a call, a file
      written or removed), and [dscheduled] the run that makes a list of
      moves and then lets the chains end.
    - [Plugin]: the load of the script (lines 31-35 and the seven
      assignments of the function of lines 89-206) as the program
      [install] on the global objects [Imported], [McKathlin],
      [DataManager] and [StorageManager]; [calls] lists the calls in the
      body of each function of the plugin, [resolve] looks the callee up
      when the call is made; [Edit] is what the script of another plugin
      does to the same objects.
    - [Playtime]: a reader of playtime strings, to state the round trip
      of [extractPlaytime].
    - [Scenarios]: the pass, the chain and its jobs computed on the sample
      game of [Host] (five slots, three save files, one of them without
      frame counter; variants with an unreadable payload and with an
      unknown actor), a run of the chain interrupted by readings of the
      clock, runs on a save directory that changes, two and three
      chains that overlap, a call that comes late, a chain that is
      starved, two calls on a directory that changes, the console of
      these runs, and the theorems applied to them.

    ** How the files depend on each other

    [Prelude] and [JsBase] know nothing of the plugin. [Doubles] stands
    between [JsBase] and the engine: the other files compute on the
    integers of [JsBase], and [Doubles] shows that the engine's doubles
    give the same playtime. It is the one file on rationals, whose
    equality is [Qeq]: its functions come with [Proper] instances and its
    proofs rewrite with them. [Reconciler] is
    written against the class [Synthesizer] of [Host] and never mentions
    [makeMissingSaveInfo]; [Synthesis] provides the instance, and
    [Loader], [Trace] and [Jobs] use the two together. [IndexSpec] gives
    the specification [Reconciler] refines, [Loader] the sequential
    program [Jobs] refines. [Interleave] instantiates the rule of
    [Temporal] with the jobs of [Jobs]; its theorems are proved in
    sections whose hypotheses say what the environment may do, and
    [Erasure] adds the simulation that carries the refinement of [Jobs]
    over to interleaved runs. [Disk] runs the same jobs with the engine
    [host_of d] of the directory [d] of the moment, so that the lemmas of
    [Jobs] and [Interleave], proved for any engine, apply job by job.
    [Overlap] runs the jobs of [Jobs] on the configuration of one chain
    of a list and ranks each chain by the [rank] of [Interleave], so
    that the rule of [Temporal] ends every chain once the calls have
    stopped; its invariants are [Forall]s over the list of chains.
    [Reload] uses the erasure of [Erasure] on configurations whose
    engine fields are blanked; [Agreement] carries its simulation along
    the runs of [Overlap] by the rule of [Temporal].
    [DiskCalls] instantiates the rule of [Temporal] for a family of
    actions, as [Overlap] does, with the ranks of [Overlap], and applies
    the lemmas of [Disk] for one slot to each chain of the list.
    [Console] follows the same two simulations, that of [Erasure] for
    one chain and that of [Reload] for the chains of [Overlap], with the
    lines each job appends, and states the outcome with [Merge].
    [Plugin] stands apart: it says which
    functions the names resolve to when the chain runs, namely those the
    other files model, as long as no later plugin replaces them; the
    class [Synthesizer] is the same late binding seen from the loop.

    ** What the theorems show

    - Extractor: the playtime string is [HH:MM:SS] of [floor(frames/60)],
      with the fields in range and the decomposition exact; the three
      examples of the specification; a missing frame counter gives
      ["NaN:NaN:NaN"], no exception; characters and faces have the length
      [min(roster, maxBattleMembers)], keep the roster order, and succeed
      or fail together.
    - Doubles: [rn] is off by at most the fraction [2 ^ -53] of its
      argument in the normal range and leaves integers below [2 ^ 53]
      as they are; hence [Math.floor(x / 60)] and
      [Math.floor(x / 60 / 60)] on doubles are the integer quotients by
      60 and by 3600, and [extractPlaytime64] returns what
      [extractPlaytime] returns, for every frame counter below [2 ^ 53]
      in magnitude. The bound is sharp: at [2 ^ 53 + 27] frames the two
      differ by a second.
    - Playtime: the string written for a counter that is not negative is
      read back as the whole seconds played.
    - Synthesis: the method returns a record exactly when the payload
      load resolves and rejects otherwise; what the record holds on each
      branch of the [try]; it only appends to the console and never
      touches the index.
    - Reconciler: after a pass that completes, a slot in range has a
      record exactly when its save file exists; the flag is false exactly
      when nothing had to change, and then the array is untouched;
      records already present are kept; slots out of range are left
      alone; the loop of the source, with its test before every
      iteration, ends and is the loop over the list of slots; a second
      pass changes nothing; where a payload load fails the
      pass stops there, earlier slots repaired and later ones untouched.
    - IndexSpec: the array algorithm refines the specification on maps.
    - Loader: the method never throws and always sets [_globalInfo];
      the index is persisted exactly when a completed pass reports a
      change.
    - Trace: the element of every slot after a pass, with the clock
      reading that stamps a synthesised record; the console lines of a
      pass, which ascend with the slots; timestamps that do not decrease
      with the slot when the clock does not run backwards; the order of
      the slots matters for the timestamps only; the pass cannot tell
      apart arrays that denote the same index (a hole against a [null]);
      the array never shrinks and grows at most to [maxSavefiles() + 1]
      elements.
    - Jobs: the jobs compute the sequential chain and nothing else
      (refinement, with determinism); the chain ends within
      [3 + 2 * (maxSavefiles() + 1)] jobs; until its last job the engine
      sees [_globalInfo] and the storage unchanged; the loop invariant
      holds at every suspension.
    - WellFormed: every record [makeMissingSaveInfo] returns is well
      formed, whatever the payload; a pass and every job of the chain
      keep a well-formed state well formed, and what is persisted has no
      holes.
    - Interleave: with no assumption on the environment, every job
      lowers the rank and no step raises it, so a run that is fair to the
      chain ends it, and no run holds more than
      [3 + 2 * (maxSavefiles() + 1)] of its jobs; with an environment
      that has no reference to the pending index, the loop invariant
      holds at every position and each start of the chain leads to a
      position where the index is published and in step with the disk.
    - Erasure: a job cannot tell similar configurations apart
      (lock-step simulation); with an environment that only logs and
      reads the clock, every interleaved run that ends has the published,
      the pending and the persisted index of the sequential program up to
      timestamps, and every fair run settles there for good.
    - Disk: on a directory that changes under the chain the chain still
      ends in every fair run, and every slot whose own file is left
      alone is reconciled when the pass returns; two computed runs show
      what happens to the others (a file removed between its check and
      its load rejects the pass, a file written behind the loop is not
      seen).
    - DiskCalls: the same for the chains of any number of calls: all
      of them end in a fair run once the calls have stopped, whatever
      happens to the directory and to the world, and each of them
      reconciles every slot whose file is left alone; the array of a
      chain being its own, nothing else is asked of the environment;
      the records of every chain, of the published and of the persisted
      index keep their shape, whatever the files hold. A
      computed run shows two chains that both miss a file written
      behind their loops.
    - Overlap: however often and whenever [loadGlobalInfo] is called,
      in every run that is fair to a chain that chain ends, whatever
      calls follow; all chains end once the calls have stopped, and from
      then on the index the engine sees is the array of one of them, in
      step with the disk; computed runs show that the chain that ends
      last replaces what the others published and saved.
    - Reload and Agreement: further calls of [loadGlobalInfo], after the
      first chain has ended or while chains are under way, change
      nothing but timestamps. After: the storage stays as the first call
      left it and the same records are published. Meanwhile: in every
      run, fair or not, [_globalInfo] and the storage hold the records
      of a single call from the moment the first chain ends, and in
      every fair run all chains end. Neither needs the payloads to load:
      a pass that throws is followed, or accompanied, by passes that
      throw at the same slot.
    - Console: every job appends the lines of [job_log] and nothing
      else, and these depend on the phase and the pending index only, up
      to timestamps; the lines of a call in closed form, and of a second
      call (the line of the load after a pass that returned, the lines of
      the first call again after a pass that threw); the console of one
      chain among steps of the engine is an interleaving of the engine's
      lines and the lines of the sequential program, and nothing else
      when the engine writes nothing; the console of
      calls that overlap is, at every position of every run, an
      interleaving of the engine's lines and of one stream for each call,
      each the lines of a single call up to where its chain is, and all
      of them once the chains have ended, so that the messages of a
      repair appear once for every call that found the index not yet
      repaired.
    - Plugin: the load never throws and binds the seven names to the
      plugin's functions; it commutes with the load of every plugin that
      writes none of its names, and wipes out what a plugin loaded
      earlier wrote under them; loading twice is loading once.

    ** Bounds

    Outside [Doubles] numbers are mathematical integers or [NaN].
    JavaScript numbers are doubles: integers below 2^53 are exact, and so
    are [%], the increment and the comparison of the loop on them; a
    quotient is rounded. [Doubles] proves that the floors of the quotients
    of [extractPlaytime] are the integer quotients for every frame
    counter below 2^53 in magnitude, which is every counter the engine
    can reach by counting (at 2^53 the increment of a double has no
    effect); [String(n)] is decimal below 10^21, and the largest hours
    field of such a counter has eleven digits. The loop counter [i] is a
    double as well: the model takes [maxSavefiles()] below 2^53, the
    engine's being 20. Slot numbers are [nat];
    [maxSavefiles] is a [Z], so that a negative bound gives an empty loop
    as in the source. The sequential definitions need no fuel: the loop
    runs over the finite list of slots [0 .. maxSavefiles], so every
    definition is total. [run_jobs] takes fuel, the number of jobs to
    run; the chain needs three jobs and two for each record it
    synthesises, so [3 + 2 * (maxSavefiles() + 1)] is always enough, and
    more fuel changes nothing (theorem [chain_terminates]). [rank] starts
    at the same number and is lowered by every job, which gives the same
    bound for runs with other steps in between, and that number for
    each chain of several ([jobs_left]). The number of calls in a run is
    finite and otherwise free: a theorem that chains end asks that the
    calls stop. Runs of the engine are
    functions on [nat] and need no coinduction. [reached] follows the
    calls to a given depth; four is the depth of the plugin's call graph.

    ** Not modelled

    The comments of the source (licence, lines 1-30; annotations for the
    editor and help text, lines 36-88) hold no code. The environment of
    the chain is a relation on [World], in [Disk] on the world and the
    save directory: it can log, read the clock and, where a theorem
    allows it, change [_globalInfo], the storage and the save files; a
    file that changes during its own load is not modelled. [Overlap]
    and [Agreement] have a directory that stays as it is ([DiskCalls]
    lets it change, and then calls that overlap need not agree with a
    single call: which files a chain sees depends on when its jobs
    run); [Agreement]
    lets the rest of the engine log and read the clock and no more, and
    compares records, not timestamps (which chain's timestamps are left
    depends on the order of the jobs, see [overlap_taking_turns]). The
    engine's [saveGlobalInfo] is a write at the call; a write that lands
    some jobs later is not modelled.
    [Console] compares the messages as the values of [LogEntry], the
    slot number and the error they carry, not the text the browser
    prints for an error object; the lines of the engine are whatever the
    environment appends.
    The engine is the same for a whole pass: [maxSavefiles()], which
    the source calls before every iteration (line 123), and
    [$dataSystem.gameTitle] (line 148) are constants of [Host], so a
    bound that changes during the loop and a [$dataSystem] that is
    still [null] when a record is synthesised are not modelled. A call
    starts the load of the index at once (line 94) and the engine reads
    the storage at some moment before the first job; the model reads it
    when that job runs, and likewise the payload of a save file when
    its load settles ([Disk]). The party of a payload, when there is
    one, is a [Game_Party] as the engine revives it, with its roster
    [_actors] and its method [maxBattleMembers]; an object of another
    shape in its place is not modelled.
    The stored index is an array whose elements are
    records, [null]s and holes: a file [global] that holds another JSON
    value, or an array with elements of another kind, is not modelled.
    Of other plugins only their writes to the
    objects this plugin writes are modelled, not what their functions do
    when called; a falsy value of [Imported] or [McKathlin] other than
    [undefined] is not modelled. Of the doubles, infinities and the sign
    of zero are not modelled: dividing a finite number by 60 gives no
    infinity, and the program prints both zeros alike. A frame counter
    that is not an integer is not modelled (the engine counts frames by
    ones). The engine's own classes beyond the accessors the source
    calls are not modelled. *)

From Stdlib Require Export ZArith Lia.
From stdpp Require Export base tactics option list numbers.
From stdpp Require Import sorting.

(** ** Outcome of an evaluation *)

(** A JavaScript evaluation completes normally with a value or abruptly
    with a thrown error; a settled promise is fulfilled or rejected. *)
Inductive completion (E A : Type) : Type :=
| Done (a : A)
| Throw (e : E).
Arguments Done {E A} a.
Arguments Throw {E A} e.

#[export] Instance completion_eq_dec {E A} `{EqDecision E, EqDecision A} :
  EqDecision (completion E A).
Proof. solve_decision. Defined.

Definition is_done {E A} (c : completion E A) : bool :=
  match c with Done _ => true | Throw _ => false end.

Definition cbind {E A B} (c : completion E A) (k : A → completion E B) :
  completion E B :=
  match c with Done a => k a | Throw e => Throw e end.

Definition cmap {E A B} (f : A → B) (c : completion E A) : completion E B :=
  cbind c (λ a, Done (f a)).

(** [callback(x)] for every element in order, stopping at the first throw:
    the behaviour of [Array.prototype.map] with a callback that may throw. *)
Fixpoint map_completion {E A B} (f : A → completion E B) (l : list A) :
  completion E (list B) :=
  match l with
  | [] => Done []
  | x :: l' =>
      cbind (f x) (λ y, cbind (map_completion f l') (λ ys, Done (y :: ys)))
  end.

(** ** Programs: state and exceptions *)

(** A program transforms a state and completes; the state reached when it
    throws is kept, since JavaScript undoes nothing. *)
Definition prog (S E A : Type) : Type := S → S * completion E A.

Section prog_ops.
Context {S E : Type}.

Definition ret {A} (a : A) : prog S E A := λ s, (s, Done a).

Definition throw {A} (e : E) : prog S E A := λ s, (s, Throw e).

Definition bind {A B} (c : prog S E A) (k : A → prog S E B) : prog S E B :=
  λ s, match c s with
       | (s', Done a) => k a s'
       | (s', Throw e) => (s', Throw e)
       end.

(** [try { c } catch (e) { h e }] *)
Definition try_catch {A} (c : prog S E A) (h : E → prog S E A) : prog S E A :=
  λ s, match c s with
       | (s', Done a) => (s', Done a)
       | (s', Throw e) => h e s'
       end.

Definition gets {A} (f : S → A) : prog S E A := λ s, (s, Done (f s)).

Definition modify (f : S → S) : prog S E unit := λ s, (f s, Done tt).

(** [await p] for a promise whose outcome is known. *)
Definition await {A} (c : completion E A) : prog S E A := λ s, (s, c).

Definition exec {A} (c : prog S E A) (s : S) : S := fst (c s).

Definition eval {A} (c : prog S E A) (s : S) : completion E A := snd (c s).

(** Two programs are equivalent when they agree on every state. *)
Definition prog_equiv {A} (c1 c2 : prog S E A) : Prop := ∀ s, c1 s = c2 s.

End prog_ops.

Declare Scope prog_scope.
Delimit Scope prog_scope with prog.
Bind Scope prog_scope with prog.

Notation "'let*' x ':=' c 'in' k" := (bind c (λ x, k))
  (at level 10, x binder, c at level 100, k at level 200,
   format "'[v' 'let*'  x  :=  c  'in' '/' k ']'") : prog_scope.
Notation "c '>>' k" := (bind c (λ _, k))
  (at level 100, k at level 200, right associativity) : prog_scope.
Notation "'let?' x ':=' c 'in' k" := (cbind c (λ x, k))
  (at level 10, x binder, c at level 100, k at level 200,
   format "'[v' 'let?'  x  :=  c  'in' '/' k ']'") : prog_scope.
Infix "≡ₚ" := prog_equiv (at level 70, no associativity) : prog_scope.

Open Scope prog_scope.

(** ** Automation *)

Create HintDb savesync discriminated.
Create Rewrite HintDb savesync_rw.

(** Unfold the monad operations applied to a state. *)
Ltac prog_simpl :=
  repeat (progress (cbv beta delta
    [bind ret throw try_catch gets modify await exec eval cbind cmap] iota;
    cbn [fst snd])).

(** Split on the outcome of the first completion or program run that a
    [match] of the goal inspects. *)
Ltac case_completion :=
  match goal with
  | |- context [match ?c with Done _ => _ | Throw _ => _ end] =>
      let H := fresh "Hc" in destruct c eqn:H
  | |- context [match ?r with (_, _) => _ end] =>
      let H := fresh "Hr" in destruct r as [? [?|?]] eqn:H
  end.

(** ** Laws of the monad *)

Section prog_laws.
Context {S E : Type}.
Implicit Types s : S.

#[export] Instance prog_equiv_equivalence {A} :
  Equivalence (@prog_equiv S E A).
Proof.
  split; [intros c s; reflexivity | intros c1 c2 H s; symmetry; apply H |].
  intros c1 c2 c3 H12 H23 s. rewrite H12. apply H23.
Qed.

#[export] Instance bind_proper {A B} :
  Proper (prog_equiv ==> pointwise_relation A prog_equiv ==> prog_equiv)
    (@bind S E A B).
Proof.
  intros c1 c2 Hc k1 k2 Hk s. unfold bind. rewrite Hc.
  destruct (c2 s) as [s' [a|e]]; [apply Hk | reflexivity].
Qed.

#[export] Instance try_catch_proper {A} :
  Proper (prog_equiv ==> pointwise_relation E prog_equiv ==> prog_equiv)
    (@try_catch S E A).
Proof.
  intros c1 c2 Hc h1 h2 Hh s. unfold try_catch. rewrite Hc.
  destruct (c2 s) as [s' [a|e]]; [reflexivity | apply Hh].
Qed.

Lemma bind_ret_l {A B} (a : A) (k : A → prog S E B) : bind (ret a) k ≡ₚ k a.
Proof. intros s. reflexivity. Qed.

Lemma bind_ret_r {A} (c : prog S E A) : bind c ret ≡ₚ c.
Proof. intros s. unfold bind, ret. by destruct (c s) as [s' [a|e]]. Qed.

Lemma bind_assoc {A B C} (c : prog S E A) (k : A → prog S E B)
  (k' : B → prog S E C) :
  bind (bind c k) k' ≡ₚ bind c (λ a, bind (k a) k').
Proof. intros s. unfold bind. by destruct (c s) as [s' [a|e]]. Qed.

Lemma bind_throw {A B} (e : E) (k : A → prog S E B) : bind (throw e) k ≡ₚ throw e.
Proof. intros s. reflexivity. Qed.

Lemma try_catch_ret {A} (a : A) (h : E → prog S E A) : try_catch (ret a) h ≡ₚ ret a.
Proof. intros s. reflexivity. Qed.

Lemma try_catch_throw {A} (e : E) (h : E → prog S E A) :
  try_catch (throw e) h ≡ₚ h e.
Proof. intros s. reflexivity. Qed.

(** Running a sequence: the second program starts in the state the first
    one left, and is skipped when the first one throws. *)
Lemma run_bind {A B} (c : prog S E A) (k : A → prog S E B) s :
  bind c k s =
  match eval c s with
  | Done a => k a (exec c s)
  | Throw e => (exec c s, Throw e)
  end.
Proof. unfold bind, eval, exec. by destruct (c s) as [s' [a|e]]. Qed.

Lemma exec_eval {A} (c : prog S E A) s : c s = (exec c s, eval c s).
Proof. unfold exec, eval. by destruct (c s). Qed.

Lemma eval_bind {A B} (c : prog S E A) (k : A → prog S E B) s :
  eval (bind c k) s =
  match eval c s with Done a => eval (k a) (exec c s) | Throw e => Throw e end.
Proof. unfold eval at 1. rewrite run_bind. by destruct (eval c s). Qed.

Lemma exec_bind {A B} (c : prog S E A) (k : A → prog S E B) s :
  exec (bind c k) s =
  match eval c s with Done a => exec (k a) (exec c s) | Throw e => exec c s end.
Proof. unfold exec at 1. rewrite run_bind. by destruct (eval c s). Qed.

Lemma eval_bind_done {A B} (c : prog S E A) (k : A → prog S E B) s b :
  eval (bind c k) s = Done b ↔
  ∃ a, eval c s = Done a ∧ eval (k a) (exec c s) = Done b.
Proof. rewrite eval_bind. destruct (eval c s); naive_solver. Qed.

Lemma eval_bind_throw {A B} (c : prog S E A) (k : A → prog S E B) s e :
  eval (bind c k) s = Throw e ↔
  eval c s = Throw e ∨ ∃ a, eval c s = Done a ∧ eval (k a) (exec c s) = Throw e.
Proof. rewrite eval_bind. destruct (eval c s); naive_solver. Qed.

(** A program that is run to a pair. *)
(** A program that returns, followed by another. *)
Lemma run_seq {A B} (c : prog S E A) (k : prog S E B) s s' a :
  c s = (s', Done a) → (c >> k) s = k s'.
Proof. intros Hc. unfold bind. by rewrite Hc. Qed.

Lemma run_pair {A} (c : prog S E A) s s' r :
  c s = (s', r) ↔ exec c s = s' ∧ eval c s = r.
Proof. rewrite (exec_eval c s). naive_solver. Qed.

End prog_laws.

(** ** Lists *)

Section list_facts.
Context {A : Type}.
Implicit Types (f g : A → bool) (l : list A).

Lemma forallb_ext_elem f g l :
  (∀ x, x ∈ l → f x = g x) → forallb f l = forallb g l.
Proof.
  induction l as [|x l IH]; intros Hfg; [done|]. simpl.
  rewrite Hfg by left. f_equal. apply IH. intros y Hy. apply Hfg. by right.
Qed.

Lemma existsb_ext_elem f g l :
  (∀ x, x ∈ l → f x = g x) → existsb f l = existsb g l.
Proof.
  induction l as [|x l IH]; intros Hfg; [done|]. simpl.
  rewrite Hfg by left. f_equal. apply IH. intros y Hy. apply Hfg. by right.
Qed.

Lemma forallb_True f l : forallb f l = true ↔ ∀ x, x ∈ l → f x = true.
Proof.
  induction l as [|x l IH]; simpl.
  - split; [intros _ x Hx; by apply elem_of_nil in Hx | done].
  - rewrite andb_true_iff, IH. setoid_rewrite elem_of_cons. naive_solver.
Qed.

Lemma existsb_True f l : existsb f l = true ↔ ∃ x, x ∈ l ∧ f x = true.
Proof.
  induction l as [|x l IH]; simpl.
  - split; [done | intros (x & Hx & _); by apply elem_of_nil in Hx].
  - rewrite orb_true_iff, IH. setoid_rewrite elem_of_cons. naive_solver.
Qed.

Lemma negb_forallb f l : negb (forallb f l) = existsb (λ x, negb (f x)) l.
Proof.
  induction l as [|x l IH]; [done|]. simpl. by rewrite negb_andb, IH.
Qed.

(** Filtering by a decidable test given as a [bool]. *)
Lemma filter_bool_cons f x l :
  filter (λ y, f y) (x :: l) =
  if f x then x :: filter (λ y, f y) l else filter (λ y, f y) l.
Proof.
  rewrite filter_cons. destruct (f x); case_decide; naive_solver.
Qed.

Lemma filter_bool_ext_elem f g l :
  (∀ x, x ∈ l → f x = g x) → filter (λ y, f y) l = filter (λ y, g y) l.
Proof.
  induction l as [|x l IH]; intros Hfg; [done|].
  rewrite !filter_bool_cons, Hfg by left.
  rewrite IH; [done|]. intros y Hy. apply Hfg. by right.
Qed.

(** [forallb] and [existsb] do not depend on the order of the list. *)
Lemma forallb_Permutation f l l' : Permutation l l' → forallb f l = forallb f l'.
Proof.
  intros Hp. apply eq_true_iff_eq. rewrite !forallb_True.
  by setoid_rewrite Hp.
Qed.

Lemma existsb_Permutation f l l' : Permutation l l' → existsb f l = existsb f l'.
Proof.
  intros Hp. apply eq_true_iff_eq. rewrite !existsb_True.
  by setoid_rewrite Hp.
Qed.

(** A list cut out of a sorted list is sorted. *)
Lemma StronglySorted_sublist (R : relation A) l l' :
  l `sublist_of` l' → StronglySorted R l' → StronglySorted R l.
Proof.
  induction 1 as [|x l l' Hsub IH|x l l' Hsub IH]; [done|..];
    rewrite !StronglySorted_cons, ?Forall_forall; intros [Hx Hl']; [|by apply IH].
  split; [|by apply IH]. intros y Hy. by apply Hx, (sublist_subseteq _ _ Hsub).
Qed.

End list_facts.

Lemma StronglySorted_seq start len : StronglySorted lt (seq start len).
Proof.
  revert start. induction len as [|len IH]; intros start; simpl; constructor; [done|].
  apply Forall_forall. intros j Hj%elem_of_seq. lia.
Qed.

(** Lowering one number of a list lowers the sum. *)
Lemma sum_list_insert_lt (l : list nat) k r r' :
  l !! k = Some r → r' < r → sum_list (<[k:=r']> l) < sum_list l.
Proof.
  revert k. induction l as [|x l IH]; intros [|k] Hk Hlt; simplify_eq/=; [lia|].
  specialize (IH k Hk Hlt). lia.
Qed.

(** The first position of the greatest number of a list. *)
Fixpoint argmax (l : list nat) : nat :=
  match l with
  | [] => 0
  | r :: l => if decide (max_list l ≤ r) then 0 else S (argmax l)
  end.

Lemma argmax_lookup (l : list nat) : l ≠ [] → l !! argmax l = Some (max_list l).
Proof.
  induction l as [|r l IH]; [done|]. intros _. simpl. case_decide as Hmax.
  - simpl. f_equal. lia.
  - simpl. destruct l as [|r' l]; [simpl in Hmax; lia|].
    rewrite IH by done. f_equal. lia.
Qed.

(** ** Completions *)

Section completion_facts.
Context {E A B : Type}.

Lemma cbind_done (c : completion E A) (k : A → completion E B) b :
  cbind c k = Done b ↔ ∃ a, c = Done a ∧ k a = Done b.
Proof. destruct c; naive_solver. Qed.

Lemma cbind_throw (c : completion E A) (k : A → completion E B) e :
  cbind c k = Throw e ↔ c = Throw e ∨ ∃ a, c = Done a ∧ k a = Throw e.
Proof. destruct c; naive_solver. Qed.

Lemma cmap_done (f : A → B) (c : completion E A) b :
  cmap f c = Done b ↔ ∃ a, c = Done a ∧ b = f a.
Proof. unfold cmap. rewrite cbind_done. naive_solver. Qed.

Lemma map_completion_total (f : A → B) (l : list A) :
  map_completion (E:=E) (λ x, Done (f x)) l = Done (f <$> l).
Proof. induction l as [|x l IH]; [done|]. cbn. by rewrite IH. Qed.

Lemma map_completion_done (f : A → completion E B) l ys :
  map_completion f l = Done ys ↔ Forall2 (λ x y, f x = Done y) l ys.
Proof.
  revert ys. induction l as [|x l IH]; intros ys; simpl.
  { split; [intros [= <-]; constructor | by inversion 1]. }
  destruct (f x) as [y|e] eqn:Hx; simpl.
  - destruct (map_completion f l) as [ys'|e]; simpl.
    + split; [intros [= <-]; constructor; [done | by apply IH] |].
      inversion 1 as [|? y' ? ys'' Hy Hys]; subst.
      apply IH in Hys. congruence.
    + split; [done |]. inversion 1 as [|? y' ? ys'' Hy Hys]; subst.
      by apply IH in Hys.
  - split; [done |]. inversion 1; congruence.
Qed.

Lemma map_completion_length (f : A → completion E B) l ys :
  map_completion f l = Done ys → length ys = length l.
Proof. rewrite map_completion_done. intros H. symmetry. by eapply Forall2_length. Qed.

Lemma map_completion_throws (f : A → completion E B) l :
  is_done (map_completion f l) = forallb (λ x, is_done (f x)) l.
Proof.
  induction l as [|x l IH]; [done|]. cbn.
  destruct (f x); [|done]. cbn. rewrite <-IH.
  by destruct (map_completion f l).
Qed.

End completion_facts.

#[export] Hint Rewrite @map_completion_total : savesync_rw.
#[export] Hint Resolve map_completion_length : savesync.
