(* ===== verification/JsBase.v ===== *)
(** * JavaScript primitives used by the plugin

    The values and built-in operations the source relies on, with the
    corner cases that matter to it: numbers that are integers or [NaN],
    [Math.floor] of a quotient, the remainder [%], [String(n)], the
    engine's [padZero], [Array.prototype.slice(0, end)], and sparse arrays
    whose elements are holes, [null] or objects. *)

From Stdlib Require Import Ascii.
From stdpp Require Import strings pretty.
From S2P Require Import Prelude.

(** ** Errors *)

(** What the plugin can see thrown: a [TypeError] from reading a property
    of [undefined] or [null] (the text names the property), and the
    rejection of [StorageManager.loadObject] (the text names the object). *)
Inductive JsError : Type :=
| TypeError (property : string)
| LoadError (name : string).

#[export] Instance JsError_eq_dec : EqDecision JsError.
Proof. solve_decision. Defined.

(** [o.property] where [o] may be [undefined]. *)
Definition field {A} (property : string) (o : option A) : completion JsError A :=
  match o with
  | Some a => Done a
  | None => Throw (TypeError property)
  end.

(** ** Numbers *)

Inductive jsnum : Type :=
| Int (z : Z)
| NaN.

#[export] Instance jsnum_eq_dec : EqDecision jsnum.
Proof. solve_decision. Defined.

(** The number read from a property that may be [undefined]: arithmetic on
    [undefined] yields [NaN]. *)
Definition to_number (o : option Z) : jsnum :=
  match o with Some z => Int z | None => NaN end.

(** [Math.floor(x / k)] for a positive integer [k]: the quotient rounded
    towards minus infinity. [Math.floor(x / k1 / k2)] is [floor_div x (k1 * k2)].
    The engine divides doubles and rounds each quotient; [Doubles] shows
    that the floors are these integers all the same, for every integer
    below [2 ^ 53] in magnitude. *)
Definition floor_div (x : jsnum) (k : Z) : jsnum :=
  match x with Int z => Int (z `div` k) | NaN => NaN end.

(** [x % k]: the remainder has the sign of the dividend. *)
Definition js_rem (x : jsnum) (k : Z) : jsnum :=
  match x with Int z => Int (z `rem` k) | NaN => NaN end.

(** [String(x)] *)
Definition num_to_string (x : jsnum) : string :=
  match x with Int z => pretty z | NaN => "NaN" end.

(** ** Strings *)

Fixpoint string_rep (c : ascii) (n : nat) : string :=
  match n with 0 => "" | S n' => String c (string_rep c n') end.

(** [s.padStart(targetLength, "0")] *)
Definition padStart0 (targetLength : nat) (s : string) : string :=
  string_rep "0" (targetLength - String.length s) +:+ s.

(** [x.padZero(length)], defined by the engine as
    [String(this).padStart(length, "0")]. *)
Definition padZero (x : jsnum) (length : nat) : string :=
  padStart0 length (num_to_string x).

(** ** Arrays *)

(** [l.slice(0, end)]: a negative [end] counts from the end of the array
    and the interval is clamped to the array. *)
Definition slice0 {A} (l : list A) (end_ : Z) : list A :=
  let len := Z.of_nat (length l) in
  let final := if decide (end_ < 0)%Z then Z.max (len + end_) 0 else Z.min end_ len in
  take (Z.to_nat final) l.

(** An element of a sparse array: a hole (reads as [undefined]), [null],
    or an object. *)
Inductive elem (A : Type) : Type :=
| Hole
| Null
| Obj (a : A).
Arguments Hole {A}.
Arguments Null {A}.
Arguments Obj {A} a.

#[export] Instance elem_eq_dec {A} `{EqDecision A} : EqDecision (elem A).
Proof. solve_decision. Defined.

Abbreviation jsarray A := (list (elem A)).

(** [!!e]: objects are truthy, [undefined] and [null] are not. *)
Definition truthy {A} (e : elem A) : bool :=
  match e with Obj _ => true | Hole | Null => false end.

Definition elem_obj {A} (e : elem A) : option A :=
  match e with Obj a => Some a | Hole | Null => None end.

(** [a[i]]: past the end of the array the read gives [undefined], as a hole
    does. *)
Definition arr_get {A} (a : jsarray A) (i : nat) : elem A :=
  default Hole (a !! i).

(** [a[i] = v]: past the end the array grows, the gap filled with holes. *)
Definition arr_set {A} (a : jsarray A) (i : nat) (v : elem A) : jsarray A :=
  if decide (i < length a) then <[i:=v]> a
  else a ++ replicate (i - length a) Hole ++ [v].

(** [delete a[i]]: the element becomes a hole and the length stays. *)
Definition arr_delete {A} (a : jsarray A) (i : nat) : jsarray A :=
  <[i:=Hole]> a.

(** ** Facts about arrays *)

Section array_facts.
Context {A : Type}.
Implicit Types (a : jsarray A) (v : elem A) (i j : nat).

Lemma arr_get_lookup a i : arr_get a i = default Hole (a !! i).
Proof. reflexivity. Qed.

Lemma arr_get_ge a i : length a ≤ i → arr_get a i = Hole.
Proof. intros H. unfold arr_get. by rewrite lookup_ge_None_2. Qed.

Lemma length_arr_set a i v : length (arr_set a i v) = length a `max` S i.
Proof.
  unfold arr_set. case_decide.
  - rewrite length_insert. lia.
  - rewrite !length_app, length_replicate. simpl. lia.
Qed.

Lemma length_arr_delete a i : length (arr_delete a i) = length a.
Proof. apply length_insert. Qed.

Lemma arr_get_set_eq a i v : arr_get (arr_set a i v) i = v.
Proof.
  unfold arr_get, arr_set. case_decide.
  - by rewrite list_lookup_insert_eq.
  - rewrite lookup_app_r by lia. rewrite lookup_app_r by (rewrite length_replicate; lia).
    rewrite length_replicate. by replace (i - length a - (i - length a)) with 0 by lia.
Qed.

Lemma arr_get_set_ne a i j v : i ≠ j → arr_get (arr_set a i v) j = arr_get a j.
Proof.
  intros Hij. unfold arr_get, arr_set. case_decide.
  - by rewrite list_lookup_insert_ne.
  - destruct (decide (j < length a)) as [Hj|Hj].
    + by rewrite lookup_app_l.
    + rewrite (lookup_ge_None_2 a j) by lia. rewrite lookup_app_r by lia.
      destruct (decide (j < i)) as [Hlt|Hge].
      * rewrite lookup_app_l by (rewrite length_replicate; lia).
        by rewrite lookup_replicate_2 by lia.
      * rewrite lookup_ge_None_2; [done|].
        rewrite length_app, length_replicate. simpl. lia.
Qed.

Lemma arr_get_delete_eq a i : arr_get (arr_delete a i) i = Hole.
Proof.
  unfold arr_get, arr_delete. destruct (decide (i < length a)).
  - by rewrite list_lookup_insert_eq.
  - rewrite list_insert_ge by lia. by rewrite lookup_ge_None_2 by lia.
Qed.

Lemma arr_get_delete_ne a i j : i ≠ j → arr_get (arr_delete a i) j = arr_get a j.
Proof. intros Hij. unfold arr_get, arr_delete. by rewrite list_lookup_insert_ne. Qed.

(** Arrays are equal when they have the same length and the same reads. *)
Lemma arr_ext a b :
  length a = length b → (∀ i, arr_get a i = arr_get b i) → a = b.
Proof.
  intros Hlen Hget. apply list_eq. intros i. specialize (Hget i).
  unfold arr_get in Hget.
  destruct (a !! i) as [x|] eqn:Ha, (b !! i) as [y|] eqn:Hb; simpl in *; try congruence.
  - apply lookup_lt_Some in Ha. apply lookup_ge_None in Hb. lia.
  - apply lookup_lt_Some in Hb. apply lookup_ge_None in Ha. lia.
Qed.

(** Writing back what is read, inside the array, changes nothing. *)
Lemma arr_set_get_id a i : i < length a → arr_set a i (arr_get a i) = a.
Proof.
  intros Hi. unfold arr_set, arr_get. rewrite decide_True by done.
  destruct (lookup_lt_is_Some_2 a i Hi) as [x Hx]. rewrite Hx. simpl.
  by apply list_insert_id.
Qed.

End array_facts.

#[export] Hint Rewrite @arr_get_set_eq @arr_get_delete_eq @length_arr_set
  @length_arr_delete : savesync_rw.
#[export] Hint Rewrite @arr_get_set_ne @arr_get_delete_ne using done : savesync_rw.

(** ** Facts about [slice] *)

Section slice_facts.
Context {A : Type}.
Implicit Types (l : list A) (e : Z).

Lemma slice0_nonneg l e : (0 ≤ e)%Z → slice0 l e = take (Z.to_nat e) l.
Proof.
  intros He. unfold slice0. rewrite decide_False by lia.
  destruct (decide (e ≤ Z.of_nat (length l))%Z).
  - by rewrite Z.min_l by lia.
  - rewrite Z.min_r by lia. rewrite Nat2Z.id.
    rewrite !take_ge; [done | lia | lia].
Qed.

Lemma slice0_neg l e :
  (e < 0)%Z → slice0 l e = take (length l - Z.to_nat (- e)) l.
Proof.
  intros He. unfold slice0. rewrite decide_True by lia. f_equal. lia.
Qed.

Lemma length_slice0 l e :
  (0 ≤ e)%Z → length (slice0 l e) = Z.to_nat e `min` length l.
Proof. intros He. rewrite slice0_nonneg by done. apply length_take. Qed.

Lemma slice0_prefix l e : slice0 l e `prefix_of` l.
Proof. unfold slice0. apply prefix_take. Qed.

Lemma slice0_all l e : (Z.of_nat (length l) ≤ e)%Z → slice0 l e = l.
Proof. intros He. rewrite slice0_nonneg by lia. apply take_ge. lia. Qed.

End slice_facts.

(** ** Facts about strings and the printing of numbers *)

Lemma length_string_rep c n : String.length (string_rep c n) = n.
Proof. induction n as [|n IH]; [done|]. cbn. by rewrite IH. Qed.

Lemma length_string_app (s t : string) :
  String.length (s +:+ t) = String.length s + String.length t.
Proof. induction s as [|c s IH]; [done|]. simpl. f_equal. exact IH. Qed.

Lemma length_padStart0 n s :
  String.length (padStart0 n s) = n `max` String.length s.
Proof. unfold padStart0. rewrite length_string_app, length_string_rep. lia. Qed.

Lemma padStart0_ge n s : n ≤ String.length s → padStart0 n s = s.
Proof. intros H. unfold padStart0. by replace (n - String.length s) with 0 by lia. Qed.

Lemma pretty_N_go_length_ge x s :
  String.length s ≤ String.length (pretty_N_go x s).
Proof.
  revert s. induction (N.lt_wf_0 x) as [x _ IH]; intros s.
  destruct (decide (x = 0)%N) as [->|Hx]; [by rewrite pretty_N_go_0|].
  rewrite pretty_N_go_step by lia.
  etrans; [|apply IH; apply N.div_lt; lia]. simpl. lia.
Qed.

Lemma pretty_N_go_digit x s :
  (0 < x < 10)%N → pretty_N_go x s = String (pretty_N_char x) s.
Proof.
  intros Hx. rewrite pretty_N_go_step by lia.
  rewrite N.div_small, N.mod_small by lia. apply pretty_N_go_0.
Qed.

Lemma pretty_pos_unfold (p : positive) : pretty (Z.pos p) = pretty_N_go (N.pos p) "".
Proof.
  unfold pretty, pretty_Z, pretty, pretty_positive, pretty, pretty_N.
  by rewrite decide_False.
Qed.

Lemma pretty_neg_unfold (p : positive) :
  pretty (Z.neg p) = String "-" (pretty_N_go (N.pos p) "").
Proof.
  rewrite <-pretty_pos_unfold. reflexivity.
Qed.

(** A digit prints as one character. *)
Lemma pretty_Z_digit (z : Z) :
  (0 ≤ z < 10)%Z → pretty z = String (pretty_N_char (Z.to_N z)) "".
Proof.
  intros Hz. destruct z as [|p|p]; [done| |lia].
  rewrite pretty_pos_unfold. apply pretty_N_go_digit. lia.
Qed.

(** A number of two digits prints as two characters. *)
Lemma pretty_Z_two_digits (z : Z) :
  (10 ≤ z < 100)%Z → String.length (pretty z) = 2.
Proof.
  intros Hz. destruct z as [|p|p]; [lia| |lia].
  rewrite pretty_pos_unfold, pretty_N_go_step by lia.
  rewrite pretty_N_go_digit; [done|].
  split; [apply N.div_str_pos; lia | apply N.Div0.div_lt_upper_bound; lia].
Qed.

Lemma pretty_Z_length_ge2 (z : Z) :
  (10 ≤ z ∨ z < 0)%Z → 2 ≤ String.length (pretty z).
Proof.
  intros Hz. destruct z as [|p|p]; [lia| |].
  - rewrite pretty_pos_unfold, pretty_N_go_step by lia.
    rewrite pretty_N_go_step by (apply N.div_str_pos; lia).
    etrans; [|apply pretty_N_go_length_ge]. simpl. lia.
  - rewrite pretty_neg_unfold, pretty_N_go_step by lia.
    change (2 ≤ S (String.length (pretty_N_go (N.pos p `div` 10)
      (String (pretty_N_char (N.pos p `mod` 10)) "")))).
    pose proof (pretty_N_go_length_ge (N.pos p `div` 10)
      (String (pretty_N_char (N.pos p `mod` 10)) "")) as H.
    simpl in H. lia.
Qed.

Lemma pretty_Z_length_pos (z : Z) : 1 ≤ String.length (pretty z).
Proof.
  destruct (decide (0 ≤ z < 10)%Z) as [Hz|Hz].
  - by rewrite pretty_Z_digit.
  - etrans; [|apply pretty_Z_length_ge2; lia]. lia.
Qed.

(** [padZero(2)] on each range: a digit gets one zero in front, anything
    else (two digits or more, a negative number, [NaN]) is left as it is. *)
Lemma padZero_digit (z : Z) :
  (0 ≤ z < 10)%Z → padZero (Int z) 2 = String "0" (pretty z).
Proof. intros Hz. unfold padZero, padStart0. simpl. by rewrite pretty_Z_digit. Qed.

Lemma padZero_wide (z : Z) : (10 ≤ z ∨ z < 0)%Z → padZero (Int z) 2 = pretty z.
Proof. intros Hz. apply padStart0_ge. by apply pretty_Z_length_ge2. Qed.

Lemma padZero_NaN n : n ≤ 3 → padZero NaN n = "NaN".
Proof. intros Hn. by apply padStart0_ge. Qed.

Lemma length_padZero_2 (z : Z) :
  (0 ≤ z < 100)%Z → String.length (padZero (Int z) 2) = 2.
Proof.
  intros Hz. destruct (decide (z < 10)%Z).
  - rewrite padZero_digit by lia. by rewrite pretty_Z_digit by lia.
  - rewrite padZero_wide by lia. apply pretty_Z_two_digits. lia.
Qed.

Lemma length_padZero_ge (x : jsnum) n : n ≤ String.length (padZero x n).
Proof. unfold padZero. rewrite length_padStart0. lia. Qed.
