(* ===== verification/Host.v ===== *)
(** * The plugin's surroundings

    The data the plugin reads and writes and the collaborators it calls:
    the shape of a save payload, the summary record of the index, the
    console messages, the interface [Host] of the engine, and the mutable
    state [World] of a pass together with the effects the source performs
    on it. *)

From stdpp Require Import strings pretty gmap.
From S2P Require Import Prelude JsBase.

(** ** Save payloads *)

(** The payload of a save file is read without a schema. The records below
    are the part of it the source touches; a property that may be missing
    is an [option]. *)

(** An actor, through the four accessors the source calls on it. *)
Record Game_Actor : Type := mkActor {
  characterName : string;
  characterIndex : Z;
  faceName : string;
  faceIndex : Z;
}.

(** The party: [maxBattleMembers()] and the roster [_actors] of actor ids. *)
Record Game_Party : Type := mkParty {
  maxBattleMembers : Z;
  _actors : list Z;
}.

(** The actor table; [actor(id)] is [null] for an id the table lacks. *)
Record Game_Actors : Type := mkActors {
  _data : gmap Z Game_Actor;
}.

Definition actor (gameActors : Game_Actors) (id : Z) : option Game_Actor :=
  _data gameActors !! id.

Record Game_System : Type := mkSystem {
  _framesOnSave : option Z;
}.

Record SaveContents : Type := mkContents {
  party : option Game_Party;
  actors : option Game_Actors;
  system : option Game_System;
}.

(** ** Index records *)

(** One entry of the index: the object literal of [makeMissingSaveInfo]. *)
Record SaveInfo : Type := mkInfo {
  title : string;
  characters : list (string * Z);
  faces : list (string * Z);
  playtime : string;
  timestamp : Z;
}.

#[export] Instance SaveInfo_eq_dec : EqDecision SaveInfo.
Proof. solve_decision. Defined.

#[export] Instance SaveInfo_inhabited : Inhabited SaveInfo :=
  populate (mkInfo "" [] [] "" 0).

Definition set_characters (v : list (string * Z)) (info : SaveInfo) : SaveInfo :=
  mkInfo (title info) v (faces info) (playtime info) (timestamp info).

Definition set_faces (v : list (string * Z)) (info : SaveInfo) : SaveInfo :=
  mkInfo (title info) (characters info) v (playtime info) (timestamp info).

Definition set_playtime (v : string) (info : SaveInfo) : SaveInfo :=
  mkInfo (title info) (characters info) (faces info) v (timestamp info).

(** ** Console messages *)

Inductive LogLevel : Type := LevelLog | LevelWarn | LevelError.

Inductive LogEntry : Type :=
| GlobalInfoLoaded
| GlobalInfoUnreadable
| UpdateFailed (err : JsError)
| Restoring (savefileId : nat)
| Restored (savefileId : nat)
| RestoreFailed (savefileId : nat) (err : JsError)
| CanStillLoad (savefileId : nat).

#[export] Instance LogEntry_eq_dec : EqDecision LogEntry.
Proof. solve_decision. Defined.

(** The [console] method each message goes through. *)
Definition log_level (e : LogEntry) : LogLevel :=
  match e with
  | GlobalInfoLoaded | Restored _ => LevelLog
  | GlobalInfoUnreadable | Restoring _ | CanStillLoad _ => LevelWarn
  | UpdateFailed _ | RestoreFailed _ _ => LevelError
  end.

(** The text of each message (the error object, printed by the console
    after the text, is left out). *)
Definition log_text (e : LogEntry) : string :=
  match e with
  | GlobalInfoLoaded => "Global info loaded."
  | GlobalInfoUnreadable => "Could not load global info. Using empty list"
  | UpdateFailed _ => "Failed to update global info"
  | Restoring i => "Restoring global save info for File " +:+ pretty i +:+ "..."
  | Restored i => "File " +:+ pretty i +:+ "'s info has been restored successfully."
  | RestoreFailed i _ => "Failed to restore some of File " +:+ pretty i +:+ "'s save info:"
  | CanStillLoad i => "You can still try loading File " +:+ pretty i +:+ "."
  end.

(** The slot a message is about, if any. *)
Definition log_slot (e : LogEntry) : option nat :=
  match e with
  | Restoring i | Restored i | RestoreFailed i _ | CanStillLoad i => Some i
  | GlobalInfoLoaded | GlobalInfoUnreadable | UpdateFailed _ => None
  end.

(** ** The engine *)

(** What the plugin calls and does not define. [loadObject] gives the
    outcome of the promise [StorageManager.loadObject(name)] for a save
    file; [dateNow k] is the [k]-th reading of [Date.now()] during the
    pass. *)
Class Host : Type := {
  gameTitle : string;
  maxSavefiles : Z;
  savefileExists : nat → bool;
  makeSavename : nat → string;
  loadObject : string → completion JsError SaveContents;
  dateNow : nat → Z;
}.

(** ** The state of a pass *)

Record World : Type := mkWorld {
  (** console output, oldest first *)
  console : list LogEntry;
  (** how many times [Date.now()] was read *)
  clockReads : nat;
  (** the array that [pendingGlobalInfo] and the parameter [globalInfo]
      of [updateGlobalInfo] both refer to *)
  globalInfo : jsarray SaveInfo;
  (** [DataManager._globalInfo]; [None] is [null] *)
  _globalInfo : option (jsarray SaveInfo);
  (** the outcome [StorageManager.loadObject("global")] would have *)
  storedGlobal : completion JsError (jsarray SaveInfo);
}.

Abbreviation M := (prog World JsError).

Definition set_console (f : list LogEntry → list LogEntry) (w : World) : World :=
  mkWorld (f (console w)) (clockReads w) (globalInfo w) (_globalInfo w) (storedGlobal w).

Definition set_clockReads (f : nat → nat) (w : World) : World :=
  mkWorld (console w) (f (clockReads w)) (globalInfo w) (_globalInfo w) (storedGlobal w).

Definition set_globalInfo (f : jsarray SaveInfo → jsarray SaveInfo) (w : World) : World :=
  mkWorld (console w) (clockReads w) (f (globalInfo w)) (_globalInfo w) (storedGlobal w).

Definition set__globalInfo (v : option (jsarray SaveInfo)) (w : World) : World :=
  mkWorld (console w) (clockReads w) (globalInfo w) v (storedGlobal w).

Definition set_storedGlobal (v : completion JsError (jsarray SaveInfo)) (w : World) : World :=
  mkWorld (console w) (clockReads w) (globalInfo w) (_globalInfo w) v.

(** [console.log], [console.warn] and [console.error] with the message
    [e]; the level is [log_level e]. *)
Definition console_emit (e : LogEntry) : M unit :=
  modify (set_console (λ out, out ++ [e])).

(** [Date.now()] *)
Definition date_now `{Host} : M Z :=
  λ w, (set_clockReads S w, Done (dateNow (clockReads w))).

(** [JSON.parse(JSON.stringify(a))] on an index array: a hole is written
    as [null]. *)
Definition json_array (a : jsarray SaveInfo) : jsarray SaveInfo :=
  (λ e, match e with Hole => Null | _ => e end) <$> a.

(** [DataManager.saveGlobalInfo()] of the engine:
    [StorageManager.saveObject("global", this._globalInfo)]. *)
Definition saveGlobalInfo : M unit :=
  modify (λ w, match _globalInfo w with
               | Some a => set_storedGlobal (Done (json_array a)) w
               | None => w
               end).

(** ** What a collaborator may do to the world *)

(** A step that leaves the index, the DataManager and the storage alone,
    and only adds to the console and reads the clock. *)
Record frame (w w' : World) : Prop := mkFrame {
  frame_globalInfo : globalInfo w' = globalInfo w;
  frame__globalInfo : _globalInfo w' = _globalInfo w;
  frame_storedGlobal : storedGlobal w' = storedGlobal w;
  frame_console : console w `prefix_of` console w';
  frame_clockReads : clockReads w ≤ clockReads w';
}.

(** What [updateGlobalInfo] needs of the helper that synthesises a record
    for a slot: it respects [frame], and whether it returns or throws is
    decided by the slot alone. *)
Class Synthesizer `{Host} : Type := {
  synthesize : nat → M SaveInfo;
  synthesizable : nat → bool;
  synthesize_frame i w : frame w (exec (synthesize i) w);
  synthesize_done i w : is_done (eval (synthesize i) w) = synthesizable i;
}.

(** ** A sample game *)

(** Five slots, save files in slots 1, 2 and 4. File 1 has the roster
    [[2; 1; 3]] and 5400 frames, file 2 a roster of five for a party of
    four, file 4 lacks its system record. *)
Definition sampleActors : Game_Actors :=
  mkActors (list_to_map
    [(1%Z, mkActor "Actor1" 0 "Face1" 0);
     (2%Z, mkActor "Actor1" 1 "Face1" 1);
     (3%Z, mkActor "Actor2" 2 "Face2" 2);
     (4%Z, mkActor "Actor2" 3 "Face2" 3);
     (5%Z, mkActor "Actor3" 4 "Face3" 4)]).

Definition sampleSave (roster : list Z) (frames : Z) : SaveContents :=
  mkContents (Some (mkParty 4 roster)) (Some sampleActors)
    (Some (mkSystem (Some frames))).

Definition sampleLoad (name : string) : completion JsError SaveContents :=
  if decide (name = "file1") then Done (sampleSave [2; 1; 3]%Z 5400)
  else if decide (name = "file2") then Done (sampleSave [1; 2; 3; 4; 5]%Z 432000)
  else if decide (name = "file4") then
    Done (mkContents (Some (mkParty 4 [1%Z])) (Some sampleActors) None)
  else Throw (LoadError name).

Definition sampleHostWith (load : string → completion JsError SaveContents) : Host := {|
  gameTitle := "Sample Quest";
  maxSavefiles := 4;
  savefileExists := λ i, bool_decide (i ∈ [1; 2; 4]);
  makeSavename := λ i, "file" +:+ pretty i;
  loadObject := load;
  dateNow := λ k, (1000 + Z.of_nat k)%Z;
|}.

Definition sampleHost : Host := sampleHostWith sampleLoad.

(** The same game with the payload of file 2 unreadable. *)
Definition faultyHost : Host :=
  sampleHostWith (λ name,
    if decide (name = "file2") then Throw (LoadError name) else sampleLoad name).

(** The same game with an actor in the roster of file 1 that the actor
    table does not know. *)
Definition strangerHost : Host :=
  sampleHostWith (λ name,
    if decide (name = "file1") then Done (sampleSave [2; 9]%Z 5400)
    else sampleLoad name).

(** An index that is out of date for the sample game: a record in slot 0,
    which has no save file, [null] in slot 1, a record in slot 2, and
    nothing for slots 3 and 4. *)
Definition staleInfo : SaveInfo :=
  mkInfo "Sample Quest" [("Actor1", 0%Z)] [("Face1", 0%Z)] "00:10:00" 500.

Definition staleIndex : jsarray SaveInfo := [Obj staleInfo; Null; Obj staleInfo].

(** A fresh world whose index is [a], nothing logged yet. *)
Definition world_of (a : jsarray SaveInfo) : World :=
  mkWorld [] 0 a None (Done a).

(** ** Facts about the effects *)

Section effect_facts.
Context `{Host}.
Implicit Types (w : World) (e : LogEntry).

Lemma console_emit_run e w :
  console_emit e w = (set_console (λ out, out ++ [e]) w, Done tt).
Proof. reflexivity. Qed.

Lemma date_now_run w :
  date_now w = (set_clockReads S w, Done (dateNow (clockReads w))).
Proof. reflexivity. Qed.

#[export] Instance frame_preorder : PreOrder frame.
Proof.
  split; [intros w; by split|].
  intros w1 w2 w3 [] []. split; [congruence.. | by etrans | lia].
Qed.

Lemma frame_console_emit e w : frame w (exec (console_emit e) w).
Proof. split; try done. by apply prefix_app_r. Qed.

Lemma frame_date_now w : frame w (exec date_now w).
Proof. split; try done. simpl. lia. Qed.

Lemma json_array_length a : length (json_array a) = length a.
Proof. apply length_fmap. Qed.

Lemma json_array_idemp a : json_array (json_array a) = json_array a.
Proof.
  unfold json_array. rewrite <-list_fmap_compose. apply list_fmap_ext.
  by intros i [| |x] _.
Qed.

(** Serialisation keeps what every slot reads as, up to [undefined]
    becoming [null]: truthiness and the record are the same. *)
Lemma json_array_get a i : elem_obj (arr_get (json_array a) i) = elem_obj (arr_get a i).
Proof.
  unfold arr_get, json_array. rewrite list_lookup_fmap.
  by destruct (a !! i) as [[| |x]|].
Qed.

End effect_facts.
