(* ===== verification/Extractor.v ===== *)
(** * SummaryExtractor

    [McKathlin.SaveSync.extractPartyMembers], [extractCharacters],
    [extractFaces] and [extractPlaytime]: pure functions from a save
    payload to the fields of an index record. A property read from
    [undefined] or [null] throws a [TypeError], which the model returns as
    a value. *)

From stdpp Require Import strings pretty gmap.
From S2P Require Import Prelude JsBase Host.

(** ** The functions *)

(** The active party: the roster cut to [maxBattleMembers()] ids, each
    resolved through the actor table. An unknown id resolves to [null]
    ([None]); the table is only dereferenced when there is an id to
    resolve. *)
Definition extractPartyMembers (saveContents : SaveContents) :
  completion JsError (list (option Game_Actor)) :=
  let? party := field "maxBattleMembers" (party saveContents) in
  let maxActive := maxBattleMembers party in
  let memberIds := slice0 (_actors party) maxActive in
  let gameActors := actors saveContents in
  map_completion
    (λ id, let? table := field "actor" gameActors in Done (actor table id))
    memberIds.

Definition extractCharacters (saveContents : SaveContents) :
  completion JsError (list (string * Z)) :=
  let? members := extractPartyMembers saveContents in
  map_completion
    (λ actor, let? a := field "characterName" actor in
              Done (characterName a, characterIndex a))
    members.

Definition extractFaces (saveContents : SaveContents) :
  completion JsError (list (string * Z)) :=
  let? members := extractPartyMembers saveContents in
  map_completion
    (λ actor, let? a := field "faceName" actor in Done (faceName a, faceIndex a))
    members.

(** The template literal of [extractPlaytime]. *)
Definition format_playtime (hour min sec : jsnum) : string :=
  padZero hour 2 +:+ ":" +:+ padZero min 2 +:+ ":" +:+ padZero sec 2.

Definition extractPlaytime (saveContents : SaveContents) :
  completion JsError string :=
  let? system := field "_framesOnSave" (system saveContents) in
  let frames := to_number (_framesOnSave system) in
  let totalSeconds := floor_div frames 60 in
  let hour := floor_div totalSeconds (60 * 60) in
  let min := js_rem (floor_div totalSeconds 60) 60 in
  let sec := js_rem totalSeconds 60 in
  Done (format_playtime hour min sec).

(** ** Reference definitions *)

(** The sprite pairs of a resolved party. *)
Definition character_of (a : Game_Actor) : string * Z :=
  (characterName a, characterIndex a).

Definition face_of (a : Game_Actor) : string * Z := (faceName a, faceIndex a).

(** The ids of the active party of a payload that has a party. *)
Definition active_ids (p : Game_Party) : list Z :=
  slice0 (_actors p) (maxBattleMembers p).

(** ** Party members *)

Section members.
Implicit Types (c : SaveContents) (p : Game_Party) (t : Game_Actors).

Lemma extractPartyMembers_no_party c :
  party c = None → extractPartyMembers c = Throw (TypeError "maxBattleMembers").
Proof. intros Hp. unfold extractPartyMembers. by rewrite Hp. Qed.

Lemma extractPartyMembers_ok c p t :
  party c = Some p → actors c = Some t →
  extractPartyMembers c = Done (actor t <$> active_ids p).
Proof.
  intros Hp Ht. unfold extractPartyMembers. rewrite Hp, Ht. simpl.
  apply (map_completion_total (actor t)).
Qed.

Lemma extractPartyMembers_no_table c p :
  party c = Some p → actors c = None →
  extractPartyMembers c =
    if decide (active_ids p = []) then Done [] else Throw (TypeError "actor").
Proof.
  intros Hp Ht. unfold extractPartyMembers. rewrite Hp, Ht. simpl.
  fold (active_ids p). by destruct (active_ids p).
Qed.

Lemma extractPartyMembers_length c ms :
  extractPartyMembers c = Done ms →
  ∃ p, party c = Some p ∧ length ms = length (active_ids p).
Proof.
  unfold extractPartyMembers. destruct (party c) as [p|]; [|done]. simpl.
  intros Hms%map_completion_length. by exists p.
Qed.

(** Mapping an accessor over the members succeeds exactly when every
    member resolved, and then gives the accessor's values in order. *)
Lemma map_members_resolved {B} (name : string) (f : Game_Actor → B)
    (ms : list (option Game_Actor)) (as_ : list Game_Actor) :
  mapM id ms = Some as_ →
  map_completion (λ actor, let? a := field name actor in Done (f a)) ms
  = Done (f <$> as_).
Proof.
  rewrite mapM_Some. induction 1 as [|? a ms as_ Ha _ IH]; [done|].
  simpl in Ha. subst. simpl. by rewrite IH.
Qed.

Lemma map_members_unresolved {B} (name : string) (f : Game_Actor → B)
    (ms : list (option Game_Actor)) :
  mapM id ms = None →
  map_completion (λ actor, let? a := field name actor in Done (f a)) ms
  = Throw (TypeError name).
Proof.
  rewrite mapM_None. induction 1 as [[a|] ms Ha|[a|] ms _ IH]; simpl in *;
    [done | done | by rewrite IH | done].
Qed.

End members.

(** ** Portraits *)

Section portraits.
Implicit Types (c : SaveContents) (p : Game_Party) (t : Game_Actors).

Lemma map_members_done {B} (name : string) (f : Game_Actor → B)
    (ms : list (option Game_Actor)) (xs : list B) :
  map_completion (λ actor, let? a := field name actor in Done (f a)) ms = Done xs
  ↔ ∃ as_, mapM id ms = Some as_ ∧ xs = f <$> as_.
Proof.
  destruct (mapM id ms) as [as_|] eqn:Hm.
  - rewrite (map_members_resolved _ _ _ _ Hm). naive_solver.
  - rewrite (map_members_unresolved _ _ _ Hm). naive_solver.
Qed.

Lemma mapM_id_fmap {A B} (g : A → option B) (l : list A) :
  mapM id (g <$> l) = mapM g l.
Proof.
  induction l as [|x l IH]; [done|]. csimpl.
  destruct (g x); csimpl; [|done]. f_equal. exact IH.
Qed.

Lemma active_ids_length p :
  (0 ≤ maxBattleMembers p)%Z →
  length (active_ids p) = Z.to_nat (maxBattleMembers p) `min` length (_actors p).
Proof. apply length_slice0. Qed.

Lemma active_ids_take p :
  (0 ≤ maxBattleMembers p)%Z →
  active_ids p = take (Z.to_nat (maxBattleMembers p)) (_actors p).
Proof. apply slice0_nonneg. Qed.

(** C9: when every id of the active party is in the actor table, the
    characters and the faces are the sprite pairs of those actors, in the
    order of the roster. *)
Theorem extract_portraits_resolved c p t as_ :
  party c = Some p → actors c = Some t →
  mapM (actor t) (active_ids p) = Some as_ →
  extractCharacters c = Done (character_of <$> as_) ∧
  extractFaces c = Done (face_of <$> as_).
Proof.
  intros Hp Ht Hm. unfold extractCharacters, extractFaces.
  rewrite (extractPartyMembers_ok _ _ _ Hp Ht). simpl.
  rewrite <-mapM_id_fmap in Hm.
  by rewrite !(map_members_resolved _ _ _ _ Hm).
Qed.

(** An id of the active party that the actor table lacks makes both
    extractions throw, each on the first accessor it calls on [null]. *)
Theorem extract_portraits_unresolved c p t :
  party c = Some p → actors c = Some t →
  mapM (actor t) (active_ids p) = None →
  extractCharacters c = Throw (TypeError "characterName") ∧
  extractFaces c = Throw (TypeError "faceName").
Proof.
  intros Hp Ht Hm. unfold extractCharacters, extractFaces.
  rewrite (extractPartyMembers_ok _ _ _ Hp Ht). simpl.
  rewrite <-mapM_id_fmap in Hm.
  by rewrite !(map_members_unresolved _ _ _ Hm).
Qed.

(** The characters, when they are extracted, come from a resolved party. *)
Lemma extractCharacters_done c cs :
  extractCharacters c = Done cs ↔
  ∃ ms as_, extractPartyMembers c = Done ms ∧ mapM id ms = Some as_ ∧
            cs = character_of <$> as_.
Proof.
  unfold extractCharacters. rewrite cbind_done.
  setoid_rewrite map_members_done. naive_solver.
Qed.

Lemma extractFaces_done c fs :
  extractFaces c = Done fs ↔
  ∃ ms as_, extractPartyMembers c = Done ms ∧ mapM id ms = Some as_ ∧
            fs = face_of <$> as_.
Proof.
  unfold extractFaces. rewrite cbind_done.
  setoid_rewrite map_members_done. naive_solver.
Qed.

(** Extracted characters come with extracted faces, one for one. *)
Lemma extractCharacters_faces c cs :
  extractCharacters c = Done cs →
  ∃ fs, extractFaces c = Done fs ∧ length fs = length cs.
Proof.
  intros (ms & as_ & Hms & Has & ->)%extractCharacters_done.
  exists (face_of <$> as_). rewrite !length_fmap. split; [|done].
  apply extractFaces_done. eauto.
Qed.

(** The invariant of an index record. Extracted characters come with
    extracted faces of the same length, which is the length of the roster
    cut to the size of the active party. *)
Theorem portraits_length c cs :
  extractCharacters c = Done cs →
  ∃ p fs, party c = Some p ∧ extractFaces c = Done fs ∧
          length fs = length cs ∧
          ((0 ≤ maxBattleMembers p)%Z →
           length cs = Z.to_nat (maxBattleMembers p) `min` length (_actors p)).
Proof.
  intros (ms & as_ & Hms & Has & ->)%extractCharacters_done.
  destruct (extractPartyMembers_length _ _ Hms) as (p & Hp & Hlen).
  exists p, (face_of <$> as_). split; [done|]. split.
  { apply extractFaces_done. eauto. }
  rewrite !length_fmap. split; [done|]. intros Hmax.
  apply length_mapM in Has. rewrite <-Has, Hlen. by apply active_ids_length.
Qed.

(** The two portrait extractions succeed together and fail together. *)
Theorem portraits_succeed_together c :
  is_done (extractCharacters c) = is_done (extractFaces c).
Proof.
  unfold extractCharacters, extractFaces.
  destruct (extractPartyMembers c) as [ms|e]; [|done]. simpl.
  destruct (mapM id ms) as [as_|] eqn:Hm.
  - by rewrite !(map_members_resolved _ _ _ _ Hm).
  - by rewrite !(map_members_unresolved _ _ _ Hm).
Qed.

(** Order and truncation. The [i]-th character is the sprite pair of
    the actor whose id is [i]-th in the roster, for [i] below the size of
    the active party, and there is none beyond. *)
Theorem characters_pointwise c p t cs i :
  party c = Some p → actors c = Some t → (0 ≤ maxBattleMembers p)%Z →
  extractCharacters c = Done cs →
  cs !! i =
    if decide (i < Z.to_nat (maxBattleMembers p))
    then character_of <$> (_actors p !! i ≫= actor t)
    else None.
Proof.
  intros Hp Ht Hmax (ms & as_ & Hms & Has & ->)%extractCharacters_done.
  rewrite (extractPartyMembers_ok _ _ _ Hp Ht) in Hms. injection Hms as <-.
  rewrite mapM_id_fmap, mapM_Some in Has.
  rewrite list_lookup_fmap. rewrite active_ids_take in Has by done.
  case_decide as Hi.
  - rewrite <-(lookup_take_lt (_actors p) _ i) by done.
    destruct (take _ (_actors p) !! i) as [x|] eqn:Hx; simpl.
    + destruct (Forall2_lookup_l _ _ _ _ _ Has Hx) as (a & -> & ->). done.
    + apply lookup_ge_None in Hx. apply Forall2_length in Has.
      rewrite lookup_ge_None_2; [done | lia].
  - apply Forall2_length in Has. rewrite length_take in Has.
    rewrite lookup_ge_None_2; [done | lia].
Qed.

End portraits.

(** ** Playtime *)

Section playtime.
Implicit Types (c : SaveContents) (sys : Game_System) (f : Z).

Lemma extractPlaytime_frames c sys :
  system c = Some sys →
  extractPlaytime c =
    let totalSeconds := floor_div (to_number (_framesOnSave sys)) 60 in
    Done (format_playtime (floor_div totalSeconds (60 * 60))
            (js_rem (floor_div totalSeconds 60) 60) (js_rem totalSeconds 60)).
Proof. intros Hsys. unfold extractPlaytime. by rewrite Hsys. Qed.

(** Hours, minutes and seconds of a number of whole seconds. *)
Lemma hms_decomposition (ts : Z) :
  (0 ≤ ts)%Z →
  let h := (ts `div` (60 * 60))%Z in
  let m := (Z.rem (ts `div` 60) 60) in
  let s := (ts `rem` 60)%Z in
  (ts = h * 3600 + m * 60 + s ∧ 0 ≤ h ∧ 0 ≤ m < 60 ∧ 0 ≤ s < 60)%Z.
Proof.
  intros Hts. cbv zeta.
  rewrite !Z.rem_mod_nonneg by (try apply Z.div_pos; lia).
  change (60 * 60)%Z with 3600%Z.
  pose proof (Z.div_mod ts 60). pose proof (Z.div_mod (ts `div` 60) 60).
  pose proof (Z.mod_pos_bound ts 60). pose proof (Z.mod_pos_bound (ts `div` 60) 60).
  assert (ts `div` 3600 = (ts `div` 60) `div` 60)%Z as ->
    by (rewrite Z.div_div by lia; done).
  pose proof (Z.div_pos (ts `div` 60) 60). pose proof (Z.div_pos ts 60). lia.
Qed.

(** C7: for a frame counter that is not negative the playtime is
    [HH:MM:SS], where the three numbers are the hours, minutes below 60 and
    seconds below 60 that add up to [floor(frames / 60)] seconds, each
    printed with at least two digits. *)
Theorem extractPlaytime_spec c sys f :
  system c = Some sys → _framesOnSave sys = Some f → (0 ≤ f)%Z →
  ∃ h m s : Z,
    (f `div` 60 = h * 3600 + m * 60 + s ∧ 0 ≤ h ∧ 0 ≤ m < 60 ∧ 0 ≤ s < 60)%Z ∧
    extractPlaytime c =
      Done (padZero (Int h) 2 +:+ ":" +:+ padZero (Int m) 2 +:+ ":" +:+
            padZero (Int s) 2).
Proof.
  intros Hsys Hf Hpos. rewrite (extractPlaytime_frames _ _ Hsys), Hf. simpl.
  eexists _, _, _. split; [|reflexivity].
  apply hms_decomposition. apply Z.div_pos; lia.
Qed.

(** Below a hundred hours the playtime has exactly eight characters. *)
Theorem extractPlaytime_length c sys f :
  system c = Some sys → _framesOnSave sys = Some f →
  (0 ≤ f < 100 * 60 * 60 * 60)%Z →
  ∃ str, extractPlaytime c = Done str ∧ String.length str = 8.
Proof.
  intros Hsys Hf Hrange. rewrite (extractPlaytime_frames _ _ Hsys), Hf. simpl.
  eexists. split; [reflexivity|].
  assert (0 ≤ f `div` 60 < 360000)%Z as Hts
    by (split; [apply Z.div_pos | apply Z.div_lt_upper_bound]; lia).
  destruct (hms_decomposition (f `div` 60)) as (Hsum & Hh & Hm & Hs); [lia|].
  unfold format_playtime. rewrite !length_string_app, !length_padZero_2; [done|..]; lia.
Qed.

(** C40: A payload whose system record lacks the frame counter does not make
    the extraction throw: the arithmetic runs on [undefined] and the
    playtime reads ["NaN:NaN:NaN"]. *)
Theorem extractPlaytime_missing_counter c sys :
  system c = Some sys → _framesOnSave sys = None →
  extractPlaytime c = Done "NaN:NaN:NaN".
Proof. intros Hsys Hf. by rewrite (extractPlaytime_frames _ _ Hsys), Hf. Qed.

(** The extraction throws exactly when the payload has no system
    record, with a [TypeError] on the counter. *)
Theorem extractPlaytime_throws c e :
  extractPlaytime c = Throw e ↔ system c = None ∧ e = TypeError "_framesOnSave".
Proof.
  unfold extractPlaytime. destruct (system c) as [sys|]; simpl; naive_solver.
Qed.

End playtime.

(** ** The examples of the specification *)

Example playtime_90_seconds :
  extractPlaytime (sampleSave [] 5400) = Done "00:01:30".
Proof. vm_compute. reflexivity. Qed.

Example playtime_zero : extractPlaytime (sampleSave [] 0) = Done "00:00:00".
Proof. vm_compute. reflexivity. Qed.

Example playtime_two_hours :
  extractPlaytime (sampleSave [] (3600 * 60 * 2)) = Done "02:00:00".
Proof. vm_compute. reflexivity. Qed.

Example playtime_long : extractPlaytime (sampleSave [] 26000000) = Done "120:22:13".
Proof. vm_compute. reflexivity. Qed.

Example playtime_negative : extractPlaytime (sampleSave [] (-60)) = Done "-1:-1:-1".
Proof. vm_compute. reflexivity. Qed.

Example characters_roster_order :
  extractCharacters (sampleSave [2; 1; 3]%Z 0)
  = Done [("Actor1", 1%Z); ("Actor1", 0%Z); ("Actor2", 2%Z)].
Proof. vm_compute. reflexivity. Qed.

Example faces_truncated :
  extractFaces (sampleSave [1; 2; 3; 4; 5]%Z 0)
  = Done [("Face1", 0%Z); ("Face1", 1%Z); ("Face2", 2%Z); ("Face2", 3%Z)].
Proof. vm_compute. reflexivity. Qed.

(** ** The theorems on the sample payloads *)

Lemma extractPlaytime_spec_witness :
  ∃ h m s : Z,
    (439500 `div` 60 = h * 3600 + m * 60 + s ∧ 0 ≤ h ∧ 0 ≤ m < 60 ∧ 0 ≤ s < 60)%Z ∧
    extractPlaytime (sampleSave [] 439500) =
      Done (padZero (Int h) 2 +:+ ":" +:+ padZero (Int m) 2 +:+ ":" +:+
            padZero (Int s) 2).
Proof.
  apply (extractPlaytime_spec (sampleSave [] 439500) (mkSystem (Some 439500%Z))
           439500%Z); [reflexivity | reflexivity | lia].
Defined.

Lemma extractPlaytime_length_witness :
  ∃ str, extractPlaytime (sampleSave [] 432000) = Done str ∧ String.length str = 8.
Proof.
  apply (extractPlaytime_length (sampleSave [] 432000) (mkSystem (Some 432000%Z))
           432000%Z);
    [reflexivity | reflexivity | lia].
Defined.

Lemma extractPlaytime_missing_counter_witness :
  extractPlaytime (mkContents None None (Some (mkSystem None))) = Done "NaN:NaN:NaN".
Proof.
  apply (extractPlaytime_missing_counter _ (mkSystem None)); reflexivity.
Defined.

Lemma extract_portraits_resolved_witness :
  let as_ := [mkActor "Actor2" 2 "Face2" 2; mkActor "Actor1" 0 "Face1" 0;
              mkActor "Actor3" 4 "Face3" 4; mkActor "Actor1" 1 "Face1" 1] in
  extractCharacters (sampleSave [3; 1; 5; 2; 4]%Z 0) = Done (character_of <$> as_) ∧
  extractFaces (sampleSave [3; 1; 5; 2; 4]%Z 0) = Done (face_of <$> as_).
Proof.
  apply (extract_portraits_resolved (sampleSave [3; 1; 5; 2; 4]%Z 0)
           (mkParty 4 [3; 1; 5; 2; 4]%Z) sampleActors);
    [reflexivity | reflexivity | vm_compute; reflexivity].
Defined.

Lemma extract_portraits_unresolved_witness :
  extractCharacters (sampleSave [2; 9]%Z 0) = Throw (TypeError "characterName") ∧
  extractFaces (sampleSave [2; 9]%Z 0) = Throw (TypeError "faceName").
Proof.
  apply (extract_portraits_unresolved (sampleSave [2; 9]%Z 0)
           (mkParty 4 [2; 9]%Z) sampleActors);
    [reflexivity | reflexivity | vm_compute; reflexivity].
Defined.

Lemma portraits_length_witness :
  ∃ p fs, party (sampleSave [1; 2; 3; 4; 5]%Z 0) = Some p ∧
    extractFaces (sampleSave [1; 2; 3; 4; 5]%Z 0) = Done fs ∧
    length fs = 4 ∧
    ((0 ≤ maxBattleMembers p)%Z →
     4 = Z.to_nat (maxBattleMembers p) `min` length (_actors p)).
Proof.
  apply (portraits_length (sampleSave [1; 2; 3; 4; 5]%Z 0)
           [("Actor1", 0%Z); ("Actor1", 1%Z); ("Actor2", 2%Z); ("Actor2", 3%Z)]).
  vm_compute. reflexivity.
Defined.

Lemma characters_pointwise_witness :
  [("Actor1", 1%Z); ("Actor1", 0%Z); ("Actor2", 2%Z)] !! 1 =
    if decide (1 < Z.to_nat 4)
    then character_of <$> ([2; 1; 3]%Z !! 1 ≫= actor sampleActors)
    else None.
Proof.
  apply (characters_pointwise (sampleSave [2; 1; 3]%Z 0) (mkParty 4 [2; 1; 3]%Z)
           sampleActors);
    [reflexivity | reflexivity | simpl; lia | vm_compute; reflexivity].
Defined.
