(* ===== verification/Doubles.v ===== *)
(** * Numbers as the engine has them: binary64

    A JavaScript number is an IEEE 754 double. [JsBase] takes the numbers
    of [extractPlaytime] for integers and [Math.floor(x / 60)] for the
    integer quotient; this file says when that is right. A finite double
    is a rational; [rn] rounds a rational to the nearest double, ties to
    even, with 53 bits and the exponent range of binary64; the operator
    [/] is the rounding of the exact quotient. [extractPlaytime64] is
    the method on these numbers, division by division as the source has
    it, and the theorem is that it returns what [Extractor.extractPlaytime]
    returns for every frame counter a double can count, that is below
    [2 ^ 53] in magnitude. Above, the two part (Example
    [playtime_beyond_safe_integers]).

    Equality of rationals is [Qeq]; the functions of this file respect it
    ([Proper] instances), so that proofs rewrite with it. *)

From Stdlib Require Import ZArith QArith Qabs Qround Qpower Lia Lqa.
From stdpp Require Import strings.
From S2P Require Import Prelude JsBase Host Extractor.

Local Open Scope Q_scope.
Local Coercion inject_Z : Z >-> Q.

(** ** Rounding to binary64 *)

(** The exponent of the leading bit: [2 ^ ilog2 q <= |q| < 2 ^ (ilog2 q + 1)]
    for [q] other than zero. *)
Definition ilog2 (q : Q) : Z :=
  let k := (Z.log2 (Z.abs (Qnum q)) - Z.log2 (Z.pos (Qden q)))%Z in
  if Qle_bool (2 ^ k) (Qabs q) then k else (k - 1)%Z.

(** The integer nearest to [s], the even one of two that are as near. *)
Definition rne (s : Q) : Z :=
  let f := Qfloor s in
  match Qcompare (s - f) (1 # 2) with
  | Lt => f
  | Gt => (f + 1)%Z
  | Eq => if Z.even f then f else (f + 1)%Z
  end.

(** The exponent of the smallest subnormal double, [2 ^ -1074]. *)
Definition emin : Z := (-1074)%Z.

(** The exponent of the last place of the double nearest to [q]: 52 bits
    follow the leading one, and no place is below [2 ^ emin]. *)
Definition ulp_exp (q : Q) : Z := Z.max (ilog2 q - 52) emin.

(** Rounding to nearest, ties to even. A result of [2 ^ 1024] or more
    stands for an infinity; no operation of the plugin comes near it. *)
Definition rn (q : Q) : Q :=
  if Qeq_bool q 0 then 0 else rne (q / 2 ^ ulp_exp q) * 2 ^ ulp_exp q.

(** The unit roundoff. *)
Definition u : Q := 2 ^ (-53).

(** ** Numbers of the program *)

(** A double: a finite value or [NaN]. Minus zero is zero here; the
    program cannot tell them apart, [String(-0)] being ["0"]. *)
Inductive float64 : Type :=
| Finite (q : Q)
| NotANumber.

(** The double a number of the save file is read as. *)
Definition of_number (x : jsnum) : float64 :=
  match x with Int z => Finite (rn z) | NaN => NotANumber end.

(** [x / k] for a positive integer constant [k]. *)
Definition fdiv (x : float64) (k : Z) : float64 :=
  match x with Finite q => Finite (rn (q / k)) | NotANumber => NotANumber end.

(** [Math.floor(x)]: an integer, or [NaN]. *)
Definition ffloor (x : float64) : jsnum :=
  match x with Finite q => Int (Qfloor q) | NotANumber => NaN end.

(** [McKathlin.SaveSync.extractPlaytime] on doubles. The operands of [%]
    are integers, on which it is exact. *)
Definition extractPlaytime64 (saveContents : SaveContents) :
  completion JsError string :=
  let? system := field "_framesOnSave" (system saveContents) in
  let frames := of_number (to_number (_framesOnSave system)) in
  let totalSeconds := ffloor (fdiv frames 60) in
  let hour := ffloor (fdiv (fdiv (of_number totalSeconds) 60) 60) in
  let min := js_rem (ffloor (fdiv (of_number totalSeconds) 60)) 60 in
  let sec := js_rem totalSeconds 60 in
  Done (format_playtime hour min sec).

(** The frame counter of the payload, if it has one, is an integer that
    doubles count: below [2 ^ 53] in magnitude. *)
Definition safe_frames (saveContents : SaveContents) : Prop :=
  ∀ sys f, system saveContents = Some sys → _framesOnSave sys = Some f →
    (Z.abs f < 2 ^ 53)%Z.

(** ** Rationals *)

Lemma Qdiv_lt_cross (a b c d : Q) : 0 < b -> 0 < d -> a * d < c * b -> a / b < c / d.
Proof.
  intros Hb Hd H. apply (Qmult_lt_r _ _ (b * d)); [by apply Qmult_lt_0_compat|].
  assert (a / b * (b * d) == a * d) as -> by (field; lra).
  assert (c / d * (b * d) == c * b) as -> by (field; lra).
  exact H.
Qed.

Lemma Qdiv_le_cross (a b c d : Q) : 0 < b -> 0 < d -> a * d <= c * b -> a / b <= c / d.
Proof.
  intros Hb Hd H. apply (Qmult_le_r _ _ (b * d)); [by apply Qmult_lt_0_compat|].
  assert (a / b * (b * d) == a * d) as -> by (field; lra).
  assert (c / d * (b * d) == c * b) as -> by (field; lra).
  exact H.
Qed.

Lemma Qabs_make n d : Qabs (n # d) == Z.abs n / Z.pos d.
Proof. unfold Qabs. by rewrite (Qmake_Qdiv (Z.abs n) d). Qed.

Lemma Qabs_Z (n : Z) : Qabs n == Z.abs n.
Proof. by unfold Qabs. Qed.

Lemma Qabs_lower (q c : Q) : c <= q \/ q <= - c -> c <= Qabs q.
Proof.
  intros [H|H]; [pose proof (Qle_Qabs q); lra|].
  pose proof (Qle_Qabs (- q)) as Hq. rewrite Qabs_opp in Hq. lra.
Qed.

Lemma Qfloor_between (d : Q) (n : Z) : n <= d -> d < n + 1 -> Qfloor d = n.
Proof.
  intros Hlo Hhi. pose proof (Qfloor_le d) as Hlo'. pose proof (Qlt_floor d) as Hhi'.
  assert (inject_Z (Qfloor d) < inject_Z (n + 1)) as H1
    by (rewrite inject_Z_plus; change (inject_Z 1) with 1; lra).
  assert (inject_Z n < inject_Z (Qfloor d + 1)) as H2 by lra.
  rewrite <-Zlt_Qlt in H1, H2. lia.
Qed.

(** What is known of an integer, in [Q] and with literals [lra] reads. *)
Lemma Z_pos_Q (z : Z) : (0 < z)%Z -> 0 < z.
Proof. intros Hz. unfold Qlt. simpl. lia. Qed.

Lemma Z_bounds_Q (z lo hi : Z) : (lo <= z <= hi)%Z -> lo # 1 <= z /\ z <= hi # 1.
Proof. intros [Hlo Hhi]. unfold Qle. simpl. lia. Qed.

Lemma Z_nonzero_Q (z : Z) : z <> 0%Z -> 1 <= z \/ z <= -1 # 1.
Proof. intros Hz. unfold Qle. simpl. lia. Qed.

Lemma div_mod_Q (z k : Z) : (0 < k)%Z -> inject_Z z == k * (z / k)%Z + (z mod k)%Z.
Proof.
  intros Hk. rewrite <-inject_Z_mult, <-inject_Z_plus. apply inject_Z_injective.
  apply Z.div_mod. lia.
Qed.

(** ** Powers of two *)

Lemma pow2_pos e : 0 < 2 ^ e.
Proof. by apply Qpower_0_lt. Qed.

Lemma pow2_S e : 2 ^ (e + 1) == 2 * 2 ^ e.
Proof. rewrite Qpower_plus by done. change (2 ^ 1) with 2. ring. Qed.

Lemma pow2_Z (n : Z) : (0 <= n)%Z -> 2 ^ n == (2 ^ n)%Z.
Proof. intros Hn. by rewrite Zpower_Qpower. Qed.

Lemma pow2_sub (a b : Z) : (0 <= a)%Z -> (0 <= b)%Z -> 2 ^ (a - b) == (2 ^ a)%Z / (2 ^ b)%Z.
Proof. intros Ha Hb. rewrite Qpower_minus by done. by rewrite !pow2_Z. Qed.

Lemma u_value : u == 1 # 9007199254740992.
Proof. done. Qed.

(** The smallest normal double is far below every quotient of the
    program. *)
Lemma tiny_le : 2 ^ (-1022) <= 1 # 8192.
Proof.
  assert (1 # 8192 == 2 ^ (-13)) as -> by done.
  apply Qpower_le_compat_l; [lia|done].
Qed.

(** ** The leading bit *)


Lemma ilog2_spec q : ~ q == 0 -> 2 ^ ilog2 q <= Qabs q /\ Qabs q < 2 ^ (ilog2 q + 1).
Proof.
  intros Hq. unfold ilog2. destruct q as [n d]. cbn [Qnum Qden].
  assert (0 < Z.abs n)%Z as Hn by (unfold Qeq in Hq; simpl in Hq; lia).
  pose proof (Z.log2_spec _ Hn) as [Ha1 Ha2].
  pose proof (Z.log2_spec (Z.pos d) eq_refl) as [Hb1 Hb2].
  pose proof (Z.log2_nonneg (Z.abs n)) as Ha0.
  pose proof (Z.log2_nonneg (Z.pos d)) as Hb0.
  set (a := Z.log2 (Z.abs n)) in *. set (b := Z.log2 (Z.pos d)) in *.
  rewrite Z.pow_succ_r in Ha2, Hb2 by done.
  assert (0 < 2 ^ a)%Z as Hpa by lia. assert (0 < 2 ^ b)%Z as Hpb by lia.
  destruct (Qle_bool (2 ^ (a - b)) (Qabs (n # d))) eqn:Hle.
  - apply Qle_bool_iff in Hle. split; [done|].
    rewrite pow2_S, pow2_sub, Qabs_make by done.
    assert (2 * ((2 ^ a)%Z / (2 ^ b)%Z) == (2 * 2 ^ a)%Z / (2 ^ b)%Z) as ->
      by (rewrite inject_Z_mult; field; pose proof (Z_pos_Q _ Hpb); lra).
    apply Qdiv_lt_cross; [done|by apply Z_pos_Q|].
    rewrite <-!inject_Z_mult, <-Zlt_Qlt. nia.
  - assert (Qabs (n # d) < 2 ^ (a - b)) as Hlt.
    { apply Qnot_le_lt. intros Hc%Qle_bool_iff. congruence. }
    replace (a - b - 1 + 1)%Z with (a - b)%Z by lia. split; [|done].
    replace (a - b - 1)%Z with (a - (b + 1))%Z by lia.
    rewrite pow2_sub, Qabs_make by lia. rewrite Z.pow_add_r by lia.
    apply Qdiv_le_cross; [apply Z_pos_Q; lia|done|].
    rewrite <-!inject_Z_mult, <-Zle_Qle. nia.
Qed.

Lemma ilog2_unique q k : 2 ^ k <= Qabs q -> Qabs q < 2 ^ (k + 1) -> ilog2 q = k.
Proof.
  intros Hlo Hhi.
  assert (~ q == 0) as Hq.
  { intros H0. rewrite H0 in Hlo. pose proof (pow2_pos k).
    change (Qabs 0) with 0 in Hlo. lra. }
  destruct (ilog2_spec q Hq) as [Hlo' Hhi'].
  assert (2 ^ k < 2 ^ (ilog2 q + 1)) as H1%Qpower_lt_compat_l_inv by lra.
  assert (2 ^ ilog2 q < 2 ^ (k + 1)) as H2%Qpower_lt_compat_l_inv by lra.
  all: try done. lia.
Qed.

Lemma ilog2_proper q q' : ~ q == 0 -> q == q' -> ilog2 q = ilog2 q'.
Proof.
  intros Hq Heq. symmetry. destruct (ilog2_spec q Hq) as [Hlo Hhi].
  apply ilog2_unique; by rewrite <-Heq.
Qed.

(** The leading bit of an integer that is not zero and below [2 ^ 53] in
    magnitude. *)
Lemma ilog2_Z (n : Z) : n <> 0%Z -> (Z.abs n < 2 ^ 53)%Z -> (0 <= ilog2 n <= 52)%Z.
Proof.
  intros Hn Hlt.
  assert (~ inject_Z n == 0) as Hq by (unfold Qeq; simpl; lia).
  destruct (ilog2_spec n Hq) as [Hlo Hhi]. rewrite Qabs_Z in Hlo, Hhi. split.
  - assert (2 ^ 0 < 2 ^ (ilog2 n + 1)) as Hk.
    { eapply Qle_lt_trans, Hhi. change (2 ^ 0) with (inject_Z 1).
      rewrite <-Zle_Qle. lia. }
    apply (Qpower_lt_compat_l_inv 2 0 (ilog2 n + 1)) in Hk; [lia|done].
  - assert (2 ^ ilog2 n < 2 ^ 53) as Hk.
    { eapply Qle_lt_trans; [apply Hlo|]. rewrite (pow2_Z 53) by done.
      by rewrite <-Zlt_Qlt. }
    apply (Qpower_lt_compat_l_inv 2 (ilog2 n) 53) in Hk; [lia|done].
Qed.

(** ** Rounding *)


#[export] Instance rne_proper : Proper (Qeq ==> eq) rne.
Proof.
  intros s s' Hs. unfold rne. rewrite <-(Qfloor_comp _ _ Hs).
  generalize (Qfloor s). intros f. by setoid_rewrite Hs.
Qed.

Lemma rne_error s : Qabs (rne s - s) <= 1 # 2.
Proof.
  pose proof (Qfloor_le s) as Hlo. pose proof (Qlt_floor s) as Hhi.
  rewrite inject_Z_plus in Hhi. change (inject_Z 1) with 1 in Hhi.
  apply Qabs_Qle_condition. unfold rne.
  destruct (Qcompare (s - Qfloor s) (1 # 2)) eqn:Hc;
    [apply Qeq_alt in Hc|apply Qlt_alt in Hc|apply Qgt_alt in Hc];
    try destruct (Z.even (Qfloor s)); rewrite ?inject_Z_plus;
    change (inject_Z 1) with 1; split; lra.
Qed.

Lemma rne_Z s (n : Z) : s == n -> rne s = n.
Proof.
  intros ->. unfold rne. rewrite Qfloor_Z.
  assert (Qcompare (n - n) (1 # 2) = Lt) as ->; [|done].
  apply (proj1 (Qlt_alt _ _)). lra.
Qed.

#[export] Instance rn_proper : Proper (Qeq ==> Qeq) rn.
Proof.
  intros q q' Hq. unfold rn.
  destruct (Qeq_bool q 0) eqn:H0.
  - apply Qeq_bool_iff in H0. rewrite Hq in H0. apply Qeq_bool_iff in H0. by rewrite H0.
  - assert (~ q == 0) as Hne by (intros Hc%Qeq_bool_iff; congruence).
    assert (Qeq_bool q' 0 = false) as ->.
    { destruct (Qeq_bool q' 0) eqn:H0'; [|done]. apply Qeq_bool_iff in H0'.
      rewrite <-Hq in H0'. done. }
    unfold ulp_exp. rewrite <-(ilog2_proper q q' Hne Hq).
    set (e := Z.max (ilog2 q - 52) emin).
    by rewrite (rne_proper (q / 2 ^ e) (q' / 2 ^ e)) by (by rewrite Hq).
Qed.

(** The rounding error model: in the normal range the result is off by at
    most the fraction [u] of the argument. *)
Lemma rn_error q : 2 ^ (-1022) <= Qabs q -> Qabs (rn q - q) <= u * Qabs q.
Proof.
  intros Hq.
  assert (~ q == 0) as Hne.
  { intros H0. rewrite H0 in Hq. pose proof (pow2_pos (-1022)) as Hpos.
    change (Qabs 0) with 0 in Hq. set (m := 2 ^ (-1022)) in *. lra. }
  destruct (ilog2_spec q Hne) as [Hlo Hhi].
  pose proof (Qle_lt_trans _ _ _ Hq Hhi) as Hk%Qpower_lt_compat_l_inv; [|done].
  unfold rn. assert (Qeq_bool q 0 = false) as ->.
  { destruct (Qeq_bool q 0) eqn:H0; [|done]. by apply Qeq_bool_iff in H0. }
  unfold ulp_exp, emin. rewrite Z.max_l by lia.
  set (e := (ilog2 q - 52)%Z). pose proof (pow2_pos e) as He.
  pose proof (rne_error (q / 2 ^ e)) as Herr.
  assert (rne (q / 2 ^ e) * 2 ^ e - q == (rne (q / 2 ^ e) - q / 2 ^ e) * 2 ^ e) as ->
    by (field; lra).
  rewrite Qabs_Qmult, (Qabs_pos (2 ^ e)) by lra.
  assert (2 ^ ilog2 q == 2 ^ 52 * 2 ^ e) as Hpow.
  { unfold e. rewrite <-Qpower_plus by done. f_equiv. lia. }
  rewrite Hpow in Hlo. assert (0 < u) as Hu0 by apply pow2_pos.
  assert (u * 2 ^ 52 == 1 # 2) as Hu by done.
  set (p := 2 ^ 52) in *. set (x := 2 ^ e) in *. set (b := Qabs q) in *.
  set (a := Qabs _) in *. unfold u in *. set (v := 2 ^ (-53)) in *.
  clearbody p x b a v. nra.
Qed.

(** A number whose quotient by its last place is an integer is a double,
    and rounding leaves it as it is. *)
Lemma rn_exact q (m : Z) : q / 2 ^ ulp_exp q == m -> rn q == q.
Proof.
  intros Hm. unfold rn. destruct (Qeq_bool q 0) eqn:H0.
  { apply Qeq_bool_iff in H0. by rewrite H0. }
  rewrite (rne_Z _ m Hm), <-Hm. field. pose proof (pow2_pos (ulp_exp q)). lra.
Qed.

(** Integers below [2 ^ 53] in magnitude are doubles. *)
Lemma rn_Z (n : Z) : (Z.abs n < 2 ^ 53)%Z -> rn n == n.
Proof.
  intros Hn. destruct (decide (n = 0%Z)) as [->|Hne]; [done|].
  pose proof (ilog2_Z n Hne Hn) as Hk.
  apply (rn_exact _ (n * 2 ^ (52 - ilog2 n))). unfold ulp_exp, emin.
  rewrite Z.max_l by lia. rewrite inject_Z_mult, <-pow2_Z by lia.
  replace (ilog2 n - 52)%Z with (- (52 - ilog2 n))%Z by lia.
  rewrite Qpower_opp. field. pose proof (pow2_pos (52 - ilog2 n)). lra.
Qed.

(** The error model for an argument of known size. *)
Lemma rn_near q B :
  2 ^ (-1022) <= Qabs q -> Qabs q <= B -> q - u * B <= rn q /\ rn q <= q + u * B.
Proof.
  intros Hlo Hhi. pose proof (rn_error q Hlo) as Herr.
  apply Qabs_Qle_condition in Herr. pose proof u_value as Hu.
  set (v := u) in *. set (a := Qabs q) in *. clearbody v a.
  assert (v * a <= v * B) by nra. lra.
Qed.

(** ** Quotients by sixty *)


(** [Math.floor(z / 60)] on doubles is the integer quotient. *)
Lemma floor_div_60 (z : Z) :
  (Z.abs z < 2 ^ 53)%Z -> Qfloor (rn (z / 60)) = (z / 60)%Z.
Proof.
  intros Hz. destruct (decide (z = 0%Z)) as [->|Hne]; [done|].
  pose proof (div_mod_Q z 60 eq_refl) as Hdiv.
  change (inject_Z 60) with 60 in Hdiv.
  pose proof (Z.mod_pos_bound z 60 eq_refl) as Hr.
  set (n := (z / 60)%Z) in *. set (r := (z mod 60)%Z) in *.
  assert (inject_Z z / 60 * 60 == z) as Hq by (field; lra).
  destruct (decide (r = 0%Z)) as [Hr0|Hr0].
  { rewrite Hr0 in Hdiv. change (inject_Z 0) with 0 in Hdiv.
    assert (inject_Z z / 60 == n) as -> by lra.
    rewrite rn_Z, Qfloor_Z; [done|]. pose proof (Z.div_mod z 60). lia. }
  destruct (Z_bounds_Q r 1 59) as [Hr1 Hr2]; [lia|].
  destruct (Z_bounds_Q z (-9007199254740991) 9007199254740991) as [Hz1 Hz2]; [lia|].
  destruct (rn_near (z / 60) (9007199254740991 # 60)) as [Hlo Hhi].
  - eapply Qle_trans; [apply tiny_le|]. apply Qabs_lower.
    assert (1 <= z \/ z <= -1)%Z as [H1|H1] by lia;
      [left|right]; rewrite Zle_Qle in H1; change (inject_Z 1) with 1 in H1;
      change (inject_Z (-1)) with (-1 # 1) in H1; lra.
  - apply Qabs_Qle_condition. lra.
  - pose proof u_value as Hu. apply Qfloor_between; lra.
Qed.

(** [Math.floor(z / 60 / 60)] on doubles, with its two roundings, is the
    integer quotient by 3600. *)
Lemma floor_div_60_60 (z : Z) :
  (Z.abs z < 2 ^ 48)%Z -> Qfloor (rn (rn (z / 60) / 60)) = (z / 3600)%Z.
Proof.
  intros Hz. destruct (decide (z = 0%Z)) as [->|Hne]; [done|].
  pose proof (div_mod_Q z 3600 eq_refl) as Hdiv.
  change (inject_Z 3600) with 3600 in Hdiv.
  pose proof (Z.mod_pos_bound z 3600 eq_refl) as Hr.
  set (n := (z / 3600)%Z) in *. set (r := (z mod 3600)%Z) in *.
  assert (inject_Z z / 60 * 60 == z) as Hq by (field; lra).
  destruct (decide (r = 0%Z)) as [Hr0|Hr0].
  { rewrite Hr0 in Hdiv. change (inject_Z 0) with 0 in Hdiv.
    assert (inject_Z z / 60 == (60 * n)%Z) as ->
      by (rewrite inject_Z_mult; change (inject_Z 60) with 60; lra).
    pose proof (Z.div_mod z 3600) as Hzn. fold n r in Hzn.
    rewrite rn_Z by lia.
    assert (inject_Z (60 * n) / 60 == n) as ->
      by (rewrite inject_Z_mult; change (inject_Z 60) with 60; field).
    rewrite rn_Z, Qfloor_Z; [done|lia]. }
  destruct (Z_bounds_Q r 1 3599) as [Hr1 Hr2]; [lia|].
  destruct (Z_bounds_Q z (-281474976710655) 281474976710655) as [Hz1 Hz2]; [lia|].
  pose proof (Z_nonzero_Q z Hne) as Hz0. pose proof u_value as Hu.
  destruct (rn_near (z / 60) (281474976710655 # 60)) as [Hlo Hhi].
  { eapply Qle_trans; [apply tiny_le|]. apply Qabs_lower. lra. }
  { apply Qabs_Qle_condition. lra. }
  assert (rn (z / 60) / 60 * 60 == rn (z / 60)) as Hq' by (field; lra).
  destruct (rn_near (rn (z / 60) / 60) (281474976710656 # 3600)) as [Hlo' Hhi'].
  { eapply Qle_trans; [apply tiny_le|]. apply Qabs_lower. lra. }
  { apply Qabs_Qle_condition. lra. }
  apply Qfloor_between; lra.
Qed.

(** ** The method on doubles *)

Section playtime.
Implicit Types (c : SaveContents) (sys : Game_System) (z f : Z).

Lemma of_number_Int z :
  (Z.abs z < 2 ^ 53)%Z -> ∃ q, of_number (Int z) = Finite q ∧ q == z.
Proof. intros Hz. exists (rn z). split; [done|by apply rn_Z]. Qed.

(** [Math.floor(x / 60)] of an integer that doubles count. *)
Lemma ffloor_fdiv_60 z :
  (Z.abs z < 2 ^ 53)%Z -> ffloor (fdiv (of_number (Int z)) 60) = Int (z / 60).
Proof.
  intros Hz. destruct (of_number_Int z Hz) as (q & -> & Hq). simpl.
  by rewrite Hq, floor_div_60.
Qed.

(** [Math.floor(x / 60 / 60)] of a number of seconds. *)
Lemma ffloor_fdiv_60_60 z :
  (Z.abs z < 2 ^ 48)%Z ->
  ffloor (fdiv (fdiv (of_number (Int z)) 60) 60) = Int (z / 3600).
Proof.
  intros Hz. destruct (of_number_Int z) as (q & -> & Hq); [lia|]. simpl.
  by rewrite Hq, floor_div_60_60.
Qed.

(** The whole seconds of a frame counter that doubles count are below
    [2 ^ 48] in magnitude. *)
Lemma seconds_bound f : (Z.abs f < 2 ^ 53)%Z -> (Z.abs (f / 60) < 2 ^ 48)%Z.
Proof.
  intros Hf. pose proof (Z.div_mod f 60). pose proof (Z.mod_pos_bound f 60). lia.
Qed.

Lemma extractPlaytime64_frames c sys :
  system c = Some sys ->
  extractPlaytime64 c =
    let totalSeconds :=
      ffloor (fdiv (of_number (to_number (_framesOnSave sys))) 60) in
    Done (format_playtime
            (ffloor (fdiv (fdiv (of_number totalSeconds) 60) 60))
            (js_rem (ffloor (fdiv (of_number totalSeconds) 60)) 60)
            (js_rem totalSeconds 60)).
Proof. intros Hsys. unfold extractPlaytime64. by rewrite Hsys. Qed.

(** C8: the integers of the model are the doubles of the engine. For
    every payload whose frame counter is absent or an integer below
    [2 ^ 53] in magnitude, [extractPlaytime] computed on doubles, each
    division rounded to nearest as IEEE 754 has it, returns what the
    method on integers returns: the same string or the same exception. *)
Theorem extractPlaytime64_exact c : safe_frames c -> extractPlaytime64 c = extractPlaytime c.
Proof.
  intros Hsafe. destruct (system c) as [sys|] eqn:Hsys;
    [|unfold extractPlaytime64, extractPlaytime; by rewrite Hsys].
  rewrite (extractPlaytime64_frames c sys Hsys), (extractPlaytime_frames c sys Hsys).
  destruct (_framesOnSave sys) as [f|] eqn:Hf; [|done].
  pose proof (Hsafe sys f Hsys Hf) as Hrange.
  pose proof (seconds_bound f Hrange) as Hts. cbv zeta. simpl to_number.
  rewrite (ffloor_fdiv_60 f Hrange), (ffloor_fdiv_60_60 _ Hts).
  by rewrite ffloor_fdiv_60 by lia.
Qed.

End playtime.

(** ** Values *)

(** The double of one tenth, [0x3FB999999999999A]. *)
Example rn_one_tenth : rn (1 # 10) == 3602879701896397 # 36028797018963968.
Proof. by vm_compute. Qed.

(** Above [2 ^ 53] the doubles are the even integers, and of two that
    are as near the one with the even mantissa is taken. *)
Example rn_ties_to_even :
  rn 9007199254740993%Z == 9007199254740992%Z ∧
  rn 9007199254740995%Z == 9007199254740996%Z.
Proof. split; by vm_compute. Qed.

(** Below the smallest subnormal double there is zero. *)
Example rn_underflow : rn (1 # 2 ^ 1080) == 0.
Proof. by vm_compute. Qed.

(** The bound is sharp. The integer [2 ^ 53 + 27] is no double; the
    engine reads it as [2 ^ 53 + 28], a multiple of sixty, and is one
    second ahead of the integers. *)
Example playtime_beyond_safe_integers :
  extractPlaytime64 (sampleSave [] 9007199254741019) = Done "41699996549:43:37" ∧
  extractPlaytime (sampleSave [] 9007199254741019) = Done "41699996549:43:36".
Proof. split; by vm_compute. Qed.

Lemma extractPlaytime64_exact_witness :
  extractPlaytime64 (sampleSave [] 439500) = extractPlaytime (sampleSave [] 439500).
Proof.
  apply (extractPlaytime64_exact (sampleSave [] 439500)).
  intros sys f [= <-] [= <-]. by vm_compute.
Defined.
