(* ===== verification/Playtime.v ===== *)
(** * Reading a playtime back

    The load menu shows the playtime string of a record as it is; nothing
    in the plugin reads it back. This file gives the reader the string is
    written for, [parse_playtime], and shows that the string
    [extractPlaytime] writes is read back as the hours, minutes and
    seconds it was made from: the string loses nothing of the number of
    whole seconds played. *)

From Stdlib Require Import Ascii.
From stdpp Require Import strings pretty.
From S2P Require Import Prelude JsBase Host Extractor.

(** ** The reader *)

(** The value of a decimal digit. *)
Definition digit_value (c : ascii) : option Z :=
  let n := (Z.of_N (N_of_ascii c) - 48)%Z in
  if decide (0 ≤ n ≤ 9)%Z then Some n else None.

(** The number a string of decimal digits denotes, after the digits
    already read as [acc]. *)
Fixpoint read_digits (acc : Z) (s : string) : option Z :=
  match s with
  | EmptyString => Some acc
  | String c s' =>
      match digit_value c with
      | Some d => read_digits (10 * acc + d) s'
      | None => None
      end
  end.

Definition read_number (s : string) : option Z :=
  match s with
  | EmptyString => None
  | _ => read_digits 0 s
  end.

(** The text before the first colon and the text after it, if there is
    a colon. *)
Fixpoint split_colon (s : string) : string * option string :=
  match s with
  | EmptyString => (EmptyString, None)
  | String c s' =>
      if Ascii.eqb c ":" then (EmptyString, Some s')
      else let (field, rest) := split_colon s' in (String c field, rest)
  end.

(** Hours, minutes and seconds of a string [H:M:S] of three decimal
    numbers. *)
Definition parse_playtime (s : string) : option (Z * Z * Z) :=
  match split_colon s with
  | (hh, Some rest) =>
      match split_colon rest with
      | (mm, Some rest) =>
          match split_colon rest with
          | (ss, None) =>
              match read_number hh, read_number mm, read_number ss with
              | Some h, Some m, Some s => Some (h, m, s)
              | _, _, _ => None
              end
          | _ => None
          end
      | _ => None
      end
  | _ => None
  end.

(** The whole seconds a playtime string stands for. *)
Definition playtime_seconds (s : string) : option Z :=
  match parse_playtime s with
  | Some (h, m, s) => Some (h * 3600 + m * 60 + s)%Z
  | None => None
  end.

(** ** Digits *)

Lemma digit_value_pretty_N_char (x : N) :
  (x < 10)%N → digit_value (pretty_N_char x) = Some (Z.of_N x).
Proof.
  intros Hx.
  assert (x = 0 ∨ x = 1 ∨ x = 2 ∨ x = 3 ∨ x = 4 ∨ x = 5 ∨ x = 6 ∨ x = 7
          ∨ x = 8 ∨ x = 9)%N as Hcases by lia.
  by repeat destruct Hcases as [->|Hcases]; [..|subst x].
Qed.

(** The digits [pretty_N_go x] puts before [s] read as [x]. *)
Lemma read_digits_pretty_N_go (x : N) (s : string) :
  ∃ p : Z, ∀ acc,
    read_digits acc (pretty_N_go x s) = read_digits (acc * p + Z.of_N x) s.
Proof.
  revert s. induction (N.lt_wf_0 x) as [x _ IH]; intros s.
  destruct (decide (x = 0%N)) as [->|Hx].
  { exists 1%Z. intros acc. rewrite pretty_N_go_0. f_equal. lia. }
  rewrite pretty_N_go_step by lia.
  destruct (IH (x `div` 10)%N ltac:(apply N.div_lt; lia)
              (String (pretty_N_char (x `mod` 10)) s)) as [p Hp].
  exists (10 * p)%Z. intros acc. rewrite Hp. simpl.
  rewrite digit_value_pretty_N_char by (apply N.mod_lt; lia). f_equal.
  rewrite N2Z.inj_div, N2Z.inj_mod.
  pose proof (Z.div_mod (Z.of_N x) 10). lia.
Qed.

Lemma read_digits_pretty (z : Z) : (0 ≤ z)%Z → read_digits 0 (pretty z) = Some z.
Proof.
  intros Hz. destruct z as [|p|p]; [done| |lia].
  rewrite pretty_pos_unfold.
  destruct (read_digits_pretty_N_go (N.pos p) "") as [q ->]. simpl. f_equal.
Qed.

(** A field written by [padZero] reads as the number it was written from. *)
Lemma read_number_padZero (z : Z) :
  (0 ≤ z)%Z → read_number (padZero (Int z) 2) = Some z.
Proof.
  intros Hz. assert (read_digits 0 (padZero (Int z) 2) = Some z) as Hread.
  { destruct (decide (z < 10)%Z).
    - rewrite padZero_digit by lia. simpl. by apply read_digits_pretty.
    - rewrite padZero_wide by lia. by apply read_digits_pretty. }
  pose proof (length_padZero_ge (Int z) 2) as Hlen.
  unfold read_number. by destruct (padZero (Int z) 2); [simpl in Hlen; lia|].
Qed.

(** ** Fields *)

(** A string that reads as a number holds no colon. *)
Lemma split_colon_digits (s rest : string) acc v :
  read_digits acc s = Some v →
  split_colon (s +:+ String ":" rest) = (s, Some rest) ∧ split_colon s = (s, None).
Proof.
  revert acc. induction s as [|c s IH]; intros acc; [done|]. simpl.
  destruct (digit_value c) as [d|] eqn:Hd; [|done]. intros Hread.
  destruct (Ascii.eqb_spec c ":") as [->|_]; [done|].
  by destruct (IH _ Hread) as [-> ->].
Qed.

Lemma read_number_digits (s : string) v :
  read_number s = Some v → ∃ acc, read_digits acc s = Some v.
Proof. destruct s; [done|]. by exists 0%Z. Qed.

(** Three numbers written with [padZero] and joined by colons are read
    back. *)
Lemma parse_format_playtime (h m s : Z) :
  (0 ≤ h)%Z → (0 ≤ m)%Z → (0 ≤ s)%Z →
  parse_playtime (format_playtime (Int h) (Int m) (Int s)) = Some (h, m, s).
Proof.
  intros Hh Hm Hs. unfold parse_playtime, format_playtime.
  pose proof (read_number_padZero h Hh) as Rh.
  pose proof (read_number_padZero m Hm) as Rm.
  pose proof (read_number_padZero s Hs) as Rs.
  destruct (read_number_digits _ _ Rh) as [ah Dh].
  destruct (read_number_digits _ _ Rm) as [am Dm].
  destruct (read_number_digits _ _ Rs) as [as_ Ds].
  assert (∀ x, ":" +:+ x = String ":" x) as Hcolon by done. rewrite !Hcolon.
  rewrite (proj1 (split_colon_digits _ _ _ _ Dh)).
  rewrite (proj1 (split_colon_digits _ _ _ _ Dm)).
  rewrite (proj2 (split_colon_digits _ "" _ _ Ds)).
  by rewrite Rh, Rm, Rs.
Qed.

(** ** The playtime, read back *)

Section roundtrip.
Implicit Types (c : SaveContents) (sys : Game_System) (f : Z).

(** C37: round trip. For a frame counter that is not negative the string
    [extractPlaytime] writes is read back as hours, minutes and seconds
    that make [floor(frames / 60)] seconds: the playtime shown stands for
    the whole seconds played, however long the play. *)
Theorem extractPlaytime_roundtrip c sys f :
  system c = Some sys → _framesOnSave sys = Some f → (0 ≤ f)%Z →
  ∃ str, extractPlaytime c = Done str ∧
         playtime_seconds str = Some (f `div` 60)%Z.
Proof.
  intros Hsys Hf Hpos. rewrite (extractPlaytime_frames _ _ Hsys), Hf. simpl.
  eexists. split; [reflexivity|].
  destruct (hms_decomposition (f `div` 60)) as (Hsum & Hh & Hm & Hs);
    [apply Z.div_pos; lia|].
  unfold playtime_seconds. rewrite parse_format_playtime by lia.
  f_equal. change (60 * 60)%Z with 3600%Z in *. lia.
Qed.

End roundtrip.

(** ** Examples *)

Example parse_playtime_90_seconds : parse_playtime "00:01:30" = Some (0, 1, 30)%Z.
Proof. reflexivity. Qed.

Example parse_playtime_long : playtime_seconds "120:22:13" = Some 433333%Z.
Proof. reflexivity. Qed.

(** The placeholder and the playtime of a payload without frame counter
    are no playtimes. *)
Example parse_playtime_placeholder :
  parse_playtime "??:??:??" = None ∧ parse_playtime "NaN:NaN:NaN" = None.
Proof. split; reflexivity. Qed.

Lemma extractPlaytime_roundtrip_witness :
  ∃ str, extractPlaytime (sampleSave [2; 1; 3]%Z 5400) = Done str ∧
         playtime_seconds str = Some (5400 `div` 60)%Z.
Proof.
  apply (extractPlaytime_roundtrip (sampleSave [2; 1; 3]%Z 5400)
           (mkSystem (Some 5400%Z)) 5400); [reflexivity..|lia].
Defined.
