(* ===== verification/Synthesis.v ===== *)
(** * Entry synthesis

    [McKathlin.SaveSync.makeMissingSaveInfo]: the record for a save file
    the index does not know. The payload is awaited outside the [try], so
    a rejected load rejects the method; the three extractions run inside
    the [try], and the [catch] returns the record with the fields assigned
    so far. *)

From stdpp Require Import strings pretty gmap.
From S2P Require Import Prelude JsBase Host Extractor.

(** ** The method *)

Section synthesis.
Context `{Host}.

(** The object literal the method starts from; [now] is [Date.now()]. *)
Definition defaultInfo (now : Z) : SaveInfo :=
  mkInfo gameTitle [] [] "??:??:??" now.

(** [info.f = <extraction>]: the field is assigned when the extraction
    returns. The state of this small program is the object [info]. *)
Definition assign {A} (set : A → SaveInfo → SaveInfo) (c : completion JsError A) :
  prog SaveInfo JsError unit :=
  let* v := await c in modify (set v).

(** The body of the [try]. *)
Definition tryExtract (saveContents : SaveContents) : prog SaveInfo JsError unit :=
  assign set_characters (extractCharacters saveContents) >>
  assign set_faces (extractFaces saveContents) >>
  assign set_playtime (extractPlaytime saveContents).

Definition makeMissingSaveInfo (savefileId : nat) : M SaveInfo :=
  console_emit (Restoring savefileId) >>
  let* now := date_now in
  let info := defaultInfo now in
  let saveName := makeSavename savefileId in
  let* saveContents := await (loadObject saveName) in
  match tryExtract saveContents info with
  | (info, Done _) =>
      console_emit (Restored savefileId) >> ret info
  | (info, Throw err) =>
      console_emit (RestoreFailed savefileId err) >>
      console_emit (CanStillLoad savefileId) >>
      ret info
  end.

(** ** Reference definitions *)

(** The record a payload yields, field by field: the portraits when both
    are extracted, the playtime when the portraits and it are. *)
Definition restored_info (c : SaveContents) (now : Z) : SaveInfo :=
  match extractCharacters c, extractFaces c with
  | Done cs, Done fs =>
      mkInfo gameTitle cs fs
        (match extractPlaytime c with Done pt => pt | Throw _ => "??:??:??" end) now
  | _, _ => defaultInfo now
  end.

(** The error the [catch] receives, if any: that of the first extraction
    that throws. *)
Definition restore_error (c : SaveContents) : option JsError :=
  match extractCharacters c, extractFaces c, extractPlaytime c with
  | Throw e, _, _ => Some e
  | Done _, Throw e, _ => Some e
  | Done _, Done _, Throw e => Some e
  | Done _, Done _, Done _ => None
  end.

(** The console lines of one synthesis whose payload was loaded. *)
Definition restore_log (i : nat) (c : SaveContents) : list LogEntry :=
  match restore_error c with
  | None => [Restoring i; Restored i]
  | Some err => [Restoring i; RestoreFailed i err; CanStillLoad i]
  end.

(** ** The body of the [try] *)

Lemma tryExtract_run c info :
  tryExtract c info =
  match extractCharacters c with
  | Throw e => (info, Throw e)
  | Done cs =>
      match extractFaces c with
      | Throw e => (set_characters cs info, Throw e)
      | Done fs =>
          match extractPlaytime c with
          | Throw e => (set_faces fs (set_characters cs info), Throw e)
          | Done pt =>
              (set_playtime pt (set_faces fs (set_characters cs info)), Done tt)
          end
      end
  end.
Proof.
  unfold tryExtract, assign. prog_simpl.
  by destruct (extractCharacters c), (extractFaces c), (extractPlaytime c).
Qed.

(** The faces cannot throw once the characters are extracted, so the
    record after the [try] is [restored_info] in every case. *)
Lemma tryExtract_spec c now :
  tryExtract c (defaultInfo now) =
  (restored_info c now,
   match restore_error c with None => Done tt | Some e => Throw e end).
Proof.
  rewrite tryExtract_run. unfold restored_info, restore_error.
  destruct (extractCharacters c) as [cs|] eqn:Hcs; [|done].
  destruct (extractCharacters_faces _ _ Hcs) as (fs & -> & _).
  by destruct (extractPlaytime c).
Qed.

(** ** The method, run *)

Lemma makeMissingSaveInfo_run i w :
  makeMissingSaveInfo i w =
  let now := dateNow (clockReads w) in
  let w1 := set_clockReads S (set_console (λ out, out ++ [Restoring i]) w) in
  match loadObject (makeSavename i) with
  | Throw e => (w1, Throw e)
  | Done c =>
      (set_clockReads S (set_console (λ out, out ++ restore_log i c) w),
       Done (restored_info c now))
  end.
Proof.
  unfold makeMissingSaveInfo. prog_simpl. unfold date_now, console_emit. prog_simpl.
  destruct (loadObject (makeSavename i)) as [c|e]; [|done].
  rewrite tryExtract_spec. unfold restore_log.
  destruct (restore_error c) as [err|]; prog_simpl; unfold set_console, set_clockReads;
    simpl; by rewrite <-?app_assoc.
Qed.

(** C3: the method returns exactly when the load of the payload resolves,
    with the record the payload yields stamped with the clock reading; a
    rejected load rejects the method with the same error, no record being
    returned. *)
Theorem makeMissingSaveInfo_outcome i w :
  eval (makeMissingSaveInfo i) w =
  match loadObject (makeSavename i) with
  | Done c => Done (restored_info c (dateNow (clockReads w)))
  | Throw e => Throw e
  end.
Proof.
  unfold eval. rewrite makeMissingSaveInfo_run.
  by destruct (loadObject (makeSavename i)).
Qed.

(** The world after the method: one clock reading more, the console
    extended by the lines of this synthesis, nothing else touched. *)
Lemma makeMissingSaveInfo_exec i w :
  exec (makeMissingSaveInfo i) w =
  set_clockReads S (set_console (λ out, out ++
    match loadObject (makeSavename i) with
    | Done c => restore_log i c
    | Throw _ => [Restoring i]
    end) w).
Proof.
  unfold exec. rewrite makeMissingSaveInfo_run.
  by destruct (loadObject (makeSavename i)).
Qed.

(** The method leaves the index, [DataManager._globalInfo] and the
    storage as they are; it only appends to the console and reads the
    clock. *)
Theorem makeMissingSaveInfo_frame i w :
  let w' := exec (makeMissingSaveInfo i) w in
  globalInfo w' = globalInfo w ∧ _globalInfo w' = _globalInfo w ∧
  storedGlobal w' = storedGlobal w ∧ clockReads w' = S (clockReads w) ∧
  ∃ lines, console w' = console w ++ Restoring i :: lines.
Proof.
  cbv zeta. rewrite makeMissingSaveInfo_exec. simpl. repeat split.
  unfold restore_log.
  destruct (loadObject (makeSavename i)) as [c|]; [destruct (restore_error c)|];
    eauto.
Qed.

(** C27: a payload whose portraits and playtime are all extracted gives a
    record that holds them, with the title of the game and the clock
    reading, and the success is logged. *)
Theorem makeMissingSaveInfo_restored i w c cs pt :
  loadObject (makeSavename i) = Done c →
  extractCharacters c = Done cs → extractPlaytime c = Done pt →
  ∃ fs, extractFaces c = Done fs ∧ length fs = length cs ∧
    makeMissingSaveInfo i w =
      (set_clockReads S (set_console (λ out, out ++ [Restoring i; Restored i]) w),
       Done (mkInfo gameTitle cs fs pt (dateNow (clockReads w)))).
Proof.
  intros Hload Hcs Hpt.
  destruct (extractCharacters_faces _ _ Hcs) as (fs & Hfs & Hlen).
  exists fs. split; [done|]. split; [done|].
  rewrite makeMissingSaveInfo_run, Hload. cbv zeta.
  unfold restore_log, restore_error, restored_info. by rewrite Hcs, Hfs, Hpt.
Qed.

(** C28: when the portraits are extracted and the playtime extraction
    throws, the record keeps the portraits and the placeholder playtime:
    the fields assigned before the fault stay assigned. *)
Theorem makeMissingSaveInfo_partial i w c cs err :
  loadObject (makeSavename i) = Done c →
  extractCharacters c = Done cs → extractPlaytime c = Throw err →
  ∃ fs, extractFaces c = Done fs ∧
    makeMissingSaveInfo i w =
      (set_clockReads S (set_console
         (λ out, out ++ [Restoring i; RestoreFailed i err; CanStillLoad i]) w),
       Done (mkInfo gameTitle cs fs "??:??:??" (dateNow (clockReads w)))).
Proof.
  intros Hload Hcs Hpt.
  destruct (extractCharacters_faces _ _ Hcs) as (fs & Hfs & _).
  exists fs. split; [done|].
  rewrite makeMissingSaveInfo_run, Hload. cbv zeta.
  unfold restore_log, restore_error, restored_info. by rewrite Hcs, Hfs, Hpt.
Qed.

(** C29: when the extraction of the characters throws nothing is assigned:
    the record is the default one, whether or not the playtime could have
    been extracted. *)
Theorem makeMissingSaveInfo_placeholder i w c err :
  loadObject (makeSavename i) = Done c → extractCharacters c = Throw err →
  makeMissingSaveInfo i w =
    (set_clockReads S (set_console
       (λ out, out ++ [Restoring i; RestoreFailed i err; CanStillLoad i]) w),
     Done (defaultInfo (dateNow (clockReads w)))).
Proof.
  intros Hload Hcs. rewrite makeMissingSaveInfo_run, Hload. cbv zeta.
  unfold restore_log, restore_error, restored_info. by rewrite Hcs.
Qed.

(** Every record the method returns has as many faces as characters,
    the title of the game, and the clock reading as its timestamp. *)
Theorem makeMissingSaveInfo_record i w info :
  eval (makeMissingSaveInfo i) w = Done info →
  length (characters info) = length (faces info) ∧
  title info = gameTitle ∧ timestamp info = dateNow (clockReads w).
Proof.
  unfold eval. rewrite makeMissingSaveInfo_run.
  destruct (loadObject (makeSavename i)) as [c|]; [|done]. intros [= <-].
  unfold restored_info.
  destruct (extractCharacters c) as [cs|] eqn:Hcs; [|done].
  by destruct (extractCharacters_faces _ _ Hcs) as (fs & -> & Hlen).
Qed.

Lemma makeMissingSaveInfo_frame_law i w : frame w (exec (makeMissingSaveInfo i) w).
Proof.
  rewrite makeMissingSaveInfo_exec. split; simpl; try done; [|lia].
  by apply prefix_app_r.
Qed.

Lemma makeMissingSaveInfo_done i w :
  is_done (eval (makeMissingSaveInfo i) w) = is_done (loadObject (makeSavename i)).
Proof.
  unfold eval. rewrite makeMissingSaveInfo_run.
  by destruct (loadObject (makeSavename i)).
Qed.

(** The method is a synthesiser in the sense of the reconciler. *)
#[export] Instance makeMissingSaveInfo_synthesizer : Synthesizer := {|
  synthesize := makeMissingSaveInfo;
  synthesizable i := is_done (loadObject (makeSavename i));
  synthesize_frame := makeMissingSaveInfo_frame_law;
  synthesize_done := makeMissingSaveInfo_done;
|}.

End synthesis.

(** ** The sample game *)

Example restore_file1 :
  @makeMissingSaveInfo sampleHost 1 (world_of []) =
  (mkWorld [Restoring 1; Restored 1] 1 [] None (Done []),
   Done (mkInfo "Sample Quest"
           [("Actor1", 1%Z); ("Actor1", 0%Z); ("Actor2", 2%Z)]
           [("Face1", 1%Z); ("Face1", 0%Z); ("Face2", 2%Z)] "00:01:30" 1000)).
Proof. vm_compute. reflexivity. Qed.

Example restore_file4_partial :
  @eval _ _ _ (@makeMissingSaveInfo sampleHost 4) (world_of []) =
  Done (mkInfo "Sample Quest" [("Actor1", 0%Z)] [("Face1", 0%Z)] "??:??:??" 1000).
Proof. vm_compute. reflexivity. Qed.

Example restore_file2_rejected :
  @makeMissingSaveInfo faultyHost 2 (world_of []) =
  (mkWorld [Restoring 2] 1 [] None (Done []), Throw (LoadError "file2")).
Proof. vm_compute. reflexivity. Qed.

(** ** The theorems on the sample game *)

Lemma makeMissingSaveInfo_restored_witness :
  ∃ fs, extractFaces (sampleSave [2; 1; 3]%Z 5400) = Done fs ∧ length fs = 3 ∧
    @makeMissingSaveInfo sampleHost 1 (world_of []) =
      (set_clockReads S (set_console (λ out, out ++ [Restoring 1; Restored 1])
                           (world_of [])),
       Done (mkInfo "Sample Quest"
               [("Actor1", 1%Z); ("Actor1", 0%Z); ("Actor2", 2%Z)] fs "00:01:30"
               1000)).
Proof.
  apply (@makeMissingSaveInfo_restored sampleHost 1 (world_of [])
           (sampleSave [2; 1; 3]%Z 5400)
           [("Actor1", 1%Z); ("Actor1", 0%Z); ("Actor2", 2%Z)] "00:01:30");
    vm_compute; reflexivity.
Defined.

Lemma makeMissingSaveInfo_partial_witness :
  ∃ fs, extractFaces (mkContents (Some (mkParty 4 [1%Z])) (Some sampleActors) None)
        = Done fs ∧
    @makeMissingSaveInfo sampleHost 4 (world_of []) =
      (set_clockReads S (set_console
         (λ out, out ++ [Restoring 4; RestoreFailed 4 (TypeError "_framesOnSave");
                         CanStillLoad 4]) (world_of [])),
       Done (mkInfo "Sample Quest" [("Actor1", 0%Z)] fs "??:??:??" 1000)).
Proof.
  apply (@makeMissingSaveInfo_partial sampleHost 4 (world_of [])
           (mkContents (Some (mkParty 4 [1%Z])) (Some sampleActors) None)
           [("Actor1", 0%Z)] (TypeError "_framesOnSave"));
    vm_compute; reflexivity.
Defined.

Lemma makeMissingSaveInfo_placeholder_witness :
  @makeMissingSaveInfo strangerHost 1 (world_of []) =
    (set_clockReads S (set_console
       (λ out, out ++ [Restoring 1; RestoreFailed 1 (TypeError "characterName");
                       CanStillLoad 1]) (world_of [])),
     Done (@defaultInfo strangerHost 1000)).
Proof.
  apply (@makeMissingSaveInfo_placeholder strangerHost 1 (world_of [])
           (sampleSave [2; 9]%Z 5400) (TypeError "characterName"));
    vm_compute; reflexivity.
Defined.

Lemma makeMissingSaveInfo_record_witness :
  let info := mkInfo "Sample Quest"
    [("Actor1", 1%Z); ("Actor1", 0%Z); ("Actor2", 2%Z)]
    [("Face1", 1%Z); ("Face1", 0%Z); ("Face2", 2%Z)] "00:01:30" 1000 in
  length (characters info) = length (faces info) ∧
  title info = "Sample Quest" ∧ timestamp info = 1000%Z.
Proof.
  apply (@makeMissingSaveInfo_record sampleHost 1 (world_of [])).
  vm_compute. reflexivity.
Defined.
