(* ===== verification/Reconciler.v ===== *)
(** * IndexReconciler

    [DataManager.updateGlobalInfo]: one pass over the slots
    [0 .. maxSavefiles()] that gives a record to every save file the index
    does not know and takes the record of every save file that is gone.
    The helper that synthesises a record is any [Synthesizer]. *)

From stdpp Require Import strings gmap.
From S2P Require Import Prelude JsBase Host.

(** ** The method *)

Section reconciler.
Context `{Host, !Synthesizer}.
Implicit Types (w : World) (i j : nat) (a : jsarray SaveInfo) (u b : bool).

(** [!!globalInfo[i]] *)
Definition has_entry (i : nat) : M bool :=
  gets (λ w, truthy (arr_get (globalInfo w) i)).

(** The body of the loop for slot [i]; [infoUpdated] is the flag so far
    and the result the flag after the slot. *)
Definition reconcileSlot (i : nat) (infoUpdated : bool) : M bool :=
  if savefileExists i then
    let* present := has_entry i in
    if negb present then
      let* info := synthesize i in
      modify (set_globalInfo (λ a, arr_set a i (Obj info))) >>
      ret true
    else ret infoUpdated
  else
    let* present := has_entry i in
    if present then
      modify (set_globalInfo (λ a, arr_delete a i)) >>
      ret true
    else ret infoUpdated.

(** The loop over the slots it still has to visit. *)
Fixpoint forSlots (slots : list nat) (infoUpdated : bool) : M bool :=
  match slots with
  | [] => ret infoUpdated
  | i :: rest =>
      let* infoUpdated := reconcileSlot i infoUpdated in
      forSlots rest infoUpdated
  end.

(** The values [i] takes in [for (let i = 0; i <= this.maxSavefiles(); i++)]. *)
Definition allSlots : list nat := seq 0 (Z.to_nat (maxSavefiles + 1)).

Definition updateGlobalInfo : M bool := forSlots allSlots false.

(** The loop as the source writes it, from the value [i] of its counter
    on: [i <= this.maxSavefiles()] is tested before every iteration, at
    most [fuel] times, and the result is [None] when the tests run
    out. A body that throws ends the loop. *)
Fixpoint forLoop (fuel i : nat) (infoUpdated : bool) (w : World) :
    option (World * completion JsError bool) :=
  match fuel with
  | 0 => None
  | S fuel =>
      if (Z.of_nat i <=? maxSavefiles)%Z then
        match reconcileSlot i infoUpdated w with
        | (w, Done infoUpdated) => forLoop fuel (S i) infoUpdated w
        | (w, Throw e) => Some (w, Throw e)
        end
      else Some (w, Done infoUpdated)
  end.

(** ** Reference definitions *)

(** Slot [i] of the array agrees with the disk. *)
Definition in_sync a i : bool :=
  bool_decide (truthy (arr_get a i) = savefileExists i).

(** Every slot of the list agrees with the disk. *)
Definition synced (slots : list nat) a : bool := forallb (in_sync a) slots.

(** The slot needs a record that cannot be synthesised. *)
Definition blocked a i : bool :=
  savefileExists i && negb (truthy (arr_get a i)) && negb (synthesizable i).

Lemma in_sync_true a i :
  in_sync a i = true ↔ truthy (arr_get a i) = savefileExists i.
Proof. apply bool_decide_eq_true. Qed.

Lemma in_sync_negb a i :
  negb (in_sync a i) = bool_decide (truthy (arr_get a i) ≠ savefileExists i).
Proof. unfold in_sync. by rewrite bool_decide_not. Qed.

(** ** One slot *)

Lemma reconcileSlot_keep i u w :
  truthy (arr_get (globalInfo w) i) = savefileExists i →
  reconcileSlot i u w = (w, Done u).
Proof.
  intros Hi. unfold reconcileSlot, has_entry.
  destruct (savefileExists i); prog_simpl; by rewrite Hi.
Qed.

Lemma reconcileSlot_remove i u w :
  savefileExists i = false → truthy (arr_get (globalInfo w) i) = true →
  reconcileSlot i u w = (set_globalInfo (λ a, arr_delete a i) w, Done true).
Proof.
  intros He Hi. unfold reconcileSlot, has_entry. rewrite He. prog_simpl.
  by rewrite Hi.
Qed.

Lemma reconcileSlot_restore i u w :
  savefileExists i = true → truthy (arr_get (globalInfo w) i) = false →
  reconcileSlot i u w =
    match synthesize i w with
    | (w', Done info) => (set_globalInfo (λ a, arr_set a i (Obj info)) w', Done true)
    | (w', Throw e) => (w', Throw e)
    end.
Proof.
  intros He Hi. unfold reconcileSlot, has_entry. rewrite He. prog_simpl.
  rewrite Hi. simpl. by destruct (synthesize i w) as [w' [info|e]].
Qed.

(** The three cases of a slot. *)
Lemma reconcileSlot_cases i u w :
  (truthy (arr_get (globalInfo w) i) = savefileExists i ∧
   reconcileSlot i u w = (w, Done u)) ∨
  (savefileExists i = false ∧ truthy (arr_get (globalInfo w) i) = true ∧
   reconcileSlot i u w = (set_globalInfo (λ a, arr_delete a i) w, Done true)) ∨
  (savefileExists i = true ∧ truthy (arr_get (globalInfo w) i) = false ∧
   ((∃ info, eval (synthesize i) w = Done info ∧
       reconcileSlot i u w =
         (set_globalInfo (λ a, arr_set a i (Obj info)) (exec (synthesize i) w),
          Done true)) ∨
    (∃ e, eval (synthesize i) w = Throw e ∧
       reconcileSlot i u w = (exec (synthesize i) w, Throw e)))).
Proof.
  destruct (savefileExists i) eqn:He, (truthy (arr_get (globalInfo w) i)) eqn:Hi.
  - left. split; [done|]. apply reconcileSlot_keep. congruence.
  - right. right. split; [done|]. split; [done|].
    rewrite reconcileSlot_restore by done. rewrite (exec_eval (synthesize i) w).
    destruct (eval (synthesize i) w); eauto.
  - right. left. split; [done|]. split; [done|]. by apply reconcileSlot_remove.
  - left. split; [done|]. apply reconcileSlot_keep. congruence.
Qed.

(** A slot's step leaves every other slot as it was, whatever its outcome. *)
Lemma reconcileSlot_other i j u w :
  i ≠ j →
  arr_get (globalInfo (exec (reconcileSlot i u) w)) j = arr_get (globalInfo w) j.
Proof.
  intros Hij. unfold exec.
  destruct (reconcileSlot_cases i u w) as
    [[_ ->]|[(_ & _ & ->)|(_ & _ & [(info & _ & ->)|(e & _ & ->)])]]; simpl;
    rewrite ?arr_get_set_ne, ?arr_get_delete_ne by done;
    by rewrite ?(frame_globalInfo _ _ (synthesize_frame i w)).
Qed.

(** A slot that agrees with the disk is not written to. *)
Lemma reconcileSlot_in_sync i u w :
  in_sync (globalInfo w) i = true → reconcileSlot i u w = (w, Done u).
Proof. intros Hi%in_sync_true. by apply reconcileSlot_keep. Qed.

(** After a step that returns, the slot agrees with the disk, and the flag
    is raised exactly when the slot did not agree before. *)
Lemma reconcileSlot_done i u b w :
  eval (reconcileSlot i u) w = Done b →
  in_sync (globalInfo (exec (reconcileSlot i u) w)) i = true ∧
  b = u || negb (in_sync (globalInfo w) i).
Proof.
  unfold eval, exec. rewrite !in_sync_true, in_sync_negb.
  destruct (reconcileSlot_cases i u w) as
    [[Hi ->]|[(He & Hi & ->)|(He & Hi & [(info & _ & ->)|(e & _ & ->)])]];
    cbn [fst snd globalInfo set_globalInfo]; [| | |done]; intros [= <-];
    rewrite ?arr_get_set_eq, ?arr_get_delete_eq, ?He; (split; [done|]).
  - rewrite bool_decide_eq_false_2 by congruence. by rewrite orb_false_r.
  - rewrite bool_decide_eq_true_2 by congruence. by rewrite orb_true_r.
  - rewrite bool_decide_eq_true_2 by congruence. by rewrite orb_true_r.
Qed.

(** A step throws exactly when the slot is blocked. *)
Lemma reconcileSlot_throws i u w :
  is_done (eval (reconcileSlot i u) w) = negb (blocked (globalInfo w) i).
Proof.
  unfold eval, blocked. pose proof (synthesize_done i w) as Hs.
  destruct (reconcileSlot_cases i u w) as
    [[Hi ->]|[(He & Hi & ->)|(He & Hi & [(info & Hev & ->)|(e & Hev & ->)])]]; simpl;
    rewrite ?He, ?Hi; rewrite ?Hev in Hs; simpl in *; rewrite <-?Hs; try done.
  by destruct (savefileExists i).
Qed.

(** A step changes nothing but the index, the console and the clock. *)
Lemma reconcileSlot_rest i u w :
  let w' := exec (reconcileSlot i u) w in
  _globalInfo w' = _globalInfo w ∧ storedGlobal w' = storedGlobal w ∧
  console w `prefix_of` console w'.
Proof.
  cbv zeta. unfold exec. destruct (synthesize_frame i w) as [_ H1 H2 H3 _].
  destruct (reconcileSlot_cases i u w) as
    [[_ ->]|[(_ & _ & ->)|(_ & _ & [(info & _ & ->)|(e & _ & ->)])]]; simpl; done.
Qed.

End reconciler.

(** ** The loop *)

Section loop.
Context `{Host, !Synthesizer}.
Implicit Types (w : World) (i j : nat) (a : jsarray SaveInfo) (u b : bool)
  (slots : list nat).

Lemma in_sync_ext a a' i : arr_get a' i = arr_get a i → in_sync a' i = in_sync a i.
Proof. unfold in_sync. by intros ->. Qed.

Lemma blocked_ext a a' i : arr_get a' i = arr_get a i → blocked a' i = blocked a i.
Proof. unfold blocked. by intros ->. Qed.

Lemma forSlots_cons i slots u w :
  forSlots (i :: slots) u w =
  match eval (reconcileSlot i u) w with
  | Done u' => forSlots slots u' (exec (reconcileSlot i u) w)
  | Throw e => (exec (reconcileSlot i u) w, Throw e)
  end.
Proof. apply run_bind. Qed.

Lemma eval_forSlots_cons i slots u w :
  eval (forSlots (i :: slots) u) w =
  match eval (reconcileSlot i u) w with
  | Done u' => eval (forSlots slots u') (exec (reconcileSlot i u) w)
  | Throw e => Throw e
  end.
Proof. apply eval_bind. Qed.

Lemma exec_forSlots_cons i slots u w :
  exec (forSlots (i :: slots) u) w =
  match eval (reconcileSlot i u) w with
  | Done u' => exec (forSlots slots u') (exec (reconcileSlot i u) w)
  | Throw e => exec (reconcileSlot i u) w
  end.
Proof. apply exec_bind. Qed.

(** The loop writes only to the slots it visits. *)
Lemma forSlots_other slots j u w :
  j ∉ slots →
  arr_get (globalInfo (exec (forSlots slots u) w)) j = arr_get (globalInfo w) j.
Proof.
  revert u w. induction slots as [|i slots IH]; intros u w Hj; [done|].
  apply not_elem_of_cons in Hj as [Hij Hj]. rewrite exec_forSlots_cons.
  destruct (eval (reconcileSlot i u) w) as [u'|e].
  - etrans; [by apply IH|]. by apply reconcileSlot_other.
  - by apply reconcileSlot_other.
Qed.

(** The loop does not write to a slot that agrees with the disk. *)
Lemma forSlots_kept slots j u w :
  in_sync (globalInfo w) j = true →
  arr_get (globalInfo (exec (forSlots slots u) w)) j = arr_get (globalInfo w) j.
Proof.
  revert u w. induction slots as [|i slots IH]; intros u w Hj; [done|].
  assert (arr_get (globalInfo (exec (reconcileSlot i u) w)) j
          = arr_get (globalInfo w) j) as Hstep.
  { destruct (decide (i = j)) as [->|Hij]; [|by apply reconcileSlot_other].
    unfold exec. by rewrite reconcileSlot_in_sync. }
  rewrite exec_forSlots_cons.
  destruct (eval (reconcileSlot i u) w) as [u'|e]; [|done].
  etrans; [apply IH|done]. by rewrite (in_sync_ext _ _ _ Hstep).
Qed.

(** On slots that all agree with the disk the loop does nothing. *)
Lemma forSlots_synced slots u w :
  synced slots (globalInfo w) = true → forSlots slots u w = (w, Done u).
Proof.
  revert u w. induction slots as [|i slots IH]; intros u w Hs; [done|].
  apply andb_prop in Hs as [Hi Hs].
  rewrite forSlots_cons. unfold eval, exec. rewrite reconcileSlot_in_sync by done.
  by apply IH.
Qed.

(** A loop that returns leaves its slots in agreement with the disk, and
    its flag is raised exactly when one of them was not. *)
Lemma forSlots_done slots u b w :
  NoDup slots → eval (forSlots slots u) w = Done b →
  synced slots (globalInfo (exec (forSlots slots u) w)) = true ∧
  b = u || negb (synced slots (globalInfo w)).
Proof.
  revert u w. induction slots as [|i slots IH]; intros u w Hnd.
  { intros [= <-]. by rewrite orb_false_r. }
  apply list.NoDup_cons in Hnd as [Hi Hnd].
  rewrite eval_forSlots_cons, exec_forSlots_cons.
  destruct (eval (reconcileSlot i u) w) as [u'|e] eqn:Hstep; [|done].
  intros Hrest. destruct (reconcileSlot_done _ _ _ _ Hstep) as [Hsync ->].
  destruct (IH _ _ Hnd Hrest) as [Hs ->]. cbn [synced forallb]. split.
  - apply andb_true_intro. split; [|done].
    by rewrite (in_sync_ext _ _ _ (forSlots_other _ _ _ _ Hi)).
  - rewrite negb_andb, orb_assoc. do 2 f_equal.
    apply forallb_ext_elem. intros j Hj.
    apply in_sync_ext, reconcileSlot_other. by intros ->.
Qed.

(** The loop returns exactly when none of its slots is blocked. *)
Lemma forSlots_is_done slots u w :
  NoDup slots →
  is_done (eval (forSlots slots u) w) = negb (existsb (blocked (globalInfo w)) slots).
Proof.
  revert u w. induction slots as [|i slots IH]; intros u w Hnd; [done|].
  apply list.NoDup_cons in Hnd as [Hi Hnd].
  rewrite eval_forSlots_cons. cbn [existsb]. rewrite negb_orb.
  rewrite <-reconcileSlot_throws with (u := u).
  destruct (eval (reconcileSlot i u) w) as [u'|e]; [|done]. simpl.
  rewrite IH by done. f_equal. apply existsb_ext_elem.
  intros j Hj. apply blocked_ext, reconcileSlot_other. by intros ->.
Qed.

(** The loop changes nothing but the index, the console and the clock. *)
Lemma forSlots_rest slots u w :
  let w' := exec (forSlots slots u) w in
  _globalInfo w' = _globalInfo w ∧ storedGlobal w' = storedGlobal w ∧
  console w `prefix_of` console w'.
Proof.
  cbv zeta. revert u w. induction slots as [|i slots IH]; intros u w; [done|].
  destruct (reconcileSlot_rest i u w) as (H1 & H2 & H3).
  rewrite exec_forSlots_cons.
  destruct (eval (reconcileSlot i u) w) as [u'|e]; [|done].
  destruct (IH u' (exec (reconcileSlot i u) w)) as (H1' & H2' & H3').
  split; [congruence|]. split; [congruence|]. by etrans.
Qed.

(** A step that throws has not written to the index. *)
Lemma reconcileSlot_throw_unchanged i u w e :
  eval (reconcileSlot i u) w = Throw e →
  globalInfo (exec (reconcileSlot i u) w) = globalInfo w.
Proof.
  unfold eval, exec.
  destruct (reconcileSlot_cases i u w) as
    [[_ ->]|[(_ & _ & ->)|(_ & _ & [(info & _ & ->)|(e' & _ & ->)])]]; try done.
  intros _. apply (frame_globalInfo _ _ (synthesize_frame i w)).
Qed.

(** A loop that throws stopped at the first blocked slot [k]: the slots
    before it agree with the disk, and no other slot was written to. *)
Lemma forSlots_throw slots u w e :
  NoDup slots → eval (forSlots slots u) w = Throw e →
  ∃ pre k post, slots = pre ++ k :: post ∧
    blocked (globalInfo w) k = true ∧
    existsb (blocked (globalInfo w)) pre = false ∧
    synced pre (globalInfo (exec (forSlots slots u) w)) = true ∧
    ∀ j, j ∉ pre →
      arr_get (globalInfo (exec (forSlots slots u) w)) j = arr_get (globalInfo w) j.
Proof.
  revert u w. induction slots as [|i slots IH]; intros u w Hnd; [done|].
  apply list.NoDup_cons in Hnd as [Hi Hnd].
  rewrite eval_forSlots_cons, exec_forSlots_cons.
  pose proof (reconcileSlot_throws i u w) as Hblk.
  destruct (eval (reconcileSlot i u) w) as [u'|e'] eqn:Hstep.
  - intros (pre & k & post & -> & Hk & Hpre & Hs & Hout)%IH; [|done].
    exists (i :: pre), k, post. split; [done|].
    apply not_elem_of_app in Hi as [Hipre [Hik _]%not_elem_of_cons].
    assert (∀ j, i ≠ j → blocked (globalInfo (exec (reconcileSlot i u) w)) j
                        = blocked (globalInfo w) j) as Hext
      by (intros j Hj; by apply blocked_ext, reconcileSlot_other).
    split; [by rewrite <-Hext|]. cbn [existsb synced forallb].
    split; [|split].
    + simpl in Hblk. symmetry in Hblk. apply negb_true_iff in Hblk.
      rewrite Hblk. simpl. rewrite <-Hpre.
      apply existsb_ext_elem. intros j Hj. symmetry. apply Hext. by intros ->.
    + apply andb_true_intro. split; [|done].
      rewrite (in_sync_ext _ _ _ (Hout _ Hipre)).
      by destruct (reconcileSlot_done _ _ _ _ Hstep).
    + intros j [Hij Hj]%not_elem_of_cons. rewrite Hout by done.
      by apply reconcileSlot_other.
  - intros _. exists [], i, slots. split; [done|].
    simpl in Hblk. symmetry in Hblk. apply negb_false_iff in Hblk.
    split; [done|]. do 2 (split; [done|]).
    intros j _. by rewrite (reconcileSlot_throw_unchanged _ _ _ _ Hstep).
Qed.

Lemma allSlots_NoDup : NoDup allSlots.
Proof. apply NoDup_seq. Qed.

Lemma elem_of_allSlots i : i ∈ allSlots ↔ (Z.of_nat i ≤ maxSavefiles)%Z.
Proof. unfold allSlots. rewrite elem_of_seq. lia. Qed.

(** The slots visited before slot [k] are the slots below [k]. *)
Lemma allSlots_split pre k post :
  allSlots = pre ++ k :: post → (∀ j, j ∈ pre ↔ j < k) ∧ k ∈ allSlots.
Proof.
  intros Hsplit. split; [|rewrite Hsplit; set_solver].
  assert (k = length pre) as ->.
  { assert (allSlots !! length pre = Some k) as Hk
      by (by rewrite Hsplit, list_lookup_middle).
    unfold allSlots in Hk. apply lookup_seq in Hk. lia. }
  assert (pre = seq 0 (length pre)) as Hpre.
  { pose proof (f_equal length Hsplit) as Hlen. unfold allSlots in Hlen.
    rewrite length_seq, length_app in Hlen. simpl in Hlen.
    rewrite <-(take_app_length pre (length pre :: post)) at 1.
    rewrite <-Hsplit. unfold allSlots. rewrite take_seq.
    by rewrite Nat.min_l by lia. }
  intros j. rewrite Hpre at 1. rewrite elem_of_seq. lia.
Qed.

(** A property of every slot in range, checked by running over the slots. *)
Lemma allSlots_forallb (P : nat → bool) :
  forallb P allSlots = true ↔ ∀ i, (Z.of_nat i ≤ maxSavefiles)%Z → P i = true.
Proof. rewrite forallb_True. by setoid_rewrite elem_of_allSlots. Qed.

Lemma synced_allSlots a :
  synced allSlots a = true ↔
  ∀ i, (Z.of_nat i ≤ maxSavefiles)%Z → truthy (arr_get a i) = savefileExists i.
Proof.
  unfold synced. rewrite forallb_True. setoid_rewrite elem_of_allSlots.
  by setoid_rewrite in_sync_true.
Qed.

End loop.

(** ** The pass *)

Section pass.
Context `{Host, !Synthesizer}.
Implicit Types (w : World) (i j k : nat) (b : bool).

(** The loop lemmas at the slots of the method. *)
Lemma updateGlobalInfo_done w b :
  eval updateGlobalInfo w = Done b →
  synced allSlots (globalInfo (exec updateGlobalInfo w)) = true ∧
  b = negb (synced allSlots (globalInfo w)).
Proof. apply (forSlots_done allSlots false), allSlots_NoDup. Qed.

Lemma updateGlobalInfo_is_done w :
  is_done (eval updateGlobalInfo w) =
  negb (existsb (blocked (globalInfo w)) allSlots).
Proof. apply forSlots_is_done, allSlots_NoDup. Qed.

Lemma updateGlobalInfo_unchanged w :
  eval updateGlobalInfo w = Done false → exec updateGlobalInfo w = w.
Proof.
  intros Hrun. destruct (updateGlobalInfo_done _ _ Hrun) as [_ Hs].
  unfold exec, updateGlobalInfo. rewrite forSlots_synced; [done|].
  by destruct (synced allSlots (globalInfo w)).
Qed.

(** The loop of the source ends: the test fails after the slots from
    [i] to [maxSavefiles()], so with one test more than there are slots
    left it gives what [forSlots] gives on the list of these slots. *)
Lemma forLoop_forSlots fuel i u w :
  Z.to_nat (maxSavefiles + 1) - i < fuel →
  forLoop fuel i u w = Some (forSlots (seq i (Z.to_nat (maxSavefiles + 1) - i)) u w).
Proof.
  revert i u w. induction fuel as [|fuel IH]; intros i u w Hfuel; [lia|]. simpl.
  destruct (Z.leb_spec (Z.of_nat i) maxSavefiles) as [Hi|Hi].
  - replace (Z.to_nat (maxSavefiles + 1) - i) with (S (Z.to_nat (maxSavefiles + 1) - S i))
      by lia.
    rewrite <-cons_seq, forSlots_cons, (exec_eval (reconcileSlot i u) w).
    destruct (eval (reconcileSlot i u) w) as [u'|e]; [|done]. apply IH. lia.
  - by replace (Z.to_nat (maxSavefiles + 1) - i) with 0 by lia.
Qed.

(** The method is the loop of the source from 0, with any fuel above the
    number of slots. *)
Theorem updateGlobalInfo_loop fuel w :
  Z.to_nat (maxSavefiles + 1) < fuel → forLoop fuel 0 false w = Some (updateGlobalInfo w).
Proof.
  intros Hfuel. rewrite forLoop_forSlots by lia.
  by rewrite Nat.sub_0_r.
Qed.

(** Every save file in range has a payload that loads, in the terms of
    [blocked]. *)
Lemma not_blocked_allSlots a :
  (∀ i, (Z.of_nat i ≤ maxSavefiles)%Z → savefileExists i = true →
        truthy (arr_get a i) = false → synthesizable i = true) ↔
  existsb (blocked a) allSlots = false.
Proof.
  rewrite <-not_true_iff_false, existsb_True.
  setoid_rewrite elem_of_allSlots. unfold blocked. split.
  - intros Hall (i & Hi & Hb). apply andb_prop in Hb as [[He Ht]%andb_prop Hs].
    apply negb_true_iff in Ht, Hs. rewrite Hall in Hs by done. done.
  - intros Hno i Hi He Ht. destruct (synthesizable i) eqn:Hs; [done|].
    destruct Hno. exists i. by rewrite He, Ht, Hs.
Qed.

(** C1: after a pass that returns, every slot from 0 to [maxSavefiles()]
    has a record exactly when its save file exists. *)
Theorem updateGlobalInfo_synced w b i :
  eval updateGlobalInfo w = Done b → (Z.of_nat i ≤ maxSavefiles)%Z →
  truthy (arr_get (globalInfo (exec updateGlobalInfo w)) i) = savefileExists i.
Proof.
  intros Hrun Hi. destruct (updateGlobalInfo_done _ _ Hrun) as [Hs _].
  by apply synced_allSlots.
Qed.

(** C2: the pass reports no change exactly when every slot in range
    already agreed with the disk. *)
Theorem updateGlobalInfo_flag w b :
  eval updateGlobalInfo w = Done b →
  (b = false ↔
   ∀ i, (Z.of_nat i ≤ maxSavefiles)%Z →
        truthy (arr_get (globalInfo w) i) = savefileExists i).
Proof.
  intros Hrun. destruct (updateGlobalInfo_done _ _ Hrun) as [_ ->].
  rewrite <-synced_allSlots. by destruct (synced allSlots (globalInfo w)).
Qed.

(** On an index that agrees with the disk the pass returns at once:
    no write, no console line, no clock reading. *)
Theorem updateGlobalInfo_noop w :
  (∀ i, (Z.of_nat i ≤ maxSavefiles)%Z →
        truthy (arr_get (globalInfo w) i) = savefileExists i) →
  updateGlobalInfo w = (w, Done false).
Proof. intros Hs%synced_allSlots. by apply forSlots_synced. Qed.


(** C16: a second pass, with the disk unchanged, changes nothing and
    reports no change. *)
Theorem updateGlobalInfo_idempotent w b :
  eval updateGlobalInfo w = Done b →
  updateGlobalInfo (exec updateGlobalInfo w) = (exec updateGlobalInfo w, Done false).
Proof.
  intros Hrun. destruct (updateGlobalInfo_done _ _ Hrun) as [Hs _].
  by apply forSlots_synced.
Qed.

(** Slots above [maxSavefiles()] are never written to, whatever the
    outcome of the pass. *)
Theorem updateGlobalInfo_outside w i :
  (maxSavefiles < Z.of_nat i)%Z →
  arr_get (globalInfo (exec updateGlobalInfo w)) i = arr_get (globalInfo w) i.
Proof. intros Hi. apply forSlots_other. rewrite elem_of_allSlots. lia. Qed.

(** A slot that agrees with the disk is left as it is, whatever the
    outcome of the pass: a record that is present is never rebuilt, and a
    [null] or a hole where no save file exists stays what it was. *)
Theorem updateGlobalInfo_kept w i :
  truthy (arr_get (globalInfo w) i) = savefileExists i →
  arr_get (globalInfo (exec updateGlobalInfo w)) i = arr_get (globalInfo w) i.
Proof. intros Hi%in_sync_true. by apply forSlots_kept. Qed.

(** The pass returns exactly when every save file in range that lacks
    a record can be given one; otherwise it throws. *)
Theorem updateGlobalInfo_completes w :
  is_done (eval updateGlobalInfo w) = true ↔
  ∀ i, (Z.of_nat i ≤ maxSavefiles)%Z → savefileExists i = true →
       truthy (arr_get (globalInfo w) i) = false → synthesizable i = true.
Proof.
  rewrite updateGlobalInfo_is_done, negb_true_iff.
  symmetry. apply not_blocked_allSlots.
Qed.

(** C4: a pass that throws stopped at the lowest slot [k] whose save file
    exists, has no record and cannot be given one. The slots below [k]
    are repaired and agree with the disk; slot [k] and the slots above it
    are as they were. *)
Theorem updateGlobalInfo_abort w e :
  eval updateGlobalInfo w = Throw e →
  ∃ k, (Z.of_nat k ≤ maxSavefiles)%Z ∧ blocked (globalInfo w) k = true ∧
    (∀ j, j < k →
       blocked (globalInfo w) j = false ∧
       truthy (arr_get (globalInfo (exec updateGlobalInfo w)) j) = savefileExists j) ∧
    (∀ j, k ≤ j →
       arr_get (globalInfo (exec updateGlobalInfo w)) j = arr_get (globalInfo w) j).
Proof.
  intros Hrun.
  destruct (forSlots_throw _ _ _ _ allSlots_NoDup Hrun)
    as (pre & k & post & Hsplit & Hk & Hpre & Hs & Hout).
  destruct (allSlots_split _ _ _ Hsplit) as [Hlt Hin].
  exists k. split; [by apply elem_of_allSlots|]. split; [done|]. split.
  - intros j Hj%Hlt. split.
    + apply not_true_iff_false. intros Hb.
      apply not_true_iff_false in Hpre. apply Hpre, existsb_True. eauto.
    + unfold synced in Hs. rewrite forallb_True in Hs. by apply in_sync_true, Hs.
  - intros j Hj. apply Hout. rewrite Hlt. lia.
Qed.

(** The pass touches neither [DataManager._globalInfo] nor the storage,
    and only appends to the console. *)
Theorem updateGlobalInfo_rest w :
  let w' := exec updateGlobalInfo w in
  _globalInfo w' = _globalInfo w ∧ storedGlobal w' = storedGlobal w ∧
  console w `prefix_of` console w'.
Proof. apply forSlots_rest. Qed.

End pass.
