(* ===== verification/IndexSpec.v ===== *)
(** * The abstract index

    What callers see of the index is a finite map from slot to record:
    a slot has a record or it has none. This file gives that view of an
    array ([absIndex]), the specification of a pass on maps
    ([reconcile_spec]), and the proof that [updateGlobalInfo] refines it.
    Arrays that denote the same map are [index_equiv]; the reads the pass
    makes and the writes it performs respect the equivalence. *)

From stdpp Require Import strings gmap functions.
From S2P Require Import Prelude JsBase Host Reconciler.

(** ** The abstraction *)

(** The records of an array, by slot: holes and [null] denote no record. *)
Definition absIndex (a : jsarray SaveInfo) : gmap nat SaveInfo :=
  omap elem_obj (map_seq 0 a).

(** Arrays that denote the same index. *)
Definition index_equiv (a b : jsarray SaveInfo) : Prop := absIndex a = absIndex b.

Infix "≡ᵢ" := index_equiv (at level 70, no associativity) : prog_scope.

(** ** The specification *)

(** A slot, on maps: a save file without a record gets the fresh one, a
    record without a save file is deleted, anything else stays. *)
Definition spec_slot (present : bool) (fresh : SaveInfo) (i : nat)
    (m : gmap nat SaveInfo) : gmap nat SaveInfo :=
  if present then
    match m !! i with
    | Some _ => m
    | None => <[i:=fresh]> m
    end
  else delete i m.

(** A pass, on maps: the slots in order; [fresh i] is the record that
    synthesis gives slot [i]. *)
Definition reconcile_spec (present : nat → bool) (fresh : nat → SaveInfo)
    (slots : list nat) (m : gmap nat SaveInfo) : gmap nat SaveInfo :=
  foldl (λ m i, spec_slot (present i) (fresh i) i m) m slots.

(** ** Facts about the abstraction *)

Section abstraction.
Implicit Types (a b : jsarray SaveInfo) (i : nat) (x : SaveInfo)
  (m : gmap nat SaveInfo).

Lemma lookup_absIndex a i : absIndex a !! i = elem_obj (arr_get a i).
Proof.
  unfold absIndex, arr_get. rewrite lookup_omap, lookup_map_seq_0.
  by destruct (a !! i).
Qed.

Lemma truthy_absIndex a i :
  truthy (arr_get a i) = bool_decide (is_Some (absIndex a !! i)).
Proof.
  rewrite lookup_absIndex. destruct (arr_get a i); simpl;
    by rewrite ?(bool_decide_eq_true_2 _ (mk_is_Some _ _ eq_refl)),
               ?(bool_decide_eq_false_2 _ is_Some_None).
Qed.

Lemma index_equiv_lookup a b :
  a ≡ᵢ b ↔ ∀ i, elem_obj (arr_get a i) = elem_obj (arr_get b i).
Proof.
  unfold index_equiv. rewrite map_eq_iff.
  by setoid_rewrite lookup_absIndex.
Qed.

#[export] Instance index_equiv_equivalence : Equivalence index_equiv.
Proof.
  unfold index_equiv. split; [by intros a | by intros a b | ].
  intros a b c. congruence.
Qed.

#[export] Instance absIndex_proper : Proper (index_equiv ==> (=)) absIndex.
Proof. by intros a b Hab. Qed.

(** A write of a record is an insertion, a deletion is a deletion. *)
Lemma absIndex_set a i x : absIndex (arr_set a i (Obj x)) = <[i:=x]> (absIndex a).
Proof.
  apply map_eq. intros j. rewrite lookup_absIndex, lookup_insert.
  case_decide as Hij; [subst; by rewrite arr_get_set_eq|].
  by rewrite arr_get_set_ne, lookup_absIndex.
Qed.

Lemma absIndex_delete a i : absIndex (arr_delete a i) = delete i (absIndex a).
Proof.
  apply map_eq. intros j. rewrite lookup_absIndex, lookup_delete.
  case_decide as Hij; [subst; by rewrite arr_get_delete_eq|].
  by rewrite arr_get_delete_ne, lookup_absIndex.
Qed.

#[export] Instance arr_set_proper i x :
  Proper (index_equiv ==> index_equiv) (λ a, arr_set a i (Obj x)).
Proof. intros a b Hab. unfold index_equiv. by rewrite !absIndex_set, Hab. Qed.

#[export] Instance arr_delete_proper i :
  Proper (index_equiv ==> index_equiv) (λ a, arr_delete a i).
Proof. intros a b Hab. unfold index_equiv. by rewrite !absIndex_delete, Hab. Qed.

(** Serialisation does not change the index. *)
Lemma json_array_equiv a : json_array a ≡ᵢ a.
Proof. apply index_equiv_lookup. intros i. apply json_array_get. Qed.

Lemma absIndex_nil : absIndex [] = ∅.
Proof. apply map_eq. intros i. by rewrite lookup_absIndex, lookup_empty. Qed.

End abstraction.

(** ** Facts about the specification *)

Section specification.
Implicit Types (present : nat → bool) (fresh : nat → SaveInfo) (i j : nat)
  (m : gmap nat SaveInfo) (slots : list nat).

Lemma spec_slot_lookup (p : bool) x i m j :
  spec_slot p x i m !! j =
  if decide (i = j) then (if p then Some (default x (m !! i)) else None)
  else m !! j.
Proof.
  unfold spec_slot. destruct p.
  - destruct (m !! i) as [y|] eqn:Hi.
    + case_decide; by subst.
    + rewrite lookup_insert. by case_decide.
  - rewrite lookup_delete. by case_decide.
Qed.

Lemma reconcile_spec_snoc present fresh slots i m :
  reconcile_spec present fresh (slots ++ [i]) m =
  spec_slot (present i) (fresh i) i (reconcile_spec present fresh slots m).
Proof. unfold reconcile_spec. by rewrite foldl_app. Qed.

(** What the specification gives each slot: a visited slot has a record
    exactly when its save file is present, the old record if there was
    one and the fresh one otherwise; other slots keep what they had. *)
Lemma reconcile_spec_lookup present fresh slots m j :
  reconcile_spec present fresh slots m !! j =
  if decide (j ∈ slots)
  then (if present j then Some (default (fresh j) (m !! j)) else None)
  else m !! j.
Proof.
  revert j. induction slots as [|i slots IH] using rev_ind; intros j.
  { by rewrite decide_False by apply not_elem_of_nil. }
  rewrite reconcile_spec_snoc, spec_slot_lookup, !IH.
  destruct (decide (i = j)) as [->|Hij].
  - rewrite (decide_True (P := j ∈ slots ++ [j])) by set_solver.
    destruct (present j); [|done]. by case_decide.
  - case_decide as Hj.
    + by rewrite decide_True by set_solver.
    + by rewrite decide_False by set_solver.
Qed.

Lemma reconcile_spec_fresh_ext present fresh fresh' slots m :
  (∀ i, i ∈ slots → fresh i = fresh' i) →
  reconcile_spec present fresh slots m = reconcile_spec present fresh' slots m.
Proof.
  intros Hext. apply map_eq. intros j. rewrite !reconcile_spec_lookup.
  case_decide; [|done]. by rewrite Hext.
Qed.

Lemma reconcile_spec_cons present fresh i slots m :
  reconcile_spec present fresh (i :: slots) m =
  reconcile_spec present fresh slots (spec_slot (present i) (fresh i) i m).
Proof. reflexivity. Qed.

End specification.

(** ** Refinement *)

Section refinement.
Context `{Host, !Synthesizer}.
Implicit Types (w : World) (a : jsarray SaveInfo) (i j : nat) (u b : bool)
  (slots : list nat).

#[export] Instance in_sync_proper : Proper (index_equiv ==> (=) ==> (=)) in_sync.
Proof.
  intros a b Hab i ? <-. unfold in_sync. by rewrite !truthy_absIndex, Hab.
Qed.

#[export] Instance synced_proper slots : Proper (index_equiv ==> (=)) (synced slots).
Proof.
  intros a b Hab. unfold synced. apply forallb_ext_elem. intros i _.
  by rewrite Hab.
Qed.

Lemma absIndex_None a i : truthy (arr_get a i) = false → absIndex a !! i = None.
Proof. rewrite lookup_absIndex. by destruct (arr_get a i). Qed.

Lemma absIndex_Some a i :
  truthy (arr_get a i) = true → is_Some (absIndex a !! i).
Proof. rewrite lookup_absIndex. by destruct (arr_get a i). Qed.

(** A step of the loop that returns is a step of the specification, for
    some fresh record. *)
Lemma reconcileSlot_refines i u b w :
  eval (reconcileSlot i u) w = Done b →
  ∃ x, absIndex (globalInfo (exec (reconcileSlot i u) w)) =
       spec_slot (savefileExists i) x i (absIndex (globalInfo w)).
Proof.
  unfold eval, exec, spec_slot.
  destruct (reconcileSlot_cases i u w) as
    [[Hi ->]|[(He & Hi & ->)|(He & Hi & [(info & _ & ->)|(e & _ & ->)])]];
    cbn [fst snd globalInfo set_globalInfo]; [| | |done]; intros _.
  - exists inhabitant. destruct (savefileExists i).
    + by destruct (absIndex_Some _ _ Hi) as [x ->].
    + by rewrite delete_id by by apply absIndex_None.
  - exists inhabitant. by rewrite He, absIndex_delete.
  - exists info. rewrite He, absIndex_set, absIndex_None by done.
    by rewrite (frame_globalInfo _ _ (synthesize_frame i w)).
Qed.

Lemma forSlots_refines slots u b w :
  NoDup slots → eval (forSlots slots u) w = Done b →
  ∃ fresh, absIndex (globalInfo (exec (forSlots slots u) w)) =
           reconcile_spec savefileExists fresh slots (absIndex (globalInfo w)).
Proof.
  revert u w. induction slots as [|i slots IH]; intros u w Hnd.
  { intros _. by exists (λ _, inhabitant). }
  apply list.NoDup_cons in Hnd as [Hi Hnd].
  rewrite eval_forSlots_cons, exec_forSlots_cons.
  destruct (eval (reconcileSlot i u) w) as [u'|e] eqn:Hstep; [|done].
  intros (fresh & ->)%IH; [|done].
  destruct (reconcileSlot_refines _ _ _ _ Hstep) as [x ->].
  exists (<[i:=x]> fresh). rewrite reconcile_spec_cons, fn_lookup_insert.
  apply reconcile_spec_fresh_ext. intros j Hj.
  rewrite fn_lookup_insert_ne; [done | by intros ->].
Qed.

Lemma updateGlobalInfo_spec w b :
  eval updateGlobalInfo w = Done b →
  ∃ fresh, absIndex (globalInfo (exec updateGlobalInfo w)) =
           reconcile_spec savefileExists fresh allSlots (absIndex (globalInfo w)).
Proof. apply forSlots_refines, allSlots_NoDup. Qed.

(** C5: refinement. A pass that returns computes, on the index the array
    denotes, the pass of the specification for some choice of fresh
    records, and its flag says whether the index changed. *)
Theorem updateGlobalInfo_refines w b :
  eval updateGlobalInfo w = Done b →
  let m := absIndex (globalInfo w) in
  let m' := absIndex (globalInfo (exec updateGlobalInfo w)) in
  (∃ fresh, m' = reconcile_spec savefileExists fresh allSlots m) ∧
  b = bool_decide (m' ≠ m).
Proof.
  intros Hrun. cbv zeta. split; [by eapply updateGlobalInfo_spec|].
  destruct (updateGlobalInfo_done _ _ Hrun) as [Hs' ->].
  destruct (synced allSlots (globalInfo w)) eqn:Hs; simpl.
  - unfold updateGlobalInfo, exec. rewrite forSlots_synced by done.
    by rewrite bool_decide_eq_false_2 by (intros Hne; by apply Hne).
  - rewrite bool_decide_eq_true_2; [done|]. intros Heq.
    fold (index_equiv (globalInfo (exec updateGlobalInfo w)) (globalInfo w)) in Heq.
    rewrite <-Heq in Hs. congruence.
Qed.

(** What a pass that returns leaves in each slot, in terms of the
    index: a slot in range has a record exactly when its save file
    exists, the record it had if it had one; a slot out of range keeps
    what it had. *)
Theorem updateGlobalInfo_lookup w b i :
  eval updateGlobalInfo w = Done b →
  let m := absIndex (globalInfo w) in
  let m' := absIndex (globalInfo (exec updateGlobalInfo w)) in
  if decide (Z.of_nat i ≤ maxSavefiles)%Z
  then (if savefileExists i
        then is_Some (m' !! i) ∧ (is_Some (m !! i) → m' !! i = m !! i)
        else m' !! i = None)
  else m' !! i = m !! i.
Proof.
  intros Hrun. cbv zeta.
  destruct (updateGlobalInfo_spec _ _ Hrun) as [fresh ->].
  rewrite reconcile_spec_lookup.
  destruct (decide (Z.of_nat i ≤ maxSavefiles)%Z) as [Hi|Hi].
  - rewrite decide_True by by apply elem_of_allSlots.
    destruct (savefileExists i); [|done]. split; [done|]. by intros [x ->].
  - by rewrite decide_False by by rewrite elem_of_allSlots.
Qed.

End refinement.
