(* ===== verification/Loader.v ===== *)
(** * IndexLoader

    [DataManager.loadGlobalInfo], the method the plugin replaces: the
    promise chain that loads the index, substitutes an empty one when the
    load fails, runs the pass, publishes the index as
    [DataManager._globalInfo] and persists it when the pass reports a
    change. The callbacks of the chain run one after the other, so the
    chain is written here as a sequential program; [Jobs] models the
    callbacks as separate jobs and shows that they compute this program. *)

From stdpp Require Import strings gmap.
From S2P Require Import Prelude JsBase Host Extractor Synthesis Reconciler IndexSpec.

(** ** The method *)

Section loader.
Context `{Host}.
Implicit Types (w : World) (a : jsarray SaveInfo) (i : nat) (b : bool).

(** The callback of [then]: the loaded index becomes the pending one. *)
Definition onLoaded (globalInfo : jsarray SaveInfo) : M unit :=
  modify (set_globalInfo (λ _, globalInfo)) >>
  console_emit GlobalInfoLoaded.

(** The callback of [catch]: an empty index becomes the pending one. *)
Definition onLoadFailed : M unit :=
  console_emit GlobalInfoUnreadable >>
  modify (set_globalInfo (λ _, [])).

(** [this._globalInfo = pendingGlobalInfo] *)
Definition publish : M unit :=
  modify (λ w, set__globalInfo (Some (globalInfo w)) w).

(** The callback of the inner [then]. *)
Definition onUpdated (infoUpdated : bool) : M unit :=
  publish >>
  if infoUpdated then saveGlobalInfo else ret tt.

(** The callback of the inner [catch]. *)
Definition onUpdateFailed (err : JsError) : M unit :=
  publish >>
  console_emit (UpdateFailed err).

(** The callback of [finally]. *)
Definition onFinally : M unit :=
  try_catch (let* infoUpdated := updateGlobalInfo in onUpdated infoUpdated)
    onUpdateFailed.

Definition loadGlobalInfo : M unit :=
  let* stored := gets storedGlobal in
  (match stored with
   | Done globalInfo => onLoaded globalInfo
   | Throw _ => onLoadFailed
   end) >>
  onFinally.

(** ** Reference definitions *)

(** The world in which the pass starts: the pending index is the stored
    one, or the empty one when the load fails, and the load is logged. *)
Definition loaded_world w : World :=
  match storedGlobal w with
  | Done a => set_console (λ out, out ++ [GlobalInfoLoaded]) (set_globalInfo (λ _, a) w)
  | Throw _ =>
      set_globalInfo (λ _, []) (set_console (λ out, out ++ [GlobalInfoUnreadable]) w)
  end.

(** ** The chain, run *)

Lemma onFinally_run w :
  onFinally w =
  let w1 := exec updateGlobalInfo w in
  match eval updateGlobalInfo w with
  | Done true =>
      (set_storedGlobal (Done (json_array (globalInfo w1)))
         (set__globalInfo (Some (globalInfo w1)) w1), Done tt)
  | Done false => (set__globalInfo (Some (globalInfo w1)) w1, Done tt)
  | Throw e =>
      (set_console (λ out, out ++ [UpdateFailed e])
         (set__globalInfo (Some (globalInfo w1)) w1), Done tt)
  end.
Proof.
  unfold onFinally, try_catch. rewrite run_bind.
  by destruct (eval updateGlobalInfo w) as [[|]|e].
Qed.

Lemma loadGlobalInfo_run w : loadGlobalInfo w = onFinally (loaded_world w).
Proof.
  unfold loadGlobalInfo, loaded_world. prog_simpl.
  destruct (storedGlobal w); unfold onLoaded, onLoadFailed, console_emit; by prog_simpl.
Qed.

Lemma loaded_world_globalInfo w :
  globalInfo (loaded_world w) =
  match storedGlobal w with Done a => a | Throw _ => [] end.
Proof. unfold loaded_world. by destruct (storedGlobal w). Qed.

Lemma loaded_world_storedGlobal w : storedGlobal (loaded_world w) = storedGlobal w.
Proof. unfold loaded_world. by destruct (storedGlobal w) eqn:Hst. Qed.

(** The world the chain ends in: the pass has run from the loaded world,
    its index is published, and it is persisted after a change or the
    failure is logged. *)
Lemma loadGlobalInfo_exec w :
  exec loadGlobalInfo w =
  let w1 := exec updateGlobalInfo (loaded_world w) in
  let w2 := set__globalInfo (Some (globalInfo w1)) w1 in
  match eval updateGlobalInfo (loaded_world w) with
  | Done true => set_storedGlobal (Done (json_array (globalInfo w1))) w2
  | Done false => w2
  | Throw e => set_console (λ out, out ++ [UpdateFailed e]) w2
  end.
Proof.
  unfold exec at 1. rewrite loadGlobalInfo_run, onFinally_run. cbv zeta.
  by destruct (eval updateGlobalInfo (loaded_world w)) as [[|]|e].
Qed.

Lemma loadGlobalInfo_globalInfo w :
  globalInfo (exec loadGlobalInfo w) =
  globalInfo (exec updateGlobalInfo (loaded_world w)).
Proof.
  rewrite loadGlobalInfo_exec. cbv zeta.
  by destruct (eval updateGlobalInfo (loaded_world w)) as [[|]|e].
Qed.

Lemma loadGlobalInfo_storedGlobal w :
  storedGlobal (exec loadGlobalInfo w) =
  match eval updateGlobalInfo (loaded_world w) with
  | Done true => Done (json_array (globalInfo (exec loadGlobalInfo w)))
  | _ => storedGlobal w
  end.
Proof.
  rewrite loadGlobalInfo_globalInfo, loadGlobalInfo_exec. cbv zeta.
  destruct (forSlots_rest allSlots false (loaded_world w)) as (_ & Hst & _).
  fold updateGlobalInfo in Hst. rewrite loaded_world_storedGlobal in Hst.
  by destruct (eval updateGlobalInfo (loaded_world w)) as [[|]|e].
Qed.

(** C10: the method never throws: a failed load of the index and a failed
    pass are both absorbed by the chain. *)
Theorem loadGlobalInfo_total w : eval loadGlobalInfo w = Done tt.
Proof.
  unfold eval. rewrite loadGlobalInfo_run, onFinally_run. cbv zeta.
  by destruct (eval updateGlobalInfo (loaded_world w)) as [[|]|e].
Qed.

(** When the chain has run, [DataManager._globalInfo] is set, on every
    path, to the pending index as the pass left it. *)
Theorem loadGlobalInfo_publishes w :
  let w' := exec loadGlobalInfo w in
  _globalInfo w' = Some (globalInfo w') ∧
  globalInfo w' = globalInfo (exec updateGlobalInfo (loaded_world w)).
Proof.
  cbv zeta. rewrite loadGlobalInfo_exec. cbv zeta.
  by destruct (eval updateGlobalInfo (loaded_world w)) as [[|]|e].
Qed.

(** C11: the index is persisted exactly when the pass returns and reports a
    change, and what is persisted is the published index; on every other
    path the storage keeps what it had. *)
Theorem loadGlobalInfo_persists w :
  let w' := exec loadGlobalInfo w in
  storedGlobal w' =
    match eval updateGlobalInfo (loaded_world w) with
    | Done true => Done (json_array (globalInfo w'))
    | _ => storedGlobal w
    end.
Proof. apply loadGlobalInfo_storedGlobal. Qed.

(** The payload of every save file in range loads: a check that runs. *)
Definition payloads_load : bool :=
  forallb (λ j, implb (savefileExists j) (is_done (loadObject (makeSavename j))))
    allSlots.

Lemma payloads_load_spec :
  payloads_load = true →
  ∀ j, (Z.of_nat j ≤ maxSavefiles)%Z → savefileExists j = true →
       is_done (loadObject (makeSavename j)) = true.
Proof.
  intros Hall j Hj He. unfold payloads_load in Hall.
  rewrite allSlots_forallb in Hall. specialize (Hall j Hj). by rewrite He in Hall.
Qed.

(** C26: when every save file that needs a record has a readable payload,
    the published index has a record for a slot in range exactly when the
    save file of the slot exists. *)
Theorem loadGlobalInfo_synced w i :
  (∀ j, (Z.of_nat j ≤ maxSavefiles)%Z → savefileExists j = true →
        is_done (loadObject (makeSavename j)) = true) →
  (Z.of_nat i ≤ maxSavefiles)%Z →
  ∃ a, _globalInfo (exec loadGlobalInfo w) = Some a ∧
       truthy (arr_get a i) = savefileExists i.
Proof.
  intros Hload Hi. exists (globalInfo (exec updateGlobalInfo (loaded_world w))).
  split.
  { rewrite loadGlobalInfo_exec. cbv zeta.
    by destruct (eval updateGlobalInfo (loaded_world w)) as [[|]|e]. }
  pose proof (updateGlobalInfo_is_done (loaded_world w)) as Hd.
  rewrite (proj1 (not_blocked_allSlots _)) in Hd
    by (intros j Hj He _; by apply Hload).
  destruct (eval updateGlobalInfo (loaded_world w)) as [b|e] eqn:Hrun; [|done].
  destruct (updateGlobalInfo_done _ _ Hrun) as [Hs _].
  by apply synced_allSlots.
Qed.

(** The index the chain publishes is the one a reload would start from. *)
Lemma loadGlobalInfo_reloadable w :
  is_done (eval updateGlobalInfo (loaded_world w)) = true →
  globalInfo (loaded_world (exec loadGlobalInfo w)) ≡ᵢ globalInfo (exec loadGlobalInfo w).
Proof.
  intros Hdone. rewrite loaded_world_globalInfo, loadGlobalInfo_storedGlobal.
  rewrite !loadGlobalInfo_globalInfo.
  destruct (eval updateGlobalInfo (loaded_world w)) as [[|]|e] eqn:Hrun; [| |done].
  - apply json_array_equiv.
  - rewrite (updateGlobalInfo_unchanged _ Hrun), loaded_world_globalInfo.
    by destruct (storedGlobal w).
Qed.

(** Running the chain again, with the disk unchanged and after a pass
    that returned, finds nothing to repair: the storage is not written
    again, the published index denotes the same records, and the console
    gains the one line of the load. *)
Theorem loadGlobalInfo_reload w :
  is_done (eval updateGlobalInfo (loaded_world w)) = true →
  let w1 := exec loadGlobalInfo w in
  let w2 := exec loadGlobalInfo w1 in
  storedGlobal w2 = storedGlobal w1 ∧
  globalInfo w2 ≡ᵢ globalInfo w1 ∧
  console w2 = console (loaded_world w1).
Proof.
  intros Hdone. cbv zeta.
  pose proof (loadGlobalInfo_reloadable w Hdone) as Hequiv.
  set (w1 := exec loadGlobalInfo w) in *.
  assert (updateGlobalInfo (loaded_world w1) = (loaded_world w1, Done false)) as Hnoop.
  { apply forSlots_synced. rewrite Hequiv. unfold w1.
    rewrite loadGlobalInfo_globalInfo.
    destruct (eval updateGlobalInfo (loaded_world w)) as [b|] eqn:Hrun; [|done].
    by destruct (updateGlobalInfo_done _ _ Hrun). }
  rewrite (loadGlobalInfo_exec w1). unfold eval, exec. rewrite Hnoop. cbn [fst snd].
  by rewrite <-(loaded_world_storedGlobal w1).
Qed.

End loader.
