(* ===== verification/Trace.v ===== *)
(** * The trace of a pass

    [DataManager.updateGlobalInfo] with [makeMissingSaveInfo] as its
    helper, in closed form: which slots the loop visits, the console lines
    and clock readings it makes in the order of the slots, and the element
    each slot holds afterwards, timestamp included. The order of the slots
    matters for the console and for the timestamps only. *)

From stdpp Require Import strings gmap sorting.
From S2P Require Import Prelude JsBase Host Extractor Synthesis Reconciler.
From S2P Require Import IndexSpec.

(** ** Reference definitions *)

Section trace_defs.
Context `{Host}.
Implicit Types (w : World) (i j : nat) (a : jsarray SaveInfo) (slots : list nat).

(** The save file of the slot exists and the index has no record of it. *)
Definition missing a i : bool :=
  savefileExists i && negb (truthy (arr_get a i)).

(** The index has a record and the save file is gone. *)
Definition stale a i : bool :=
  negb (savefileExists i) && truthy (arr_get a i).

(** The slots of a list for which a record is synthesised. *)
Definition to_restore a slots : list nat := filter (λ i, missing a i) slots.

(** The slots the loop visits: all of them, or those up to the first one
    whose payload does not load. *)
Fixpoint visited a slots : list nat :=
  match slots with
  | [] => []
  | i :: rest => if blocked a i then [i] else i :: visited a rest
  end.

(** The console lines of the synthesis for a slot. *)
Definition synthesis_log i : list LogEntry :=
  match loadObject (makeSavename i) with
  | Done c => restore_log i c
  | Throw _ => [Restoring i]
  end.

(** What slot [i] holds after a pass that returns, when the loop visited
    the slots [pre] before it: a record synthesised at the clock reading
    that follows those of the slots restored earlier, a hole where a stale
    record was, and otherwise what it held. *)
Definition pass_entry w (pre : list nat) i : elem SaveInfo :=
  if missing (globalInfo w) i then
    match loadObject (makeSavename i) with
    | Done c =>
        Obj (restored_info c
               (dateNow (clockReads w + length (to_restore (globalInfo w) pre))))
    | Throw _ => arr_get (globalInfo w) i
    end
  else if stale (globalInfo w) i then Hole
  else arr_get (globalInfo w) i.

(** One past the highest slot of a list: the length an array needs to hold
    them. *)
Definition reach (slots : list nat) : nat := foldr (λ i n, S i `max` n) 0 slots.

(** Worlds a pass cannot tell apart: the same console and clock, and
    arrays that denote the same index. *)
Definition world_equiv (w w' : World) : Prop :=
  console w = console w' ∧ clockReads w = clockReads w' ∧
  globalInfo w ≡ᵢ globalInfo w'.

(** An element without its timestamp. *)
Definition forget_timestamp (e : elem SaveInfo) : elem SaveInfo :=
  match e with
  | Obj info =>
      Obj (mkInfo (title info) (characters info) (faces info) (playtime info) 0)
  | _ => e
  end.

End trace_defs.

(** ** One slot *)

Section trace_slot.
Context `{Host}.
Implicit Types (w : World) (i j : nat) (a : jsarray SaveInfo) (slots : list nat)
  (u b : bool).

Lemma missing_ext a a' i : arr_get a' i = arr_get a i → missing a' i = missing a i.
Proof. unfold missing. by intros ->. Qed.

Lemma stale_ext a a' i : arr_get a' i = arr_get a i → stale a' i = stale a i.
Proof. unfold stale. by intros ->. Qed.

Lemma blocked_missing a i :
  blocked a i = missing a i && negb (is_done (loadObject (makeSavename i))).
Proof. reflexivity. Qed.

Lemma missing_not_in_sync a i : missing a i = true → in_sync a i = false.
Proof.
  unfold missing, in_sync. intros [-> ->%negb_true_iff]%andb_prop.
  by apply bool_decide_eq_false_2.
Qed.

Lemma to_restore_ext a a' slots :
  (∀ j, j ∈ slots → arr_get a' j = arr_get a j) →
  to_restore a' slots = to_restore a slots.
Proof.
  intros Hext. apply filter_bool_ext_elem. intros j Hj.
  by apply missing_ext, Hext.
Qed.

Lemma visited_ext a a' slots :
  (∀ j, j ∈ slots → arr_get a' j = arr_get a j) →
  visited a' slots = visited a slots.
Proof.
  induction slots as [|i slots IH]; intros Hext; [done|]. simpl.
  rewrite (blocked_ext _ _ _ (Hext i ltac:(left))).
  rewrite IH; [done|]. intros j Hj. apply Hext. by right.
Qed.

(** A loop that meets no blocked slot visits every slot. *)
Lemma visited_all a slots :
  existsb (blocked a) slots = false → visited a slots = slots.
Proof.
  induction slots as [|i slots IH]; [done|]. simpl.
  intros [-> Hrest]%orb_false_elim. by rewrite IH.
Qed.

(** The clock reading enters a synthesised record as its timestamp only. *)
Lemma forget_timestamp_restored c now :
  forget_timestamp (Obj (restored_info c now)) = Obj (restored_info c 0).
Proof.
  unfold restored_info. by destruct (extractCharacters c), (extractFaces c).
Qed.

Lemma timestamp_restored c now : timestamp (restored_info c now) = now.
Proof.
  unfold restored_info. by destruct (extractCharacters c), (extractFaces c).
Qed.

(** The body of the loop, with the helper of the plugin, in closed form. *)
Lemma reconcileSlot_run i u w :
  reconcileSlot i u w =
  if missing (globalInfo w) i then
    match loadObject (makeSavename i) with
    | Done c =>
        (set_globalInfo
           (λ a, arr_set a i (Obj (restored_info c (dateNow (clockReads w)))))
           (set_clockReads S (set_console (λ out, out ++ restore_log i c) w)),
         Done true)
    | Throw e =>
        (set_clockReads S (set_console (λ out, out ++ [Restoring i]) w), Throw e)
    end
  else if stale (globalInfo w) i then
    (set_globalInfo (λ a, arr_delete a i) w, Done true)
  else (w, Done u).
Proof.
  unfold missing, stale.
  destruct (savefileExists i) eqn:He, (truthy (arr_get (globalInfo w) i)) eqn:Hi;
    simpl.
  - apply reconcileSlot_keep. congruence.
  - rewrite reconcileSlot_restore by done. simpl.
    rewrite makeMissingSaveInfo_run. cbv zeta.
    by destruct (loadObject (makeSavename i)).
  - by apply reconcileSlot_remove.
  - apply reconcileSlot_keep. congruence.
Qed.

(** What one slot adds to the console and to the clock. *)
Lemma reconcileSlot_trace i u w :
  let w' := exec (reconcileSlot i u) w in
  console w' = console w ++ flat_map synthesis_log (to_restore (globalInfo w) [i]) ∧
  clockReads w' = clockReads w + length (to_restore (globalInfo w) [i]).
Proof.
  cbv zeta. unfold exec, to_restore, synthesis_log. rewrite reconcileSlot_run.
  rewrite filter_bool_cons, filter_nil.
  destruct (missing (globalInfo w) i); simpl; rewrite ?app_nil_r.
  - destruct (loadObject (makeSavename i)); simpl; split; (done || lia).
  - destruct (stale (globalInfo w) i); simpl; split; (done || lia).
Qed.

(** The element a slot holds after its own step, when the step returns. *)
Lemma reconcileSlot_entry i u b w :
  eval (reconcileSlot i u) w = Done b →
  arr_get (globalInfo (exec (reconcileSlot i u) w)) i = pass_entry w [] i.
Proof.
  unfold eval, exec, pass_entry. rewrite reconcileSlot_run. simpl.
  rewrite Nat.add_0_r.
  destruct (missing (globalInfo w) i).
  - destruct (loadObject (makeSavename i)); [|done]. intros _. simpl.
    apply arr_get_set_eq.
  - destruct (stale (globalInfo w) i); [|done]. intros _. simpl.
    apply arr_get_delete_eq.
Qed.

End trace_slot.

(** ** The loop *)

Section trace_loop.
Context `{Host}.
Implicit Types (w : World) (i j : nat) (a : jsarray SaveInfo)
  (slots pre post : list nat) (u b : bool).

Lemma to_restore_cons a i slots :
  to_restore a (i :: slots) = to_restore a [i] ++ to_restore a slots.
Proof. apply (list.filter_app _ [i] slots). Qed.

Lemma to_restore_app a pre post :
  to_restore a (pre ++ post) = to_restore a pre ++ to_restore a post.
Proof. apply list.filter_app. Qed.

Lemma elem_of_to_restore a slots i :
  i ∈ to_restore a slots ↔ missing a i = true ∧ i ∈ slots.
Proof. unfold to_restore. rewrite list_elem_of_filter, Is_true_true. done. Qed.

Lemma visited_subseteq a slots i : i ∈ visited a slots → i ∈ slots.
Proof.
  induction slots as [|k slots IH]; [done|]. simpl.
  destruct (blocked a k); rewrite !elem_of_cons; [set_solver|]. naive_solver.
Qed.

(** The step of a slot is invisible to the bookkeeping of the others. *)
Lemma reconcileSlot_others i u w slots :
  i ∉ slots →
  ∀ j, j ∈ slots →
    arr_get (globalInfo (exec (reconcileSlot i u) w)) j = arr_get (globalInfo w) j.
Proof. intros Hi j Hj. apply reconcileSlot_other. by intros ->. Qed.

(** The console and the clock after the loop, whatever its outcome: the
    lines of each synthesis, in the order in which the slots are visited,
    and one clock reading for each. *)
Lemma forSlots_trace slots u w :
  NoDup slots →
  let w' := exec (forSlots slots u) w in
  let todo := to_restore (globalInfo w) (visited (globalInfo w) slots) in
  console w' = console w ++ flat_map synthesis_log todo ∧
  clockReads w' = clockReads w + length todo.
Proof.
  cbv zeta. revert u w. induction slots as [|i slots IH]; intros u w Hnd.
  { simpl. by rewrite app_nil_r, Nat.add_0_r. }
  apply list.NoDup_cons in Hnd as [Hi Hnd].
  destruct (reconcileSlot_trace i u w) as [Hc Hk].
  pose proof (reconcileSlot_throws i u w) as Hblk.
  pose proof (reconcileSlot_others i u w slots Hi) as Hext.
  rewrite exec_forSlots_cons. cbn [visited].
  destruct (eval (reconcileSlot i u) w) as [u'|e]; simpl in Hblk;
    symmetry in Hblk; [apply negb_true_iff in Hblk|apply negb_false_iff in Hblk];
    rewrite Hblk; [|done].
  destruct (IH u' (exec (reconcileSlot i u) w) Hnd) as [Hc' Hk'].
  rewrite (visited_ext _ _ _ Hext) in Hc', Hk'.
  rewrite (to_restore_ext (globalInfo w)) in Hc', Hk'
    by (intros j Hj%visited_subseteq; by apply Hext).
  rewrite to_restore_cons, flat_map_app, length_app, Hc', Hk', Hc, Hk.
  split; [by rewrite app_assoc | lia].
Qed.

(** What a slot is compared with does not change while the slots before
    it are visited; the clock reading of its synthesis moves on by the
    records synthesised before it. *)
Lemma pass_entry_step k pre i u w :
  k ≠ i → k ∉ pre →
  pass_entry (exec (reconcileSlot k u) w) pre i = pass_entry w (k :: pre) i.
Proof.
  intros Hki Hk. unfold pass_entry.
  pose proof (reconcileSlot_other k i u w Hki) as Hi.
  destruct (reconcileSlot_trace k u w) as [_ Hclock].
  rewrite (missing_ext _ _ _ Hi), (stale_ext _ _ _ Hi), Hi, Hclock.
  rewrite (to_restore_ext (globalInfo w) (globalInfo (exec (reconcileSlot k u) w)))
    by by apply reconcileSlot_others.
  by rewrite (to_restore_cons _ k pre), length_app, Nat.add_assoc.
Qed.

(** The element of a visited slot after a loop that returns. *)
Lemma forSlots_entry pre i post u b w :
  NoDup (pre ++ i :: post) →
  eval (forSlots (pre ++ i :: post) u) w = Done b →
  arr_get (globalInfo (exec (forSlots (pre ++ i :: post) u) w)) i =
    pass_entry w pre i.
Proof.
  revert u w. induction pre as [|k pre IH]; intros u w Hnd;
    [change ([] ++ i :: post) with (i :: post) in *
    |rewrite <-!app_comm_cons in *];
    apply list.NoDup_cons in Hnd as [Hk Hnd];
    rewrite eval_forSlots_cons, exec_forSlots_cons;
    destruct (eval (reconcileSlot _ u) w) as [u'|e] eqn:Hstep; try done;
    intros Hrest.
  - rewrite forSlots_other by done. by eapply reconcileSlot_entry.
  - apply not_elem_of_app in Hk as [Hpre [Hki _]%not_elem_of_cons].
    rewrite (IH _ _ Hnd Hrest). by apply pass_entry_step.
Qed.

(** Without its timestamp, the element of a slot after the loop does not
    depend on the slots visited before it. *)
Lemma forget_timestamp_pass_entry w pre pre' i :
  forget_timestamp (pass_entry w pre i) = forget_timestamp (pass_entry w pre' i).
Proof.
  unfold pass_entry. destruct (missing (globalInfo w) i); [|done].
  destruct (loadObject (makeSavename i)); [|done].
  by rewrite !forget_timestamp_restored.
Qed.

End trace_loop.

(** ** The pass *)

Section trace_pass.
Context `{Host}.
Implicit Types (w : World) (i j : nat) (a : jsarray SaveInfo)
  (slots pre post : list nat) (u b : bool).

(** The loop of the method reaches slot [i] after the slots below it. *)
Lemma allSlots_at i :
  (Z.of_nat i ≤ maxSavefiles)%Z →
  allSlots = seq 0 i ++ i :: seq (S i) (Z.to_nat (maxSavefiles + 1) - S i).
Proof.
  intros Hi. unfold allSlots.
  replace (Z.to_nat (maxSavefiles + 1))
    with (i + S (Z.to_nat (maxSavefiles + 1) - S i)) at 1 by lia.
  by rewrite seq_app.
Qed.

Lemma visited_prefix a slots : visited a slots `prefix_of` slots.
Proof.
  induction slots as [|i slots IH]; [done|]. simpl.
  destruct (blocked a i); [by apply (prefix_cons i []), prefix_nil|].
  by apply prefix_cons.
Qed.

(** The slots a pass restores, in the order of their synthesis, ascend. *)
Lemma to_restore_sorted a :
  StronglySorted lt (to_restore a (visited a allSlots)).
Proof.
  apply (StronglySorted_sublist _ _ allSlots); [|apply StronglySorted_seq].
  etrans; [apply sublist_filter|].
  destruct (visited_prefix a allSlots) as [rest Hrest]. rewrite Hrest at 2.
  by apply sublist_inserts_r.
Qed.

(** Every line a synthesis writes is about its slot. *)
Lemma synthesis_log_slot i e : e ∈ synthesis_log i → log_slot e = Some i.
Proof.
  unfold synthesis_log, restore_log.
  destruct (loadObject (makeSavename i)) as [c|]; [destruct (restore_error c)|];
    set_solver.
Qed.

Lemma elem_of_log_slots slots j :
  j ∈ omap log_slot (flat_map synthesis_log slots) → j ∈ slots.
Proof.
  rewrite list_elem_of_omap. intros (e & He & Hj).
  apply list_elem_of_In, in_flat_map in He as (i & Hi%list_elem_of_In & He%list_elem_of_In).
  apply synthesis_log_slot in He. by simplify_eq.
Qed.

Lemma log_slots_sorted slots :
  StronglySorted lt slots →
  StronglySorted le (omap log_slot (flat_map synthesis_log slots)).
Proof.
  induction slots as [|i slots IH]; [constructor|].
  rewrite StronglySorted_cons, list.Forall_forall. intros [Hi Hs]. simpl.
  rewrite omap_app. apply StronglySorted_app_2; [| |by apply IH].
  - intros x y (e & He%synthesis_log_slot & Hx)%list_elem_of_omap
      Hy%elem_of_log_slots.
    apply Hi in Hy. simplify_eq. lia.
  - unfold synthesis_log, restore_log.
    destruct (loadObject (makeSavename i)) as [c|]; [destruct (restore_error c)|];
      simpl; repeat constructor.
Qed.

End trace_pass.
(** ** Arrays that denote the same index *)

Section trace_equiv.
Context `{Host}.
Implicit Types (w : World) (i j : nat) (a b : jsarray SaveInfo)
  (slots : list nat) (u : bool).

#[export] Instance world_equiv_equivalence : Equivalence world_equiv.
Proof.
  unfold world_equiv. split.
  - by intros w.
  - by intros w w' (-> & -> & ->).
  - intros w1 w2 w3 (-> & -> & ->) (-> & -> & ->). done.
Qed.

#[export] Instance truthy_get_proper i :
  Proper (index_equiv ==> (=)) (λ a, truthy (arr_get a i)).
Proof. intros a b Hab. by rewrite !truthy_absIndex, Hab. Qed.

#[export] Instance missing_proper : Proper (index_equiv ==> (=) ==> (=)) missing.
Proof. intros a b Hab i _ <-. unfold missing. by rewrite (truthy_get_proper i _ _ Hab). Qed.

#[export] Instance stale_proper : Proper (index_equiv ==> (=) ==> (=)) stale.
Proof. intros a b Hab i _ <-. unfold stale. by rewrite (truthy_get_proper i _ _ Hab). Qed.

(** The body of the loop cannot tell equivalent worlds apart. *)
Lemma reconcileSlot_equiv i u w w' :
  world_equiv w w' →
  eval (reconcileSlot i u) w = eval (reconcileSlot i u) w' ∧
  world_equiv (exec (reconcileSlot i u) w) (exec (reconcileSlot i u) w').
Proof.
  intros (Hc & Hk & Ha). unfold eval, exec, world_equiv.
  rewrite !reconcileSlot_run, (missing_proper _ _ Ha i i eq_refl),
    (stale_proper _ _ Ha i i eq_refl), Hk.
  destruct (missing (globalInfo w') i);
    [destruct (loadObject (makeSavename i))|destruct (stale (globalInfo w') i)];
    simpl; rewrite ?Hc, ?Hk; repeat split; try done.
  - by apply (arr_set_proper i).
  - by apply (arr_delete_proper i).
Qed.

(** Neither can the loop. *)
#[export] Instance forSlots_proper slots u :
  Proper (world_equiv ==> prod_relation world_equiv (=)) (forSlots slots u).
Proof.
  revert u. induction slots as [|i slots IH]; intros u w w' Hw; [by split|].
  destruct (reconcileSlot_equiv i u w w' Hw) as [Hev Hex].
  rewrite !forSlots_cons, <-Hev.
  destruct (eval (reconcileSlot i u) w) as [u'|e]; [by apply IH|by split].
Qed.

End trace_equiv.

(** ** Length of the array *)

Section trace_length.
Context `{Host}.
Implicit Types (w : World) (i j n : nat) (a : jsarray SaveInfo)
  (slots : list nat) (u b : bool).

Lemma reach_app slots slots' : reach (slots ++ slots') = reach slots `max` reach slots'.
Proof. induction slots as [|i slots IH]; simpl; [done|]. rewrite IH. lia. Qed.

Lemma reach_bound slots n : (∀ i, i ∈ slots → i < n) → reach slots ≤ n.
Proof.
  induction slots as [|i slots IH]; intros Hn; simpl; [lia|].
  assert (i < n) by (apply Hn; by left).
  assert (reach slots ≤ n) by (apply IH; intros j Hj; apply Hn; by right). lia.
Qed.

(** A step never shrinks the array, and grows it only to hold the record
    of its slot. *)
Lemma reconcileSlot_length i u w :
  let n := length (globalInfo w) in
  n ≤ length (globalInfo (exec (reconcileSlot i u) w))
    ≤ n `max` reach (to_restore (globalInfo w) [i]).
Proof.
  cbv zeta. unfold exec, to_restore. rewrite reconcileSlot_run, filter_bool_cons.
  destruct (missing (globalInfo w) i);
    [destruct (loadObject (makeSavename i))|destruct (stale (globalInfo w) i)];
    simpl; rewrite ?length_arr_set, ?length_arr_delete; lia.
Qed.

Lemma forSlots_length slots u w :
  NoDup slots →
  let n := length (globalInfo w) in
  n ≤ length (globalInfo (exec (forSlots slots u) w))
    ≤ n `max` reach (to_restore (globalInfo w) (visited (globalInfo w) slots)).
Proof.
  cbv zeta. revert u w. induction slots as [|i slots IH]; intros u w Hnd;
    [unfold exec; simpl; lia|].
  apply list.NoDup_cons in Hnd as [Hi Hnd].
  pose proof (reconcileSlot_length i u w) as Hstep. cbv zeta in Hstep.
  pose proof (reconcileSlot_throws i u w) as Hblk.
  pose proof (reconcileSlot_others i u w slots Hi) as Hext.
  rewrite exec_forSlots_cons. cbn [visited].
  destruct (eval (reconcileSlot i u) w) as [u'|e]; simpl in Hblk;
    symmetry in Hblk; [apply negb_true_iff in Hblk|apply negb_false_iff in Hblk];
    rewrite Hblk; [|done].
  specialize (IH u' (exec (reconcileSlot i u) w) Hnd).
  rewrite (visited_ext _ _ _ Hext) in IH.
  rewrite (to_restore_ext (globalInfo w) (globalInfo (exec (reconcileSlot i u) w))) in IH
    by (intros j Hj%visited_subseteq; by apply Hext).
  rewrite to_restore_cons, reach_app. lia.
Qed.

End trace_length.

(** ** Theorems *)

Section trace_theorems.
Context `{Host}.
Implicit Types (w : World) (i j : nat) (slots : list nat) (u b : bool)
  (x y : SaveInfo).

(** A pass that returns found a payload for every record it had to make. *)
Lemma updateGlobalInfo_loads w b i :
  eval updateGlobalInfo w = Done b → (Z.of_nat i ≤ maxSavefiles)%Z →
  missing (globalInfo w) i = true →
  ∃ c, loadObject (makeSavename i) = Done c.
Proof.
  intros Hrun Hi Hm. pose proof (updateGlobalInfo_is_done w) as Hd.
  rewrite Hrun in Hd. simpl in Hd. symmetry in Hd. apply negb_true_iff in Hd.
  assert (blocked (globalInfo w) i = false) as Hb.
  { apply not_true_iff_false. intros Hb. apply not_true_iff_false in Hd.
    apply Hd, existsb_True. exists i. by rewrite elem_of_allSlots. }
  rewrite blocked_missing, Hm in Hb.
  destruct (loadObject (makeSavename i)) as [c|]; [by exists c|done].
Qed.

Lemma updateGlobalInfo_visits_all w b :
  eval updateGlobalInfo w = Done b → visited (globalInfo w) allSlots = allSlots.
Proof.
  intros Hrun. apply visited_all. pose proof (updateGlobalInfo_is_done w) as Hd.
  rewrite Hrun in Hd. simpl in Hd. symmetry in Hd. by apply negb_true_iff in Hd.
Qed.

Lemma updateGlobalInfo_pass_entry w b i :
  eval updateGlobalInfo w = Done b → (Z.of_nat i ≤ maxSavefiles)%Z →
  arr_get (globalInfo (exec updateGlobalInfo w)) i = pass_entry w (seq 0 i) i.
Proof.
  intros Hrun Hi. unfold updateGlobalInfo in *. pose proof allSlots_NoDup as Hnd.
  rewrite (allSlots_at i Hi) in *. by eapply forSlots_entry.
Qed.

(** C34: the console and the clock after a pass, whatever its outcome: the
    pass writes the lines of each synthesis, slot after slot in the order
    of the loop, up to the first payload that does not load, and reads the
    clock once for each; it writes nothing else. *)
Theorem updateGlobalInfo_console w :
  let w' := exec updateGlobalInfo w in
  let todo := to_restore (globalInfo w) (visited (globalInfo w) allSlots) in
  console w' = console w ++ flat_map synthesis_log todo ∧
  clockReads w' = clockReads w + length todo.
Proof. apply forSlots_trace, allSlots_NoDup. Qed.

(** The lines a pass writes are each about a slot that had a save
    file and no record, and they come in ascending order of their slots,
    so the log of a pass is reproducible. *)
Theorem updateGlobalInfo_log_order w :
  ∃ lines, console (exec updateGlobalInfo w) = console w ++ lines ∧
    Forall (λ e, ∃ i, log_slot e = Some i ∧ missing (globalInfo w) i = true) lines ∧
    StronglySorted le (omap log_slot lines).
Proof.
  destruct (forSlots_trace allSlots false w allSlots_NoDup) as [Hc _].
  eexists. split; [exact Hc|]. split.
  - apply list.Forall_forall. intros e He.
    apply list_elem_of_In, in_flat_map in He as (i & Hi%list_elem_of_In & He%list_elem_of_In).
    exists i. split; [by apply synthesis_log_slot|].
    by apply elem_of_to_restore in Hi as [Hm _].
  - apply log_slots_sorted, to_restore_sorted.
Qed.

(** C15: the element of every slot in range after a pass that returns: a
    record synthesised from the payload of the slot, stamped with the
    clock reading that follows those of the records synthesised for lower
    slots, where the save file had no record; a hole where a record had
    no save file; and what the slot held otherwise. *)
Theorem updateGlobalInfo_entry w b i :
  eval updateGlobalInfo w = Done b → (Z.of_nat i ≤ maxSavefiles)%Z →
  arr_get (globalInfo (exec updateGlobalInfo w)) i = pass_entry w (seq 0 i) i ∧
  (missing (globalInfo w) i = true → is_done (loadObject (makeSavename i)) = true).
Proof.
  intros Hrun Hi. split; [by eapply updateGlobalInfo_pass_entry|].
  intros Hm. by destruct (updateGlobalInfo_loads _ _ _ Hrun Hi Hm) as [c ->].
Qed.

(** When the clock does not run backwards, the records a pass
    synthesises carry timestamps that do not decrease with the slot. *)
Theorem updateGlobalInfo_timestamps w b i j :
  (∀ k k', k ≤ k' → (dateNow k ≤ dateNow k')%Z) →
  eval updateGlobalInfo w = Done b →
  i < j → (Z.of_nat j ≤ maxSavefiles)%Z →
  missing (globalInfo w) i = true → missing (globalInfo w) j = true →
  ∃ x y, arr_get (globalInfo (exec updateGlobalInfo w)) i = Obj x ∧
         arr_get (globalInfo (exec updateGlobalInfo w)) j = Obj y ∧
         (timestamp x ≤ timestamp y)%Z.
Proof.
  intros Hclock Hrun Hij Hj Hmi Hmj. assert (Z.of_nat i ≤ maxSavefiles)%Z as Hi by lia.
  destruct (updateGlobalInfo_loads _ _ _ Hrun Hi Hmi) as [ci Hci].
  destruct (updateGlobalInfo_loads _ _ _ Hrun Hj Hmj) as [cj Hcj].
  rewrite !(updateGlobalInfo_pass_entry w b) by done. unfold pass_entry.
  rewrite Hmi, Hmj, Hci, Hcj. do 2 eexists. do 2 (split; [done|]).
  rewrite !timestamp_restored. apply Hclock.
  replace j with (i + (j - i)) by lia. rewrite seq_app, to_restore_app, length_app.
  lia.
Qed.

(** C35: the order in which the slots are visited matters for the
    timestamps only: a loop over the same slots in another order returns
    as well, with the same flag, and leaves in every slot the same element
    up to the timestamp of a synthesised record. *)
Theorem forSlots_permutation slots slots' u b w :
  Permutation slots slots' → NoDup slots →
  eval (forSlots slots u) w = Done b →
  eval (forSlots slots' u) w = Done b ∧
  ∀ j, forget_timestamp (arr_get (globalInfo (exec (forSlots slots' u) w)) j) =
       forget_timestamp (arr_get (globalInfo (exec (forSlots slots u) w)) j).
Proof.
  intros Hp Hnd Hrun. assert (NoDup slots') as Hnd' by by rewrite <-Hp.
  assert (eval (forSlots slots' u) w = Done b) as Hrun'.
  { pose proof (forSlots_is_done slots u w Hnd) as Hd.
    pose proof (forSlots_is_done slots' u w Hnd') as Hd'.
    rewrite <-(existsb_Permutation _ _ _ Hp), <-Hd, Hrun in Hd'.
    destruct (eval (forSlots slots' u) w) as [b'|] eqn:Hrun'; [|done].
    destruct (forSlots_done _ _ _ _ Hnd Hrun) as [_ ->].
    destruct (forSlots_done _ _ _ _ Hnd' Hrun') as [_ ->].
    unfold synced. by rewrite (forallb_Permutation _ _ _ Hp). }
  split; [done|]. intros j. destruct (decide (j ∈ slots)) as [Hj|Hj].
  - assert (j ∈ slots') as Hj' by by rewrite <-Hp.
    apply list_elem_of_split in Hj as (pre & post & ->).
    apply list_elem_of_split in Hj' as (pre' & post' & ->).
    rewrite (forSlots_entry _ _ _ _ _ _ Hnd Hrun),
      (forSlots_entry _ _ _ _ _ _ Hnd' Hrun').
    apply forget_timestamp_pass_entry.
  - rewrite !forSlots_other; [done|done|by rewrite <-Hp].
Qed.

(** C36: a pass cannot tell apart arrays that denote the same index: run
    on two of them, with the same console and clock, it ends the same way
    and leaves arrays that again denote the same index. So an index read
    back from storage, where holes have become [null], is reconciled as
    the array it was written from. *)
Theorem updateGlobalInfo_equiv w w' :
  world_equiv w w' →
  eval updateGlobalInfo w = eval updateGlobalInfo w' ∧
  world_equiv (exec updateGlobalInfo w) (exec updateGlobalInfo w').
Proof.
  intros Hw. destruct (forSlots_proper allSlots false w w' Hw) as [Hex Hev].
  by split.
Qed.

(** A pass never shortens the array, and lengthens it only to hold
    the records it synthesises: at most to one past the highest slot it
    restores, which is at most [maxSavefiles() + 1]. *)
Theorem updateGlobalInfo_length w :
  let n := length (globalInfo w) in
  let top := reach (to_restore (globalInfo w) (visited (globalInfo w) allSlots)) in
  n ≤ length (globalInfo (exec updateGlobalInfo w)) ≤ n `max` top ∧
  top ≤ Z.to_nat (maxSavefiles + 1).
Proof.
  cbv zeta. split; [apply forSlots_length, allSlots_NoDup|].
  apply reach_bound. intros i [_ Hi%visited_subseteq]%elem_of_to_restore.
  apply elem_of_allSlots in Hi. lia.
Qed.

End trace_theorems.

(** ** The sample game *)

(** The order of the slots shows in the timestamps: the same two save
    files restored in either order. *)
Example order_changes_timestamps :
  timestamp <$> elem_obj (arr_get (globalInfo
    (exec (@forSlots sampleHost _ [1; 2] false) (world_of []))) 1) = Some 1000%Z ∧
  timestamp <$> elem_obj (arr_get (globalInfo
    (exec (@forSlots sampleHost _ [2; 1] false) (world_of []))) 1) = Some 1001%Z.
Proof. split; vm_compute; reflexivity. Qed.
