(* ===== verification/Jobs.v ===== *)
(** * The promise chain, job by job

    [DataManager.loadGlobalInfo] returns at once; its work is done by the
    callbacks of its promises, each run as a job of its own once the
    promise it waits for has settled, with other code of the engine free
    to run in between. This file models the chain at that grain: a
    [Phase] says which promise the chain waits for, a [job] is the code
    that runs when it settles. The sequential program of [Loader] is
    shown to be what the jobs compute together. *)

From stdpp Require Import strings gmap relations.
From S2P Require Import Prelude JsBase Host Extractor Synthesis Reconciler.
From S2P Require Import Loader Trace.

(** ** Phases and jobs *)

Section jobs.
Context `{Host}.
Implicit Types (w : World) (i j k : nat) (u b : bool) (info : SaveInfo)
  (slots : list nat).

(** The promise the chain waits for. *)
Inductive Phase : Type :=
(** [StorageManager.loadObject("global")] *)
| LoadingIndex
(** the promise of [then]/[catch], which [finally] waits for *)
| IndexReady
(** the load of the payload of slot [i] in [makeMissingSaveInfo(i)], called
    from iteration [i] of the loop; [info] is the object literal *)
| LoadingPayload (i : nat) (info : SaveInfo)
(** the promise of [makeMissingSaveInfo(i)], which the loop awaits *)
| PayloadReady (i : nat) (r : completion JsError SaveInfo)
(** the promise of [updateGlobalInfo], which the inner [then]/[catch]
    wait for *)
| PassSettled (r : completion JsError bool)
(** nothing: the chain has ended *)
| Finished.

#[export] Instance Phase_eq_dec : EqDecision Phase.
Proof. solve_decision. Defined.

Definition Config : Type := Phase * World.

(** The values [i] takes from [k] on. *)
Definition slotsFrom (k : nat) : list nat :=
  seq k (Z.to_nat (maxSavefiles + 1) - k).

(** [makeMissingSaveInfo] up to its [await]. *)
Definition startSynthesis (savefileId : nat) : M SaveInfo :=
  console_emit (Restoring savefileId) >>
  let* now := date_now in
  ret (defaultInfo now).

(** [makeMissingSaveInfo] from its [await] on, the load having settled
    with [loaded]. *)
Definition finishSynthesis (savefileId : nat) (info : SaveInfo)
    (loaded : completion JsError SaveContents) : M SaveInfo :=
  let* saveContents := await loaded in
  match tryExtract saveContents info with
  | (info, Done _) =>
      console_emit (Restored savefileId) >> ret info
  | (info, Throw err) =>
      console_emit (RestoreFailed savefileId err) >>
      console_emit (CanStillLoad savefileId) >>
      ret info
  end.

(** The loop from the slots [slots] on, up to the next [await] or to its
    [return]: where it suspends and the world it leaves. *)
Fixpoint resume (slots : list nat) (infoUpdated : bool) (w : World) : Config :=
  match slots with
  | [] => (PassSettled (Done infoUpdated), w)
  | i :: rest =>
      if savefileExists i then
        if negb (truthy (arr_get (globalInfo w) i)) then
          match startSynthesis i w with
          | (w', Done info) => (LoadingPayload i info, w')
          | (w', Throw e) => (PassSettled (Throw e), w')
          end
        else resume rest infoUpdated w
      else
        if truthy (arr_get (globalInfo w) i) then
          resume rest true (set_globalInfo (λ a, arr_delete a i) w)
        else resume rest infoUpdated w
  end.

(** The jobs of the chain. *)
Inductive job : Config → Config → Prop :=
| job_index_loaded w globalInfo :
    storedGlobal w = Done globalInfo →
    job (LoadingIndex, w) (IndexReady, exec (onLoaded globalInfo) w)
| job_index_failed w e :
    storedGlobal w = Throw e →
    job (LoadingIndex, w) (IndexReady, exec onLoadFailed w)
| job_finally w :
    job (IndexReady, w) (resume allSlots false w)
| job_payload i info w :
    let rest := finishSynthesis i info (loadObject (makeSavename i)) in
    job (LoadingPayload i info, w) (PayloadReady i (eval rest w), exec rest w)
| job_assign i info w :
    job (PayloadReady i (Done info), w)
      (resume (slotsFrom (S i)) true
         (set_globalInfo (λ a, arr_set a i (Obj info)) w))
| job_rejected i e w :
    job (PayloadReady i (Throw e), w) (PassSettled (Throw e), w)
| job_updated b w :
    job (PassSettled (Done b), w) (Finished, exec (onUpdated b) w)
| job_update_failed e w :
    job (PassSettled (Throw e), w) (Finished, exec (onUpdateFailed e) w).

(** The same, as a function: the job that is ready to run, if any. *)
Definition run_job (c : Config) : option Config :=
  let (phase, w) := c in
  match phase with
  | LoadingIndex =>
      Some (IndexReady,
            match storedGlobal w with
            | Done globalInfo => exec (onLoaded globalInfo) w
            | Throw _ => exec onLoadFailed w
            end)
  | IndexReady => Some (resume allSlots false w)
  | LoadingPayload i info =>
      let rest := finishSynthesis i info (loadObject (makeSavename i)) in
      Some (PayloadReady i (eval rest w), exec rest w)
  | PayloadReady i (Done info) =>
      Some (resume (slotsFrom (S i)) true
              (set_globalInfo (λ a, arr_set a i (Obj info)) w))
  | PayloadReady i (Throw e) => Some (PassSettled (Throw e), w)
  | PassSettled (Done b) => Some (Finished, exec (onUpdated b) w)
  | PassSettled (Throw e) => Some (Finished, exec (onUpdateFailed e) w)
  | Finished => None
  end.

(** The jobs run one after the other, at most [fuel] of them. *)
Fixpoint run_jobs (fuel : nat) (c : Config) : Config :=
  match fuel with
  | 0 => c
  | S fuel =>
      match run_job c with
      | Some c' => run_jobs fuel c'
      | None => c
      end
  end.

(** ** Reference definitions *)

(** The part of the world the engine reads: the published index and the
    storage. *)
Definition visible (w : World) :
    option (jsarray SaveInfo) * completion JsError (jsarray SaveInfo) :=
  (_globalInfo w, storedGlobal w).

(** The slots below [k] agree with the disk. *)
Definition synced_below (k : nat) (w : World) : Prop :=
  ∀ j, j < k → truthy (arr_get (globalInfo w) j) = savefileExists j.

(** What holds of the index while the chain waits: the loop invariant at
    each suspension of the loop, and the postcondition of the pass once
    it has returned. *)
Definition loop_invariant (c : Config) : Prop :=
  match c.1 with
  | LoadingPayload i _ | PayloadReady i _ =>
      (Z.of_nat i ≤ maxSavefiles)%Z ∧ synced_below i c.2 ∧
      missing (globalInfo c.2) i = true
  | PassSettled (Done _) =>
      synced_below (Z.to_nat (maxSavefiles + 1)) c.2
  | _ => True
  end.

End jobs.

(** ** The jobs as a function *)

Section jobs_facts.
Context `{Host}.
Implicit Types (w : World) (i j k : nat) (u b : bool) (info : SaveInfo)
  (slots : list nat) (c : Config).

Lemma job_run c c' : job c c' ↔ run_job c = Some c'.
Proof.
  split.
  - destruct 1 as [w g Hg|w e He| | | | | |]; simpl; by rewrite ?Hg, ?He.
  - destruct c as [[| |i info|i [info|e]|[b|e]|] w]; simpl; intros [= <-];
      try by constructor.
    destruct (storedGlobal w) eqn:Hst; by econstructor.
Qed.

Lemma job_deterministic : deterministic job.
Proof. intros c c1 c2 H1%job_run H2%job_run. congruence. Qed.

Lemma Finished_nf w : nf job (Finished, w).
Proof. intros [c' Hjob%job_run]. done. Qed.

Lemma job_from_unfinished c c' : job c c' → c.1 ≠ Finished.
Proof.
  destruct c as [p w]. intros Hjob Hp. simpl in Hp. subst p.
  by eapply Finished_nf; eexists.
Qed.

(** Running the jobs follows the relation, and stops where it stops. *)
Lemma run_jobs_nsteps n c c' fuel :
  nsteps job n c c' → nf job c' → n ≤ fuel → run_jobs fuel c = c'.
Proof.
  intros Hsteps Hnf. revert fuel.
  induction Hsteps as [c|n c1 c2 c3 Hjob%job_run _ IH]; intros fuel Hfuel.
  - destruct fuel as [|fuel]; [done|]. simpl.
    destruct (run_job c) as [c'|] eqn:Hrun; [|done].
    destruct Hnf. exists c'. by apply job_run.
  - destruct fuel as [|fuel]; [lia|]. simpl. rewrite Hjob. apply IH; [done|lia].
Qed.

(** ** The loop, suspended and resumed *)

Lemma slotsFrom_0 : slotsFrom 0 = allSlots.
Proof. unfold slotsFrom, allSlots. by rewrite Nat.sub_0_r. Qed.

Lemma slotsFrom_cons k :
  (Z.of_nat k ≤ maxSavefiles)%Z → slotsFrom k = k :: slotsFrom (S k).
Proof.
  intros Hk. unfold slotsFrom.
  by replace (Z.to_nat (maxSavefiles + 1) - k)
    with (S (Z.to_nat (maxSavefiles + 1) - S k)) by lia.
Qed.

Lemma slotsFrom_nil k : (maxSavefiles < Z.of_nat k)%Z → slotsFrom k = [].
Proof.
  intros Hk. unfold slotsFrom.
  by replace (Z.to_nat (maxSavefiles + 1) - k) with 0 by lia.
Qed.

Lemma slotsFrom_NoDup k : NoDup (slotsFrom k).
Proof. apply NoDup_seq. Qed.

Lemma startSynthesis_run i w :
  startSynthesis i w =
  (set_clockReads S (set_console (λ out, out ++ [Restoring i]) w),
   Done (defaultInfo (dateNow (clockReads w)))).
Proof. reflexivity. Qed.

(** The method is its two halves, one after the other. *)
Lemma makeMissingSaveInfo_split i :
  makeMissingSaveInfo i ≡ₚ
  (let* info := startSynthesis i in
   finishSynthesis i info (loadObject (makeSavename i))).
Proof. intros w. reflexivity. Qed.

(** The loop at a slot, by the state of the slot. *)
Lemma resume_cons i slots u w :
  resume (i :: slots) u w =
  if missing (globalInfo w) i then
    (LoadingPayload i (defaultInfo (dateNow (clockReads w))),
     exec (startSynthesis i) w)
  else if stale (globalInfo w) i then
    resume slots true (set_globalInfo (λ a, arr_delete a i) w)
  else resume slots u w.
Proof.
  unfold missing, stale. simpl.
  by destruct (savefileExists i), (truthy (arr_get (globalInfo w) i)).
Qed.

(** A slot that needs no record is passed in the same job. *)
Lemma resume_pass i slots u w :
  missing (globalInfo w) i = false →
  ∃ u' w', reconcileSlot i u w = (w', Done u') ∧
    resume (i :: slots) u w = resume slots u' w' ∧
    clockReads w' = clockReads w.
Proof.
  intros Hm. rewrite resume_cons, reconcileSlot_run, Hm.
  destruct (stale (globalInfo w) i); eauto.
Qed.

(** A slot that needs a record suspends the loop; the job of the payload
    completes the method. *)
Lemma resume_suspend i slots u w :
  missing (globalInfo w) i = true →
  ∃ info w1, resume (i :: slots) u w = (LoadingPayload i info, w1) ∧
    finishSynthesis i info (loadObject (makeSavename i)) w1 = makeMissingSaveInfo i w.
Proof. intros Hm. rewrite resume_cons, Hm. eauto. Qed.

Lemma forSlots_cons_done i slots u u' w w1 :
  reconcileSlot i u w = (w1, Done u') →
  forSlots (i :: slots) u w = forSlots slots u' w1.
Proof. intros Hstep. rewrite forSlots_cons. unfold eval, exec. by rewrite Hstep. Qed.

Lemma forSlots_cons_throw i slots u e w w1 :
  reconcileSlot i u w = (w1, Throw e) →
  forSlots (i :: slots) u w = (w1, Throw e).
Proof. intros Hstep. rewrite forSlots_cons. unfold eval, exec. by rewrite Hstep. Qed.

(** The body of the loop at a slot that needs a record, by the outcome of
    the method. *)
Lemma reconcileSlot_missing i u w :
  missing (globalInfo w) i = true →
  reconcileSlot i u w =
  match makeMissingSaveInfo i w with
  | (w', Done info) => (set_globalInfo (λ a, arr_set a i (Obj info)) w', Done true)
  | (w', Throw e) => (w', Throw e)
  end ∧
  clockReads (exec (makeMissingSaveInfo i) w) = S (clockReads w).
Proof.
  intros [He Hi%negb_true_iff]%andb_prop. split.
  - by rewrite reconcileSlot_restore.
  - by rewrite makeMissingSaveInfo_exec.
Qed.

(** The clock does not go back during the loop. *)
Lemma forSlots_clock k u w :
  clockReads w ≤ clockReads (exec (forSlots (slotsFrom k) u) w).
Proof.
  destruct (forSlots_trace (slotsFrom k) u w (slotsFrom_NoDup k)) as [_ ->]. lia.
Qed.

(** The jobs of the loop from slot [k] on compute what the loop of the
    sequential method computes: two jobs for each record it synthesises. *)
Lemma resume_steps m k u w :
  m = Z.to_nat (maxSavefiles + 1) - k →
  nsteps job (2 * (clockReads (exec (forSlots (slotsFrom k) u) w) - clockReads w))
    (resume (slotsFrom k) u w)
    (PassSettled (eval (forSlots (slotsFrom k) u) w),
     exec (forSlots (slotsFrom k) u) w).
Proof.
  revert k u w. induction m as [|m IH]; intros k u w Hm.
  { rewrite slotsFrom_nil by lia. unfold exec, eval. simpl.
    rewrite Nat.sub_diag. constructor. }
  rewrite slotsFrom_cons by lia. unfold eval, exec.
  destruct (missing (globalInfo w) k) eqn:Hmiss.
  - destruct (resume_suspend k (slotsFrom (S k)) u w Hmiss) as (info & w1 & -> & Hfin).
    destruct (reconcileSlot_missing k u w Hmiss) as [Hstep Hclock].
    pose proof (job_payload k info w1) as Hjob. cbv zeta in Hjob.
    unfold eval, exec in Hjob, Hclock. rewrite Hfin in Hjob.
    destruct (makeMissingSaveInfo k w) as [w2 [info'|e]]; cbn [fst snd] in Hjob, Hclock.
    + rewrite (forSlots_cons_done _ _ _ _ _ _ Hstep).
      set (w3 := set_globalInfo (λ a, arr_set a k (Obj info')) w2).
      pose proof (forSlots_clock (S k) true w3) as Hmono.
      specialize (IH (S k) true w3 ltac:(lia)). unfold eval, exec in IH, Hmono.
      replace (2 * (clockReads (forSlots (slotsFrom (S k)) true w3).1 - clockReads w))
        with (S (S (2 * (clockReads (forSlots (slotsFrom (S k)) true w3).1
                         - clockReads w3))))
        by (subst w3; simpl in *; lia).
      eapply nsteps_l; [exact Hjob|]. eapply nsteps_l; [apply job_assign|]. exact IH.
    + rewrite (forSlots_cons_throw _ _ _ _ _ _ Hstep). cbn [fst snd].
      replace (2 * (clockReads w2 - clockReads w)) with 2 by lia.
      eapply nsteps_l; [exact Hjob|]. apply nsteps_once, job_rejected.
  - destruct (resume_pass k (slotsFrom (S k)) u w Hmiss)
      as (u' & w' & Hstep & -> & Hclock).
    rewrite (forSlots_cons_done _ _ _ _ _ _ Hstep), <-Hclock. apply IH. lia.
Qed.

End jobs_facts.

(** ** The chain *)

Section chain.
Context `{Host}.
Implicit Types (w : World) (i j k : nat) (u b : bool) (info : SaveInfo)
  (slots : list nat) (c : Config).

(** The first job leaves the world in which the pass starts. *)
Lemma job_index w : job (LoadingIndex, w) (IndexReady, loaded_world w).
Proof.
  apply job_run. simpl. unfold loaded_world. by destruct (storedGlobal w).
Qed.

(** The last job leaves the world in which the sequential chain ends. *)
Lemma job_settle w :
  job (PassSettled (eval updateGlobalInfo (loaded_world w)),
       exec updateGlobalInfo (loaded_world w))
      (Finished, exec loadGlobalInfo w).
Proof.
  apply job_run. rewrite loadGlobalInfo_exec. cbv zeta.
  by destruct (eval updateGlobalInfo (loaded_world w)) as [[|]|e].
Qed.

Lemma loadGlobalInfo_clockReads w :
  clockReads (exec loadGlobalInfo w) = clockReads (exec updateGlobalInfo (loaded_world w)) ∧
  clockReads (loaded_world w) = clockReads w.
Proof.
  rewrite loadGlobalInfo_exec. cbv zeta. unfold loaded_world.
  by destruct (eval updateGlobalInfo _) as [[|]|e], (storedGlobal w).
Qed.

(** The chain is three jobs and two more for each record it synthesises. *)
Lemma chain_steps w :
  nsteps job (3 + 2 * (clockReads (exec loadGlobalInfo w) - clockReads w))
    (LoadingIndex, w) (Finished, exec loadGlobalInfo w).
Proof.
  destruct (loadGlobalInfo_clockReads w) as [-> <-].
  eapply nsteps_l; [apply job_index|]. eapply nsteps_l; [apply job_finally|].
  eapply nsteps_r; [|apply job_settle].
  unfold updateGlobalInfo. rewrite <-slotsFrom_0. by eapply resume_steps.
Qed.

(** The pass reads the clock at most once for each slot. *)
Lemma chain_clockReads w :
  clockReads (exec loadGlobalInfo w) - clockReads w ≤ Z.to_nat (maxSavefiles + 1).
Proof.
  destruct (loadGlobalInfo_clockReads w) as [-> <-].
  destruct (forSlots_trace allSlots false (loaded_world w) allSlots_NoDup) as [_ Hk].
  fold updateGlobalInfo in Hk. rewrite Hk.
  pose proof (length_filter (λ i, missing (globalInfo (loaded_world w)) i)
                (visited (globalInfo (loaded_world w)) allSlots)) as Hf.
  pose proof (prefix_length _ _ (visited_prefix (globalInfo (loaded_world w)) allSlots))
    as Hp.
  unfold to_restore. unfold allSlots in Hp at 2. rewrite length_seq in Hp. lia.
Qed.

(** The chain ends where the sequential program ends, and nowhere else. *)
Lemma chain_end w c :
  rtc job (LoadingIndex, w) c → nf job c → c = (Finished, exec loadGlobalInfo w).
Proof.
  intros Hc Hnf. eapply confluent_rtc_nf;
    [apply deterministic_confluent, job_deterministic
    |exact Hc|exact Hnf|eapply rtc_nsteps_2, chain_steps|apply Finished_nf].
Qed.

(** Running jobs stays within the relation. *)
Lemma run_jobs_rtc fuel c : rtc job c (run_jobs fuel c).
Proof.
  revert c. induction fuel as [|fuel IH]; intros c; [done|]. simpl.
  destruct (run_job c) as [c'|] eqn:Hrun; [|done].
  eapply rtc_l; [by apply job_run|]. apply IH.
Qed.

End chain.

(** ** What the jobs leave alone *)

Section invariants.
Context `{Host}.
Implicit Types (w : World) (i j k : nat) (u b : bool) (info : SaveInfo)
  (slots : list nat) (c : Config).

Lemma resume_visible slots u w :
  (resume slots u w).1 ≠ Finished ∧ visible (resume slots u w).2 = visible w.
Proof.
  revert u w. induction slots as [|i slots IH]; intros u w; [done|].
  rewrite resume_cons.
  destruct (missing (globalInfo w) i); [done|].
  destruct (stale (globalInfo w) i); [|done].
  by destruct (IH true (set_globalInfo (λ a, arr_delete a i) w)).
Qed.

Lemma finishSynthesis_frame i info r w :
  let w' := exec (finishSynthesis i info r) w in
  visible w' = visible w ∧ globalInfo w' = globalInfo w.
Proof.
  cbv zeta. unfold exec, finishSynthesis. destruct r as [c|e]; [|done]. prog_simpl.
  by destruct (tryExtract c info) as [info' [[]|err]].
Qed.

(** A job that does not end the chain shows nothing to the engine. *)
Lemma job_visible c c' : job c c' → c'.1 ≠ Finished → visible c'.2 = visible c.2.
Proof.
  destruct 1 as [w g Hg|w e He|w|i info w|i info w|i e w|b w|e w]; simpl;
    try done; intros _.
  - apply resume_visible.
  - apply finishSynthesis_frame.
  - by destruct (resume_visible (slotsFrom (S i)) true
                   (set_globalInfo (λ a, arr_set a i (Obj info)) w)) as [_ ->].
Qed.

(** The job that ends the chain publishes the pending index. *)
Lemma job_publishes c w' :
  job c (Finished, w') → _globalInfo w' = Some (globalInfo w').
Proof.
  intros Hjob. remember (Finished, w') as c' eqn:Hc'.
  destruct Hjob as [w g Hg|w e He|w|i info w|i info w|i e w|b w|e w];
    try discriminate Hc'.
  - destruct (resume_visible allSlots false w) as [Hne _]. by rewrite Hc' in Hne.
  - destruct (resume_visible (slotsFrom (S i)) true
                (set_globalInfo (λ a, arr_set a i (Obj info)) w)) as [Hne _].
    by rewrite Hc' in Hne.
  - injection Hc' as <-. by destruct b.
  - by injection Hc' as <-.
Qed.

(** ** The loop invariant *)

Lemma synced_below_S k w :
  synced_below k w → truthy (arr_get (globalInfo w) k) = savefileExists k →
  synced_below (S k) w.
Proof.
  intros Hbelow Hk j Hj. destruct (decide (j = k)) as [->|]; [done|].
  apply Hbelow. lia.
Qed.

Lemma synced_below_ext k w w' :
  (∀ j, j < k → arr_get (globalInfo w') j = arr_get (globalInfo w) j) →
  synced_below k w → synced_below k w'.
Proof. intros Hext Hbelow j Hj. rewrite Hext by done. by apply Hbelow. Qed.

(** Resumed at slot [k] with the slots below it in agreement with the
    disk, the loop suspends or returns with its invariant. *)
Lemma resume_invariant m k u w :
  m = Z.to_nat (maxSavefiles + 1) - k →
  synced_below k w → loop_invariant (resume (slotsFrom k) u w).
Proof.
  revert k u w. induction m as [|m IH]; intros k u w Hm Hbelow.
  { rewrite slotsFrom_nil by lia. intros j Hj. apply Hbelow. lia. }
  rewrite slotsFrom_cons, resume_cons by lia.
  destruct (missing (globalInfo w) k) eqn:Hmiss; [by split; [lia|]|].
  unfold missing in Hmiss.
  destruct (stale (globalInfo w) k) eqn:Hstale; unfold stale in Hstale;
    (apply IH; [lia|]).
  - apply synced_below_S; simpl.
    + eapply synced_below_ext; [|done]. intros j Hj. simpl.
      apply arr_get_delete_ne. lia.
    + rewrite arr_get_delete_eq. by destruct (savefileExists k).
  - apply synced_below_S; [done|].
    by destruct (savefileExists k), (truthy (arr_get (globalInfo w) k)).
Qed.

(** Every job keeps the invariant. *)
Lemma job_invariant c c' : job c c' → loop_invariant c → loop_invariant c'.
Proof.
  destruct 1 as [w g Hg|w e He|w|i info w|i info w|i e w|b w|e w]; try done.
  - intros _. rewrite <-slotsFrom_0. by eapply resume_invariant; [|intros j Hj; lia].
  - destruct (finishSynthesis_frame i info (loadObject (makeSavename i)) w)
      as [_ Hg]. cbv zeta in Hg.
    unfold loop_invariant, synced_below. cbn [fst snd]. subst rest. by rewrite Hg.
  - intros (Hi & Hbelow & [He _]%andb_prop). eapply resume_invariant; [done|].
    apply synced_below_S; simpl.
    + eapply synced_below_ext; [|done]. intros j Hj. simpl.
      apply arr_get_set_ne. lia.
    + by rewrite arr_get_set_eq.
Qed.

End invariants.

(** ** Theorems *)

Section jobs_theorems.
Context `{Host}.
Implicit Types (w : World) (c : Config).

(** C6: refinement. The jobs of the chain, run one after the other until
    none is left, end in the state in which the sequential chain ends, and
    in no other: the chain is what its callbacks compute together. *)
Theorem chain_refines w c :
  rtc job (LoadingIndex, w) c ∧ nf job c ↔ c = (Finished, exec loadGlobalInfo w).
Proof.
  split; [intros [Hc Hnf]; by apply chain_end|].
  intros ->. split; [eapply rtc_nsteps_2, chain_steps|apply Finished_nf].
Qed.

(** C19: termination. The chain ends after at most three jobs and two for
    each slot: with that much fuel, or more, the run of the jobs is the
    sequential chain. *)
Theorem chain_terminates w extra :
  run_jobs (3 + 2 * Z.to_nat (maxSavefiles + 1) + extra) (LoadingIndex, w) =
  (Finished, exec loadGlobalInfo w).
Proof.
  eapply run_jobs_nsteps; [apply chain_steps|apply Finished_nf|].
  pose proof (chain_clockReads w). lia.
Qed.

(** C18: while the chain is under way, whatever job has run, the engine
    sees the published index and the storage as they were when the chain
    started; the index is published by the job that ends the chain, not
    before. *)
Theorem chain_unpublished w c :
  rtc job (LoadingIndex, w) c →
  (c.1 ≠ Finished → visible c.2 = visible w) ∧
  (c.1 = Finished → _globalInfo c.2 = Some (globalInfo c.2)).
Proof.
  revert c. apply rtc_ind_r; [done|]. intros c1 c2 Hc Hjob [IH _].
  assert (c1.1 ≠ Finished) as Hc1.
  { intros Hfin. destruct c1 as [p1 w1]. simpl in Hfin. subst p1.
    by destruct (Finished_nf w1); exists c2. }
  split.
  - intros Hc2. by rewrite (job_visible _ _ Hjob Hc2), IH.
  - destruct c2 as [p2 w2]. simpl. intros ->. by eapply job_publishes.
Qed.

(** C17: the loop invariant at every suspension. Whenever the chain waits
    for the payload of slot [i], or for the record made from it, slot [i]
    is in range, has a save file and no record, and every slot below [i]
    agrees with the disk; once the pass has returned every slot in range
    does. *)
Theorem chain_loop_invariant w c :
  rtc job (LoadingIndex, w) c → loop_invariant c.
Proof.
  revert c. apply rtc_ind_r; [done|]. intros c1 c2 _ Hjob IH.
  by eapply job_invariant.
Qed.

End jobs_theorems.

(** ** The sample game *)

(** The chain on the stale index, job by job: after two jobs it waits for
    the payload of file 1, after four for that of file 4, and the seventh
    job ends it. *)
Example jobs_on_stale_index :
  let c0 := (LoadingIndex, world_of staleIndex) in
  (@run_jobs sampleHost 2 c0).1 = LoadingPayload 1 (@defaultInfo sampleHost 1000) ∧
  (@run_jobs sampleHost 4 c0).1 = LoadingPayload 4 (@defaultInfo sampleHost 1001) ∧
  (@run_jobs sampleHost 6 c0).1 = PassSettled (Done true) ∧
  @run_jobs sampleHost 7 c0 =
    (Finished, exec (@loadGlobalInfo sampleHost) (world_of staleIndex)).
Proof. vm_compute. done. Qed.

(** With the payload of file 2 unreadable the promise of the pass is
    rejected by the sixth job, and the seventh publishes the partly
    repaired index. *)
Example jobs_with_unreadable_payload :
  let c0 := (LoadingIndex, world_of []) in
  (@run_jobs faultyHost 5 c0).1 = PayloadReady 2 (Throw (LoadError "file2")) ∧
  (@run_jobs faultyHost 6 c0).1 = PassSettled (Throw (LoadError "file2")) ∧
  @run_jobs faultyHost 7 c0 =
    (Finished, exec (@loadGlobalInfo faultyHost) (world_of [])).
Proof. vm_compute. done. Qed.
