(* ===== verification/Temporal.v ===== *)
(** * Runs that never end, and what is bound to happen in them

    The engine runs for as long as the game window is open, and the jobs
    of the plugin's promise chain are a few of the many it runs. This file
    holds the vocabulary for such runs, free of the plugin: a run is a
    function from positions to states; [always] and [stabilises] speak
    of its positions; [leads_to] says that one condition is followed by
    another; [weakly_fair] says that an action which stays enabled is
    taken. The theorems are the rule that turns a ranking of the states
    into termination of the fair action, and the same rule for a family
    of actions that grows during the run. *)

From stdpp Require Import relations.
From S2P Require Import Prelude.

Declare Scope temporal_scope.
Delimit Scope temporal_scope with T.

Section runs.
Context {A : Type}.
Implicit Types (e : nat → A) (P Q : A → Prop) (R : relation A) (n m : nat).

(** Every position of [e] is a step of [R]. *)
Definition run R e : Prop := ∀ n, R (e n) (e (S n)).

Definition always P e : Prop := ∀ n, P (e n).

(** From some position on, [P] holds for good. *)
Definition stabilises P e : Prop := ∃ n, ∀ m, n ≤ m → P (e m).

(** Whenever [P] holds, [Q] holds then or later. *)
Definition leads_to P Q e : Prop := ∀ n, P (e n) → ∃ m, n ≤ m ∧ Q (e m).

(** From every position on, [R] is taken at some position or cannot be
    taken at some position: an action that stays enabled is not put off
    for ever. *)
Definition weakly_fair R e : Prop :=
  ∀ n, ∃ m, n ≤ m ∧ (R (e m) (e (S m)) ∨ ¬ red R (e m)).

(** The run from position [k] on. *)
Definition suffix k e : nat → A := λ n, e (k + n).

(** The first [k] positions of [e], then [e']. *)
Definition splice k e e' : nat → A := λ n, if decide (n < k) then e n else e' (n - k).

(** A partial function, applied [n] times or until it is undefined. *)
Fixpoint iter_opt (f : A → option A) (n : nat) (x : A) : A :=
  match n with
  | 0 => x
  | S n => match f x with Some y => iter_opt f n y | None => x end
  end.

End runs.

Notation "P '~~>' Q" := (leads_to P Q) (at level 70, no associativity) : temporal_scope.

(** ** Rules *)

Section rules.
Context {A : Type}.
Implicit Types (e : nat → A) (P Q : A → Prop) (R : relation A) (n m k : nat).

(** A condition that holds at the start and is kept by every step holds
    always. *)
Lemma always_intro R P e :
  run R e → P (e 0) → (∀ x y, R x y → P x → P y) → always P e.
Proof.
  intros Hrun H0 Hstep n. induction n as [|n IH]; [done|].
  by apply (Hstep (e n)).
Qed.

(** Two positions of a run are joined by steps. *)
Lemma run_rtc R e n m : run R e → n ≤ m → rtc R (e n) (e m).
Proof.
  intros Hrun. induction 1 as [|m _ IH]; [done|].
  eapply rtc_r; [exact IH|apply Hrun].
Qed.

Lemma run_suffix R e k : run R e → run R (suffix k e).
Proof. intros Hrun n. unfold suffix. rewrite Nat.add_succ_r. apply Hrun. Qed.

Lemma weakly_fair_suffix R e k : weakly_fair R e → weakly_fair R (suffix k e).
Proof.
  intros Hfair n. destruct (Hfair (k + n)) as (m & Hm & Hstep).
  exists (m - k). unfold suffix.
  replace (k + S (m - k)) with (S m) by lia.
  replace (k + (m - k)) with m by lia. split; [lia|done].
Qed.

Lemma leads_to_refl P e : (P ~~> P)%T e.
Proof. intros n Hn. by exists n. Qed.

Lemma leads_to_trans P Q S e : (P ~~> Q)%T e → (Q ~~> S)%T e → (P ~~> S)%T e.
Proof.
  intros HPQ HQS n Hn. destruct (HPQ n Hn) as (m & Hm & HQ).
  destruct (HQS m HQ) as (k & Hk & HS). exists k. split; [lia|done].
Qed.

Lemma leads_to_weaken P P' Q Q' e :
  (∀ x, P' x → P x) → (∀ x, Q x → Q' x) → (P ~~> Q)%T e → (P' ~~> Q')%T e.
Proof.
  intros HP HQ H n Hn. destruct (H n (HP _ Hn)) as (m & Hm & Hq). eauto.
Qed.

(** What holds for good is reached from anywhere. *)
Lemma stabilises_leads_to P Q e : stabilises Q e → (P ~~> Q)%T e.
Proof.
  intros [k Hk] n _. exists (n `max` k). split; [lia|apply Hk; lia].
Qed.

Lemma stabilises_weaken P Q e : (∀ x, P x → Q x) → stabilises P e → stabilises Q e.
Proof. intros HPQ [n Hn]. exists n. eauto. Qed.

Lemma stabilises_and P Q e :
  stabilises P e → stabilises Q e → stabilises (λ x, P x ∧ Q x) e.
Proof.
  intros [n Hn] [m Hm]. exists (n `max` m). intros k Hk.
  split; [apply Hn|apply Hm]; lia.
Qed.

(** What holds for good of the run from some position on holds for good
    of the run. *)
Lemma stabilises_suffix P e k : stabilises P (suffix k e) → stabilises P e.
Proof.
  intros [n Hn]. exists (k + n). intros m Hm.
  replace m with (k + (m - k)) by lia. apply Hn. lia.
Qed.

(** Finitely many conditions that each hold for good hold for good
    together. *)
Lemma stabilises_below (P : nat → A → Prop) e L :
  (∀ k, k < L → stabilises (P k) e) → stabilises (λ x, ∀ k, k < L → P k x) e.
Proof.
  induction L as [|L IH]; intros HP; [exists 0; intros; lia|].
  destruct IH as [n Hn]; [intros k Hk; apply HP; lia|].
  destruct (HP L) as [m Hm]; [lia|].
  exists (n `max` m). intros i Hi k Hk.
  destruct (decide (k = L)) as [->|]; [apply Hm; lia|apply Hn; lia].
Qed.

Lemma run_splice R k e e' :
  (∀ n, S n < k → R (e n) (e (S n))) → (0 < k → R (e (k - 1)) (e' 0)) →
  run R e' → run R (splice k e e').
Proof.
  intros He Hk He' n. unfold splice. repeat case_decide; try lia.
  - by apply He.
  - replace n with (k - 1) by lia. replace (S (k - 1) - k) with 0 by lia.
    apply Hk. lia.
  - replace (S n - k) with (S (n - k)) by lia. apply He'.
Qed.

Lemma weakly_fair_splice R k e e' : weakly_fair R e' → weakly_fair R (splice k e e').
Proof.
  intros Hfair n. destruct (Hfair n) as (m & Hm & Hstep).
  exists (k + m). split; [lia|]. unfold splice. repeat case_decide; try lia.
  replace (S (k + m) - k) with (S m) by lia.
  by replace (k + m - k) with m by lia.
Qed.

(** An action that is disabled from some position on is treated fairly. *)
Lemma stabilises_fair R e : stabilises (λ x, ¬ red R x) e → weakly_fair R e.
Proof.
  intros [k Hk] n. exists (n `max` k). split; [lia|]. right. apply Hk. lia.
Qed.

(** A condition that does not hold at the start and holds later starts to
    hold at some step in between. *)
Lemma first_position P `{!∀ x, Decision (P x)} e n :
  ¬ P (e 0) → P (e n) → ∃ k, k < n ∧ ¬ P (e k) ∧ P (e (S k)).
Proof.
  intros H0. induction n as [|n IH]; intros Hn; [done|].
  destruct (decide (P (e n))) as [Hp|Hp].
  - destruct (IH Hp) as (k & Hk & Hkn). exists k. split; [lia|done].
  - exists n. split; [lia|done].
Qed.

End rules.

(** ** The run of a function *)

Section iterate.
Context {A : Type} (f : A → option A).
Implicit Types (x y : A) (R : relation A) (n : nat).

Lemma iter_opt_S n x :
  iter_opt f (S n) x = default (iter_opt f n x) (f (iter_opt f n x)).
Proof.
  revert x. induction n as [|n IH]; intros x.
  { simpl. by destruct (f x). }
  change (iter_opt f (S (S n)) x)
    with (match f x with Some y => iter_opt f (S n) y | None => x end).
  destruct (f x) as [y|] eqn:Hf; [by rewrite IH; simpl; rewrite Hf|].
  simpl. by rewrite !Hf.
Qed.

(** Applying the function for as long as it is defined, and idling from
    then on, is a run that is fair to the function. *)
Lemma iter_opt_run R x :
  (∀ y z, f y = Some z → R y z) → (∀ y, f y = None → R y y) →
  run R (λ n, iter_opt f n x).
Proof.
  intros Hstep Hidle n. rewrite iter_opt_S.
  destruct (f (iter_opt f n x)) as [y|] eqn:Hf; simpl; eauto.
Qed.

Lemma iter_opt_fair R x :
  (∀ y z, R y z ↔ f y = Some z) → weakly_fair R (λ n, iter_opt f n x).
Proof.
  intros HR n. exists n. split; [done|]. rewrite iter_opt_S.
  destruct (f (iter_opt f n x)) as [y|] eqn:Hf; simpl.
  - left. by apply HR.
  - right. intros [z Hz%HR]. congruence.
Qed.

(** Once the function is undefined the run stays where it is. *)
Lemma iter_opt_stuck n m x :
  f (iter_opt f n x) = None → n ≤ m → iter_opt f m x = iter_opt f n x.
Proof.
  intros Hf. induction 1 as [|m _ IH]; [done|]. by rewrite iter_opt_S, IH, Hf.
Qed.

(** What the function preserves holds all along the run. *)
Lemma iter_opt_preserved (P : A → Prop) n x :
  (∀ y z, f y = Some z → P y → P z) → P x → P (iter_opt f n x).
Proof.
  intros Hstep. revert x. induction n as [|n IH]; intros x Hx; [done|]. simpl.
  destruct (f x) as [y|] eqn:Hf; [|done]. eauto.
Qed.

Lemma iter_opt_rtc R n x : (∀ y z, f y = Some z → R y z) → rtc R x (iter_opt f n x).
Proof.
  intros Hstep. revert x. induction n as [|n IH]; intros x; [done|]. simpl.
  destruct (f x) as [y|] eqn:Hf; [|done]. eapply rtc_l; eauto.
Qed.

End iterate.

(** ** Termination of a fair action by a rank *)

(** The states are ranked by a natural number. The action [live] lowers
    the rank and is enabled wherever the rank is not zero; no step of the
    run raises it. Then a run that is fair to [live] reaches rank zero and
    stays there. *)
Section fair_termination.
Context {A : Type} (live next : relation A) (rank : A → nat).
Hypothesis live_decreases : ∀ x y, live x y → rank y < rank x.
Hypothesis next_bounded : ∀ x y, next x y → rank y ≤ rank x.
Hypothesis live_enabled : ∀ x, 0 < rank x → red live x.
Implicit Types (e : nat → A) (n m : nat).

Lemma rank_antitone e n m : run next e → n ≤ m → rank (e m) ≤ rank (e n).
Proof.
  intros Hrun. induction 1 as [|m _ IH]; [done|].
  etrans; [apply next_bounded, Hrun|done].
Qed.

Lemma rank_settles e k n :
  run next e → weakly_fair live e → rank (e n) ≤ k →
  ∃ m, n ≤ m ∧ rank (e m) = 0.
Proof.
  intros Hrun Hfair. revert n. induction k as [|k IH]; intros n Hk.
  { exists n. split; [done|lia]. }
  destruct (Hfair n) as (m & Hm & [Hlive|Hstuck]).
  - destruct (IH (S m)) as (m' & Hm' & H0).
    + pose proof (live_decreases _ _ Hlive).
      pose proof (rank_antitone e n m Hrun Hm). lia.
    + exists m'. split; [lia|done].
  - exists m. split; [done|].
    destruct (decide (rank (e m) = 0)) as [|Hpos]; [done|].
    destruct Hstuck. apply live_enabled. lia.
Qed.

Lemma fair_rank_terminates e :
  run next e → weakly_fair live e → stabilises (λ x, rank x = 0) e.
Proof.
  intros Hrun Hfair.
  destruct (rank_settles e (rank (e 0)) 0 Hrun Hfair) as (m & _ & H0); [done|].
  exists m. intros k Hk. pose proof (rank_antitone e m k Hrun Hk). lia.
Qed.

(** The number of positions at which the run takes [live] is at most the
    rank it starts with. *)
Lemma live_steps_bounded e (at_ : list nat) :
  run next e → NoDup at_ → (∀ n, n ∈ at_ → live (e n) (e (S n))) →
  length at_ ≤ rank (e 0).
Proof.
  intros Hrun Hnd Hlive.
  assert (∀ k l, NoDup l → (∀ n, n ∈ l → n < k ∧ live (e n) (e (S n))) →
    length l + rank (e k) ≤ rank (e 0)) as Hcount.
  { induction k as [|k IH]; intros l Hl Hin.
    - destruct l as [|n l]; [simpl; lia|]. destruct (Hin n); [set_solver|lia].
    - pose proof (next_bounded _ _ (Hrun k)) as Hle.
      destruct (decide (k ∈ l)) as [Hk|Hk].
      + destruct (Hin k Hk) as [_ Hdec%live_decreases].
        apply list_elem_of_split in Hk as (l1 & l2 & ->).
        apply list.NoDup_app in Hl as (Hl1 & Hdisj & [Hk2 Hl2]%list.NoDup_cons).
        assert (length (l1 ++ l2) + rank (e k) ≤ rank (e 0)) as IH'.
        { apply IH; [apply list.NoDup_app; set_solver|].
          intros n Hn. destruct (Hin n) as [Hlt ?]; [set_solver|].
          split; [|done]. assert (n ≠ k) by set_solver. lia. }
        rewrite !length_app in *. simpl. lia.
      + assert (length l + rank (e k) ≤ rank (e 0)) as IH'; [|lia].
        apply IH; [done|]. intros n Hn. destruct (Hin n Hn) as [Hlt ?].
        split; [|done]. assert (n ≠ k) by (by intros ->). lia. }
  assert (length at_ + rank (e (S (foldr max 0 at_))) ≤ rank (e 0)); [|lia].
  apply Hcount; [done|]. intros n Hn. split; [|by apply Hlive].
  clear -Hn. induction Hn; simpl; lia.
Qed.

End fair_termination.

(** ** Actions that come and go *)

(** A family of actions, numbered from 0, of which the state [x] has
    [size x]: no step takes one away, each has a rank of its own that its
    action lowers, and no step raises the rank of an action that is
    there. Then each action that is treated fairly runs out, and all of
    them do once no more arrive. *)
Section fair_family.
Context {A : Type} (live : nat → relation A) (next : relation A)
  (size : A → nat) (rank : nat → A → nat).
Hypothesis live_decreases : ∀ k x y, live k x y → rank k y < rank k x.
Hypothesis next_bounded : ∀ k x y, next x y → k < size x → rank k y ≤ rank k x.
Hypothesis live_enabled : ∀ k x, 0 < rank k x → red (live k) x.
Hypothesis next_grows : ∀ x y, next x y → size x ≤ size y.
Implicit Types (e : nat → A) (n m k L : nat).

Lemma size_monotone e n m : run next e → n ≤ m → size (e n) ≤ size (e m).
Proof.
  intros Hrun. induction 1 as [|m _ IH]; [done|].
  etrans; [exact IH|apply next_grows, Hrun].
Qed.

Lemma fair_member_terminates k e n :
  run next e → weakly_fair (live k) e → k < size (e n) →
  stabilises (λ x, k < size x ∧ rank k x = 0) e.
Proof.
  intros Hrun Hfair Hk. apply (stabilises_suffix _ _ n).
  assert (always (λ x, k < size x) (suffix n e)) as Hsize.
  { intros m. pose proof (size_monotone e n (n + m) Hrun). unfold suffix. lia. }
  destruct (fair_rank_terminates (live k) (λ x y, next x y ∧ k < size x) (rank k)
              (live_decreases k)) with (e := suffix n e) as [m Hm];
    [by intros x y []; apply next_bounded|apply live_enabled
    |intros i; split; [by apply run_suffix|apply Hsize]
    |by apply weakly_fair_suffix|].
  exists m. intros i Hi. split; [apply Hsize|by apply Hm].
Qed.

Lemma fair_family_terminates L e :
  run next e → (∀ k, weakly_fair (live k) e) → stabilises (λ x, size x = L) e →
  stabilises (λ x, size x = L ∧ ∀ k, k < L → rank k x = 0) e.
Proof.
  intros Hrun Hfair Hstop. apply stabilises_and; [done|]. destruct Hstop as [n Hn].
  apply stabilises_below. intros k Hk.
  eapply stabilises_weaken; [|apply (fair_member_terminates k e n); auto].
  - by intros x [_ ?].
  - by rewrite Hn.
Qed.

End fair_family.
