(* ===== verification/WellFormed.v ===== *)
(** * The shape of index records

    The load menu draws a record without checking it: it pairs the
    characters with the faces and prints the playtime as it is. This file
    states the shape it relies on ([wf_info]: as many faces as characters,
    a playtime of three fields of two characters or more, separated by two
    colons), lifts it to arrays, to the state of the chain and to its
    phases, and shows that the plugin only ever makes records of that
    shape and keeps the shape of everything it is given: through a pass,
    through each job of the chain, and into the index it persists, which
    besides has no holes. *)

From Stdlib Require Import Ascii.
From stdpp Require Import strings pretty gmap relations.
From S2P Require Import Prelude JsBase Host Extractor Synthesis Reconciler.
From S2P Require Import Loader Trace Jobs.

(** ** Shapes *)

(** The number of colons of a string. *)
Fixpoint colons (s : string) : nat :=
  match s with
  | EmptyString => 0
  | String c s' => (if Ascii.eqb c ":" then 1 else 0) + colons s'
  end.

(** A playtime: two colons, and room for three fields of two characters. *)
Definition wf_playtime (s : string) : bool :=
  (8 <=? String.length s) && (colons s =? 2).

(** A record: a face for each character, and a playtime. *)
Definition wf_info (info : SaveInfo) : bool :=
  (length (characters info) =? length (faces info)) &&
  wf_playtime (playtime info).

Definition wf_elem (e : elem SaveInfo) : bool :=
  match e with Obj info => wf_info info | Hole | Null => true end.

(** An index in memory: every record of it is well formed. *)
Definition wf_index (a : jsarray SaveInfo) : Prop := Forall wf_elem a.

(** An index as [JSON.parse] returns it: no element is a hole. *)
Definition dense (a : jsarray SaveInfo) : Prop := Forall (λ e, e ≠ Hole) a.

(** The state of the chain: the pending index, the published one and the
    persisted one are well formed, and the persisted one is dense. *)
Definition wf_world (w : World) : Prop :=
  wf_index (globalInfo w) ∧
  from_option wf_index True (_globalInfo w) ∧
  match storedGlobal w with
  | Done a => wf_index a ∧ dense a
  | Throw _ => True
  end.

#[export] Instance wf_index_dec a : Decision (wf_index a).
Proof. unfold wf_index. apply _. Defined.

#[export] Instance dense_dec a : Decision (dense a).
Proof. unfold dense. apply _. Defined.

#[export] Instance wf_world_dec w : Decision (wf_world w).
Proof.
  unfold wf_world. destruct (_globalInfo w), (storedGlobal w); apply _.
Defined.

(** The record a phase of the chain carries. *)
Definition wf_phase (p : Phase) : bool :=
  match p with
  | LoadingPayload _ info | PayloadReady _ (Done info) => wf_info info
  | _ => true
  end.

Definition wf_config (c : Config) : Prop := wf_phase c.1 ∧ wf_world c.2.

#[export] Instance wf_config_dec c : Decision (wf_config c).
Proof. unfold wf_config. apply _. Defined.

(** ** Playtimes *)

Section playtimes.
Implicit Types (s t : string) (x : jsnum) (z : Z) (c : SaveContents).

Lemma colons_app s t : colons (s +:+ t) = colons s + colons t.
Proof. induction s as [|a s IH]; [done|]. simpl. rewrite IH. lia. Qed.

Lemma colons_string_rep n : colons (string_rep "0" n) = 0.
Proof. by induction n. Qed.

(** A digit is no colon. *)
Lemma pretty_N_char_colon (d : N) : Ascii.eqb (pretty_N_char d) ":" = false.
Proof.
  destruct d as [|p]; [done|]. by do 4 (try destruct p as [p|p|]).
Qed.

Lemma colons_pretty_N_go (n : N) s : colons (pretty_N_go n s) = colons s.
Proof.
  revert s. induction (N.lt_wf_0 n) as [n _ IH]; intros s.
  destruct (decide (n = 0%N)) as [->|Hn]; [by rewrite pretty_N_go_0|].
  rewrite pretty_N_go_step, IH by (try apply N.div_lt; lia).
  simpl. by rewrite pretty_N_char_colon.
Qed.

Lemma colons_pretty z : colons (pretty z) = 0.
Proof.
  destruct z as [|p|p]; [done|..].
  - by rewrite pretty_pos_unfold, colons_pretty_N_go.
  - rewrite pretty_neg_unfold. simpl. by rewrite colons_pretty_N_go.
Qed.

(** A field of a playtime holds no colon. *)
Lemma colons_padZero x n : colons (padZero x n) = 0.
Proof.
  unfold padZero, padStart0. rewrite colons_app, colons_string_rep.
  destruct x; [apply colons_pretty|done].
Qed.

(** Whatever the three numbers, the template literal has the shape of a
    playtime. *)
Lemma wf_playtime_format (h m s : jsnum) : wf_playtime (format_playtime h m s).
Proof.
  unfold wf_playtime, format_playtime.
  pose proof (length_padZero_ge h 2). pose proof (length_padZero_ge m 2).
  pose proof (length_padZero_ge s 2).
  apply andb_True. split.
  - apply Is_true_true, Nat.leb_le. rewrite !length_string_app. simpl. lia.
  - apply Is_true_true, Nat.eqb_eq. rewrite !colons_app, !colons_padZero. done.
Qed.

Lemma extractPlaytime_well_formed c pt : extractPlaytime c = Done pt → wf_playtime pt.
Proof.
  unfold extractPlaytime. intros (sys & _ & [= <-])%cbind_done.
  apply wf_playtime_format.
Qed.

End playtimes.

(** ** Records *)

Section records.
Context `{Host}.
Implicit Types (info : SaveInfo) (c : SaveContents) (now : Z).

Lemma wf_info_intro info :
  length (characters info) = length (faces info) → wf_playtime (playtime info) →
  wf_info info.
Proof.
  intros Hlen Hpt. apply andb_True. split; [|done].
  by apply Is_true_true, Nat.eqb_eq.
Qed.

Lemma wf_info_elim info :
  wf_info info →
  length (characters info) = length (faces info) ∧ wf_playtime (playtime info).
Proof.
  intros [Hlen%Is_true_true%Nat.eqb_eq Hpt]%andb_True. done.
Qed.

Lemma wf_defaultInfo now : wf_info (defaultInfo now).
Proof. done. Qed.

(** The [try] keeps the shape of the record it fills in, wherever it
    stops: the faces are assigned whenever the characters are. *)
Lemma tryExtract_well_formed c info : wf_info info → wf_info (tryExtract c info).1.
Proof.
  intros [Hlen Hpt]%wf_info_elim. rewrite tryExtract_run.
  destruct (extractCharacters c) as [cs|] eqn:Hcs; [|by apply wf_info_intro].
  destruct (extractCharacters_faces _ _ Hcs) as (fs & -> & Hfs).
  destruct (extractPlaytime c) as [pt|] eqn:Hpt'; apply wf_info_intro; simpl;
    eauto using extractPlaytime_well_formed.
Qed.

Lemma wf_restored_info c now : wf_info (restored_info c now).
Proof.
  pose proof (tryExtract_well_formed c _ (wf_defaultInfo now)) as Hwf.
  by rewrite tryExtract_spec in Hwf.
Qed.

End records.

(** ** Arrays and worlds *)

Section arrays.
Implicit Types (a : jsarray SaveInfo) (i : nat) (info : SaveInfo) (w : World).

Lemma wf_index_set a i info :
  wf_index a → wf_info info → wf_index (arr_set a i (Obj info)).
Proof.
  intros Ha Hinfo. unfold wf_index, arr_set. case_decide.
  - by apply Forall_insert.
  - rewrite !Forall_app. split_and!; [done|by apply Forall_replicate|].
    by apply Forall_singleton.
Qed.

Lemma wf_index_delete a i : wf_index a → wf_index (arr_delete a i).
Proof. intros Ha. by apply Forall_insert. Qed.

(** What is written to storage keeps its records and has no holes. *)
Lemma wf_index_json a : wf_index a → wf_index (json_array a) ∧ dense (json_array a).
Proof.
  unfold wf_index, dense, json_array. rewrite !Forall_fmap.
  intros Ha. split; (eapply list.Forall_impl; [exact Ha|]); by intros [| |x].
Qed.

Lemma wf_index_get a i info : wf_index a → arr_get a i = Obj info → wf_info info.
Proof.
  unfold arr_get. intros Ha Hi. destruct (a !! i) as [e|] eqn:Hl; [|done].
  simpl in Hi. subst e. by apply (Forall_lookup_1 _ _ _ _ Ha Hl).
Qed.

(** A step that leaves the three arrays alone keeps the world well
    formed. *)
Lemma wf_world_same w w' :
  globalInfo w' = globalInfo w → visible w' = visible w → wf_world w → wf_world w'.
Proof. unfold wf_world, visible. intros -> [= -> ->]. done. Qed.

Lemma wf_world_frame w w' : frame w w' → wf_world w → wf_world w'.
Proof. intros [Hg Hp Hs _ _]. apply wf_world_same; [done|]. unfold visible. congruence. Qed.

Lemma wf_world_set w (f : jsarray SaveInfo → jsarray SaveInfo) :
  wf_index (f (globalInfo w)) → wf_world w → wf_world (set_globalInfo f w).
Proof. intros Hf (_ & Hp & Hs). by split. Qed.

(** Publishing the pending index, and persisting the published one. *)
Lemma wf_world_publish w :
  wf_world w → wf_world (set__globalInfo (Some (globalInfo w)) w).
Proof. intros (Hg & _ & Hs). by split. Qed.

Lemma wf_world_save w : wf_world w → wf_world (exec saveGlobalInfo w).
Proof.
  intros (Hg & Hp & Hs). unfold exec, saveGlobalInfo, modify. simpl.
  destruct (_globalInfo w) as [a|] eqn:Ha; [|by rewrite <-Ha in Hp].
  split_and!; simpl; [done|by rewrite Ha|by apply wf_index_json].
Qed.

End arrays.

(** ** The pass *)

Section pass.
Context `{Host}.
Implicit Types (w : World) (i : nat) (u : bool) (slots : list nat).

Lemma reconcileSlot_well_formed i u w :
  wf_world w → wf_world (exec (reconcileSlot i u) w).
Proof.
  intros Hw. unfold exec. rewrite reconcileSlot_run.
  destruct (missing (globalInfo w) i);
    [destruct (loadObject (makeSavename i))|destruct (stale (globalInfo w) i)];
    cbn [fst]; try done.
  - apply wf_world_set, (wf_world_same w); try done.
    apply wf_index_set; [apply Hw|apply wf_restored_info].
  - apply wf_world_set; [|done]. apply wf_index_delete, Hw.
Qed.

Lemma forSlots_well_formed slots u w :
  wf_world w → wf_world (exec (forSlots slots u) w).
Proof.
  revert u w. induction slots as [|i slots IH]; intros u w Hw; [done|].
  rewrite exec_forSlots_cons.
  destruct (eval (reconcileSlot i u) w); [apply IH|]; by apply reconcileSlot_well_formed.
Qed.

End pass.

(** ** The jobs of the chain *)

Section jobs.
Context `{Host}.
Implicit Types (w : World) (i : nat) (u : bool) (slots : list nat)
  (info : SaveInfo) (c : Config).

Lemma resume_well_formed slots u w : wf_world w → wf_config (resume slots u w).
Proof.
  revert u w. induction slots as [|i slots IH]; intros u w Hw; [done|].
  rewrite resume_cons. destruct (missing (globalInfo w) i); [done|].
  destruct (stale (globalInfo w) i); apply IH; [|done].
  apply wf_world_set; [|done]. apply wf_index_delete, Hw.
Qed.

Lemma finishSynthesis_well_formed i info r w :
  wf_info info → wf_world w →
  wf_config (PayloadReady i (eval (finishSynthesis i info r) w),
             exec (finishSynthesis i info r) w).
Proof.
  intros Hinfo Hw. split; cbn [fst snd].
  - unfold eval, finishSynthesis. destruct r as [c|e]; [|done]. prog_simpl.
    pose proof (tryExtract_well_formed c info Hinfo) as Hwf.
    by destruct (tryExtract c info) as [info' [[]|err]].
  - destruct (finishSynthesis_frame i info r w) as [Hv Hg].
    by apply (wf_world_same w).
Qed.

(** The pending index after the first job: the persisted one, or none. *)
Lemma loaded_world_well_formed w : wf_world w → wf_world (loaded_world w).
Proof.
  intros (Hg & Hp & Hs). unfold loaded_world.
  destruct (storedGlobal w) as [a|e] eqn:Hst; split_and!; simpl;
    rewrite ?Hst; try done; [apply Hs|constructor].
Qed.

(** Every job keeps the configuration well formed. *)
Lemma job_preserves_wf c c' : job c c' → wf_config c → wf_config c'.
Proof.
  intros Hjob [Hp Hw]. pose proof Hjob as Hjob'.
  destruct Hjob as [w g Hg|w e He|w|i info w|i info w|i e w|b w|e w];
    cbn [fst snd] in Hp, Hw.
  - rewrite (job_deterministic _ _ _ Hjob' (job_index w)).
    split; [done|by apply loaded_world_well_formed].
  - rewrite (job_deterministic _ _ _ Hjob' (job_index w)).
    split; [done|by apply loaded_world_well_formed].
  - by apply resume_well_formed.
  - by apply finishSynthesis_well_formed.
  - apply resume_well_formed, wf_world_set; [|done].
    apply wf_index_set; [apply Hw|done].
  - done.
  - split; [done|]. cbn [snd]. unfold exec, onUpdated, publish. prog_simpl.
    destruct b; [apply wf_world_save|]; by apply wf_world_publish.
  - split; [done|]. cbn [snd].
    by apply (wf_world_same (set__globalInfo (Some (globalInfo w)) w)),
      wf_world_publish.
Qed.

Lemma jobs_preserve_wf c c' : rtc job c c' → wf_config c → wf_config c'.
Proof. induction 1; eauto using job_preserves_wf. Qed.

End jobs.

(** ** Theorems *)

Section well_formed_theorems.
Context `{Host}.
Implicit Types (w : World) (i : nat) (info : SaveInfo) (c : Config).

(** C30: the type of a synthesised record. Whatever the payload holds, the
    record [makeMissingSaveInfo] returns has a face for each character and
    a playtime of three fields separated by colons: a payload that is
    broken in any way yields the placeholders, never half a portrait or a
    malformed playtime. *)
Theorem makeMissingSaveInfo_well_formed i w info :
  eval (makeMissingSaveInfo i) w = Done info → wf_info info.
Proof.
  unfold eval. rewrite makeMissingSaveInfo_run. cbv zeta.
  destruct (loadObject (makeSavename i)) as [c|e]; [|done].
  intros [= <-]. apply wf_restored_info.
Qed.

(** A pass keeps the pending index well formed, completed or not. *)
Lemma updateGlobalInfo_well_formed w :
  wf_world w → wf_world (exec updateGlobalInfo w).
Proof. apply forSlots_well_formed. Qed.

(** Preservation. From a well-formed state every job of the chain
    leads to a well-formed state: the records of the pending index, of the
    published index and of the persisted index keep their shape, the
    record a phase carries has it, and the persisted index has no hole. *)
Theorem chain_well_formed w c :
  wf_world w → rtc job (LoadingIndex, w) c → wf_config c.
Proof.
  intros Hw Hrun. by apply (jobs_preserve_wf _ _ Hrun).
Qed.

(** So the chain as a whole publishes and persists well-formed indexes
    only. *)
Lemma loadGlobalInfo_well_formed w :
  wf_world w → wf_world (exec loadGlobalInfo w).
Proof.
  intros Hw. by apply (jobs_preserve_wf _ _ (rtc_nsteps_2 _ _ _ (chain_steps w))).
Qed.

End well_formed_theorems.
