(* ===== verification/Interleave.v ===== *)
(** * The chain among the other jobs of the engine

    Between two jobs of the promise chain the engine runs whatever else is
    ready: scenes draw, timers fire, other plugins log. This file puts the
    jobs of [Jobs] into such runs. A [step] is a job of the chain or a
    step of the environment, which may change the world and cannot change
    what the chain waits for; a run is an unending sequence of steps. The
    theorems say what the chain achieves in every run that is fair to it,
    under three assumptions on the environment, from none at all to an
    environment that only logs and reads the clock. *)

From stdpp Require Import strings gmap relations.
From S2P Require Import Prelude JsBase Host Extractor Synthesis Reconciler.
From S2P Require Import Loader Trace Jobs Temporal WellFormed.

(** ** Steps and ranks *)

Section steps.
Context `{Host}.
Implicit Types (w : World) (i j k : nat) (u : bool) (slots : list nat)
  (c : Config) (p : Phase).

(** The number of slots: the values [0 .. maxSavefiles()] of the loop
    variable. *)
Definition slotCount : nat := Z.to_nat (maxSavefiles + 1).

(** The jobs the chain may still need in a phase: three around the loop
    and two for each slot the loop has not passed. *)
Definition rank (c : Config) : nat :=
  match c.1 with
  | LoadingIndex => 2 * slotCount + 3
  | IndexReady => 2 * slotCount + 2
  | LoadingPayload i _ => (2 * (slotCount - i) + 1) `max` 3
  | PayloadReady i _ => (2 * (slotCount - i)) `max` 2
  | PassSettled _ => 1
  | Finished => 0
  end.

(** A step of a run: a job of the chain, or a step [env] of the rest of
    the engine, which leaves the chain waiting for what it waited for. *)
Inductive step (env : relation World) : relation Config :=
| step_job c c' : job c c' → step env c c'
| step_env p w w' : env w w' → step env (p, w) (p, w').

(** The chain has ended and shown its index to the engine. *)
Definition published (c : Config) : Prop :=
  c.1 = Finished ∧ _globalInfo c.2 = Some (globalInfo c.2).

(** The pending index agrees with the disk on every slot in range. *)
Definition pending_synced (c : Config) : Prop := synced_below slotCount c.2.

(** The chain is on course to a complete pass: no promise it waits for
    was rejected, the loop invariant holds while the pass is under way,
    and the pending index agrees with the disk once the chain has ended. *)
Definition steady (c : Config) : Prop :=
  match c.1 with
  | PayloadReady _ (Throw _) | PassSettled (Throw _) => False
  | Finished => pending_synced c
  | _ => loop_invariant c
  end.

(** The schedule that runs the jobs of the chain back to back and idles
    once it has ended. *)
Definition eager (c : Config) : nat → Config := λ n, run_jobs n c.

End steps.

(** ** Every job lowers the rank *)

Section rank_facts.
Context `{Host}.
Implicit Types (w : World) (i j k : nat) (u : bool) (slots : list nat)
  (c : Config) (p : Phase) (env : relation World).

(** Where the loop stops: at a slot it was resumed with, or at its end. *)
Lemma resume_phase slots u w :
  match (resume slots u w).1 with
  | LoadingPayload j _ => j ∈ slots
  | PassSettled (Done _) => True
  | _ => False
  end.
Proof.
  revert u w. induction slots as [|i slots IH]; intros u w; [done|].
  rewrite resume_cons. destruct (missing (globalInfo w) i); [simpl; set_solver|].
  assert (∀ u' w', match (resume slots u' w').1 with
                   | LoadingPayload j _ => j ∈ i :: slots
                   | PassSettled (Done _) => True
                   | _ => False
                   end) as IH'.
  { intros u' w'. specialize (IH u' w').
    destruct (resume slots u' w').1 as [| | | |[]|]; set_solver. }
  destruct (stale (globalInfo w) i); apply IH'.
Qed.

Lemma elem_of_slotsFrom k j : j ∈ slotsFrom k ↔ k ≤ j < slotCount.
Proof. unfold slotsFrom, slotCount. rewrite elem_of_seq. lia. Qed.

(** Resumed at slot [k], the loop leaves at most two jobs for each slot
    from [k] on, and one. *)
Lemma resume_rank k u w :
  rank (resume (slotsFrom k) u w) ≤ (2 * (slotCount - k) + 1) `max` 1 ∧
  (k < slotCount ∨ rank (resume (slotsFrom k) u w) = 1).
Proof.
  pose proof (resume_phase (slotsFrom k) u w) as Hp. unfold rank.
  destruct (resume (slotsFrom k) u w).1 as [| |j info| |[]|]; try done; [|lia].
  apply elem_of_slotsFrom in Hp. lia.
Qed.

Lemma job_rank c c' : job c c' → rank c' < rank c.
Proof.
  destruct 1 as [w g Hg|w e He|w|i info w|i info w|i e w|b w|e w];
    try (unfold rank; simpl; lia).
  - rewrite <-slotsFrom_0. destruct (resume_rank 0 false w) as [Hle _].
    change (rank (IndexReady, w)) with (2 * slotCount + 2). lia.
  - destruct (resume_rank (S i) true
               (set_globalInfo (λ a, arr_set a i (Obj info)) w)) as [Hle Hk].
    change (rank (PayloadReady i (Done info), w))
      with ((2 * (slotCount - i)) `max` 2). lia.
Qed.

Lemma rank_Finished c : rank c = 0 ↔ c.1 = Finished.
Proof. unfold rank. destruct c.1; split; (done || lia). Qed.

Lemma rank_bound c : rank c ≤ 2 * slotCount + 3.
Proof. unfold rank. destruct c.1; lia. Qed.

(** A job is ready for as long as the chain has not ended. *)
Lemma job_enabled c : 0 < rank c → red job c.
Proof.
  intros Hr. destruct (run_job c) as [c'|] eqn:Hrun.
  - exists c'. by apply job_run.
  - destruct c as [[| | |i []|[]|] w]; simpl in Hrun; try done.
    unfold rank in Hr. simpl in Hr. lia.
Qed.

Lemma step_rank env c c' : step env c c' → rank c' ≤ rank c.
Proof. destruct 1 as [c c' Hjob%job_rank|]; [lia|done]. Qed.

(** The steps of the environment do not touch the phase. *)
Lemma step_phase env c c' : step env c c' → c'.1 = c.1 ∨ job c c'.
Proof. destruct 1; auto. Qed.

(** ** The eager schedule is a fair run *)

Lemma run_jobs_iter fuel c : run_jobs fuel c = iter_opt run_job fuel c.
Proof.
  revert c. induction fuel as [|fuel IH]; intros c; [done|]. simpl.
  by destruct (run_job c).
Qed.

Lemma eager_run env c : Reflexive env → run (step env) (eager c).
Proof.
  intros Hrefl n. unfold eager. rewrite !run_jobs_iter.
  apply (iter_opt_run run_job (step env)).
  - intros c1 c2 Hrun. by apply step_job, job_run.
  - intros [p w] _. by apply step_env.
Qed.

Lemma eager_fair c : weakly_fair job (eager c).
Proof.
  intros n. unfold eager.
  destruct (iter_opt_fair run_job job c job_run n) as (m & Hm & Hstep).
  exists m. by rewrite !run_jobs_iter.
Qed.

(** The jobs of the chain are steps of every run. *)
Lemma eager_steps env fuel c : rtc (step env) c (run_jobs fuel c).
Proof.
  eapply (rtc_subrel job); [|apply run_jobs_rtc]. intros c1 c2. apply step_job.
Qed.

Lemma step_env_world env c w' : env c.2 w' → step env c (c.1, w').
Proof. destruct c as [p w]. apply step_env. Qed.

(** A run that is fair to the chain reaches its end and stays there. *)
Lemma fair_chain_ends env (e : nat → Config) :
  run (step env) e → weakly_fair job e → stabilises (λ c, c.1 = Finished) e.
Proof.
  intros Hrun Hfair. eapply stabilises_weaken; [intros c; apply rank_Finished|].
  by eapply (fair_rank_terminates job (step env) rank);
    eauto using job_rank, step_rank, job_enabled.
Qed.

End rank_facts.

(** ** Any environment: the chain ends *)

Section any_environment.
Context `{Host} (env : relation World).
Implicit Types (c : Config) (e : nat → Config).

(** Liveness. In every run of the engine in which a job of the chain
    that is ready is not put off for ever, the chain ends, whatever the
    other jobs do to the world in between: from some position on it waits
    for nothing. *)
Theorem chain_fair_terminates e :
  run (step env) e → weakly_fair job e → stabilises (λ c, c.1 = Finished) e.
Proof.
  apply fair_chain_ends.
Qed.

(** C39: a bound on the work of the chain. In any run, fair or not, the
    jobs of the chain are at most three and two for each slot, however
    many steps of the environment lie between them. *)
Theorem chain_jobs_bounded e (at_ : list nat) :
  run (step env) e → NoDup at_ → (∀ n, n ∈ at_ → job (e n) (e (S n))) →
  length at_ ≤ 3 + 2 * slotCount.
Proof.
  intros Hrun Hnd Hjobs. pose proof (rank_bound (e 0)).
  pose proof (live_steps_bounded job (step env) rank job_rank (step_rank env)
                job_enabled e at_ Hrun Hnd Hjobs). lia.
Qed.

End any_environment.

(** ** An environment without access to the pending index *)

(** The pending index is a local variable of [loadGlobalInfo], handed to
    [updateGlobalInfo] as its argument; no other code holds a reference to
    it until the last job publishes it. *)
Section private_pending.
Context `{Host} (env : relation World).
Hypothesis env_pending : ∀ w w', env w w' → globalInfo w' = globalInfo w.
Implicit Types (w : World) (c : Config) (e : nat → Config) (p : Phase).

Lemma loop_invariant_ext p w w' :
  globalInfo w' = globalInfo w → loop_invariant (p, w) → loop_invariant (p, w').
Proof.
  intros Hg. unfold loop_invariant, synced_below. cbn [fst snd]. by rewrite Hg.
Qed.

Lemma steady_ext p w w' :
  globalInfo w' = globalInfo w → steady (p, w) → steady (p, w').
Proof.
  intros Hg. pose proof (loop_invariant_ext p w w' Hg) as Hinv.
  unfold steady, pending_synced, synced_below in *. cbn [fst snd] in *.
  rewrite Hg. by destruct p as [| | |i []|[]|].
Qed.

(** Every step keeps the loop invariant. *)
Lemma step_invariant c c' : step env c c' → loop_invariant c → loop_invariant c'.
Proof.
  destruct 1 as [c c' Hjob|p w w' Henv]; [by apply job_invariant|].
  by apply loop_invariant_ext, env_pending.
Qed.

Lemma finishSynthesis_is_done i info r w :
  is_done (eval (finishSynthesis i info r) w) = is_done r.
Proof.
  unfold eval, finishSynthesis. destruct r as [sc|err]; [|done]. prog_simpl.
  by destruct (tryExtract sc info) as [info' [[]|err]].
Qed.

(** With every payload readable, a job keeps the chain on course. *)
Lemma job_steady c c' : payloads_load = true → job c c' → steady c → steady c'.
Proof.
  intros Hload Hjob Hc.
  assert (loop_invariant c) as Hinv by (by destruct c as [[| | |i []|[]|] w]).
  pose proof (job_invariant _ _ Hjob Hinv) as Hinv'.
  destruct Hjob as [w g Hg|w err He|w|i info w|i info w|i err w|b w|err w];
    try done.
  - pose proof (resume_phase allSlots false w) as Hp. unfold steady.
    by destruct (resume allSlots false w).1 as [| | | |[]|].
  - destruct Hinv as (Hi & _ & [Hex _]%andb_prop).
    pose proof (payloads_load_spec Hload i Hi Hex) as Hdone.
    rewrite <-(finishSynthesis_is_done i info _ w) in Hdone. unfold steady.
    cbn [fst]. subst rest. by destruct (eval _ w).
  - set (w' := set_globalInfo _ w) in *.
    pose proof (resume_phase (slotsFrom (S i)) true w') as Hp. unfold steady.
    by destruct (resume (slotsFrom (S i)) true w').1 as [| | | |[]|].
  - unfold steady, pending_synced. cbn [fst snd]. by destruct b.
Qed.

Lemma step_steady c c' : payloads_load = true → step env c c' → steady c → steady c'.
Proof.
  intros Hload [c1 c2 Hjob|p w w' Henv]; [by apply job_steady|].
  by apply steady_ext, env_pending.
Qed.

(** The loop invariant under interleaving. Whatever runs between the
    jobs of the chain, at every position of a run that starts with the
    load of the index the loop invariant holds: the slots below the one
    the chain is working on agree with the disk. *)
Theorem interleaved_loop_invariant e :
  run (step env) e → (e 0).1 = LoadingIndex → always loop_invariant e.
Proof.
  intros Hrun H0. apply (always_intro (step env)); [done| |apply step_invariant].
  unfold loop_invariant. by rewrite H0.
Qed.

(** C12: liveness of the repair. When the payload of every save file
    loads, a run that is fair to the chain brings every start of the chain
    to a position at which the chain has ended, its index is the one the
    engine sees, and every slot in range has a record exactly when its
    save file exists. *)
Theorem chain_fair_publishes e :
  run (step env) e → weakly_fair job e → payloads_load = true →
  ((λ c, c.1 = LoadingIndex) ~~> (λ c, published c ∧ pending_synced c))%T e.
Proof.
  intros Hrun Hfair Hload n Hn.
  pose proof (run_suffix _ _ n Hrun) as Hrun'.
  destruct (fair_chain_ends env (suffix n e) Hrun'
              (weakly_fair_suffix _ _ n Hfair)) as [m Hm].
  destruct (first_position (λ c, c.1 = Finished) (suffix n e) m)
    as (k & _ & Hk & HSk); [unfold suffix; rewrite Nat.add_0_r, Hn; done|by apply Hm|].
  assert (always steady (suffix n e)) as Hsteady.
  { apply (always_intro (step env)); [done| |intros c c'; by apply step_steady].
    unfold steady, loop_invariant, suffix. by rewrite Nat.add_0_r, Hn. }
  exists (n + S k). split; [lia|]. fold (suffix n e (S k)).
  specialize (Hsteady (S k)). unfold steady in Hsteady. rewrite HSk in Hsteady.
  split; [split; [done|]|done].
  destruct (step_phase _ _ _ (Hrun' k)) as [Heq|Hjob]; [congruence|].
  destruct (suffix n e (S k)) as [p w]. simpl in HSk. subst p.
  by eapply job_publishes.
Qed.

End private_pending.

(** ** An environment that logs and reads the clock *)

Section quiet_environment.
Context `{Host} (env : relation World).
Hypothesis env_quiet : ∀ w w', env w w' → frame w w'.
Implicit Types (w : World) (c : Config).

Lemma step_preserves_wf c c' : step env c c' → wf_config c → wf_config c'.
Proof.
  destruct 1 as [c c' Hjob|p w w' Henv]; [by apply job_preserves_wf|].
  intros [Hp Hw]. split; [done|]. by eapply wf_world_frame, Hw; apply env_quiet.
Qed.

(** Every state of an interleaved run is well formed when the first
    is. *)
Theorem interleaved_well_formed w c :
  wf_world w → rtc (step env) (LoadingIndex, w) c → wf_config c.
Proof.
  intros Hw Hsteps. assert (wf_config (LoadingIndex, w)) as Hc by done.
  revert Hc. induction Hsteps; eauto using step_preserves_wf.
Qed.

End quiet_environment.
