(* ===== verification/Erasure.v ===== *)
(** * The chain up to timestamps

    A step of the engine between two jobs of the chain may read the clock
    and write to the console. The records the chain synthesises are then
    stamped later than in a run without such steps, and the console holds
    more lines; nothing else differs. This file makes that precise: the
    erasure [erase] forgets the console, the clock and the timestamps; a
    job cannot tell apart two configurations with the same erasure
    ([job_erase], a lock-step simulation); a step of a quiet environment
    does not change the erasure; so every interleaved run ends, up to
    erasure, where the sequential program of [Loader] ends. *)

From stdpp Require Import strings gmap relations.
From S2P Require Import Prelude JsBase Host Extractor Synthesis Reconciler.
From S2P Require Import Loader Trace Jobs Temporal WellFormed Interleave.

(** ** Erasure *)

Definition erase_info (info : SaveInfo) : SaveInfo :=
  mkInfo (title info) (characters info) (faces info) (playtime info) 0.

Definition erase_array (a : jsarray SaveInfo) : jsarray SaveInfo :=
  forget_timestamp <$> a.

(** The world without console, clock and timestamps. *)
Definition erase_world (w : World) : World :=
  mkWorld [] 0 (erase_array (globalInfo w)) (erase_array <$> _globalInfo w)
    (cmap erase_array (storedGlobal w)).

Definition erase_phase (p : Phase) : Phase :=
  match p with
  | LoadingPayload i info => LoadingPayload i (erase_info info)
  | PayloadReady i r => PayloadReady i (cmap erase_info r)
  | _ => p
  end.

Definition erase (c : Config) : Config := (erase_phase c.1, erase_world c.2).

(** Configurations that differ in console, clock and timestamps only. *)
Definition similar (c c' : Config) : Prop := erase c = erase c'.

#[export] Instance similar_equivalence : Equivalence similar.
Proof.
  unfold similar. split; [by intros c|by intros c c'|].
  intros c1 c2 c3. congruence.
Qed.

(** ** Arrays *)

Section erase_arrays.
Implicit Types (a b : jsarray SaveInfo) (i : nat) (info : SaveInfo)
  (e : elem SaveInfo).

Lemma forget_timestamp_Obj info : forget_timestamp (Obj info) = Obj (erase_info info).
Proof. done. Qed.

Lemma truthy_forget e : truthy (forget_timestamp e) = truthy e.
Proof. by destruct e. Qed.

Lemma arr_get_erase a i : arr_get (erase_array a) i = forget_timestamp (arr_get a i).
Proof.
  unfold arr_get, erase_array. rewrite list_lookup_fmap. by destruct (a !! i).
Qed.

(** Truthiness of an element is read off the erasure. *)
Lemma truthy_erase a b i :
  erase_array a = erase_array b → truthy (arr_get a i) = truthy (arr_get b i).
Proof.
  intros Hab. by rewrite <-(truthy_forget (arr_get a i)), <-arr_get_erase, Hab,
    arr_get_erase, truthy_forget.
Qed.

Lemma erase_array_set a i e :
  erase_array (arr_set a i e) = arr_set (erase_array a) i (forget_timestamp e).
Proof.
  unfold arr_set, erase_array. rewrite length_fmap. case_decide.
  - apply list_fmap_insert.
  - by rewrite !fmap_app, fmap_replicate.
Qed.

Lemma erase_array_delete a i :
  erase_array (arr_delete a i) = arr_delete (erase_array a) i.
Proof. apply (list_fmap_insert forget_timestamp a i Hole). Qed.

Lemma erase_array_json a : erase_array (json_array a) = json_array (erase_array a).
Proof.
  unfold erase_array, json_array. rewrite <-!list_fmap_compose.
  apply list_fmap_ext. by intros i [| |x] _.
Qed.

End erase_arrays.

(** ** Worlds *)

Section erase_worlds.
Implicit Types (w v : World) (f g : jsarray SaveInfo → jsarray SaveInfo).

Lemma erase_world_fields w v :
  erase_world w = erase_world v ↔
  erase_array (globalInfo w) = erase_array (globalInfo v) ∧
  erase_array <$> _globalInfo w = erase_array <$> _globalInfo v ∧
  cmap erase_array (storedGlobal w) = cmap erase_array (storedGlobal v).
Proof. unfold erase_world. split; [by intros [= -> -> ->]|by intros (-> & -> & ->)]. Qed.

(** Console and clock are not part of the erasure. *)
Lemma erase_set_console w h : erase_world (set_console h w) = erase_world w.
Proof. done. Qed.

Lemma erase_set_clockReads w h : erase_world (set_clockReads h w) = erase_world w.
Proof. done. Qed.

(** An assignment to the pending index that respects erasure. *)
Lemma erase_set_globalInfo w v f g :
  erase_world w = erase_world v →
  erase_array (f (globalInfo w)) = erase_array (g (globalInfo v)) →
  erase_world (set_globalInfo f w) = erase_world (set_globalInfo g v).
Proof.
  rewrite !erase_world_fields. intros (_ & Hp & Hs) Hfg. by split.
Qed.

Lemma erase_publish w v :
  erase_world w = erase_world v →
  erase_world (set__globalInfo (Some (globalInfo w)) w) =
  erase_world (set__globalInfo (Some (globalInfo v)) v).
Proof.
  rewrite !erase_world_fields. intros (Hg & _ & Hs). simpl. by rewrite Hg.
Qed.

Lemma erase_save w v :
  erase_world w = erase_world v →
  erase_world (exec saveGlobalInfo w) = erase_world (exec saveGlobalInfo v).
Proof.
  rewrite !erase_world_fields. intros (Hg & Hp & Hs).
  unfold exec, saveGlobalInfo, modify. cbn [fst].
  destruct (_globalInfo w) as [a|] eqn:Ha, (_globalInfo v) as [b|] eqn:Hb;
    try done; simpl; rewrite ?Ha, ?Hb; [|done].
  injection Hp as Hab. simpl. by rewrite !erase_array_json, Hab.
Qed.

(** A step that respects [frame] does not change the erasure. *)
Lemma erase_frame w v : frame w v → erase_world v = erase_world w.
Proof. intros [Hg Hp Hs _ _]. apply erase_world_fields. by rewrite Hg, Hp, Hs. Qed.

End erase_worlds.

(** ** The pieces of the chain *)

Section erase_chain.
Context `{Host}.
Implicit Types (w v : World) (i : nat) (u : bool) (slots : list nat)
  (info : SaveInfo) (a b : jsarray SaveInfo) (c : Config) (p : Phase).

Lemma missing_erase a b i : erase_array a = erase_array b → missing a i = missing b i.
Proof. intros Hab. unfold missing. by rewrite (truthy_erase a b i Hab). Qed.

Lemma stale_erase a b i : erase_array a = erase_array b → stale a i = stale b i.
Proof. intros Hab. unfold stale. by rewrite (truthy_erase a b i Hab). Qed.

(** The [try] reads nothing of the record it fills in. *)
Lemma tryExtract_erase sc info info' :
  erase_info info = erase_info info' →
  erase_info (tryExtract sc info).1 = erase_info (tryExtract sc info').1 ∧
  (tryExtract sc info).2 = (tryExtract sc info').2.
Proof.
  intros [= Ht Hc Hf Hp]. rewrite !tryExtract_run.
  destruct (extractCharacters sc), (extractFaces sc), (extractPlaytime sc);
    unfold erase_info; simpl; split; congruence.
Qed.

Lemma erase_finishSynthesis i info r w :
  erase_world (exec (finishSynthesis i info r) w) = erase_world w.
Proof.
  destruct (finishSynthesis_frame i info r w) as [[= Hp Hs] Hg].
  apply erase_world_fields. by rewrite Hg, Hp, Hs.
Qed.

Lemma eval_finishSynthesis_erase i info info' r w v :
  erase_info info = erase_info info' →
  cmap erase_info (eval (finishSynthesis i info r) w) =
  cmap erase_info (eval (finishSynthesis i info' r) v).
Proof.
  intros Hi. unfold eval, finishSynthesis. destruct r as [sc|err]; [|done].
  prog_simpl. destruct (tryExtract_erase sc info info' Hi) as [Hinfo Hres].
  destruct (tryExtract sc info) as [x [[]|e]], (tryExtract sc info') as [y [[]|e']];
    simpl in *; by rewrite ?Hinfo.
Qed.

(** The loop cannot tell apart worlds with the same erasure. *)
Lemma resume_erase slots u w v :
  erase_world w = erase_world v → similar (resume slots u w) (resume slots u v).
Proof.
  revert u w v. induction slots as [|i slots IH]; intros u w v Hwv.
  { unfold similar, erase. simpl. by rewrite Hwv. }
  pose proof (proj1 (erase_world_fields w v) Hwv) as (Hg & _ & _).
  rewrite !resume_cons, (missing_erase _ _ i Hg), (stale_erase _ _ i Hg).
  destruct (missing (globalInfo v) i).
  { unfold similar, erase. cbn [fst snd]. f_equal. exact Hwv. }
  destruct (stale (globalInfo v) i); apply IH; [|done].
  apply erase_set_globalInfo; [done|]. by rewrite !erase_array_delete, Hg.
Qed.

Lemma erase_loaded_world w v :
  erase_world w = erase_world v →
  erase_world (loaded_world w) = erase_world (loaded_world v).
Proof.
  intros Hwv. pose proof (proj1 (erase_world_fields w v) Hwv) as (_ & _ & Hs).
  unfold loaded_world.
  destruct (storedGlobal w) as [a|e], (storedGlobal v) as [b|e']; try done.
  - injection Hs as Hab. rewrite !erase_set_console.
    by apply erase_set_globalInfo.
  - by apply erase_set_globalInfo.
Qed.

Lemma erase_onUpdated u w v :
  erase_world w = erase_world v →
  erase_world (exec (onUpdated u) w) = erase_world (exec (onUpdated u) v).
Proof.
  intros Hwv. unfold exec, onUpdated, publish. prog_simpl.
  destruct u; [apply erase_save|]; by apply erase_publish.
Qed.

Lemma erase_onUpdateFailed err w v :
  erase_world w = erase_world v →
  erase_world (exec (onUpdateFailed err) w) = erase_world (exec (onUpdateFailed err) v).
Proof. intros Hwv. by apply (erase_publish w v). Qed.

(** ** The simulation *)

Lemma run_job_index w : run_job (LoadingIndex, w) = Some (IndexReady, loaded_world w).
Proof. apply job_run, job_index. Qed.

Lemma similar_intro p p' w v :
  erase_phase p = erase_phase p' → erase_world w = erase_world v →
  similar (p, w) (p', v).
Proof. unfold similar, erase. cbn [fst snd]. by intros -> ->. Qed.

(** Phases with the same erasure wait for the same promise. *)
Lemma erase_phase_inv p p' :
  erase_phase p = erase_phase p' →
  match p, p' with
  | LoadingPayload i info, LoadingPayload j info' =>
      i = j ∧ erase_info info = erase_info info'
  | PayloadReady i (Done info), PayloadReady j (Done info') =>
      i = j ∧ erase_info info = erase_info info'
  | PayloadReady i (Throw e), PayloadReady j (Throw e') => i = j ∧ e = e'
  | PayloadReady _ _, PayloadReady _ _ => False
  | _, _ => p = p'
  end.
Proof.
  destruct p as [| |i info|i [info|err]|r|], p' as [| |j info'|j [info'|err']|r'|];
    intros Heq; simplify_eq/=; try split; unfold erase_info; congruence.
Qed.

(** A job cannot tell apart configurations with the same erasure. *)
Lemma run_job_erase c1 c2 :
  similar c1 c2 → option_Forall2 similar (run_job c1) (run_job c2).
Proof.
  destruct c1 as [p1 w], c2 as [p2 v]. unfold similar at 1, erase.
  cbn [fst snd]. intros [Hp Hwv]%pair_eq.
  pose proof (proj1 (erase_world_fields w v) Hwv) as (Hg & _ & _).
  apply erase_phase_inv in Hp.
  destruct p1 as [| |i info|i [info|err]|[u|err]|],
    p2 as [| |j info'|j [info'|err']|[u'|err']|]; try done;
    rewrite ?run_job_index; constructor.
  - by apply similar_intro, erase_loaded_world.
  - by apply resume_erase.
  - destruct Hp as [-> Hinfo].
    apply similar_intro; [|by rewrite !erase_finishSynthesis].
    simpl. f_equal. by apply eval_finishSynthesis_erase.
  - destruct Hp as [-> Hinfo]. apply resume_erase, erase_set_globalInfo; [done|].
    by rewrite !erase_array_set, Hg, !forget_timestamp_Obj, Hinfo.
  - destruct Hp as [-> ->]. by apply similar_intro.
  - injection Hp as ->. by apply similar_intro, erase_onUpdated.
  - injection Hp as ->. by apply similar_intro, erase_onUpdateFailed.
Qed.

Lemma job_erase c1 c1' c2 :
  job c1 c1' → similar c1 c2 → ∃ c2', job c2 c2' ∧ similar c1' c2'.
Proof.
  intros Hjob%job_run Hsim. pose proof (run_job_erase c1 c2 Hsim) as Hrun.
  rewrite Hjob in Hrun. inversion Hrun as [c1'' c2' Hsim' Heq1 Heq2|]; subst.
  exists c2'. split; [by apply job_run|done].
Qed.

End erase_chain.

(** ** A quiet environment *)

(** The steps of the environment respect [frame]: they write to the
    console and read the clock. *)
Section quiet_environment.
Context `{Host} (env : relation World).
Hypothesis env_quiet : ∀ w w', env w w' → frame w w'.
Implicit Types (w : World) (c : Config) (e : nat → Config).

(** The simulation: a job is answered by the same job, a step of the
    environment by none. *)
Lemma step_erase c1 c1' c2 :
  step env c1 c1' → similar c1 c2 → ∃ c2', rtc job c2 c2' ∧ similar c1' c2'.
Proof.
  intros [c c' Hjob|p w w' Henv] Hsim.
  - destruct (job_erase _ _ _ Hjob Hsim) as (c2' & Hjob' & Hsim').
    exists c2'. split; [by apply rtc_once|done].
  - exists c2. split; [done|]. etrans; [|exact Hsim].
    apply similar_intro; [done|]. by apply erase_frame, env_quiet.
Qed.

Lemma steps_erase c1 c1' c2 :
  rtc (step env) c1 c1' → similar c1 c2 → ∃ c2', rtc job c2 c2' ∧ similar c1' c2'.
Proof.
  intros Hsteps. revert c2. induction Hsteps as [c|c1 c1' c1'' Hstep _ IH];
    intros c2 Hsim; [by exists c2|].
  destruct (step_erase _ _ _ Hstep Hsim) as (c2' & Hjobs & Hsim').
  destruct (IH c2' Hsim') as (c2'' & Hjobs' & Hsim'').
  exists c2''. split; [by etrans|done].
Qed.

(** An interleaved run that has ended is, up to erasure, where the
    sequential program ends. *)
Lemma interleaved_end w c :
  rtc (step env) (LoadingIndex, w) c → c.1 = Finished →
  similar c (Finished, exec loadGlobalInfo w).
Proof.
  intros Hsteps Hfin.
  destruct (steps_erase _ _ (LoadingIndex, w) Hsteps) as ([p' w'] & Hjobs & Hsim);
    [done|].
  etrans; [exact Hsim|]. apply pair_eq in Hsim as [Hp _]. cbn [fst snd] in Hp.
  rewrite Hfin in Hp. assert (p' = Finished) as -> by (by destruct p').
  by rewrite (chain_end w _ Hjobs (Finished_nf w')).
Qed.

(** C13: refinement under interleaving. However the jobs of the chain are
    interleaved with steps of the engine that log and read the clock, a
    run that has ended has left the index the engine sees, the persisted
    index and the pending index as the sequential program leaves them, up
    to the timestamps of the synthesised records. *)
Theorem interleaved_refines w c :
  rtc (step env) (LoadingIndex, w) c → c.1 = Finished →
  let w' := exec loadGlobalInfo w in
  erase_array <$> _globalInfo c.2 = erase_array <$> _globalInfo w' ∧
  cmap erase_array (storedGlobal c.2) = cmap erase_array (storedGlobal w') ∧
  erase_array (globalInfo c.2) = erase_array (globalInfo w').
Proof.
  intros Hsteps Hfin. cbv zeta.
  pose proof (interleaved_end w c Hsteps Hfin) as [_ Hw]%pair_eq.
  by apply erase_world_fields in Hw as (Hg & Hp & Hs).
Qed.

(** Convergence. Every run that is fair to the chain, started with
    the load of the index, settles for good in the state of the
    sequential program, up to console, clock and timestamps. *)
Theorem chain_fair_converges e w :
  run (step env) e → weakly_fair job e → e 0 = (LoadingIndex, w) →
  stabilises (λ c, similar c (Finished, exec loadGlobalInfo w)) e.
Proof.
  intros Hrun Hfair H0. destruct (fair_chain_ends env e Hrun Hfair) as [n Hn].
  exists n. intros m Hm. apply interleaved_end; [|by apply Hn].
  rewrite <-H0. apply run_rtc; [done|lia].
Qed.

End quiet_environment.
