(* ===== verification/Reload.v ===== *)
(** * What a chain computes from the index it loads

    The first job of the chain reads the stored index and its last job
    writes [DataManager._globalInfo] and, after a change, the storage. In
    between the chain works on its pending index alone: it neither reads
    nor writes what the engine sees. This file makes that a simulation.
    The [course] of a configuration is the promise the chain waits for
    and its pending index, without timestamps; two chains on the same
    course stay on the same course, whatever the fields of the engine
    hold. Two consequences for the sequential program: chains that load
    the same index publish the same records, and a second call of
    [loadGlobalInfo] leaves the storage as the first left it and
    publishes the same index, whether the first pass returned or
    threw. *)

From stdpp Require Import strings gmap relations.
From S2P Require Import Prelude JsBase Host Extractor Synthesis Reconciler IndexSpec.
From S2P Require Import Loader Trace Jobs Temporal WellFormed Interleave Erasure.

Section course.
Context `{Host}.
Implicit Types (w v : World) (i : nat) (u : bool) (slots : list nat)
  (info : SaveInfo) (a b : jsarray SaveInfo) (c : Config) (p : Phase)
  (x : option (jsarray SaveInfo) * completion JsError (jsarray SaveInfo)).

(** What a chain has of its own, up to timestamps. *)
Definition course (c : Config) : Phase * jsarray SaveInfo :=
  (erase_phase c.1, erase_array (globalInfo c.2)).

(** The world with the fields the engine sees set to [x]. *)
Definition with_visible x w : World := set_storedGlobal x.2 (set__globalInfo x.1 w).

(** A configuration with the fields of the engine blanked. *)
Definition hide (c : Config) : Config :=
  (c.1, with_visible (None, Throw (LoadError "")) c.2).

(** The stored indices are the same up to timestamps. *)
Definition same_stored w v : Prop :=
  cmap erase_array (storedGlobal w) = cmap erase_array (storedGlobal v).

(** The engine sees the same records in both worlds, up to timestamps
    and to the difference of a hole and a [null]. *)
Definition same_published w v : Prop :=
  ∃ a b, _globalInfo w = Some a ∧ _globalInfo v = Some b ∧
    erase_array a ≡ᵢ erase_array b.

(** ** Hiding the fields of the engine *)

Lemma similar_course c1 c2 : similar c1 c2 → course c1 = course c2.
Proof.
  intros [Hp Hw]%pair_eq. apply erase_world_fields in Hw as (Hg & _ & _).
  unfold course. by rewrite Hp, Hg.
Qed.

Lemma similar_hide c1 c2 : course c1 = course c2 → similar (hide c1) (hide c2).
Proof.
  intros [Hp Hg]%pair_eq. apply similar_intro; [done|]. by apply erase_world_fields.
Qed.

(** The loop reads the pending index and the clock, and writes the
    pending index and the console. *)
Lemma resume_with_visible x slots u w :
  resume slots u (with_visible x w) =
  ((resume slots u w).1, with_visible x (resume slots u w).2).
Proof.
  revert u w. induction slots as [|i slots IH]; intros u w; [done|].
  rewrite !resume_cons. change (globalInfo (with_visible x w)) with (globalInfo w).
  destruct (missing (globalInfo w) i); [done|].
  destruct (stale (globalInfo w) i); [|apply IH].
  apply (IH true (set_globalInfo (λ a, arr_delete a i) w)).
Qed.

Lemma finishSynthesis_with_visible x i info r w :
  finishSynthesis i info r (with_visible x w) =
  (with_visible x (exec (finishSynthesis i info r) w),
   eval (finishSynthesis i info r) w).
Proof.
  unfold exec, eval, finishSynthesis. destruct r as [sc|err]; [|done]. prog_simpl.
  by destruct (tryExtract sc info) as [info' [[]|err]].
Qed.

(** After its first job the chain does not read the fields of the
    engine. *)
Lemma run_job_hide c : c.1 ≠ LoadingIndex → course <$> run_job (hide c) = course <$> run_job c.
Proof.
  destruct c as [[| |i info|i [info|err]|[u|err]|] w]; intros Hp; try done;
    unfold hide; cbn [fst snd run_job fmap option_fmap option_map];
    apply (f_equal Some).
  - by rewrite resume_with_visible.
  - unfold exec, eval. by rewrite finishSynthesis_with_visible.
  - set (x := (None, Throw (LoadError ""))). set (f := λ a, arr_set a i (Obj info)).
    change (set_globalInfo f (with_visible x w))
      with (with_visible x (set_globalInfo f w)).
    by rewrite resume_with_visible.
  - by destruct u.
Qed.

(** ** Chains on the same course *)

Lemma run_job_course c1 c2 :
  course c1 = course c2 → c1.1 ≠ LoadingIndex →
  course <$> run_job c1 = course <$> run_job c2.
Proof.
  intros Hc Hp.
  assert (c2.1 ≠ LoadingIndex) as Hp'.
  { apply pair_eq in Hc as [He _]. destruct c1 as [[] ?], c2 as [[] ?]; naive_solver. }
  rewrite <-(run_job_hide c1), <-(run_job_hide c2) by done.
  destruct (run_job_erase (hide c1) (hide c2) (similar_hide _ _ Hc)) as [c1' c2' Hs|];
    [|done].
  simpl. f_equal. by apply similar_course.
Qed.

Lemma job_after_load c c' : job c c' → c'.1 ≠ LoadingIndex.
Proof.
  destruct 1 as [w g Hg|w e He|w|i info w|i info w|i e w|b w|e w]; try done.
  - pose proof (resume_phase allSlots false w) as Hp.
    by destruct (resume allSlots false w).1.
  - set (w' := set_globalInfo _ w).
    pose proof (resume_phase (slotsFrom (S i)) true w') as Hp.
    by destruct (resume (slotsFrom (S i)) true w').1.
Qed.

(** The simulation: a job of one chain is answered by the same job of
    the other. *)
Lemma job_course c1 c1' c2 :
  job c1 c1' → course c1 = course c2 → c1.1 ≠ LoadingIndex →
  ∃ c2', job c2 c2' ∧ course c1' = course c2'.
Proof.
  intros Hjob%job_run Hc Hp. pose proof (run_job_course c1 c2 Hc Hp) as Hrun.
  rewrite Hjob in Hrun. destruct (run_job c2) as [c2'|] eqn:Hrun2; [|done].
  exists c2'. split; [by apply job_run|]. by apply (inj Some).
Qed.

Lemma jobs_course c1 c1' c2 :
  rtc job c1 c1' → course c1 = course c2 → c1.1 ≠ LoadingIndex →
  ∃ c2', rtc job c2 c2' ∧ course c1' = course c2'.
Proof.
  intros Hjobs. revert c2. induction Hjobs as [c|c1 c1' c1'' Hjob _ IH];
    intros c2 Hc Hp; [by exists c2|].
  destruct (job_course _ _ _ Hjob Hc Hp) as (c2' & Hjob' & Hc').
  destruct (IH c2' Hc' (job_after_load _ _ Hjob)) as (c2'' & Hjobs' & Hc'').
  exists c2''. split; [by eapply rtc_l|done].
Qed.

(** ** Chains that load the same index *)

Lemma loaded_course w v :
  same_stored w v → course (IndexReady, loaded_world w) = course (IndexReady, loaded_world v).
Proof.
  unfold same_stored, course. cbn [fst snd]. rewrite !loaded_world_globalInfo.
  destruct (storedGlobal w), (storedGlobal v); simpl; intros Hst; try done.
  by injection Hst as ->.
Qed.

Lemma chain_from_ready w :
  rtc job (IndexReady, loaded_world w) (Finished, exec loadGlobalInfo w).
Proof.
  pose proof (chain_steps w) as Hsteps.
  inversion Hsteps as [|n c1 c2 c3 Hjob Hrest]; subst.
  rewrite (job_deterministic _ _ _ Hjob (job_index w)) in Hrest.
  by eapply rtc_nsteps_2.
Qed.

Lemma jobs_after_load w c : rtc job (IndexReady, w) c → c.1 ≠ LoadingIndex.
Proof.
  intros Hjobs. apply rtc_inv_r in Hjobs as [<-|(c' & _ & Hjob)]; [done|].
  by eapply job_after_load.
Qed.

(** What is reached from the loaded index and has ended is the end of
    the sequential program. *)
Lemma chain_end_ready w c :
  rtc job (IndexReady, loaded_world w) c → c.1 = Finished →
  c = (Finished, exec loadGlobalInfo w).
Proof.
  intros Hjobs Hfin. apply chain_end; [by eapply rtc_l; [apply job_index|]|].
  destruct c as [p v]. simpl in Hfin. subst p. apply Finished_nf.
Qed.

Lemma course_Finished c1 c2 : course c1 = course c2 → c1.1 = Finished → c2.1 = Finished.
Proof. intros [Hp _]%pair_eq Hfin. rewrite Hfin in Hp. by destruct c2.1. Qed.

(** Two chains that load the same index, in whatever state of console,
    clock and engine, end with the same pending index. *)
Lemma chain_course w v :
  same_stored w v →
  erase_array (globalInfo (exec loadGlobalInfo w)) =
  erase_array (globalInfo (exec loadGlobalInfo v)).
Proof.
  intros Hst.
  destruct (jobs_course _ _ (IndexReady, loaded_world v) (chain_from_ready w))
    as (c & Hjobs & Hc); [by apply loaded_course|done|].
  rewrite (chain_end_ready v c Hjobs) in Hc by (by eapply course_Finished).
  by apply pair_eq in Hc as [_ Hg].
Qed.

(** ** What a job does to the storage *)

Lemma resume_storedGlobal slots u w :
  storedGlobal (resume slots u w).2 = storedGlobal w.
Proof. by destruct (resume_visible slots u w) as [_ [_ ?]%pair_eq]. Qed.

(** The one job that writes the storage is the last, after a pass that
    reports a change. *)
Lemma job_stored c c' :
  job c c' →
  (c.1 ≠ PassSettled (Done true) ∧ storedGlobal c'.2 = storedGlobal c.2) ∨
  (c.1 = PassSettled (Done true) ∧
   storedGlobal c'.2 = Done (json_array (globalInfo c.2))).
Proof.
  destruct 1 as [w g Hg|w e He|w|i info w|i info w|i e w|b w|e w];
    cbn [fst snd]; try (by left).
  - left. split; [done|]. apply resume_storedGlobal.
  - left. split; [done|].
    by destruct (finishSynthesis_frame i info (loadObject (makeSavename i)) w)
      as [[_ ?]%pair_eq _].
  - left. split; [done|]. by rewrite resume_storedGlobal.
  - destruct b; [by right|by left].
Qed.

Lemma jobs_visible c c' : rtc job c c' → c'.1 ≠ Finished → visible c'.2 = visible c.2.
Proof.
  revert c'. apply (rtc_ind_r (λ c', c'.1 ≠ Finished → visible c'.2 = visible c.2));
    [done|]. intros c1 c2 _ Hjob IH Hne.
  rewrite (job_visible _ _ Hjob Hne). apply IH. by eapply job_from_unfinished.
Qed.

(** The sequential program, about to save, saves its pending index. *)
Lemma settled_stored w c :
  rtc job (IndexReady, loaded_world w) c → c.1 = PassSettled (Done true) →
  storedGlobal (exec loadGlobalInfo w) = Done (json_array (globalInfo c.2)).
Proof.
  destruct c as [p v]. simpl. intros Hjobs ->.
  assert ((Finished, exec (onUpdated true) v) = (Finished, exec loadGlobalInfo w))
    as [_ <-]%pair_eq; [|done].
  apply chain_end_ready; [|done]. eapply rtc_r; [done|]. apply job_updated.
Qed.

(** The sequential program that ends in another way leaves the storage as
    it found it. *)
Lemma unsettled_stored w c c' :
  rtc job (IndexReady, loaded_world w) c → job c c' → c'.1 = Finished →
  c.1 ≠ PassSettled (Done true) →
  storedGlobal (exec loadGlobalInfo w) = storedGlobal w.
Proof.
  intros Hjobs Hjob Hfin Hp.
  pose proof (chain_end_ready w c' (rtc_r _ _ _ Hjobs Hjob) Hfin) as ->.
  destruct (job_stored _ _ Hjob) as [[_ Hst]|[? _]]; [|done].
  pose proof (jobs_visible _ _ Hjobs (job_from_unfinished _ _ Hjob)) as [_ Hv]%pair_eq.
  simpl in *. by rewrite Hst, Hv, loaded_world_storedGlobal.
Qed.

(** ** Loading again *)

Lemma erase_array_equiv a b : a ≡ᵢ b → erase_array a ≡ᵢ erase_array b.
Proof.
  rewrite !index_equiv_lookup. intros Hab i. rewrite !arr_get_erase.
  specialize (Hab i). destruct (arr_get a i), (arr_get b i); simpl in *; congruence.
Qed.

(** A pass that throws leaves the storage alone, and so does every later
    call; a pass that returns leaves an index the next call finds in
    order. *)
Lemma loadGlobalInfo_again_storedGlobal w :
  let w1 := exec loadGlobalInfo w in
  storedGlobal (exec loadGlobalInfo w1) = storedGlobal w1.
Proof.
  cbv zeta. destruct (is_done (eval updateGlobalInfo (loaded_world w))) eqn:Hdone.
  { by destruct (loadGlobalInfo_reload w Hdone) as [Hst _]. }
  set (w1 := exec loadGlobalInfo w).
  assert (storedGlobal w1 = storedGlobal w) as Hst.
  { unfold w1. rewrite loadGlobalInfo_storedGlobal.
    by destruct (eval updateGlobalInfo (loaded_world w)) as [[]|]. }
  rewrite (loadGlobalInfo_storedGlobal w1).
  assert (is_done (eval updateGlobalInfo (loaded_world w1)) = false) as Hdone1.
  { rewrite updateGlobalInfo_is_done, loaded_world_globalInfo, Hst,
      <-loaded_world_globalInfo, <-updateGlobalInfo_is_done. done. }
  by destruct (eval updateGlobalInfo (loaded_world w1)) as [[]|].
Qed.

Lemma loadGlobalInfo_again_globalInfo w :
  let w1 := exec loadGlobalInfo w in
  erase_array (globalInfo (exec loadGlobalInfo w1)) ≡ᵢ erase_array (globalInfo w1).
Proof.
  cbv zeta. destruct (is_done (eval updateGlobalInfo (loaded_world w))) eqn:Hdone.
  { destruct (loadGlobalInfo_reload w Hdone) as (_ & Hg & _). by apply erase_array_equiv. }
  rewrite (chain_course (exec loadGlobalInfo w) w); [done|].
  unfold same_stored. rewrite loadGlobalInfo_storedGlobal.
  by destruct (eval updateGlobalInfo (loaded_world w)) as [[]|].
Qed.

(** C25: calling [loadGlobalInfo] a second time, on a save directory that
    has not changed, repeats the first call. The storage is left as the
    first call left it, and [DataManager._globalInfo] holds the records it
    held, up to the timestamps of those synthesised anew and to holes read
    back as [null]. This holds on every path of the first call: the pass
    returned with or without a change, or threw at a payload and left the
    index half repaired. *)
Theorem loadGlobalInfo_again w :
  let w1 := exec loadGlobalInfo w in
  let w2 := exec loadGlobalInfo w1 in
  storedGlobal w2 = storedGlobal w1 ∧ same_published w2 w1.
Proof.
  cbv zeta. split; [apply loadGlobalInfo_again_storedGlobal|].
  eexists _, _.
  split_and!; [apply loadGlobalInfo_publishes..|apply loadGlobalInfo_again_globalInfo].
Qed.

End course.
