(* ===== verification/Disk.v ===== *)
(** * Save files that change during a pass

    The plugin is there because save files change behind the back of the
    engine: a cloud client writes them, a player pastes one in. Nothing
    keeps that from happening while the chain is under way. In the other
    files the engine of [Host] answers [savefileExists] and [loadObject]
    the same way for a whole pass; here the save directory is part of the
    state, the environment may change it between two jobs, and each job
    of the chain asks the directory as it is when the job runs. The
    source starts the load of a payload in the job that has checked the
    file (lines 124, 127 and 156 run without a pause), and the engine
    reads the file at some moment before the job that follows the
    [await]; the model reads it at that last moment, when the load
    settles, so that a run of the model has every rejection the engine
    can have, and those of files removed later still. The
    theorems say what survives: the chain still ends, and every slot
    whose file is left alone is reconciled, whatever happens to the
    others. *)

From stdpp Require Import strings gmap relations.
From S2P Require Import Prelude JsBase Host Extractor Synthesis Reconciler.
From S2P Require Import Loader Trace Jobs Temporal Interleave.

(** ** The save directory *)

(** The files of the save directory by name, each with the outcome its
    load would have; a name without entry is a file that is not there. *)
Abbreviation Disk := (gmap string (completion JsError SaveContents)).

Section disk.
Context (base : Host).
Implicit Types (d : Disk) (w : World) (c : Config) (i j : nat).

(** The engine on the directory [d]: [savefileExists(i)] is
    [StorageManager.exists(makeSavename(i))], the load of a file that is
    not there is rejected, and the rest is as in [base]. *)
Definition host_of (d : Disk) : Host := {|
  gameTitle := @gameTitle base;
  maxSavefiles := @maxSavefiles base;
  savefileExists := λ i, bool_decide (is_Some (d !! @makeSavename base i));
  makeSavename := @makeSavename base;
  loadObject := λ name, default (Throw (LoadError name)) (d !! name);
  dateNow := @dateNow base;
|}.

(** A configuration of the chain with the directory. *)
Definition DConfig : Type := Config * Disk.

(** A job of the chain, run on the directory as it is. *)
Inductive djob : relation DConfig :=
| djob_intro c c' d : @job (host_of d) c c' → djob (c, d) (c', d).

(** A step of a run: a job of the chain, or a step of the environment on
    the world and the directory. *)
Inductive dstep (env : relation (World * Disk)) : relation DConfig :=
| dstep_job x y : djob x y → dstep env x y
| dstep_env p w w' d d' : env (w, d) (w', d') → dstep env (p, w, d) (p, w', d').

(** The executable form: the job that is ready, on the directory as it
    is. *)
Definition run_djob (x : DConfig) : option DConfig :=
  c' ← @run_job (host_of x.2) x.1; Some (c', x.2).

(** The jobs run back to back on a directory nobody touches, at most
    [fuel] of them. *)
Definition run_djobs (fuel : nat) (x : DConfig) : DConfig := iter_opt run_djob fuel x.

(** The file of slot [j] is there. *)
Definition on_disk (d : Disk) (j : nat) : bool :=
  bool_decide (is_Some (d !! @makeSavename base j)).

(** What the chain has settled for slot [j], whose file is there or not
    as [present] says: once the loop is past the slot, the pending index
    has a record for it exactly when the file is there; while the loop
    is at the slot, waiting for its payload, the file is there. *)
Definition slot_settled (j : nat) (present : bool) (c : Config) : Prop :=
  match c.1 with
  | LoadingPayload i _ | PayloadReady i _ =>
      (j < i → truthy (arr_get (globalInfo c.2) j) = present) ∧
      (j = i → present = true)
  | PassSettled (Done _) =>
      (Z.of_nat j ≤ @maxSavefiles base)%Z →
      truthy (arr_get (globalInfo c.2) j) = present
  | _ => True
  end.

End disk.

(** ** One slot, on a fixed directory *)

(** The loop and the jobs keep [slot_settled] for a slot whose file the
    engine reports as [present]; nothing is asked of the other slots. *)
Section one_slot.
Context `{H : Host} (j : nat) (present : bool).
Hypothesis Hpresent : savefileExists j = present.
Implicit Types (w : World) (c : Config) (i k : nat) (u : bool).

Lemma resume_slot_settled m k u w :
  m = slotCount - k →
  (j < k → truthy (arr_get (globalInfo w) j) = present) →
  slot_settled H j present (resume (slotsFrom k) u w).
Proof.
  unfold slotCount. revert k u w. induction m as [|m IH]; intros k u w Hm Hbelow.
  { rewrite slotsFrom_nil by lia. intros Hj. apply Hbelow. lia. }
  rewrite slotsFrom_cons, resume_cons by lia.
  destruct (missing (globalInfo w) k) eqn:Hmiss.
  { split; [done|]. intros ->. apply andb_prop in Hmiss as [Hex _]. congruence. }
  unfold missing in Hmiss.
  destruct (stale (globalInfo w) k) eqn:Hstale; unfold stale in Hstale;
    (apply IH; [lia|]); intros Hj; destruct (decide (j = k)) as [->|Hne].
  - simpl. rewrite arr_get_delete_eq, <-Hpresent. by destruct (savefileExists k).
  - simpl. rewrite arr_get_delete_ne by done. apply Hbelow. lia.
  - rewrite <-Hpresent.
    by destruct (savefileExists k), (truthy (arr_get (globalInfo w) k)).
  - apply Hbelow. lia.
Qed.

Lemma job_slot_settled c c' :
  job c c' → slot_settled H j present c → slot_settled H j present c'.
Proof.
  destruct 1 as [w g Hg|w e He|w|i info w|i info w|i e w|b w|e w]; try done.
  - intros _. rewrite <-slotsFrom_0. eapply resume_slot_settled; [done|lia].
  - destruct (finishSynthesis_frame i info (loadObject (makeSavename i)) w) as [_ Hg].
    unfold slot_settled. cbn [fst snd]. subst rest. by rewrite Hg.
  - intros [Hbelow Hat]. eapply resume_slot_settled; [done|]. intros Hj. simpl.
    destruct (decide (j = i)) as [->|Hne].
    + rewrite arr_get_set_eq. by rewrite Hat.
    + rewrite arr_get_set_ne by done. apply Hbelow. lia.
Qed.

Lemma slot_settled_ext p w w' :
  globalInfo w' = globalInfo w →
  slot_settled H j present (p, w) → slot_settled H j present (p, w').
Proof. intros Hg. unfold slot_settled. cbn [fst snd]. by rewrite Hg. Qed.

End one_slot.

(** ** Jobs on a directory that changes *)

Section dynamic.
Context (base : Host) (env : relation (World * Disk)).
Implicit Types (x y : DConfig) (e : nat → DConfig) (d : Disk) (c : Config).

(** The rank of [Interleave]: the directory has no part in it. *)
Definition drank (x : DConfig) : nat := @rank base x.1.

Lemma djob_run x y : djob base x y ↔ run_djob base x = Some y.
Proof.
  unfold run_djob. split.
  - intros [c c' d Hjob%job_run]. simpl. by rewrite Hjob.
  - destruct x as [c d]. simpl.
    destruct (@run_job (host_of base d) c) as [c'|] eqn:Hrun; [|done].
    intros [= <-]. by apply djob_intro, job_run.
Qed.

Lemma djob_rank x y : djob base x y → drank y < drank x.
Proof. intros [c c' d Hjob]. apply (@job_rank (host_of base d) _ _ Hjob). Qed.

Lemma dstep_rank x y : dstep base env x y → drank y ≤ drank x.
Proof. destruct 1 as [x y Hjob%djob_rank|]; [lia|done]. Qed.

Lemma djob_enabled x : 0 < drank x → red (djob base) x.
Proof.
  destruct x as [c d]. intros Hr.
  destruct (@job_enabled (host_of base d) c Hr) as [c' Hjob].
  exists (c', d). by constructor.
Qed.

Lemma dstep_phase x y : dstep base env x y → y.1.1 = x.1.1 ∨ djob base x y.
Proof. destruct 1; auto. Qed.

(** The jobs run back to back are a run, and one that is fair to the
    chain. *)
Lemma run_djobs_run x : Reflexive env → run (dstep base env) (λ n, run_djobs base n x).
Proof.
  intros Hrefl. apply (iter_opt_run (run_djob base)).
  - intros y z Hrun. by apply dstep_job, djob_run.
  - intros [[p w] d] _. by apply dstep_env.
Qed.

Lemma run_djobs_fair x : weakly_fair (djob base) (λ n, run_djobs base n x).
Proof. apply iter_opt_fair, djob_run. Qed.

(** While the directory stays as it is, the steps are those of
    [Interleave] for the engine on that directory. *)
Lemma dstep_static d c c' :
  dstep base env (c, d) (c', d) →
  @step (host_of base d) (λ w w', env (w, d) (w', d)) c c'.
Proof.
  inversion 1 as [x y Hjob|p w w' d1 d2 Henv]; subst.
  - inversion Hjob; subst. by apply step_job.
  - by apply step_env.
Qed.

(** Liveness on a directory that changes. Whatever is written to or
    removed from the save directory while the chain is under way, and
    whatever else the other jobs do, a run that is fair to the chain ends
    it. *)
Theorem disk_fair_terminates e :
  run (dstep base env) e → weakly_fair (djob base) e →
  stabilises (λ x, x.1.1 = Finished) e.
Proof.
  intros Hrun Hfair.
  eapply stabilises_weaken; [intros x; apply (@rank_Finished base)|].
  by eapply (fair_rank_terminates (djob base) (dstep base env) drank);
    eauto using djob_rank, dstep_rank, djob_enabled.
Qed.

(** *** A slot whose file is left alone *)

Section stable_slot.
Context (j : nat).
Hypothesis env_pending :
  ∀ w d w' d', env (w, d) (w', d') → globalInfo w' = globalInfo w.
Hypothesis env_keeps :
  ∀ w d w' d', env (w, d) (w', d') →
    d' !! @makeSavename base j = d !! @makeSavename base j.

Lemma dstep_slot_settled present x y :
  dstep base env x y →
  on_disk base x.2 j = present ∧ slot_settled base j present x.1 →
  on_disk base y.2 j = present ∧ slot_settled base j present y.1.
Proof.
  intros [x' y' [c c' d Hjob]|p w w' d d' Henv] [Hd Hc]; simpl in *.
  - split; [done|]. by apply (@job_slot_settled (host_of base d) j present Hd c).
  - split; [unfold on_disk in *; by rewrite (env_keeps _ _ _ _ Henv)|].
    apply (slot_settled_ext (H:=base) j present p w w'); [|done].
    by eapply env_pending.
Qed.

(** The slots that are left alone. Let the environment change the
    save directory in any way while the chain is under way, except for
    the file of slot [j]. Then at every position of a run that starts
    with the load of the index, once the loop is past slot [j] the
    pending index has a record for [j] exactly when the file of [j] is
    there, and so it has when the pass returns. *)
Theorem disk_stable_slot e :
  run (dstep base env) e → (e 0).1.1 = LoadingIndex →
  always (λ x, slot_settled base j (on_disk base (e 0).2 j) x.1) e.
Proof.
  intros Hrun H0 n.
  assert (always (λ x, on_disk base x.2 j = on_disk base (e 0).2 j ∧
                       slot_settled base j (on_disk base (e 0).2 j) x.1) e)
    as Hinv; [|apply Hinv].
  apply (always_intro (dstep base env)); [done| |].
  - split; [done|]. unfold slot_settled. by rewrite H0.
  - intros x y. apply dstep_slot_settled.
Qed.

End stable_slot.

End dynamic.
