(* ===== verification/Overlap.v ===== *)
(** * Calls that overlap

    Nothing in [DataManager.loadGlobalInfo] keeps it from being called
    while the chain of an earlier call is under way. Each call has a
    [pendingGlobalInfo] of its own, the array its load of the index
    returned; [DataManager._globalInfo], the storage, the console and the
    clock are shared. This file runs any number of chains side by side:
    the state is the list of the chains and the world they share, a call
    appends a chain, and the jobs of the chains run in any order. It
    shows that all chains end once the calls have stopped, and what the
    engine ends up with: the index of a chain that has ended, which
    agrees with the disk like that of a single pass. *)

From stdpp Require Import strings gmap relations.
From S2P Require Import Prelude JsBase Host Extractor Synthesis Reconciler.
From S2P Require Import Loader Trace Jobs Temporal Interleave.

Section overlap.
Context `{Host}.

(** A chain: the promise it waits for and the array its
    [pendingGlobalInfo] refers to. *)
Definition Chain : Type := Phase * jsarray SaveInfo.

(** The chains of the calls so far, in the order of the calls, and the
    world they share. The field [globalInfo] of the shared world stands
    for no variable of the program: each chain has its own. *)
Definition Calls : Type := list Chain * World.

Implicit Types (w : World) (c : Config) (a : jsarray SaveInfo) (k : nat)
  (x y : Chain) (s : Calls).

(** The world as a chain sees it: the shared world, with the array of the
    chain as its pending index. *)
Definition view a w : World := set_globalInfo (λ _, a) w.

(** The configuration of a chain in a world, and the chain of a
    configuration. *)
Definition config x w : Config := (x.1, view x.2 w).

Definition closure c : Chain := (c.1, globalInfo c.2).

(** Chain [k] has moved to [c]; the other chains wait as before. *)
Definition put k c s : Calls := (<[k:=closure c]> s.1, c.2).

(** A call of [loadGlobalInfo]: a new chain, which waits for the load of
    the index. Its [pendingGlobalInfo] is [null] until its first job
    assigns it and is not read before; the empty array stands for it. *)
Definition call s : Calls := (s.1 ++ [(LoadingIndex, [])], s.2).

(** A job of chain [k]: the job of [Jobs] on the world as the chain sees
    it. *)
Inductive chain_job k : relation Calls :=
| chain_job_intro s x c' :
    s.1 !! k = Some x → job (config x s.2) c' → chain_job k s (put k c' s).

(** A step of a run: a job of a chain, a step of the rest of the engine
    on the shared world, or a call. *)
Inductive calls_step (env : relation World) : relation Calls :=
| calls_job k s s' : chain_job k s s' → calls_step env s s'
| calls_env xs w w' : env w w' → calls_step env (xs, w) (xs, w')
| calls_call s : calls_step env s (call s).

(** The executable forms: the job of chain [k] that is ready. *)
Definition run_chain_job k s : option Calls :=
  x ← s.1 !! k; c' ← run_job (config x s.2); Some (put k c' s).

(** A move of a schedule: a call, or the job of the chain it names. *)
Definition run_move (m : option nat) s : option Calls :=
  match m with None => Some (call s) | Some k => run_chain_job k s end.

(** The moves [ms] one after the other; a chain that has ended lets its
    turn pass. *)
Definition run_schedule (ms : list (option nat)) s : Calls :=
  foldl (λ s m, default s (run_move m s)) s ms.

(** The jobs each chain may still need. *)
Definition ranks s : list nat := (λ x, rank (config x s.2)) <$> s.1.

Definition chain_rank k s : nat := default 0 (ranks s !! k).

Definition jobs_left s : nat := sum_list (ranks s).

(** The job of the chain that is furthest from its end, of the earliest
    such chain when there are several. *)
Definition run_behind s : option Calls := run_chain_job (argmax (ranks s)) s.

(** The run in which the chain that is behind has the turn. *)
Definition behind s : nat → Calls := λ n, iter_opt run_behind n s.

(** The run that makes the moves [ms] and then stands still, with jobs
    left or not. *)
Definition stalled (ms : list (option nat)) s : nat → Calls :=
  λ n, run_schedule (take n ms) s.

(** The run that makes the moves [ms] and then gives the turn to the
    chain that is behind. *)
Definition scheduled (ms : list (option nat)) s : nat → Calls :=
  splice (length ms) (stalled ms s) (behind (run_schedule ms s)).

(** Two calls of [loadGlobalInfo] in a row, before any job has run. *)
Definition two_calls w : Calls := call (call ([], w)).

(** All chains have ended. *)
Definition all_finished s : Prop := Forall (λ x, x.1 = Finished) s.1.

(** The array [a] agrees with the disk on every slot in range. *)
Definition agrees a : Prop :=
  ∀ j, j < slotCount → truthy (arr_get a j) = savefileExists j.

(** Once a chain has ended, the index the engine sees is the array of a
    chain that has ended. *)
Definition last_published s : Prop :=
  (∃ x, x ∈ s.1 ∧ x.1 = Finished) →
  ∃ x, x ∈ s.1 ∧ x.1 = Finished ∧ _globalInfo s.2 = Some x.2.

(** Every chain is on course to a complete pass. *)
Definition all_steady s : Prop := Forall (λ x, steady (config x s.2)) s.1.

(** ** The chains of a state *)

Lemma config_closure c : config (closure c) c.2 = c.
Proof. destruct c as [p w]. by destruct w. Qed.

Lemma put_lookup k c s x : s.1 !! k = Some x → (put k c s).1 !! k = Some (closure c).
Proof. intros Hx%lookup_lt_Some. by apply list_lookup_insert_eq. Qed.

Lemma put_lookup_ne k k' c s : k ≠ k' → (put k c s).1 !! k' = s.1 !! k'.
Proof. intros Hne. by apply list_lookup_insert_ne. Qed.

Lemma put_length k c s : length (put k c s).1 = length s.1.
Proof. apply length_insert. Qed.

Lemma ranks_put k c s : ranks (put k c s) = <[k:=rank c]> (ranks s).
Proof.
  unfold ranks, put. cbn [fst snd]. by rewrite list_fmap_insert, config_closure.
Qed.

Lemma ranks_lookup k s x : s.1 !! k = Some x → ranks s !! k = Some (rank (config x s.2)).
Proof. intros Hx. unfold ranks. by rewrite list_lookup_fmap, Hx. Qed.

Lemma chain_job_run k s s' : chain_job k s s' ↔ run_chain_job k s = Some s'.
Proof.
  unfold run_chain_job. split.
  - intros [s1 x c' Hx Hjob%job_run]. rewrite Hx. cbn [mbind option_bind].
    by rewrite Hjob.
  - destruct (s.1 !! k) as [x|] eqn:Hx; [cbn [mbind option_bind]|done].
    destruct (run_job (config x s.2)) as [c'|] eqn:Hrun; [|done].
    intros [= <-]. by eapply chain_job_intro, job_run.
Qed.

Lemma chain_job_length k s s' : chain_job k s s' → length s'.1 = length s.1.
Proof. intros [s1 x c' _ _]. apply put_length. Qed.

(** ** The jobs a chain may still need *)

Lemma chain_job_rank k s s' : chain_job k s s' → chain_rank k s' < chain_rank k s.
Proof.
  intros [s1 x c' Hx Hjob%job_rank]. unfold chain_rank.
  rewrite ranks_put, (ranks_lookup _ _ _ Hx), list_lookup_insert_eq; [done|].
  eapply lookup_lt_Some. by apply ranks_lookup.
Qed.

Lemma chain_job_rank_ne k k' s s' :
  chain_job k s s' → k ≠ k' → chain_rank k' s' = chain_rank k' s.
Proof.
  intros [s1 x c' _ _] Hne. unfold chain_rank.
  by rewrite ranks_put, list_lookup_insert_ne.
Qed.

Lemma chain_rank_enabled k s : 0 < chain_rank k s → red (chain_job k) s.
Proof.
  unfold chain_rank, ranks. rewrite list_lookup_fmap.
  destruct (s.1 !! k) as [x|] eqn:Hx; simpl; [|lia].
  intros [c' Hjob]%job_enabled. exists (put k c' s). by econstructor.
Qed.

Lemma chain_rank_Finished k s x : s.1 !! k = Some x → chain_rank k s = 0 → x.1 = Finished.
Proof.
  intros Hx. unfold chain_rank. rewrite (ranks_lookup _ _ _ Hx). simpl.
  by intros ?%rank_Finished.
Qed.

(** A call leaves the chains called before where they are. *)
Lemma call_rank k s : k < length s.1 → chain_rank k (call s) ≤ chain_rank k s.
Proof.
  intros Hk. unfold chain_rank, ranks, call. cbn [fst snd].
  by rewrite fmap_app, lookup_app_l by (by rewrite length_fmap).
Qed.

(** Chains that need no job have ended. *)
Lemma ranks_finished s : (∀ k, k < length s.1 → chain_rank k s = 0) → all_finished s.
Proof.
  intros Hr. apply Forall_lookup. intros k x Hx.
  eapply chain_rank_Finished; [done|]. by eapply Hr, lookup_lt_Some.
Qed.

Lemma chain_job_left k s s' : chain_job k s s' → jobs_left s' < jobs_left s.
Proof.
  intros [s1 x c' Hx Hjob%job_rank]. unfold jobs_left. rewrite ranks_put.
  by eapply sum_list_insert_lt; [apply ranks_lookup|].
Qed.

Section steps.
Context (env : relation World).

(** Calls are not taken back. *)
Lemma calls_step_length s s' : calls_step env s s' → length s.1 ≤ length s'.1.
Proof.
  intros [k s1 s2 Hjob%chain_job_length|xs w w' Henv|s1]; [lia|done|].
  unfold call. cbn [fst]. rewrite length_app. lia.
Qed.

(** No step of a run takes a chain that has been called further from its
    end. *)
Lemma calls_step_rank k s s' :
  calls_step env s s' → k < length s.1 → chain_rank k s' ≤ chain_rank k s.
Proof.
  intros [k' s1 s2 Hjob|xs w w' Henv|s1] Hk.
  - destruct (decide (k' = k)) as [->|Hne]; [apply chain_job_rank in Hjob; lia|].
    by rewrite (chain_job_rank_ne _ _ _ _ Hjob).
  - done.
  - by apply call_rank.
Qed.

(** ** All chains end *)

(** A chain that has been called and is treated fairly ends, whatever
    calls follow. *)
Lemma chain_ends k (e : nat → Calls) n :
  run (calls_step env) e → weakly_fair (chain_job k) e → k < length (e n).1 →
  stabilises (λ s, ∃ x, s.1 !! k = Some x ∧ x.1 = Finished) e.
Proof.
  intros Hrun Hfair Hk. eapply stabilises_weaken;
    [|by apply (fair_member_terminates chain_job (calls_step env)
                  (λ s, length s.1) chain_rank chain_job_rank calls_step_rank
                  chain_rank_enabled calls_step_length k e n)].
  intros s [[x Hx]%lookup_lt_is_Some_2 Hr]. exists x. split; [done|].
  by eapply chain_rank_Finished.
Qed.

(** Once the calls have stopped, all chains end. *)
Lemma all_end L (e : nat → Calls) :
  run (calls_step env) e → (∀ k, weakly_fair (chain_job k) e) →
  stabilises (λ s, length s.1 = L) e → stabilises all_finished e.
Proof.
  intros Hrun Hfair Hstop. eapply stabilises_weaken;
    [|by apply (fair_family_terminates chain_job (calls_step env)
                  (λ s, length s.1) chain_rank chain_job_rank calls_step_rank
                  chain_rank_enabled calls_step_length L e)].
  intros s [<- Hr]. by apply ranks_finished.
Qed.

(** ** The index the engine is left with *)

Lemma chain_job_published k s s' :
  chain_job k s s' → last_published s → last_published s'.
Proof.
  intros [s1 x c' Hx Hjob] Hs. destruct (decide (c'.1 = Finished)) as [Hfin|Hfin].
  { intros _. exists (closure c').
    split; [by eapply list_elem_of_lookup_2, put_lookup|]. split; [done|].
    destruct c' as [p w']. simpl in *. subst p. by eapply job_publishes. }
  pose proof (job_from_unfinished _ _ Hjob) as Hk.
  pose proof (job_visible _ _ Hjob Hfin) as [Hvis _]%pair_eq.
  assert (∀ z : Chain, z.1 = Finished → z ∈ s1.1 ↔ z ∈ (put k c' s1).1) as Hsame.
  { intros z Hz. rewrite !list_elem_of_lookup. apply exist_proper. intros i.
    destruct (decide (k = i)) as [<-|Hne]; [|by rewrite put_lookup_ne].
    rewrite (put_lookup _ _ _ _ Hx), Hx. split; intros [= <-]; by destruct Hz. }
  intros (z & Hin & Hz). destruct Hs as (y & Hy & Hyfin & Hpub).
  { exists z. split; [by apply Hsame|done]. }
  exists y. split; [by apply Hsame|]. split; [done|]. simpl in *. congruence.
Qed.

Lemma call_published s : last_published s → last_published (call s).
Proof.
  unfold last_published, call. cbn [fst snd]. setoid_rewrite elem_of_app.
  setoid_rewrite list_elem_of_singleton.
  intros Hs (z & [Hin| ->] & Hz); [|done].
  destruct Hs as (y & ? & ?); [|exists y]; eauto.
Qed.

(** A call leaves a chain that is on course at its start. *)
Lemma call_steady s : all_steady s → all_steady (call s).
Proof. intros Hs. apply Forall_app. split; [done|]. by apply Forall_singleton. Qed.

(** Whether the chains are on course does not depend on the world they
    share. *)
Lemma steady_world xs w w' : all_steady (xs, w) → all_steady (xs, w').
Proof.
  intros Hs. apply Forall_lookup. intros i y Hy.
  by eapply steady_ext, (Forall_lookup_1 _ _ _ _ Hs Hy).
Qed.

(** With every payload readable, each chain stays on course whatever the
    others do. *)
Lemma chain_job_steady k s s' :
  payloads_load = true → chain_job k s s' → all_steady s → all_steady s'.
Proof.
  intros Hload [s1 x c' Hx Hjob] Hs. apply Forall_insert.
  - apply (steady_world s1.1 s1.2 c'.2). by destruct s1.
  - cbn [snd]. rewrite config_closure.
    eapply job_steady; [done..|]. by eapply (Forall_lookup_1 _ _ _ _ Hs).
Qed.

Hypothesis env_published : ∀ w w', env w w' → _globalInfo w' = _globalInfo w.

Lemma calls_step_published s s' : calls_step env s s' → last_published s → last_published s'.
Proof.
  intros [k s1 s2 Hjob|xs w w' Henv|s1];
    [by eapply chain_job_published| |apply call_published].
  unfold last_published. cbn [fst snd]. by rewrite (env_published _ _ Henv).
Qed.

Lemma calls_step_steady s s' :
  payloads_load = true → calls_step env s s' → all_steady s → all_steady s'.
Proof.
  intros Hload [k s1 s2 Hjob|xs w w' Henv|s1];
    [by eapply chain_job_steady| |apply call_steady].
  apply steady_world.
Qed.

(** A chain that has ended and is on course agrees with the disk. *)
Lemma finished_steady s x :
  all_steady s → x ∈ s.1 → x.1 = Finished → agrees x.2.
Proof.
  intros Hs [k Hk]%list_elem_of_lookup_1 Hfin.
  pose proof (Forall_lookup_1 _ _ _ _ Hs Hk) as Hx.
  unfold steady in Hx. simpl in Hx. by rewrite Hfin in Hx.
Qed.

(** Calls at any time. Let [loadGlobalInfo] be called any number of times,
    at least once, and the jobs of the chains and those of the rest of
    the engine run in any order that is fair to every chain; let the
    payload of every save file load. Then, once the calls have stopped,
    all chains end, and from then on the index the engine sees is the
    array of one of them and has a record for a slot in range exactly
    when the save file of the slot exists. *)
Theorem overlap_publishes L (e : nat → Calls) :
  run (calls_step env) e → (∀ k, weakly_fair (chain_job k) e) →
  (e 0).1 = [] → stabilises (λ s, length s.1 = L) e → 0 < L →
  payloads_load = true →
  stabilises (λ s, all_finished s ∧
    ∃ x, x ∈ s.1 ∧ _globalInfo s.2 = Some x.2 ∧ agrees x.2) e.
Proof.
  intros Hrun Hfair H0 Hstop HL Hload.
  assert (always last_published e) as Hpub.
  { apply (always_intro (calls_step env)); [done| |apply calls_step_published].
    unfold last_published. rewrite H0. by intros (x & ?%elem_of_nil & _). }
  assert (always all_steady e) as Hsteady.
  { apply (always_intro (calls_step env)); [done| |intros s s'; by apply calls_step_steady].
    unfold all_steady. by rewrite H0. }
  destruct (stabilises_and _ _ e (all_end L e Hrun Hfair Hstop) Hstop) as [n Hn].
  exists n. intros m Hm. destruct (Hn m Hm) as [Hfin Hlen]. split; [done|].
  destruct (lookup_lt_is_Some_2 (e m).1 0) as [x Hx]; [lia|].
  destruct (Hpub m) as (y & Hy & Hyfin & Hypub).
  { exists x. split; [by eapply list_elem_of_lookup_2|].
    apply (Forall_lookup_1 _ _ _ _ Hfin Hx). }
  exists y. split_and!; [done..|]. by eapply finished_steady.
Qed.

End steps.

(** ** Schedules *)

Lemma run_behind_job s s' : run_behind s = Some s' → ∃ k, chain_job k s s'.
Proof. intros Hrun%chain_job_run. by eexists. Qed.

(** When the chain that is behind has no job, no chain has. *)
Lemma run_behind_None s k : run_behind s = None → run_chain_job k s = None.
Proof.
  intros Hnone. destruct (run_chain_job k s) as [s'|] eqn:Hrun; [|done].
  apply chain_job_run in Hrun. pose proof (chain_job_rank _ _ _ Hrun) as Hk.
  unfold chain_rank in Hk. destruct (ranks s !! k) as [r|] eqn:Hr; simpl in Hk; [|lia].
  assert (0 < chain_rank (argmax (ranks s)) s) as [s'' Hjob%chain_job_run]%chain_rank_enabled.
  { unfold chain_rank. rewrite argmax_lookup by (by intros Hnil; rewrite Hnil in Hr).
    simpl. apply list_elem_of_lookup_2, max_list_elem_of_le in Hr. lia. }
  unfold run_behind in Hnone. congruence.
Qed.

Lemma behind_run env s : Reflexive env → run (calls_step env) (behind s).
Proof.
  intros Hrefl. apply (iter_opt_run run_behind).
  - intros x y [k Hjob]%run_behind_job. by eapply calls_job.
  - intros [xs w] _. by apply calls_env.
Qed.

Lemma behind_ends s : ∃ n, run_behind (behind s n) = None.
Proof.
  remember (jobs_left s) as m eqn:Hm. revert s Hm.
  induction (lt_wf m) as [m _ IH]. intros s ->.
  destruct (run_behind s) as [s'|] eqn:Hrun; [|by exists 0].
  destruct (run_behind_job _ _ Hrun) as [k Hjob%chain_job_left].
  destruct (IH _ Hjob s' eq_refl) as [n Hn]. exists (S n).
  unfold behind in *. simpl. by rewrite Hrun.
Qed.

(** The schedule treats every chain fairly. *)
Lemma behind_fair k s : weakly_fair (chain_job k) (behind s).
Proof.
  destruct (behind_ends s) as [n Hn]. apply stabilises_fair. exists n.
  intros m Hm [s' Hjob%chain_job_run]. unfold behind in *.
  rewrite (iter_opt_stuck run_behind n m s Hn Hm) in Hjob.
  by rewrite (run_behind_None _ k Hn) in Hjob.
Qed.

(** It makes no call. *)
Lemma behind_length s n : length (behind s n).1 = length s.1.
Proof.
  apply (iter_opt_preserved run_behind (λ s', length s'.1 = length s.1)); [|done].
  intros y z [k Hjob%chain_job_length]%run_behind_job. congruence.
Qed.

Lemma run_move_step env m s s' : run_move m s = Some s' → calls_step env s s'.
Proof.
  destruct m as [k|]; simpl; [intros Hjob%chain_job_run; by eapply calls_job|].
  intros [= <-]. apply calls_call.
Qed.

Lemma run_schedule_snoc ms m s :
  run_schedule (ms ++ [m]) s = default (run_schedule ms s) (run_move m (run_schedule ms s)).
Proof. unfold run_schedule. by rewrite foldl_app. Qed.

(** The moves of a schedule are steps of a run, and standing still is
    one. *)
Lemma stalled_run env ms s : Reflexive env → run (calls_step env) (stalled ms s).
Proof.
  intros Hrefl n. unfold stalled. destruct (ms !! n) as [m|] eqn:Hm.
  - rewrite (take_S_r _ _ _ Hm), run_schedule_snoc.
    destruct (run_move m _) as [s'|] eqn:Hmove; [by eapply run_move_step|].
    simpl. destruct (run_schedule (take n ms) s) as [xs w]. by apply calls_env.
  - apply lookup_ge_None in Hm. rewrite !take_ge by lia.
    destruct (run_schedule ms s) as [xs w]. by apply calls_env.
Qed.

(** A schedule followed by the jobs that are left is a run that is fair
    to every chain, and its calls are those of the schedule. *)
Lemma scheduled_run env ms s : Reflexive env → run (calls_step env) (scheduled ms s).
Proof.
  intros Hrefl. pose proof (stalled_run env ms s Hrefl) as Hstep.
  apply run_splice; [intros n _; apply Hstep| |by apply behind_run].
  intros Hpos. replace (behind (run_schedule ms s) 0)
    with (stalled ms s (S (length ms - 1))); [apply Hstep|].
  unfold stalled. by rewrite take_ge by lia.
Qed.

Lemma scheduled_fair k ms s : weakly_fair (chain_job k) (scheduled ms s).
Proof. apply weakly_fair_splice, behind_fair. Qed.

Lemma scheduled_calls ms s :
  stabilises (λ s', length s'.1 = length (run_schedule ms s).1) (scheduled ms s).
Proof.
  exists (length ms). intros n Hn. unfold scheduled, splice.
  rewrite decide_False by lia. apply behind_length.
Qed.

Lemma scheduled_start ms s : scheduled ms s 0 = s.
Proof.
  unfold scheduled, splice, stalled. case_decide; [by rewrite take_0|].
  by destruct ms; [|simpl in *; lia].
Qed.

End overlap.
