(* ===== verification/Agreement.v ===== *)
(** * Calls that overlap publish what one call publishes

    [Overlap] shows that chains that overlap leave the engine with an
    index that agrees with the disk. This file shows which index, and
    what is left in the storage: what a single call of [loadGlobalInfo]
    publishes and leaves there, up to the timestamps of the synthesised
    records and to holes that the storage hands back as [null]. The
    argument follows each chain from its first job, which reads the
    storage as the engine or another chain has left it: the storage
    holds what it held at the start, as long as no chain has ended or
    saved, and from then on what a single call would have written; a
    chain that loads either stays on the [course] of the sequential
    program started from it ([Reload]). *)

From stdpp Require Import strings gmap relations.
From S2P Require Import Prelude JsBase Host Extractor Synthesis Reconciler IndexSpec.
From S2P Require Import Loader Trace Jobs Temporal Interleave Erasure Reload Overlap.

Section agreement.
Context `{Host} (w0 : World).
Implicit Types (w W : World) (c : Config) (k : nat) (x : Chain) (s : Calls).

(** The world after a single call. *)
Definition once : World := exec loadGlobalInfo w0.

(** What a chain has of its own, up to timestamps: the [course] of its
    configuration in any world. *)
Definition chain_course x : Phase * jsarray SaveInfo :=
  (erase_phase x.1, erase_array x.2).

(** The chain is past its first job and where the sequential program is
    at some point after it has loaded the index stored in [W]. *)
Definition loads_from W x : Prop :=
  ∃ c, rtc job (IndexReady, loaded_world W) c ∧ chain_course x = course c.

(** The chain has not loaded the index yet, or has loaded what the
    storage held at the start, or what a single call leaves there. *)
Definition on_course x : Prop :=
  x.1 = LoadingIndex ∨ loads_from w0 x ∨ loads_from once x.

(** The chain has not loaded the index yet, or has loaded what the
    storage held at the start and has not ended. *)
Definition early x : Prop :=
  x.1 = LoadingIndex ∨ (loads_from w0 x ∧ x.1 ≠ Finished).

(** Either the storage is as it was at the start and all chains are
    early, or it is as a single call leaves it. *)
Definition agreement s : Prop :=
  (same_stored s.2 w0 ∧ Forall early s.1) ∨
  (same_stored s.2 once ∧ Forall on_course s.1).

(** The index the engine sees is the one it sees after a single call, up
    to timestamps and to the difference of a hole and a [null]. *)
Definition published_as_once s : Prop := same_published s.2 once.

(** The storage holds what it holds after a single call, up to
    timestamps. *)
Definition stored_as_once s : Prop := same_stored s.2 once.

(** ** Chains on a course *)

Lemma early_on_course x : early x → on_course x.
Proof. intros [Hp|[Hw _]]; [by left|by right; left]. Qed.

(** The first job of a chain: it loads what the storage holds, and
    leaves it there. *)
Lemma load_on_course W x w c' :
  x.1 = LoadingIndex → job (config x w) c' → same_stored w W →
  loads_from W (closure c') ∧ c'.1 = IndexReady ∧ storedGlobal c'.2 = storedGlobal w.
Proof.
  intros Hp Hjob Hst. unfold config in Hjob. rewrite Hp in Hjob.
  rewrite (job_deterministic _ _ _ Hjob (job_index _)).
  split; [|split; [done|apply (loaded_world_storedGlobal (view _ _))]].
  exists (IndexReady, loaded_world W). split; [done|]. by apply loaded_course.
Qed.

Lemma loads_from_loaded W x : loads_from W x → x.1 ≠ LoadingIndex.
Proof.
  intros (c & Hjobs%jobs_after_load & [Hp _]%pair_eq) Heq.
  rewrite Heq in Hp. by destruct c.1.
Qed.

(** A later job: the chain stays on its course. *)
Lemma job_on_course W x w c' :
  job (config x w) c' → loads_from W x → loads_from W (closure c').
Proof.
  intros Hjob Hw. pose proof (loads_from_loaded W x Hw) as Hp.
  destruct Hw as (c & Hjobs & Hc).
  destruct (job_course _ _ _ Hjob Hc Hp) as (c2 & Hjob2 & Hc2).
  exists c2. split; [by eapply rtc_r|done].
Qed.

(** What a chain on a course saves is what the sequential program on
    that course saves, and a chain on a course that ends without saving
    shows that the sequential program does not save either. *)
Lemma save_on_course W x w c' :
  job (config x w) c' → loads_from W x →
  (storedGlobal c'.2 = storedGlobal w ∧
   (c'.1 = Finished → storedGlobal (exec loadGlobalInfo W) = storedGlobal W)) ∨
  same_stored c'.2 (exec loadGlobalInfo W).
Proof.
  intros Hjob Hw. pose proof (loads_from_loaded W x Hw) as Hload.
  destruct Hw as (c & Hjobs & Hc).
  destruct (job_course _ _ _ Hjob Hc Hload) as (c2 & Hjob2 & Hc2).
  apply pair_eq in Hc as [Hphase Hg].
  destruct (job_stored _ _ Hjob) as [[Hp Hst]|[Hp Hst]].
  - left. split; [done|]. intros Hfin.
    apply (unsettled_stored W c c2); [done..|by eapply course_Finished|].
    intros Hc1. apply Hp. rewrite Hc1 in Hphase. simpl in *.
    by destruct x.1 as [| | |? []|[[]|]|].
  - right. simpl in Hp. rewrite Hp in Hphase.
    assert (c.1 = PassSettled (Done true)) as Hc1 by (by destruct c.1 as [| | |? []| |]).
    unfold same_stored. rewrite Hst, (settled_stored W c Hjobs Hc1). simpl in *.
    by rewrite !erase_array_json, Hg.
Qed.

(** ** The invariant *)

Lemma same_stored_trans w1 w2 w3 : same_stored w1 w2 → same_stored w2 w3 → same_stored w1 w3.
Proof. unfold same_stored. congruence. Qed.

Lemma same_stored_eq w1 w2 w3 :
  storedGlobal w1 = storedGlobal w2 → same_stored w2 w3 → same_stored w1 w3.
Proof. unfold same_stored. by intros ->. Qed.

(** What a single call leaves in the storage is what a single call
    after it leaves there. *)
Lemma saved_once W : W = w0 ∨ W = once → same_stored (exec loadGlobalInfo W) once.
Proof.
  intros [->| ->]; [done|]. unfold same_stored, once.
  by rewrite loadGlobalInfo_again_storedGlobal.
Qed.

(** A job of a chain on a course, with the storage as a single call
    leaves it. *)
Lemma job_late x w c' :
  job (config x w) c' → same_stored w once → on_course x →
  same_stored c'.2 once ∧ on_course (closure c').
Proof.
  intros Hjob Hst [Hp|Hw].
  { destruct (load_on_course once x w c' Hp Hjob Hst) as (Hw & _ & Hsame).
    split; [by eapply same_stored_eq|by right; right]. }
  assert (∃ W, (W = w0 ∨ W = once) ∧ loads_from W x) as (W & HW & Hfrom)
    by (destruct Hw; eauto).
  split.
  - destruct (save_on_course _ _ _ _ Hjob Hfrom) as [[Hsame _]|Hsaved].
    + by eapply same_stored_eq.
    + eapply same_stored_trans; [done|by apply saved_once].
  - right. destruct HW as [-> | ->]; [left|right]; by eapply job_on_course.
Qed.

(** A job of an early chain, with the storage as it was at the start:
    the chain stays early, or the storage is as a single call leaves
    it. *)
Lemma job_early x w c' :
  job (config x w) c' → same_stored w w0 → early x →
  (same_stored c'.2 w0 ∧ early (closure c')) ∨
  (same_stored c'.2 once ∧ on_course (closure c')).
Proof.
  intros Hjob Hst [Hp|[Hw Hp]].
  { destruct (load_on_course w0 x w c' Hp Hjob Hst) as (Hw & Hphase & Hsame).
    left. split; [by eapply same_stored_eq|]. right. split; [done|].
    simpl. by rewrite Hphase. }
  pose proof (job_on_course _ _ _ _ Hjob Hw) as Hw'.
  destruct (save_on_course _ _ _ _ Hjob Hw) as [[Hsame Hend]|Hsaved];
    [|right; by split; [|right; left]].
  destruct (decide (c'.1 = Finished)) as [Hfin|Hfin].
  - right. split; [|by right; left]. eapply same_stored_eq; [done|].
    unfold same_stored, once in *. by rewrite (Hend Hfin).
  - left. split; [by eapply same_stored_eq|]. by right.
Qed.

Lemma chain_job_agreement k s s' : chain_job k s s' → agreement s → agreement s'.
Proof.
  intros [s1 x c' Hx Hjob] [[Hst Hall]|[Hst Hall]].
  - destruct (job_early _ _ _ Hjob Hst (Forall_lookup_1 _ _ _ _ Hall Hx))
      as [[Hst' Hk]|[Hst' Hk]]; [left|right]; (split; [done|]);
      apply Forall_insert; try done.
    apply Forall_lookup. intros i y Hy.
    apply early_on_course, (Forall_lookup_1 _ _ _ _ Hall Hy).
  - destruct (job_late _ _ _ Hjob Hst (Forall_lookup_1 _ _ _ _ Hall Hx)) as [Hst' Hk].
    right. split; [done|]. by apply Forall_insert.
Qed.

(** A call adds a chain that has not loaded the index yet. *)
Lemma call_agreement s : agreement s → agreement (call s).
Proof.
  intros [[Hst Hall]|[Hst Hall]]; [left|right]; (split; [done|]);
    (apply Forall_app; split; [done|]); apply Forall_singleton; by left.
Qed.

Section quiet.
Context (env : relation World).
Hypothesis env_quiet : ∀ w w', env w w' → frame w w'.

Lemma calls_step_agreement s s' : calls_step env s s' → agreement s → agreement s'.
Proof.
  intros [k s1 s2 Hjob|xs w w' Henv|s1];
    [by eapply chain_job_agreement| |apply call_agreement].
  destruct (env_quiet _ _ Henv) as [_ _ Hs _ _].
  assert (∀ W, same_stored w W → same_stored w' W) as Hst.
  { intros W. by apply same_stored_eq. }
  intros [[? Hall]|[? Hall]]; [left|right]; (split; [by apply Hst|done]).
Qed.

(** Once a chain has ended, the storage is as a single call leaves
    it. *)
Lemma ended_agreement s x :
  x ∈ s.1 → x.1 = Finished → agreement s → stored_as_once s ∧ Forall on_course s.1.
Proof.
  intros [k Hx]%list_elem_of_lookup_1 Hfin [[_ Hall]|Hlate]; [|done].
  destruct (Forall_lookup_1 _ _ _ _ Hall Hx) as [Hp|[_ Hp]]; congruence.
Qed.

(** A chain that has ended on a course has the pending index of a single
    call. *)
Lemma finished_on_course x :
  x.1 = Finished → on_course x →
  erase_array x.2 ≡ᵢ erase_array (globalInfo once).
Proof.
  intros Hfin [Hp|Hw]; [congruence|].
  assert (∀ W, loads_from W x →
    erase_array x.2 = erase_array (globalInfo (exec loadGlobalInfo W)))
    as Hend.
  { intros W (c & Hjobs & Hc).
    rewrite (chain_end_ready W c Hjobs) in Hc.
    - by apply pair_eq in Hc as [_ Hg].
    - apply pair_eq in Hc as [Hp _]. simpl in Hp. rewrite Hfin in Hp.
      by destruct c.1. }
  destruct Hw as [Hw|Hw]; rewrite (Hend _ Hw); [done|].
  apply loadGlobalInfo_again_globalInfo.
Qed.

(** The invariant holds all along a run that starts before the first
    call. *)
Lemma calls_invariant (e : nat → Calls) :
  run (calls_step env) e → e 0 = ([], w0) →
  always (λ s, last_published s ∧ agreement s) e.
Proof.
  intros Hrun H0. apply (always_intro (calls_step env)); [done| |].
  - rewrite H0. split; [by intros (x & ?%elem_of_nil & _)|by left].
  - intros s s' Hstep [Hpub Hagree]. split; [|by eapply calls_step_agreement].
    eapply calls_step_published; [|done..].
    intros w w' Henv. by destruct (env_quiet _ _ Henv).
Qed.

(** What the invariant says once a chain has ended. *)
Lemma ended_as_once s :
  last_published s → agreement s → (∃ x, x ∈ s.1 ∧ x.1 = Finished) →
  published_as_once s ∧ stored_as_once s.
Proof.
  intros Hpub Hagree Hended. destruct (Hpub Hended) as (y & Hy & Hfin & Hypub).
  destruct (ended_agreement s y Hy Hfin Hagree) as [Hst Hall]. split; [|done].
  destruct (loadGlobalInfo_publishes w0) as [Honce _].
  apply list_elem_of_lookup_1 in Hy as [i Hy].
  exists y.2, (globalInfo once). split_and!; [done|done|].
  apply finished_on_course; [done|]. apply (Forall_lookup_1 _ _ _ _ Hall Hy).
Qed.

(** C21: what the engine sees while calls overlap. Let [loadGlobalInfo]
    be called any number of times, at any time, with the jobs of the
    chains and the steps of an engine that logs and reads the clock in
    any order, fair or not. From the moment the first chain ends, the
    index the engine sees and the index in the storage hold, at every
    position of the run, the records that they hold after a single call
    in the world [w0] of the start, up to their timestamps: a chain that
    publishes or saves later replaces them by the same records. *)
Theorem overlap_settled (e : nat → Calls) :
  run (calls_step env) e → e 0 = ([], w0) →
  always (λ s, (∃ x, x ∈ s.1 ∧ x.1 = Finished) →
               published_as_once s ∧ stored_as_once s) e.
Proof.
  intros Hrun H0 n. destruct (calls_invariant e Hrun H0 n). by apply ended_as_once.
Qed.

(** C22: refinement for calls that overlap. Let [loadGlobalInfo] be
    called any number of times, at least once, the first time or later
    while chains of earlier calls are under way or have ended, and let the
    jobs of the chains and the steps of an engine that logs and reads the
    clock run in any order that is fair to every chain. Then, once the
    calls have stopped, all chains end, and from then on the index the
    engine sees and the index in the storage hold the records that they
    hold after a single call in the world [w0] of the start, up to their
    timestamps: whether a pass returns or throws, further calls change
    nothing else. *)
Theorem overlap_refines L (e : nat → Calls) :
  run (calls_step env) e → (∀ k, weakly_fair (chain_job k) e) →
  e 0 = ([], w0) → stabilises (λ s, length s.1 = L) e → 0 < L →
  stabilises (λ s, all_finished s ∧ published_as_once s ∧ stored_as_once s) e.
Proof.
  intros Hrun Hfair H0 Hstop HL.
  destruct (stabilises_and _ _ e (all_end env L e Hrun Hfair Hstop) Hstop) as [n Hn].
  exists n. intros m Hm. destruct (Hn m Hm) as [Hfin Hlen]. split; [done|].
  destruct (calls_invariant e Hrun H0 m). apply ended_as_once; [done..|].
  destruct (lookup_lt_is_Some_2 (e m).1 0) as [x Hx]; [lia|].
  exists x. split; [by eapply list_elem_of_lookup_2|].
  apply (Forall_lookup_1 _ _ _ _ Hfin Hx).
Qed.

End quiet.

End agreement.
