(* ===== verification/Merge.v ===== *)
(** * Interleavings of streams

    Several writers append to one log, each in its own order and with
    the others free to write in between. [merged ls l] says that the log
    [l] is an interleaving of the streams [ls], one for each writer: it
    is built the way the log is, one line at a time, each line appended
    to the log and to the stream of the writer it comes from. Each
    stream is then a [sublist] of the log, and the log holds the lines of
    the streams and no other. *)

From stdpp Require Import list.
From S2P Require Import Prelude.

Section merged.
Context {A : Type}.
Implicit Types (a : A) (l m x : list A) (ls : list (list A)) (k n : nat).

(** The log [l] is an interleaving of the streams [ls]. *)
Inductive merged : list (list A) → list A → Prop :=
| merged_nil n : merged (replicate n []) []
| merged_snoc ls l k x a :
    merged ls l → ls !! k = Some x → merged (<[k:=x ++ [a]]> ls) (l ++ [a]).

(** The streams of a log, given the writer of each of its lines. *)
Fixpoint deal (n : nat) (tagged : list (nat * A)) : list (list A) :=
  match tagged with
  | [] => replicate n []
  | (k, a) :: tagged => alter (λ x, a :: x) k (deal n tagged)
  end.

(** A writer that has not written yet joins. *)
Lemma merged_new ls l : merged ls l → merged (ls ++ [[]]) l.
Proof.
  induction 1 as [n|ls l k x a _ IH Hx]; [rewrite <-replicate_S_end; constructor|].
  rewrite <-insert_app_l by (by eapply lookup_lt_Some).
  constructor; [done|]. by apply lookup_app_l_Some.
Qed.

(** A writer appends several lines at once. *)
Lemma merged_app ls l k x m :
  merged ls l → ls !! k = Some x → merged (<[k:=x ++ m]> ls) (l ++ m).
Proof.
  revert ls l x. induction m as [|a m IH]; intros ls l x Hm Hx.
  { by rewrite !app_nil_r, list_insert_id. }
  rewrite (cons_middle a x), (cons_middle a l), !app_assoc.
  rewrite <-(list_insert_insert_eq ls k _ (x ++ [a])). apply IH; [by constructor|].
  apply list_lookup_insert_eq. by eapply lookup_lt_Some.
Qed.

(** Each stream is in the log, in its order. *)
Lemma merged_sublist ls l k x : merged ls l → ls !! k = Some x → x `sublist_of` l.
Proof.
  intros Hm. revert k x. induction Hm as [n|ls l j y a _ IH Hy]; intros k x Hx.
  { apply lookup_replicate in Hx as [-> _]. apply sublist_nil_l. }
  destruct (decide (k = j)) as [->|Hne].
  - rewrite list_lookup_insert_eq in Hx by (by eapply lookup_lt_Some).
    injection Hx as <-. apply sublist_app; [by eapply IH|done].
  - rewrite list_lookup_insert_ne in Hx by done. by eapply sublist_inserts_r, IH.
Qed.

Lemma concat_insert_snoc ls k x a :
  ls !! k = Some x → Permutation (concat (<[k:=x ++ [a]]> ls)) (concat ls ++ [a]).
Proof.
  revert k. induction ls as [|y ls IH]; intros [|k] Hx; simplify_eq/=.
  - by rewrite <-!app_assoc, (comm (++) [a]).
  - by rewrite (IH k Hx), app_assoc.
Qed.

(** The log holds the lines of the streams, each as often as they do,
    and no other. *)
Lemma merged_concat ls l : merged ls l → Permutation (concat ls) l.
Proof.
  induction 1 as [n|ls l k x a _ IH Hx].
  - by induction n.
  - by rewrite concat_insert_snoc, IH.
Qed.

(** The same, for a first line: the log can be read from its start. *)
Lemma merged_cons ls l k x a :
  merged ls l → ls !! k = Some x → merged (<[k:=a :: x]> ls) (a :: l).
Proof.
  intros Hm. revert k x. induction Hm as [n|ls l j y b Hm IH Hy]; intros k x Hx.
  { apply lookup_replicate in Hx as [-> Hk].
    apply (merged_snoc _ [] k []); [constructor|by apply lookup_replicate]. }
  pose proof (lookup_lt_Some _ _ _ Hy) as Hj.
  destruct (decide (k = j)) as [->|Hne].
  - rewrite list_lookup_insert_eq in Hx by done. injection Hx as <-.
    rewrite list_insert_insert_eq, <-(list_insert_insert_eq ls j _ (a :: y)).
    apply (merged_snoc _ (a :: l) j (a :: y) b); [by apply IH|by apply list_lookup_insert_eq].
  - rewrite list_lookup_insert_ne in Hx by done.
    rewrite list_insert_insert_ne by done.
    apply (merged_snoc _ (a :: l) j y b); [by apply IH|by rewrite list_lookup_insert_ne].
Qed.

(** Lines of no kind are no lines. *)
Lemma Forall_False_nil l : Forall (λ _, False) l → l = [].
Proof. by destruct 1. Qed.

(** A writer that has written nothing can be left out. *)
Lemma merged_silent ls l : merged ([] :: ls) l → merged ls l.
Proof.
  intros Hm. remember ([] :: ls) as ls0 eqn:Hls. revert ls Hls.
  induction Hm as [n|ls0 l k x a _ IH Hx]; intros ls Hls.
  - destruct n as [|n]; simplify_eq/=. constructor.
  - destruct ls0 as [|y ls0], k as [|k]; simplify_eq/=.
    + by destruct x.
    + constructor; [by apply IH|done].
Qed.

(** With one writer the log is its stream. *)
Lemma merged_alone x l : merged [x] l → l = x.
Proof.
  intros Hm. remember [x] as ls eqn:Hls. revert x Hls.
  induction Hm as [n|ls l k y a _ IH Hy]; intros x Hls.
  - by destruct n as [|[|n]]; simplify_eq/=.
  - destruct ls as [|z [|??]], k as [|k]; simplify_eq/=;
      [by rewrite (IH y)|by destruct k].
Qed.

Lemma deal_length n (tagged : list (nat * A)) : length (deal n tagged) = n.
Proof.
  induction tagged as [|[k a] tagged IH]; simpl; [apply length_replicate|].
  by rewrite length_alter.
Qed.

(** A log is an interleaving of the streams it is dealt to, when every
    line names a writer. *)
Lemma deal_merged n (tagged : list (nat * A)) :
  Forall (λ t, t.1 < n) tagged → merged (deal n tagged) (tagged.*2).
Proof.
  induction 1 as [|[k a] tagged Hk _ IH]; [constructor|]. simpl in *.
  destruct (lookup_lt_is_Some_2 (deal n tagged) k) as [x Hx];
    [by rewrite deal_length|].
  replace (alter (cons a) k (deal n tagged)) with (<[k:=a :: x]> (deal n tagged));
    [by apply merged_cons|].
  rewrite list_insert_alter. apply list_alter_ext; [|done]. congruence.
Qed.

End merged.
