(* ===== verification/Console.v ===== *)
(** * The console while jobs interleave and calls overlap

    The chain of [DataManager.loadGlobalInfo] writes to the console in
    most of its jobs, and the console is shared with the rest of the
    engine and with the chains of other calls. This file says what ends
    up there. [job_log] is what one job writes, read off the phase of
    the chain and its pending index; every job appends just that. The
    console after a run is then an interleaving ([Merge]) of streams, one
    of the engine and one for each chain, and the stream of a chain is
    what the sequential program of [Loader] writes: called in the world
    of the start, or in the world a single call leaves, whichever index
    the chain found in the storage. The stream of the engine holds what
    the steps of the engine write and nothing else: the theorems are
    stated for any kind [E] of lines to which the engine keeps, and an
    engine that writes nothing leaves the lines of the chains alone on
    the console. *)

From stdpp Require Import strings gmap relations.
From S2P Require Import Prelude JsBase Host Extractor Synthesis Reconciler IndexSpec.
From S2P Require Import Loader Trace Jobs Temporal Interleave Erasure Reload Overlap.
From S2P Require Import Agreement Merge.

(** ** What a job writes *)

Section job_log.
Context `{Host}.
Implicit Types (w v W : World) (i : nat) (u : bool) (slots : list nat)
  (info : SaveInfo) (a b : jsarray SaveInfo) (c : Config) (l : list LogEntry).

(** The line of the callback of [then] or of [catch] after the load of
    the index. *)
Definition load_line w : LogEntry :=
  match storedGlobal w with
  | Done _ => GlobalInfoLoaded
  | Throw _ => GlobalInfoUnreadable
  end.

(** What the loop writes from the slots [slots] on, up to the next
    [await] or to its [return]: the first line of [makeMissingSaveInfo]
    for the first slot that has a save file and no record. *)
Fixpoint resume_log slots a : list LogEntry :=
  match slots with
  | [] => []
  | i :: rest =>
      if missing a i then [Restoring i]
      else if stale a i then resume_log rest (arr_delete a i)
      else resume_log rest a
  end.

(** What the job of a configuration writes. *)
Definition job_log c : list LogEntry :=
  match c.1 with
  | LoadingIndex => [load_line c.2]
  | IndexReady => resume_log allSlots (globalInfo c.2)
  | LoadingPayload i _ => tail (synthesis_log i)
  | PayloadReady i (Done info) =>
      resume_log (slotsFrom (S i)) (arr_set (globalInfo c.2) i (Obj info))
  | PassSettled (Throw e) => [UpdateFailed e]
  | PayloadReady _ (Throw _) | PassSettled (Done _) | Finished => []
  end.

(** What the sequential program writes. *)
Definition chain_log w : list LogEntry :=
  drop (length (console w)) (console (exec loadGlobalInfo w)).

(** ** Every job appends its lines *)

Lemma resume_console slots u w :
  console (resume slots u w).2 = console w ++ resume_log slots (globalInfo w).
Proof.
  revert u w. induction slots as [|i slots IH]; intros u w; simpl resume_log.
  { by rewrite app_nil_r. }
  rewrite resume_cons. destruct (missing (globalInfo w) i); [done|].
  destruct (stale (globalInfo w) i); [|apply IH].
  apply (IH true (set_globalInfo (λ a, arr_delete a i) w)).
Qed.

Lemma tryExtract_outcome sc info :
  (tryExtract sc info).2 =
  match restore_error sc with None => Done tt | Some e => Throw e end.
Proof.
  rewrite tryExtract_run. unfold restore_error.
  by destruct (extractCharacters sc), (extractFaces sc), (extractPlaytime sc).
Qed.

Lemma finishSynthesis_console i info w :
  console (exec (finishSynthesis i info (loadObject (makeSavename i))) w) =
  console w ++ tail (synthesis_log i).
Proof.
  unfold synthesis_log, restore_log, exec, finishSynthesis.
  destruct (loadObject (makeSavename i)) as [sc|err]; prog_simpl;
    [|by rewrite app_nil_r].
  pose proof (tryExtract_outcome sc info) as Hout.
  destruct (tryExtract sc info) as [info' r]. simpl in Hout. subst r.
  destruct (restore_error sc); unfold console_emit; prog_simpl; [|done].
  simpl. by rewrite <-app_assoc.
Qed.

Lemma job_console c c' : job c c' → console c'.2 = console c.2 ++ job_log c.
Proof.
  destruct 1 as [w g Hg|w e He|w|i info w|i info w|i e w|b w|e w];
    unfold job_log, load_line; cbn [fst snd].
  - by rewrite Hg.
  - by rewrite He.
  - apply resume_console.
  - apply finishSynthesis_console.
  - apply (resume_console _ _ (set_globalInfo (λ a, arr_set a i (Obj info)) w)).
  - by rewrite app_nil_r.
  - rewrite app_nil_r. by destruct b.
  - done.
Qed.

(** The console grows. *)
Lemma jobs_console c c' : rtc job c c' → console c.2 `prefix_of` console c'.2.
Proof.
  induction 1 as [c|c1 c2 c3 Hjob _ IH]; [done|]. etrans; [|exact IH].
  rewrite (job_console _ _ Hjob). by apply prefix_app_r.
Qed.

Lemma chain_log_console w : console (exec loadGlobalInfo w) = console w ++ chain_log w.
Proof.
  destruct (jobs_console _ _ (rtc_nsteps_2 _ _ _ (chain_steps w))) as [l Hl].
  unfold chain_log. simpl in Hl. by rewrite Hl, drop_app_length.
Qed.

Lemma loaded_world_console w : console (loaded_world w) = console w ++ [load_line w].
Proof. unfold loaded_world, load_line. by destruct (storedGlobal w). Qed.

(** The lines of the sequential program, in closed form: the line of the
    load, the lines of each synthesis in the order of the loop, and the
    line of the failure when the pass throws. *)
Lemma chain_log_run w :
  let a := globalInfo (loaded_world w) in
  chain_log w =
  load_line w :: flat_map synthesis_log (to_restore a (visited a allSlots)) ++
  match eval updateGlobalInfo (loaded_world w) with
  | Done _ => []
  | Throw e => [UpdateFailed e]
  end.
Proof.
  cbv zeta. unfold chain_log. rewrite loadGlobalInfo_exec. cbv zeta.
  destruct (forSlots_trace allSlots false (loaded_world w) allSlots_NoDup) as [Hc _].
  fold updateGlobalInfo in Hc. pose proof (loaded_world_console w) as Hload.
  destruct (eval updateGlobalInfo (loaded_world w)) as [[|]|e]; simpl;
    rewrite Hc, Hload, <-?app_assoc, drop_app_length; simpl;
    by rewrite ?app_nil_r.
Qed.

(** ** The lines do not depend on the rest of the world *)

Lemma resume_log_erase slots a b :
  erase_array a = erase_array b → resume_log slots a = resume_log slots b.
Proof.
  revert a b. induction slots as [|i slots IH]; intros a b Hab; [done|]. simpl.
  rewrite (missing_erase a b i Hab), (stale_erase a b i Hab).
  destruct (missing b i); [done|]. destruct (stale b i); apply IH; [|done].
  by rewrite !erase_array_delete, Hab.
Qed.

(** Chains on the same course write the same lines. *)
Lemma job_log_course c1 c2 :
  course c1 = course c2 → c1.1 ≠ LoadingIndex → job_log c1 = job_log c2.
Proof.
  destruct c1 as [p1 w1], c2 as [p2 w2]. intros [Hp Hg]%pair_eq Hload.
  cbn [fst snd] in *. unfold job_log. cbn [fst snd].
  destruct p1 as [| |i info|i [info|err]|[u|err]|],
    p2 as [| |i' info'|i' [info'|err']|[u'|err']|]; simplify_eq/=; try done.
  - by apply resume_log_erase.
  - apply resume_log_erase. rewrite !erase_array_set, Hg. simpl. congruence.
Qed.

Lemma load_line_stored w v : same_stored w v → load_line w = load_line v.
Proof.
  unfold same_stored, load_line. by destruct (storedGlobal w), (storedGlobal v).
Qed.

Lemma job_log_similar c1 c2 : similar c1 c2 → job_log c1 = job_log c2.
Proof.
  intros Hsim. destruct (decide (c1.1 = LoadingIndex)) as [Hp|Hp];
    [|by apply job_log_course; [apply similar_course|]].
  apply pair_eq in Hsim as [Hphase Hw]. rewrite Hp in Hphase.
  apply erase_world_fields in Hw as (_ & _ & Hst).
  destruct c1 as [p1 w1], c2 as [[] w2]; simplify_eq/=.
  unfold job_log. simpl. f_equal. by apply load_line_stored.
Qed.

(** Chains on the same course write the same lines from then on. *)
Lemma jobs_log c1 c1' c2 :
  rtc job c1 c1' → course c1 = course c2 → c1.1 ≠ LoadingIndex →
  ∃ c2' l, rtc job c2 c2' ∧ course c1' = course c2' ∧
    console c1'.2 = console c1.2 ++ l ∧ console c2'.2 = console c2.2 ++ l.
Proof.
  intros Hjobs. revert c2. induction Hjobs as [c|c1 c1' c1'' Hjob _ IH];
    intros c2 Hc Hp.
  { exists c2, []. by rewrite !app_nil_r. }
  destruct (job_course _ _ _ Hjob Hc Hp) as (c2' & Hjob' & Hc').
  destruct (IH c2' Hc' (job_after_load _ _ Hjob)) as (c2'' & l & Hjobs' & Hc'' & Hl1 & Hl2).
  exists c2'', (job_log c1 ++ l). split_and!; [by eapply rtc_l|done| |].
  - by rewrite Hl1, (job_console _ _ Hjob), app_assoc.
  - by rewrite Hl2, (job_console _ _ Hjob'), (job_log_course _ _ Hc Hp), app_assoc.
Qed.

(** The lines of a call are decided by the index in the storage, up to
    its timestamps. *)
Lemma chain_log_stored w v : same_stored w v → chain_log w = chain_log v.
Proof.
  intros Hst.
  destruct (jobs_log _ _ (IndexReady, loaded_world v) (chain_from_ready w))
    as (c & l & Hjobs & Hc & Hw & Hv); [by apply loaded_course|done|].
  rewrite (chain_end_ready v c Hjobs) in Hv by (by eapply course_Finished).
  cbn [fst snd] in *.
  rewrite chain_log_console, loaded_world_console, <-app_assoc in Hw, Hv.
  apply (inj (app _)) in Hw, Hv. by rewrite Hw, Hv, (load_line_stored _ _ Hst).
Qed.

(** The lines of a second call, on a save directory that has not
    changed: the line of the load and no other after a pass that
    returned, and the lines of the first call after a pass that threw. *)
Lemma chain_log_again w :
  let w1 := exec loadGlobalInfo w in
  chain_log w1 =
  if is_done (eval updateGlobalInfo (loaded_world w)) then [load_line w1]
  else chain_log w.
Proof.
  cbv zeta. destruct (is_done (eval updateGlobalInfo (loaded_world w))) eqn:Hdone.
  - destruct (loadGlobalInfo_reload w Hdone) as (_ & _ & Hc).
    rewrite chain_log_console, loaded_world_console in Hc.
    by apply (inj (app _)) in Hc.
  - apply chain_log_stored. unfold same_stored. rewrite loadGlobalInfo_storedGlobal.
    by destruct (eval updateGlobalInfo (loaded_world w)) as [[]|].
Qed.

End job_log.

(** ** One chain and the engine *)

(** The engine logs and reads the clock, and the lines it writes are
    lines of the kind [E]. *)
Section quiet_environment.
Context `{Host} (env : relation World) (E : LogEntry → Prop).
Hypothesis env_quiet : ∀ w w', env w w' → frame w w'.
Hypothesis env_writes :
  ∀ w w' m, env w w' → console w' = console w ++ m → Forall E m.
Implicit Types (w : World) (c : Config) (l : list LogEntry).

(** The lines [l], written since the console was that of [w], are an
    interleaving of the lines [m] and of lines of the engine, each of
    the kind [E]. *)
Definition shared_console w v (m : list LogEntry) : Prop :=
  ∃ l envl, console v = console w ++ l ∧ merged [envl; m] l ∧ Forall E envl.

(** The simulation of [Erasure], with the console: the lines of the jobs
    are those of the same jobs run one after the other. *)
Lemma steps_console c1 c1' c2 :
  rtc (step env) c1 c1' → similar c1 c2 →
  ∃ c2' m, rtc job c2 c2' ∧ similar c1' c2' ∧
    console c2'.2 = console c2.2 ++ m ∧ shared_console c1.2 c1'.2 m.
Proof.
  intros Hsteps Hsim. revert c1' Hsteps.
  apply (rtc_ind_r (λ c1', ∃ c2' m, rtc job c2 c2' ∧ similar c1' c2' ∧
    console c2'.2 = console c2.2 ++ m ∧ shared_console c1.2 c1'.2 m)).
  { exists c2, []. split_and!; [done|done|by rewrite app_nil_r|].
    exists [], []. split_and!; [by rewrite app_nil_r|apply (merged_nil 2)|done]. }
  intros c c' _ Hstep (c2' & m & Hjobs & Hsim' & Hm & l & envl & Hl & Hmerged & HE).
  destruct Hstep as [c c' Hjob|p w w' Henv].
  - destruct (job_erase _ _ _ Hjob Hsim') as (c2'' & Hjob' & Hsim'').
    exists c2'', (m ++ job_log c). split_and!; [by eapply rtc_r|done| |].
    + by rewrite (job_console _ _ Hjob'), Hm, (job_log_similar _ _ Hsim'), app_assoc.
    + exists (l ++ job_log c), envl.
      split_and!; [by rewrite (job_console _ _ Hjob), Hl, app_assoc| |done].
      by apply (merged_app [envl; m] l 1 m).
  - destruct (env_quiet _ _ Henv) as [_ _ _ [k Hk] _].
    exists c2', m. split_and!; [done| |done|].
    + etrans; [|exact Hsim']. apply similar_intro; [done|].
      by apply erase_frame, env_quiet.
    + exists (l ++ k), (envl ++ k). simpl in *.
      split_and!; [by rewrite Hk, Hl, app_assoc| |].
      * by apply (merged_app [envl; m] l 0 envl).
      * apply Forall_app. split; [done|]. by eapply env_writes.
Qed.

(** C24: the console of an interleaved run. However the jobs of the chain
    are interleaved with steps of the engine that log and read the clock,
    a run that has ended has added to the console the lines that the
    sequential program writes, all of them and in their order, and
    between them lines of the engine and no other: the remaining lines
    are of every kind [E] of which all lines are that a step of the
    engine writes. With an engine that writes nothing ([E] is empty) the
    console holds the lines of the sequential program and nothing
    else. *)
Theorem interleaved_console w c :
  rtc (step env) (LoadingIndex, w) c → c.1 = Finished →
  shared_console w c.2 (chain_log w).
Proof.
  intros Hsteps Hfin.
  destruct (steps_console _ _ (LoadingIndex, w) Hsteps)
    as ([p' w'] & m & Hjobs & [Hp _]%pair_eq & Hm & Hshared); [done|].
  cbn [fst snd] in *. rewrite Hfin in Hp.
  assert (p' = Finished) as -> by (by destruct p').
  apply chain_end in Hjobs; [|apply Finished_nf]. injection Hjobs as ->.
  rewrite chain_log_console in Hm. by apply (inj (app _)) in Hm as ->.
Qed.

End quiet_environment.

(** A step that leaves the console as it is writes lines of no kind. *)
Lemma silent_writes (w w' : World) m :
  console w' = console w → console w' = console w ++ m → Forall (λ _, False) m.
Proof.
  intros -> Hm. rewrite <-(app_nil_r (console w)) in Hm at 1.
  by apply (inj (app _)) in Hm as <-.
Qed.

(** With an engine that writes nothing, the lines written are the lines
    [m], in their order. *)
Lemma shared_console_silent (w v : World) m :
  shared_console (λ _, False) w v m → console v = console w ++ m.
Proof.
  intros (l & envl & Hl & Hm & ->%Forall_False_nil).
  by rewrite Hl, (merged_alone _ _ (merged_silent _ _ Hm)).
Qed.

(** ** Calls that overlap *)

Section overlap.
Context `{Host} (w0 : World) (E : LogEntry → Prop).
Implicit Types (w W : World) (c : Config) (k : nat) (x : Chain) (s : Calls)
  (l m envl : list LogEntry) (logs : list (list LogEntry)).

(** The chain is past its first job and where the sequential program is
    at some point after it has loaded the index stored in [W]; its lines
    so far are [l]. *)
Definition logs_from W x l : Prop :=
  ∃ c, rtc job (IndexReady, loaded_world W) c ∧ chain_course x = course c ∧
    console c.2 = console W ++ l.

(** What a chain has written: nothing before its first job, and then
    what the sequential program has written at some point, called in the
    world of the start or in the world a single call leaves. *)
Definition on_log x l : Prop :=
  (x.1 = LoadingIndex ∧ l = []) ∨
  ∃ W, (W = w0 ∨ W = once w0) ∧ logs_from W x l.

(** The same, by the lines of the whole call: the chain has written a
    part of them from their start, and all of them once it has ended. *)
Definition chain_logged x l : Prop :=
  ∃ W, (W = w0 ∨ W = once w0) ∧ l `prefix_of` chain_log W ∧
    (x.1 = Finished → l = chain_log W).

(** The lines written since the start are an interleaving of lines of
    the engine, each of the kind [E], and of one stream for each chain,
    the streams as [P] says. *)
Definition console_merged (P : Chain → list LogEntry → Prop) s : Prop :=
  ∃ l envl logs, console s.2 = console w0 ++ l ∧ merged (envl :: logs) l ∧
    Forall E envl ∧ Forall2 P s.1 logs.

Lemma console_merged_impl (P Q : Chain → list LogEntry → Prop) s :
  (∀ x l, P x l → Q x l) → console_merged P s → console_merged Q s.
Proof.
  intros HPQ (l & envl & logs & Hl & Hm & HE & Hall). exists l, envl, logs.
  split_and!; [done..|]. clear Hm. induction Hall; constructor; auto.
Qed.

(** *** The jobs of a chain *)

Lemma load_on_log W x w c' :
  x.1 = LoadingIndex → job (config x w) c' → same_stored w W →
  logs_from W (closure c') (job_log (config x w)).
Proof.
  intros Hp Hjob Hst.
  destruct (load_on_course W x w c' Hp Hjob Hst) as ((c & Hjobs & Hc) & _).
  exists (IndexReady, loaded_world W). split; [done|].
  unfold config in *. rewrite Hp in *.
  rewrite (job_deterministic _ _ _ Hjob (job_index _)). split; [by apply loaded_course|].
  unfold job_log. cbn [fst snd].
  change (load_line (view x.2 w)) with (load_line w).
  by rewrite (load_line_stored _ _ Hst), loaded_world_console.
Qed.

Lemma job_logs_from W x w c' l :
  job (config x w) c' → logs_from W x l →
  logs_from W (closure c') (l ++ job_log (config x w)).
Proof.
  intros Hjob (c & Hjobs & Hc & Hl).
  assert (x.1 ≠ LoadingIndex) as Hp by (apply (loads_from_loaded W); by exists c).
  destruct (job_course _ _ _ Hjob Hc Hp) as (c2 & Hjob2 & Hc2).
  exists c2. split_and!; [by eapply rtc_r|done|].
  by rewrite (job_console _ _ Hjob2), Hl, (job_log_course (config x w) c Hc Hp), app_assoc.
Qed.

Lemma job_on_log x w c' l :
  job (config x w) c' → same_stored w w0 ∨ same_stored w (once w0) → on_log x l →
  on_log (closure c') (l ++ job_log (config x w)).
Proof.
  intros Hjob Hst [[Hp ->]|(W & HW & Hfrom)]; right.
  - destruct Hst as [Hst|Hst]; [exists w0|exists (once w0)];
      (split; [auto|by apply load_on_log]).
  - exists W. split; [done|by apply job_logs_from].
Qed.

Lemma agreement_stored s :
  agreement w0 s → same_stored s.2 w0 ∨ same_stored s.2 (once w0).
Proof. intros [[Hst _]|[Hst _]]; auto. Qed.

(** *** The steps of a run *)

Lemma chain_job_logged k s s' :
  chain_job k s s' → agreement w0 s → console_merged on_log s →
  console_merged on_log s'.
Proof.
  intros [s1 x c' Hx Hjob] Hst%agreement_stored
    (l & envl & logs & Hl & Hm & HE & Hall).
  destruct (Forall2_lookup_l _ _ _ _ _ Hall Hx) as (y & Hy & Hxy).
  exists (l ++ job_log (config x s1.2)), envl, (<[k:=y ++ job_log (config x s1.2)]> logs).
  split_and!; [| |done|].
  - cbn [put snd]. by rewrite (job_console _ _ Hjob), app_assoc, <-Hl.
  - by apply (merged_app (envl :: logs) l (S k) y).
  - apply Forall2_insert; [done|]. by eapply job_on_log.
Qed.

Lemma call_logged s : console_merged on_log s → console_merged on_log (call s).
Proof.
  intros (l & envl & logs & Hl & Hm & HE & Hall). exists l, envl, (logs ++ [[]]).
  split_and!; [done|by apply (merged_new (envl :: logs))|done|].
  apply Forall2_app; [done|]. apply Forall2_cons; [by left|constructor].
Qed.

Lemma env_logged (xs : list Chain) w w' m :
  console w' = console w ++ m → Forall E m →
  console_merged on_log (xs, w) → console_merged on_log (xs, w').
Proof.
  intros Hm HEm (l & envl & logs & Hl & Hmerged & HE & Hall).
  exists (l ++ m), (envl ++ m), logs. simpl in *.
  split_and!; [by rewrite Hm, Hl, app_assoc| |by apply Forall_app|done].
  by apply (merged_app (envl :: logs) l 0 envl).
Qed.

(** *** What a chain has written, by the lines of a call *)

Lemma logs_from_logged W x l :
  logs_from W x l →
  l `prefix_of` chain_log W ∧ (x.1 = Finished → l = chain_log W).
Proof.
  intros (c & Hjobs & [Hp _]%pair_eq & Hl). split.
  - destruct (deterministic_confluent job_deterministic _ _ _ Hjobs
      (chain_from_ready W)) as (z & Hcz & Hz).
    apply rtc_nf in Hz as <-; [|apply Finished_nf].
    apply jobs_console in Hcz. simpl in Hcz.
    rewrite Hl, chain_log_console in Hcz. by eapply prefix_app_inv.
  - intros Hfin. cbn [fst] in Hp. rewrite Hfin in Hp.
    assert (c.1 = Finished) as Hc by (by destruct c.1).
    rewrite (chain_end_ready W c Hjobs Hc) in Hl. simpl in Hl.
    rewrite chain_log_console in Hl. by apply (inj (app _)) in Hl.
Qed.

Lemma on_log_logged x l : on_log x l → chain_logged x l.
Proof.
  intros [[Hp ->]|(W & HW & Hfrom)].
  - exists w0. split_and!; [by left|apply prefix_nil|congruence].
  - exists W. split; [done|by apply logs_from_logged].
Qed.

(** Chains that have ended have written the lines of a whole call. *)
Lemma ended_logs (xs : list Chain) logs :
  Forall2 on_log xs logs → Forall (λ x, x.1 = Finished) xs →
  Forall (λ m, m = chain_log w0 ∨ m = chain_log (once w0)) logs.
Proof.
  induction 1 as [|x m xs logs Hx _ IH]; intros Hfin; [done|].
  apply list.Forall_cons in Hfin as [Hend Hfin]. constructor; [|by apply IH].
  destruct (on_log_logged _ _ Hx) as (W & HW & _ & Hm). rewrite (Hm Hend).
  by destruct HW as [-> | ->]; [left|right].
Qed.

(** The engine logs and reads the clock, and the lines it writes are
    lines of the kind [E]. *)
Section quiet.
Context (env : relation World).
Hypothesis env_quiet : ∀ w w', env w w' → frame w w'.
Hypothesis env_writes :
  ∀ w w' m, env w w' → console w' = console w ++ m → Forall E m.

Lemma calls_step_logged s s' :
  calls_step env s s' → agreement w0 s → console_merged on_log s →
  console_merged on_log s'.
Proof.
  intros [k s1 s2 Hjob|xs w w' Henv|s1] Hagree;
    [by eapply chain_job_logged| |apply call_logged].
  destruct (env_quiet _ _ Henv) as [_ _ _ [m Hm] _].
  apply (env_logged xs w w' m Hm). by eapply env_writes.
Qed.

(** The invariant holds all along a run that starts before the first
    call. *)
Lemma calls_logged (e : nat → Calls) :
  run (calls_step env) e → e 0 = ([], w0) →
  always (λ s, agreement w0 s ∧ console_merged on_log s) e.
Proof.
  intros Hrun H0. apply (always_intro (calls_step env)); [done| |].
  - rewrite H0. split; [by left|]. exists [], [], [].
    split_and!; [by rewrite app_nil_r|apply (merged_nil 1)|done|constructor].
  - intros s s' Hstep [Hagree Hlog].
    split; [by eapply calls_step_agreement|by eapply calls_step_logged].
Qed.

(** C23: the console while calls overlap. Let [loadGlobalInfo] be called any
    number of times, at any time, with the jobs of the chains and the
    steps of an engine that logs and reads the clock in any order, fair
    or not. At every position of the run the lines written since the
    start are an interleaving of lines of the engine and of one stream
    for each call, and the stream of a call holds, from their start and
    in their order, lines that a single call writes: in the world [w0]
    of the start or in the world a single call leaves. A chain that has
    ended has written them all. The lines of the engine are of every
    kind [E] of which all lines are that a step of the engine writes:
    with an engine that writes nothing the console holds the streams of
    the calls and nothing else. *)
Theorem overlap_console (e : nat → Calls) :
  run (calls_step env) e → e 0 = ([], w0) →
  always (console_merged chain_logged) e.
Proof.
  intros Hrun H0 n. destruct (calls_logged e Hrun H0 n) as [_ Hlog].
  eapply console_merged_impl; [apply on_log_logged|done].
Qed.

(** The console once the chains have ended. In a run that is fair to
    every chain, once the calls have stopped the console holds, between
    the lines of the engine, the lines of a whole call once for each
    call: those of a call in the world of the start, or those of a call
    after it. *)
Theorem overlap_console_ended L (e : nat → Calls) :
  run (calls_step env) e → (∀ k, weakly_fair (chain_job k) e) →
  e 0 = ([], w0) → stabilises (λ s, length s.1 = L) e →
  stabilises (λ s, ∃ l envl logs, console s.2 = console w0 ++ l ∧
    merged (envl :: logs) l ∧ Forall E envl ∧ length logs = L ∧
    Forall (λ m, m = chain_log w0 ∨ m = chain_log (once w0)) logs) e.
Proof.
  intros Hrun Hfair H0 Hstop.
  destruct (stabilises_and _ _ e (all_end env L e Hrun Hfair Hstop) Hstop) as [n Hn].
  exists n. intros m Hm. destruct (Hn m Hm) as [Hfin Hlen].
  destruct (calls_logged e Hrun H0 m)
    as [_ (l & envl & logs & Hl & Hmerged & HE & Hall)].
  exists l, envl, logs. split_and!; [done..| |by eapply ended_logs].
  apply Forall2_length in Hall. congruence.
Qed.

End quiet.

End overlap.

(** With an engine that writes nothing, the lines written are an
    interleaving of the streams of the calls. *)
Lemma console_merged_silent (w0 : World) P (s : Calls) :
  console_merged w0 (λ _, False) P s →
  ∃ l logs, console s.2 = console w0 ++ l ∧ merged logs l ∧ Forall2 P s.1 logs.
Proof.
  intros (l & envl & logs & Hl & Hm & ->%Forall_False_nil & Hall).
  exists l, logs. split_and!; [done|by apply merged_silent|done].
Qed.
