(* ===== verification/DiskCalls.v ===== *)
(** * Calls that overlap on a save directory that changes

    [Disk] lets the save directory change under one chain, [Overlap]
    runs the chains of several calls on a directory that stays as it is.
    This file puts the two together: any number of calls of
    [DataManager.loadGlobalInfo], at any time, the jobs of their chains
    each asking the directory as it is when the job runs, and an
    environment that changes the world and the directory in between.
    What [Disk] shows for one chain holds for each of them: every chain
    ends in a fair run once the calls have stopped, and every chain
    reconciles the slots whose files are left alone. The array of a
    chain is its own, so the second needs nothing of the environment but
    that it keeps its hands off that file. *)

From stdpp Require Import strings gmap relations.
From S2P Require Import Prelude JsBase Host Extractor Synthesis Reconciler.
From S2P Require Import Loader Trace Jobs Temporal WellFormed Interleave Disk Overlap.

(** ** Chains on a directory *)

(** What a schedule can do next: run the job of a chain, call
    [loadGlobalInfo], write a save file or remove one. *)
Inductive Move : Type :=
| JobOf (k : nat)
| NewCall
| WriteFile (name : string) (r : completion JsError SaveContents)
| RemoveFile (name : string).

Section disk_calls.
Context (base : Host).
Implicit Types (d : Disk) (w : World) (s : Calls) (k j : nat) (x : Chain)
  (ms : list Move).

(** The chains called so far, the world they share and the directory. *)
Definition DCalls : Type := Calls * Disk.

Implicit Types (y z : DCalls).

(** A job of chain [k], run on the directory as it is. *)
Inductive dchain_job k : relation DCalls :=
| dchain_job_intro s s' d :
    @chain_job (host_of base d) k s s' → dchain_job k (s, d) (s', d).

(** A step of a run: a job of a chain, a step of the environment on the
    world and the directory, or a call. *)
Inductive dcalls_step (env : relation (World * Disk)) : relation DCalls :=
| dcalls_job k y z : dchain_job k y z → dcalls_step env y z
| dcalls_env xs w w' d d' :
    env (w, d) (w', d') → dcalls_step env (xs, w, d) (xs, w', d')
| dcalls_call s d : dcalls_step env (s, d) (call s, d).

(** The executable forms: the job of chain [k] that is ready, on the
    directory as it is. *)
Definition run_dchain_job k y : option DCalls :=
  s' ← @run_chain_job (host_of base y.2) k y.1; Some (s', y.2).

Definition run_dmove (m : Move) y : option DCalls :=
  match m with
  | JobOf k => run_dchain_job k y
  | NewCall => Some (call y.1, y.2)
  | WriteFile name r => Some (y.1, <[name:=r]> y.2)
  | RemoveFile name => Some (y.1, delete name y.2)
  end.

(** The moves [ms] one after the other; a chain that has ended lets its
    turn pass. *)
Definition run_dschedule ms y : DCalls :=
  foldl (λ y m, default y (run_dmove m y)) y ms.

(** The run that makes the moves [ms] and then, on the directory as they
    leave it, gives the turn to the chain that is furthest from its
    end. *)
Definition dscheduled ms y : nat → DCalls :=
  let z := run_dschedule ms y in
  splice (length ms) (λ n, run_dschedule (take n ms) y)
    (λ n, (@behind (host_of base z.2) z.1 n, z.2)).

(** The environment that writes and removes save files, all but the file
    [keep], and leaves the world alone. *)
Definition edits (keep : string) : relation (World * Disk) :=
  λ a b, b.1 = a.1 ∧ b.2 !! keep = a.2 !! keep.

(** The moves leave the file [keep] alone. *)
Definition spares (keep : string) (m : Move) : bool :=
  match m with
  | WriteFile name _ | RemoveFile name => bool_decide (name ≠ keep)
  | JobOf _ | NewCall => true
  end.

(** The jobs chain [k] may still need. *)
Definition dchain_rank k y : nat := @chain_rank base k y.1.

(** Every chain has settled slot [j], as [slot_settled] of [Disk] says
    for one. *)
Definition chains_settled j (present : bool) s : Prop :=
  Forall (λ x, slot_settled base j present (config x s.2)) s.1.

(** The records of the calls have their shape: those a chain has in its
    pending index and in its phase, and those of the published and the
    persisted index, which has no hole. *)
Definition wf_calls s : Prop := Forall (λ x, wf_config (config x s.2)) s.1 ∧ wf_world (view [] s.2).

(** ** The jobs *)

Lemma dchain_job_run k y z : dchain_job k y z ↔ run_dchain_job k y = Some z.
Proof.
  unfold run_dchain_job. split.
  - intros [s s' d Hjob%chain_job_run]. simpl. by rewrite Hjob.
  - destruct y as [s d]. simpl.
    destruct (@run_chain_job (host_of base d) k s) as [s'|] eqn:Hrun; [|done].
    intros [= <-]. by apply dchain_job_intro, chain_job_run.
Qed.

Lemma dchain_job_rank k y z : dchain_job k y z → dchain_rank k z < dchain_rank k y.
Proof. intros [s s' d Hjob]. apply (@chain_job_rank (host_of base d) _ _ _ Hjob). Qed.

Lemma dchain_rank_enabled k y : 0 < dchain_rank k y → red (dchain_job k) y.
Proof.
  destruct y as [s d]. intros [s' Hjob]%(@chain_rank_enabled (host_of base d)).
  exists (s', d). by constructor.
Qed.

Section steps.
Context (env : relation (World * Disk)).

Lemma dcalls_step_length y z : dcalls_step env y z → length y.1.1 ≤ length z.1.1.
Proof.
  intros [k y1 z1 [s s' d Hjob%chain_job_length]|xs w w' d d' Henv|s d]; simpl;
    [lia|done|]. rewrite length_app. lia.
Qed.

Lemma dcalls_step_rank k y z :
  dcalls_step env y z → k < length y.1.1 → dchain_rank k z ≤ dchain_rank k y.
Proof.
  intros [k' y1 z1 [s s' d Hjob]|xs w w' d d' Henv|s d] Hk; simpl in *.
  - destruct (decide (k' = k)) as [->|Hne].
    + apply Nat.lt_le_incl, (@chain_job_rank (host_of base d) _ _ _ Hjob).
    + apply Nat.eq_le_incl, (@chain_job_rank_ne (host_of base d) _ _ _ _ Hjob Hne).
  - done.
  - by apply call_rank.
Qed.

(** C20: liveness for calls on a directory that changes. Whatever is
    written to or removed from the save directory, whenever
    [loadGlobalInfo] is called and whatever else the engine does to the
    world, in a run that is fair to every chain all chains end once the
    calls have stopped. *)
Theorem dcalls_fair_terminate L (e : nat → DCalls) :
  run (dcalls_step env) e → (∀ k, weakly_fair (dchain_job k) e) →
  stabilises (λ y, length y.1.1 = L) e → stabilises (λ y, all_finished y.1) e.
Proof.
  intros Hrun Hfair Hstop. eapply stabilises_weaken;
    [|by apply (fair_family_terminates dchain_job (dcalls_step env)
                  (λ y, length y.1.1) dchain_rank dchain_job_rank dcalls_step_rank
                  dchain_rank_enabled dcalls_step_length L e)].
  intros y [<- Hr]. by apply (@ranks_finished base).
Qed.

(** *** The shape of the records *)

(** A chain and the world it runs in are well formed when the chain and
    what the chains share are. *)
Lemma wf_config_view x w :
  wf_config (config x w) ↔ wf_phase x.1 ∧ wf_index x.2 ∧ wf_world (view [] w).
Proof.
  unfold wf_config, wf_world. simpl. split.
  - intros (? & ? & ? & ?). split_and!; try done. constructor.
  - intros (? & ? & _ & ? & ?). by split_and!.
Qed.

Lemma wf_calls_intro (xs : list Chain) w w' :
  Forall (λ x, wf_config (config x w)) xs → wf_world (view [] w') →
  Forall (λ x, wf_config (config x w')) xs.
Proof.
  intros Hall Hw'. induction Hall as [|x xs (Hp & Hg & _)%wf_config_view _ IH];
    constructor; [by apply wf_config_view|done].
Qed.

Lemma dchain_job_wf k s s' d :
  @chain_job (host_of base d) k s s' → wf_calls s → wf_calls s'.
Proof.
  intros [s1 x c' Hx Hjob] [Hall Hw].
  pose proof (@job_preserves_wf (host_of base d) _ _ Hjob
    (Forall_lookup_1 _ _ _ _ Hall Hx)) as Hc'.
  rewrite <-(config_closure c') in Hc'. pose proof Hc' as (_ & _ & Hw')%wf_config_view.
  split; [|done]. apply Forall_insert; [by eapply wf_calls_intro|done].
Qed.

Lemma call_wf s : wf_calls s → wf_calls (call s).
Proof.
  intros [Hall Hw]. split; [|done]. apply Forall_app. split; [done|].
  apply Forall_singleton, wf_config_view. split_and!; try done. constructor.
Qed.

Section shapes.
Hypothesis env_wf :
  ∀ w d w' d', env (w, d) (w', d') → wf_world (view [] w) → wf_world (view [] w').

Lemma dcalls_step_wf y z : dcalls_step env y z → wf_calls y.1 → wf_calls z.1.
Proof.
  intros [k y1 z1 [s s' d Hjob]|xs w w' d d' Henv|s d]; simpl;
    [by eapply dchain_job_wf| |apply call_wf].
  intros [Hall Hw]. pose proof (env_wf _ _ _ _ Henv Hw) as Hw'.
  split; [by eapply wf_calls_intro|done].
Qed.

(** C14: preservation of the shape of the records, for the chains of any
    number of calls on a directory that changes. Let the environment
    keep the shape of the records of the published and of the persisted
    index. Then whatever the save files hold when a chain reads them,
    at every position of a run that starts well formed the records of
    the pending index of every chain, the record its phase carries, the
    published index and the persisted index are well formed, and the
    persisted index has no hole. *)
Theorem dcalls_well_formed (e : nat → DCalls) :
  run (dcalls_step env) e → wf_calls (e 0).1 → always (λ y, wf_calls y.1) e.
Proof.
  intros Hrun H0. apply (always_intro (dcalls_step env)); [done..|].
  intros y z. apply dcalls_step_wf.
Qed.

End shapes.

(** *** A slot whose file is left alone *)

Section stable_slot.
Context (j : nat).
Hypothesis env_keeps :
  ∀ w d w' d', env (w, d) (w', d') →
    d' !! @makeSavename base j = d !! @makeSavename base j.

Lemma dchain_job_settled present k s s' d :
  @chain_job (host_of base d) k s s' → on_disk base d j = present →
  chains_settled j present s → chains_settled j present s'.
Proof.
  intros [s1 x c' Hx Hjob] Hd Hall. apply Forall_insert; [done|].
  rewrite <-(config_closure c').
  apply (@job_slot_settled (host_of base d) j present Hd _ _ Hjob).
  apply (Forall_lookup_1 _ _ _ _ Hall Hx).
Qed.

Lemma dcalls_step_settled present y z :
  dcalls_step env y z →
  on_disk base y.2 j = present ∧ chains_settled j present y.1 →
  on_disk base z.2 j = present ∧ chains_settled j present z.1.
Proof.
  intros [k y1 z1 [s s' d Hjob]|xs w w' d d' Henv|s d] [Hd Hall]; simpl in *.
  - split; [done|]. by eapply dchain_job_settled.
  - split; [unfold on_disk in *; by rewrite (env_keeps _ _ _ _ Henv)|done].
  - split; [done|]. apply Forall_app. split; [done|]. by apply Forall_singleton.
Qed.

(** C38: the slots that are left alone, for every chain. Let
    [loadGlobalInfo] be called any number of times, at any time, and let
    the environment change the world and the save directory in any way,
    except for the file of slot [j]. Then at every position of the run,
    every chain whose loop is past slot [j] has in its pending index a
    record for [j] exactly when the file of [j] is there, and so it has
    when its pass returns. *)
Theorem dcalls_stable_slot (e : nat → DCalls) :
  run (dcalls_step env) e → (e 0).1.1 = [] →
  always (λ y, chains_settled j (on_disk base (e 0).2 j) y.1) e.
Proof.
  intros Hrun H0 n.
  assert (always (λ y, on_disk base y.2 j = on_disk base (e 0).2 j ∧
                       chains_settled j (on_disk base (e 0).2 j) y.1) e)
    as Hinv; [|apply Hinv].
  apply (always_intro (dcalls_step env)); [done| |].
  - split; [done|]. unfold chains_settled. rewrite H0. constructor.
  - intros y z. apply dcalls_step_settled.
Qed.

End stable_slot.

End steps.

(** ** Schedules *)

(** While the directory stays as it is, the chains run as in [Overlap]
    with the engine on that directory. *)
Lemma static_step env d s s' :
  @calls_step (host_of base d) (λ w w', env (w, d) (w', d)) s s' →
  dcalls_step env (s, d) (s', d).
Proof.
  intros [k s1 s2 Hjob|xs w w' Henv|s1].
  - by apply (dcalls_job env k), dchain_job_intro.
  - by apply dcalls_env.
  - apply dcalls_call.
Qed.

Lemma static_fair d k (e : nat → Calls) :
  weakly_fair (@chain_job (host_of base d) k) e →
  weakly_fair (dchain_job k) (λ n, (e n, d)).
Proof.
  intros Hfair n. destruct (Hfair n) as (m & Hm & [Hjob|Hstuck]);
    exists m; (split; [done|]); [left; by constructor|right].
  intros [[s' d'] Hjob]. apply Hstuck. inversion Hjob; subst. by exists s'.
Qed.

Section edits.
Context (keep : string).

#[export] Instance edits_refl : Reflexive (edits keep).
Proof. by intros a. Qed.

Lemma run_dmove_step m y z :
  spares keep m = true → run_dmove m y = Some z → dcalls_step (edits keep) y z.
Proof.
  destruct y as [[xs w] d], m as [k| |name r|name]; simpl.
  - intros _ Hjob%dchain_job_run. by eapply dcalls_job.
  - intros _ [= <-]. apply dcalls_call.
  - intros Hne%bool_decide_eq_true [= <-]. apply dcalls_env.
    split; [done|]. by apply lookup_insert_ne.
  - intros Hne%bool_decide_eq_true [= <-]. apply dcalls_env.
    split; [done|]. by apply lookup_delete_ne.
Qed.

Lemma run_dschedule_snoc ms m y :
  run_dschedule (ms ++ [m]) y =
  default (run_dschedule ms y) (run_dmove m (run_dschedule ms y)).
Proof. unfold run_dschedule. by rewrite foldl_app. Qed.

Lemma run_dschedule_step ms y n :
  forallb (spares keep) ms = true →
  dcalls_step (edits keep) (run_dschedule (take n ms) y) (run_dschedule (take (S n) ms) y).
Proof.
  intros Hms. destruct (ms !! n) as [m|] eqn:Hm.
  - rewrite (take_S_r _ _ _ Hm), run_dschedule_snoc.
    destruct (run_dmove m _) as [z|] eqn:Hmove.
    + eapply run_dmove_step; [|done].
      rewrite forallb_forall in Hms. by eapply Hms, list_elem_of_In, list_elem_of_lookup_2.
    + simpl. destruct (run_dschedule (take n ms) y) as [[xs w] d]. by apply dcalls_env.
  - apply lookup_ge_None in Hm. rewrite !take_ge by lia.
    destruct (run_dschedule ms y) as [[xs w] d]. by apply dcalls_env.
Qed.

(** A schedule that spares the file [keep], followed by the jobs that
    are left, is a run that is fair to every chain, and its calls are
    those of the schedule. *)
Lemma dscheduled_run ms y :
  forallb (spares keep) ms = true → run (dcalls_step (edits keep)) (dscheduled ms y).
Proof.
  intros Hms. apply run_splice.
  - intros n _. by apply run_dschedule_step.
  - intros Hpos. pose proof (run_dschedule_step ms y (length ms - 1) Hms) as Hstep.
    rewrite (take_ge ms (S _)) in Hstep by lia. simpl.
    by destruct (run_dschedule ms y).
  - intros n. apply static_step.
    by apply (@behind_run (host_of base _) (λ w w', edits keep (w, _) (w', _))).
Qed.

Lemma dscheduled_fair k ms y : weakly_fair (dchain_job k) (dscheduled ms y).
Proof. apply weakly_fair_splice, static_fair, behind_fair. Qed.

Lemma dscheduled_calls ms y :
  stabilises (λ z, length z.1.1 = length (run_dschedule ms y).1.1) (dscheduled ms y).
Proof.
  exists (length ms). intros n Hn. unfold dscheduled, splice.
  rewrite decide_False by lia. apply behind_length.
Qed.

End edits.

End disk_calls.
