(* ===== verification/Plugin.v ===== *)
(** * Loading the plugin

    What the script does when the engine loads it, before any of its
    functions runs: it declares [Imported] and [McKathlin] if they are not
    there, sets its flag, makes the namespace [McKathlin.SaveSync] anew,
    and assigns its two methods to [DataManager] and its five functions to
    the namespace (source lines 31-35 and the assignments of the function
    of lines 89-206). Functions are looked up by name each time they are
    called, so what runs later depends on what the load and the loads of
    other plugins left in these objects. This file models the objects, the
    load, the edits other plugins make, and the calls of the plugin's
    functions. *)

From stdpp Require Import strings gmap.
From S2P Require Import Prelude JsBase.

(** ** Functions and objects *)

Inductive Owner : Type :=
| Engine
| SaveSync
| Plugin (plugin : string).

(** A function value: the function a script defines under a name, or a
    function of another plugin that keeps the function it replaces and
    calls it. *)
Inductive Func : Type :=
| Fn (owner : Owner) (name : string)
| Alias (plugin : string) (inner : Func).

#[export] Instance Owner_eq_dec : EqDecision Owner.
Proof. solve_decision. Defined.

#[export] Instance Func_eq_dec : EqDecision Func.
Proof. solve_decision. Defined.

Abbreviation JsObject := (gmap string Func).

(** The global names the script reads and writes, and the prototypes of
    the classes whose methods its functions call, by the name of the
    class. [None] is [undefined]. *)
Record Globals : Type := mkGlobals {
  Imported : option (gmap string bool);
  McKathlin : option (gmap string JsObject);
  DataManager : JsObject;
  StorageManager : JsObject;
  Prototypes : gmap string JsObject;
}.

Definition set_Imported (v : option (gmap string bool)) (g : Globals) : Globals :=
  mkGlobals v (McKathlin g) (DataManager g) (StorageManager g) (Prototypes g).

Definition set_McKathlin (v : option (gmap string JsObject)) (g : Globals) : Globals :=
  mkGlobals (Imported g) v (DataManager g) (StorageManager g) (Prototypes g).

Definition set_DataManager (v : JsObject) (g : Globals) : Globals :=
  mkGlobals (Imported g) (McKathlin g) v (StorageManager g) (Prototypes g).

Definition set_Prototypes (v : gmap string JsObject) (g : Globals) : Globals :=
  mkGlobals (Imported g) (McKathlin g) (DataManager g) (StorageManager g) v.

(** ** The load *)

(** [X || {}] *)
Definition or_empty {A} (o : option (gmap string A)) : gmap string A :=
  default ∅ o.

(** [var Imported = Imported || {}; Imported.McKathlin_SaveSync = true;] *)
Definition declareImported (g : Globals) : Globals :=
  set_Imported (Some (<["McKathlin_SaveSync" := true]> (or_empty (Imported g)))) g.

(** [var McKathlin = McKathlin || {}; McKathlin.SaveSync = {};] *)
Definition declareNamespace (g : Globals) : Globals :=
  set_McKathlin (Some (<["SaveSync" := ∅]> (or_empty (McKathlin g)))) g.

(** [DataManager.name = function ...] *)
Definition defineMethod (name : string) : prog Globals JsError unit :=
  modify (λ g, set_DataManager (<[name := Fn SaveSync name]> (DataManager g)) g).

(** [McKathlin.SaveSync.name = function ...]: the two reads throw on
    [undefined]. *)
Definition defineFunction (name : string) : prog Globals JsError unit :=
  let* global := gets McKathlin in
  let* mckathlin := await (field "SaveSync" global) in
  let* saveSync := await (field name (mckathlin !! "SaveSync")) in
  modify (set_McKathlin
            (Some (<["SaveSync" := <[name := Fn SaveSync name]> saveSync]> mckathlin))).

(** The function of lines 89-206, called at once: its seven assignments. *)
Definition defineAll : prog Globals JsError unit :=
  defineMethod "loadGlobalInfo" >>
  defineMethod "updateGlobalInfo" >>
  defineFunction "makeMissingSaveInfo" >>
  defineFunction "extractCharacters" >>
  defineFunction "extractFaces" >>
  defineFunction "extractPlaytime" >>
  defineFunction "extractPartyMembers".

(** The script. *)
Definition install : prog Globals JsError unit :=
  modify declareImported >> modify declareNamespace >> defineAll.

(** ** Calls *)

(** How a call names its callee: a property of [DataManager] (written
    [this.name] in a method, [DataManager.name] elsewhere), of
    [StorageManager], of [McKathlin.SaveSync] (written [this.name] in a
    function of the namespace), a method of an object of a class of the
    engine, found in the prototype of the class, or a function held in a
    variable. *)
Inductive Ref : Type :=
| ViaDataManager (name : string)
| ViaStorageManager (name : string)
| ViaSaveSync (name : string)
| ViaPrototype (class name : string)
| Direct (f : Func).

(** The calls in the body of a function of the plugin, in source order,
    and the one call of an alias. Calls of built-ins of the language
    ([console], [Date], [Math], the methods of arrays and promises) are
    left out. The bodies of the engine's functions and of other plugins
    are not in the source: they are leaves. *)
Definition calls (f : Func) : list Ref :=
  match f with
  | Alias _ inner => [Direct inner]
  | Fn SaveSync name =>
      if decide (name = "loadGlobalInfo") then
        [ViaStorageManager "loadObject"; ViaDataManager "updateGlobalInfo";
         ViaDataManager "saveGlobalInfo"]
      else if decide (name = "updateGlobalInfo") then
        [ViaDataManager "maxSavefiles"; ViaDataManager "savefileExists";
         ViaSaveSync "makeMissingSaveInfo"]
      else if decide (name = "makeMissingSaveInfo") then
        [ViaDataManager "makeSavename"; ViaStorageManager "loadObject";
         ViaSaveSync "extractCharacters"; ViaSaveSync "extractFaces";
         ViaSaveSync "extractPlaytime"]
      else if decide (name = "extractCharacters") then
        [ViaSaveSync "extractPartyMembers"; ViaPrototype "Game_Actor" "characterName";
         ViaPrototype "Game_Actor" "characterIndex"]
      else if decide (name = "extractFaces") then
        [ViaSaveSync "extractPartyMembers"; ViaPrototype "Game_Actor" "faceName";
         ViaPrototype "Game_Actor" "faceIndex"]
      else if decide (name = "extractPlaytime") then
        [ViaPrototype "Number" "padZero"]
      else if decide (name = "extractPartyMembers") then
        [ViaPrototype "Game_Party" "maxBattleMembers"; ViaPrototype "Game_Actors" "actor"]
      else []
  | Fn _ _ => []
  end.

(** The function a call reaches, looked up when the call is made. *)
Definition resolve (g : Globals) (r : Ref) : option Func :=
  match r with
  | ViaDataManager name => DataManager g !! name
  | ViaStorageManager name => StorageManager g !! name
  | ViaSaveSync name =>
      mckathlin ← McKathlin g; saveSync ← mckathlin !! "SaveSync"; saveSync !! name
  | ViaPrototype class name => prototype ← Prototypes g !! class; prototype !! name
  | Direct f => Some f
  end.

(** The functions that run when [f] is called, to a depth of [fuel]
    calls, [f] first. *)
Fixpoint reached (fuel : nat) (g : Globals) (f : Func) : list Func :=
  match fuel with
  | 0 => [f]
  | S fuel => f :: flat_map (reached fuel g) (omap (resolve g) (calls f))
  end.

(** The names the plugin defines, by the object that holds them. *)
Definition pluginMethods : list string := ["loadGlobalInfo"; "updateGlobalInfo"].

Definition pluginFunctions : list string :=
  ["makeMissingSaveInfo"; "extractCharacters"; "extractFaces"; "extractPlaytime";
   "extractPartyMembers"].

(** Every name the plugin defines is bound to the plugin's function. *)
Definition linked (g : Globals) : bool :=
  forallb (λ name, bool_decide (resolve g (ViaDataManager name) = Some (Fn SaveSync name)))
    pluginMethods &&
  forallb (λ name, bool_decide (resolve g (ViaSaveSync name) = Some (Fn SaveSync name)))
    pluginFunctions.

(** ** Other plugins *)

(** What the script of another plugin does to the same objects. *)
Inductive Edit : Type :=
(** [var Imported = Imported || {}; Imported.flag = true;] *)
| SetFlag (flag : string)
(** [DataManager.name = function ...] *)
| SetMethod (plugin name : string)
(** [const old = DataManager.name; DataManager.name = function() { ...
    old.call(this) ... }] *)
| AliasMethod (plugin name : string)
(** [var McKathlin = McKathlin || {}; McKathlin.ns = McKathlin.ns || {};
    McKathlin.ns.name = function ...] *)
| SetFunction (plugin ns name : string)
(** [Class.prototype.name = function ...] *)
| SetPrototype (plugin class name : string).

Definition apply_edit (e : Edit) (g : Globals) : Globals :=
  match e with
  | SetFlag flag =>
      set_Imported (Some (<[flag := true]> (or_empty (Imported g)))) g
  | SetMethod plugin name =>
      set_DataManager (<[name := Fn (Plugin plugin) name]> (DataManager g)) g
  | AliasMethod plugin name =>
      let f := match DataManager g !! name with
               | Some old => Alias plugin old
               | None => Fn (Plugin plugin) name
               end in
      set_DataManager (<[name := f]> (DataManager g)) g
  | SetFunction plugin ns name =>
      let mckathlin := or_empty (McKathlin g) in
      let object := default ∅ (mckathlin !! ns) in
      set_McKathlin
        (Some (<[ns := <[name := Fn (Plugin plugin) name]> object]> mckathlin)) g
  | SetPrototype plugin class name =>
      let prototype := default ∅ (Prototypes g !! class) in
      set_Prototypes
        (<[class := <[name := Fn (Plugin plugin) name]> prototype]> (Prototypes g)) g
  end.

(** The edit writes none of the names the plugin writes. *)
Definition independent (e : Edit) : bool :=
  match e with
  | SetFlag flag => bool_decide (flag ≠ "McKathlin_SaveSync")
  | SetMethod _ name | AliasMethod _ name => bool_decide (name ∉ pluginMethods)
  | SetFunction _ ns _ => bool_decide (ns ≠ "SaveSync")
  | SetPrototype _ _ _ => true
  end.

(** The objects as the engine leaves them for the plugins. *)
Definition engineGlobals : Globals :=
  mkGlobals None None
    (list_to_map ((λ name, (name, Fn Engine name)) <$>
       ["loadGlobalInfo"; "saveGlobalInfo"; "removeInvalidGlobalInfo";
        "maxSavefiles"; "savefileExists"; "makeSavename"]))
    (list_to_map [("loadObject", Fn Engine "loadObject")])
    (list_to_map
       [("Number", {["padZero" := Fn Engine "padZero"]});
        ("Game_Party", {["maxBattleMembers" := Fn Engine "maxBattleMembers"]});
        ("Game_Actors", {["actor" := Fn Engine "actor"]});
        ("Game_Actor",
         list_to_map ((λ name, (name, Fn Engine name)) <$>
           ["characterName"; "characterIndex"; "faceName"; "faceIndex"]))]).

(** ** Reference definitions *)

(** The namespace object after the load. *)
Definition saveSyncObject : JsObject :=
  foldl (λ object name, <[name := Fn SaveSync name]> object) ∅ pluginFunctions.

(** The objects after the load, in closed form. *)
Definition installed (g : Globals) : Globals :=
  mkGlobals
    (Some (<["McKathlin_SaveSync" := true]> (or_empty (Imported g))))
    (Some (<["SaveSync" := saveSyncObject]> (or_empty (McKathlin g))))
    (<["updateGlobalInfo" := Fn SaveSync "updateGlobalInfo"]>
       (<["loadGlobalInfo" := Fn SaveSync "loadGlobalInfo"]> (DataManager g)))
    (StorageManager g) (Prototypes g).

(** The edits of a list of plugins, the first of the list loaded first. *)
Definition apply_edits (es : list Edit) (g : Globals) : Globals :=
  foldl (λ g e, apply_edit e g) g es.

(** ** The load, run *)

Section install_facts.
Implicit Types (g : Globals) (name : string) (o : JsObject)
  (m : gmap string JsObject) (e : Edit).

Lemma defineFunction_run name g m o :
  McKathlin g = Some (<["SaveSync" := o]> m) →
  defineFunction name g =
  (set_McKathlin (Some (<["SaveSync" := <[name := Fn SaveSync name]> o]> m)) g,
   Done tt).
Proof.
  intros Hg. unfold defineFunction, bind, gets, await, modify. rewrite Hg.
  simpl. rewrite lookup_insert_eq. simpl. by rewrite insert_insert_eq.
Qed.

Lemma install_run g : install g = (installed g, Done tt).
Proof.
  unfold install, defineAll.
  repeat (erewrite run_seq
            by first [apply defineFunction_run; reflexivity|reflexivity]).
  erewrite defineFunction_run by reflexivity. reflexivity.
Qed.

Lemma exec_install g : exec install g = installed g.
Proof. unfold exec. by rewrite install_run. Qed.

(** What the load leaves under each name. *)
Lemma installed_method g name :
  DataManager (installed g) !! name =
  if bool_decide (name ∈ pluginMethods) then Some (Fn SaveSync name)
  else DataManager g !! name.
Proof.
  unfold installed, pluginMethods. simpl. case_bool_decide as Hn.
  - apply elem_of_cons in Hn as [->|Hn].
    { rewrite lookup_insert_ne by done. apply lookup_insert_eq. }
    apply list_elem_of_singleton in Hn as ->. apply lookup_insert_eq.
  - rewrite !lookup_insert_ne; [done|..]; intros <-; apply Hn; set_solver.
Qed.

Lemma installed_function g name :
  resolve (installed g) (ViaSaveSync name) =
  if bool_decide (name ∈ pluginFunctions) then Some (Fn SaveSync name) else None.
Proof.
  unfold resolve, installed. simpl. rewrite lookup_insert_eq. simpl.
  unfold saveSyncObject, pluginFunctions. simpl. case_bool_decide as Hn.
  - repeat (apply elem_of_cons in Hn as [->|Hn]; [done|]). by apply elem_of_nil in Hn.
  - rewrite !lookup_insert_ne; [done|..]; intros <-; apply Hn; set_solver.
Qed.

Lemma installed_linked g : linked (installed g) = true.
Proof.
  unfold linked. apply andb_true_intro.
  split; apply forallb_True; intros name Hn; apply bool_decide_eq_true.
  - cbn [resolve]. rewrite installed_method. by rewrite bool_decide_eq_true_2.
  - rewrite installed_function. by rewrite bool_decide_eq_true_2.
Qed.

Lemma Globals_eq g g' :
  Imported g = Imported g' → McKathlin g = McKathlin g' →
  DataManager g = DataManager g' → StorageManager g = StorageManager g' →
  Prototypes g = Prototypes g' → g = g'.
Proof. destruct g, g'. simpl. congruence. Qed.

Lemma installed_idemp g : installed (installed g) = installed g.
Proof.
  apply Globals_eq; simpl; rewrite ?insert_insert_eq; try done.
  apply map_eq. intros name.
  change (DataManager (installed (installed g)) !! name = DataManager (installed g) !! name).
  rewrite !installed_method. by case_bool_decide.
Qed.

(** The names an independent edit writes are not those of the plugin. *)
Lemma independent_method e plugin name :
  e = SetMethod plugin name ∨ e = AliasMethod plugin name →
  independent e = true → name ≠ "loadGlobalInfo" ∧ name ≠ "updateGlobalInfo".
Proof.
  intros [->| ->] Hn%bool_decide_eq_true; split; intros ->; apply Hn;
    unfold pluginMethods; set_solver.
Qed.

Lemma installed_commute e g :
  independent e = true → installed (apply_edit e g) = apply_edit e (installed g).
Proof.
  intros He.
  destruct e as [flag|plugin name|plugin name|plugin ns name|plugin class name];
    [..|done].
  - apply bool_decide_eq_true in He. apply Globals_eq; simpl; try done.
    by rewrite insert_insert_ne.
  - destruct (independent_method _ plugin name (or_introl eq_refl) He).
    apply Globals_eq; simpl; try done.
    by rewrite (insert_insert_ne _ "loadGlobalInfo"),
      (insert_insert_ne _ "updateGlobalInfo").
  - destruct (independent_method _ plugin name (or_intror eq_refl) He).
    apply Globals_eq; simpl; try done.
    rewrite !lookup_insert_ne by done.
    by rewrite (insert_insert_ne _ "loadGlobalInfo"),
      (insert_insert_ne _ "updateGlobalInfo").
  - apply bool_decide_eq_true in He. apply Globals_eq; simpl; try done.
    rewrite lookup_insert_ne by done. by rewrite insert_insert_ne.
Qed.

Lemma installed_commute_edits es g :
  forallb independent es = true →
  installed (apply_edits es g) = apply_edits es (installed g).
Proof.
  revert g. induction es as [|e es IH]; intros g; [done|].
  intros [He Hes]%andb_prop. simpl. by rewrite IH, installed_commute.
Qed.

End install_facts.

Section supersede_facts.
Implicit Types (g : Globals) (e : Edit).

(** An edit of a name the plugin writes, made before the load, leaves no
    trace after it. *)
Lemma installed_supersedes e g :
  independent e = false → installed (apply_edit e g) = installed g.
Proof.
  intros He.
  destruct e as [flag|plugin name|plugin name|plugin ns name|plugin class name];
    [..|done];
    apply bool_decide_eq_false in He; apply dec_stable in He;
    apply Globals_eq; simpl; try done.
  - subst flag. by rewrite insert_insert_eq.
  - apply elem_of_cons in He as [->|He]; [by rewrite insert_insert_eq|].
    apply list_elem_of_singleton in He as ->.
    by rewrite (insert_insert_ne _ "loadGlobalInfo"), insert_insert_eq.
  - apply elem_of_cons in He as [->|He]; [by rewrite insert_insert_eq|].
    apply list_elem_of_singleton in He as ->.
    by rewrite (insert_insert_ne _ "loadGlobalInfo"), insert_insert_eq.
  - subst ns. by rewrite insert_insert_eq.
Qed.

End supersede_facts.

(** ** Theorems *)

Section plugin_theorems.
Implicit Types (g : Globals) (e : Edit) (es : list Edit).

(** C31: the load never throws, whatever the scripts loaded before it left
    behind, and after it the flag of the plugin is set and each of the
    seven names the plugin defines is bound to the plugin's function. *)
Theorem install_links g :
  eval install g = Done tt ∧ linked (exec install g) = true ∧
  or_empty (Imported (exec install g)) !! "McKathlin_SaveSync" = Some true.
Proof.
  unfold eval. rewrite exec_install, install_run.
  split; [done|]. split; [apply installed_linked|apply lookup_insert_eq].
Qed.

(** C32: the compatibility note. Plugins that write none of the names this
    plugin writes may be loaded before it or after it: the objects end up
    the same. *)
Theorem install_commutes es g :
  forallb independent es = true →
  exec install (apply_edits es g) = apply_edits es (exec install g).
Proof. intros Hes. rewrite !exec_install. by apply installed_commute_edits. Qed.

(** C33: what the load overrides. A plugin loaded before this one that
    sets or wraps [DataManager.loadGlobalInfo] or
    [DataManager.updateGlobalInfo], or that puts a function into
    [McKathlin.SaveSync], is without effect: the objects after the load
    are those the load makes without it. *)
Theorem install_supersedes e g :
  independent e = false → exec install (apply_edit e g) = exec install g.
Proof. intros He. rewrite !exec_install. by apply installed_supersedes. Qed.

(** Loading the script twice is loading it once. *)
Theorem install_idempotent g : exec install (exec install g) = exec install g.
Proof. rewrite !exec_install. apply installed_idemp. Qed.

(** What the load leaves alone: [StorageManager], the methods of
    [DataManager] under other names, the flags of other plugins and the
    other namespaces of [McKathlin]. *)
Theorem install_frame g :
  let g' := exec install g in
  StorageManager g' = StorageManager g ∧ Prototypes g' = Prototypes g ∧
  (∀ name, name ∉ pluginMethods → DataManager g' !! name = DataManager g !! name) ∧
  (∀ flag, flag ≠ "McKathlin_SaveSync" →
     or_empty (Imported g') !! flag = or_empty (Imported g) !! flag) ∧
  (∀ ns, ns ≠ "SaveSync" → or_empty (McKathlin g') !! ns = or_empty (McKathlin g) !! ns).
Proof.
  cbv zeta. rewrite exec_install. split_and!; [done|done|..].
  - intros name Hn. by rewrite installed_method, bool_decide_eq_false_2.
  - intros flag Hflag. simpl. by rewrite lookup_insert_ne.
  - intros ns Hns. simpl. by rewrite lookup_insert_ne.
Qed.

End plugin_theorems.

(** ** Examples *)

(** Loaded into the engine, a call of [DataManager.loadGlobalInfo] runs
    the seven functions of the plugin and, of the engine, the functions
    the plugin calls, down to [padZero] and the accessors of the actors;
    [removeInvalidGlobalInfo] is not among them. *)
Example calls_after_install :
  let g := exec install engineGlobals in
  ∃ f, resolve g (ViaDataManager "loadGlobalInfo") = Some f ∧
       Forall (λ name, Fn SaveSync name ∈ reached 4 g f)
         (pluginMethods ++ pluginFunctions) ∧
       Fn Engine "padZero" ∈ reached 4 g f ∧
       (Fn Engine "removeInvalidGlobalInfo" ∉ reached 4 g f) ∧
       (Fn Engine "loadGlobalInfo" ∉ reached 4 g f).
Proof.
  eexists. split; [by vm_compute|].
  split_and!; apply (bool_decide_unpack _); by vm_compute.
Qed.

(** A plugin that wraps [loadGlobalInfo] is called, and calls the plugin,
    when it is loaded after the plugin; loaded before, it is never
    called. *)
Example alias_order :
  let wrap := AliasMethod "Other" "loadGlobalInfo" in
  resolve (apply_edit wrap (exec install engineGlobals)) (ViaDataManager "loadGlobalInfo")
    = Some (Alias "Other" (Fn SaveSync "loadGlobalInfo")) ∧
  resolve (exec install (apply_edit wrap engineGlobals)) (ViaDataManager "loadGlobalInfo")
    = Some (Fn SaveSync "loadGlobalInfo").
Proof. split; by vm_compute. Qed.

Lemma install_commutes_witness :
  let es := [SetFlag "Other"; AliasMethod "Other" "saveGlobalInfo";
             SetFunction "Other" "Tools" "extractPlaytime";
             SetPrototype "Other" "Game_Party" "maxBattleMembers"] in
  exec install (apply_edits es engineGlobals) =
  apply_edits es (exec install engineGlobals).
Proof. apply (install_commutes _ engineGlobals). reflexivity. Defined.

Lemma install_supersedes_witness :
  exec install (apply_edit (AliasMethod "Other" "loadGlobalInfo") engineGlobals) =
  exec install engineGlobals.
Proof. apply (install_supersedes _ engineGlobals). reflexivity. Defined.
