(* ===== verification/Scenarios.v ===== *)
(** * The sample game, run

    The pass, the chain and its jobs on the sample game of [Host]: the
    index that is out of date, the unreadable index, the unreadable
    payload; the chain interrupted by other jobs, on a save directory
    that changes, and beside the chains of further calls. The runs are
    computed, and
    the theorems of the reconciler, of the refinement, of the loader, of
    the trace, of the jobs, of the shape of records, of the interleaved
    runs, of the changing directory, of the overlapping chains, of
    their agreement with a single call, of the console and of calls on
    a changing directory are applied to them. *)

From stdpp Require Import strings gmap relations.
From S2P Require Import Prelude JsBase Host Extractor Synthesis.
From S2P Require Import Reconciler IndexSpec Loader Trace Jobs.
From S2P Require Import Temporal WellFormed Interleave Erasure Disk Overlap.
From S2P Require Import Reload Agreement.
From S2P Require Import Merge Console DiskCalls.

(** ** Runs *)

Definition samplePass : M bool := @updateGlobalInfo sampleHost _.
Definition faultyPass : M bool := @updateGlobalInfo faultyHost _.
Definition sampleChain : M unit := @loadGlobalInfo sampleHost.
Definition faultyChain : M unit := @loadGlobalInfo faultyHost.

(** The records the pass gives slots 1, 2 and 4 of the sample game. *)
Definition restored1 (now : Z) : SaveInfo :=
  mkInfo "Sample Quest" [("Actor1", 1%Z); ("Actor1", 0%Z); ("Actor2", 2%Z)]
    [("Face1", 1%Z); ("Face1", 0%Z); ("Face2", 2%Z)] "00:01:30" now.

Definition restored2 (now : Z) : SaveInfo :=
  mkInfo "Sample Quest"
    [("Actor1", 0%Z); ("Actor1", 1%Z); ("Actor2", 2%Z); ("Actor2", 3%Z)]
    [("Face1", 0%Z); ("Face1", 1%Z); ("Face2", 2%Z); ("Face2", 3%Z)] "02:00:00" now.

Definition restored4 (now : Z) : SaveInfo :=
  mkInfo "Sample Quest" [("Actor1", 0%Z)] [("Face1", 0%Z)] "??:??:??" now.

(** The stale index: the record of slot 0 is deleted, slot 1 is restored,
    slot 2 is kept, and the array grows to hold slot 4. *)
Example pass_on_stale_index :
  samplePass (world_of staleIndex) =
  (mkWorld
     [Restoring 1; Restored 1; Restoring 4;
      RestoreFailed 4 (TypeError "_framesOnSave"); CanStillLoad 4]
     2 [Hole; Obj (restored1 1000); Obj staleInfo; Hole; Obj (restored4 1001)]
     None (Done staleIndex),
   Done true).
Proof. vm_compute. reflexivity. Qed.

(** The unreadable payload of file 2: slot 1 is restored, the pass throws
    at slot 2 and slot 4 is never reached. *)
Example pass_with_unreadable_payload :
  faultyPass (world_of []) =
  (mkWorld [Restoring 1; Restored 1; Restoring 2] 2
     [Hole; Obj (restored1 1000)] None (Done []),
   Throw (LoadError "file2")).
Proof. vm_compute. reflexivity. Qed.

(** The same fault through the chain: the partly repaired index is
    published and not persisted. *)
Example chain_with_unreadable_payload :
  faultyChain (world_of []) =
  (mkWorld
     [GlobalInfoLoaded; Restoring 1; Restored 1; Restoring 2;
      UpdateFailed (LoadError "file2")] 2
     [Hole; Obj (restored1 1000)] (Some [Hole; Obj (restored1 1000)]) (Done []),
   Done tt).
Proof. vm_compute. reflexivity. Qed.

(** The unreadable index: every save file gets a record, and the index is
    persisted with its holes written as [null]. *)
Example chain_with_unreadable_index :
  exec sampleChain (mkWorld [] 0 [] None (Throw (LoadError "global"))) =
  let a := [Hole; Obj (restored1 1000); Obj (restored2 1001); Hole;
            Obj (restored4 1002)] in
  mkWorld
    [GlobalInfoUnreadable; Restoring 1; Restored 1; Restoring 2; Restored 2;
     Restoring 4; RestoreFailed 4 (TypeError "_framesOnSave"); CanStillLoad 4]
    3 a (Some a) (Done (json_array a)).
Proof. vm_compute. reflexivity. Qed.

(** ** The theorems of the reconciler on the sample game *)

Ltac run := vm_compute; first [reflexivity | discriminate].

Lemma updateGlobalInfo_synced_witness :
  truthy (arr_get (globalInfo (exec samplePass (world_of staleIndex))) 0)
  = @savefileExists sampleHost 0.
Proof.
  apply (@updateGlobalInfo_synced sampleHost _ (world_of staleIndex) true 0); run.
Defined.

Lemma updateGlobalInfo_flag_witness :
  true = false ↔
  ∀ i, (Z.of_nat i ≤ @maxSavefiles sampleHost)%Z →
       truthy (arr_get (globalInfo (world_of [])) i) = @savefileExists sampleHost i.
Proof.
  apply (@updateGlobalInfo_flag sampleHost _ (world_of []) true); run.
Defined.

Lemma updateGlobalInfo_noop_witness :
  samplePass (world_of [Null; Obj staleInfo; Obj staleInfo; Hole; Obj staleInfo])
  = (world_of [Null; Obj staleInfo; Obj staleInfo; Hole; Obj staleInfo], Done false).
Proof.
  apply (@updateGlobalInfo_noop sampleHost _).
  apply (@synced_allSlots sampleHost). run.
Defined.

Lemma updateGlobalInfo_idempotent_witness :
  samplePass (exec samplePass (world_of staleIndex))
  = (exec samplePass (world_of staleIndex), Done false).
Proof.
  apply (@updateGlobalInfo_idempotent sampleHost _ (world_of staleIndex) true); run.
Defined.

Lemma updateGlobalInfo_outside_witness :
  arr_get (globalInfo (exec samplePass
    (world_of (staleIndex ++ [Hole; Hole; Obj staleInfo])))) 5
  = Obj staleInfo.
Proof.
  apply (@updateGlobalInfo_outside sampleHost _
           (world_of (staleIndex ++ [Hole; Hole; Obj staleInfo])) 5); run.
Defined.

Lemma updateGlobalInfo_kept_witness :
  arr_get (globalInfo (exec samplePass (world_of staleIndex))) 2 = Obj staleInfo.
Proof.
  apply (@updateGlobalInfo_kept sampleHost _ (world_of staleIndex) 2); run.
Defined.

Lemma updateGlobalInfo_abort_witness :
  let w := world_of [] in
  ∃ k, (Z.of_nat k ≤ @maxSavefiles faultyHost)%Z ∧
    @blocked faultyHost _ (globalInfo w) k = true ∧
    (∀ j, j < k →
       @blocked faultyHost _ (globalInfo w) j = false ∧
       truthy (arr_get (globalInfo (exec faultyPass w)) j)
       = @savefileExists faultyHost j) ∧
    (∀ j, k ≤ j →
       arr_get (globalInfo (exec faultyPass w)) j = arr_get (globalInfo w) j).
Proof.
  apply (@updateGlobalInfo_abort faultyHost _ (world_of []) (LoadError "file2")); run.
Defined.

(** ** The refinement on the sample game *)

Lemma updateGlobalInfo_refines_witness :
  let m := absIndex staleIndex in
  let m' := absIndex (globalInfo (exec samplePass (world_of staleIndex))) in
  (∃ fresh, m' = reconcile_spec (@savefileExists sampleHost) fresh
                   (@allSlots sampleHost) m) ∧
  true = bool_decide (m' ≠ m).
Proof.
  apply (@updateGlobalInfo_refines sampleHost _ (world_of staleIndex) true); run.
Defined.

Lemma updateGlobalInfo_lookup_witness :
  let m := absIndex staleIndex in
  let m' := absIndex (globalInfo (exec samplePass (world_of staleIndex))) in
  is_Some (m' !! 2) ∧ (is_Some (m !! 2) → m' !! 2 = m !! 2).
Proof.
  apply (@updateGlobalInfo_lookup sampleHost _ (world_of staleIndex) true 2); run.
Defined.

(** ** The theorems of the loader on the sample game *)

Lemma loadGlobalInfo_synced_witness :
  ∃ a, _globalInfo (exec sampleChain (world_of staleIndex)) = Some a ∧
       truthy (arr_get a 1) = @savefileExists sampleHost 1.
Proof.
  apply (@loadGlobalInfo_synced sampleHost (world_of staleIndex) 1); [|run].
  apply (@payloads_load_spec sampleHost). run.
Defined.

Lemma loadGlobalInfo_reload_witness :
  let w1 := exec sampleChain (world_of staleIndex) in
  let w2 := exec sampleChain w1 in
  storedGlobal w2 = storedGlobal w1 ∧
  globalInfo w2 ≡ᵢ globalInfo w1 ∧
  console w2 = console (loaded_world w1).
Proof.
  apply (@loadGlobalInfo_reload sampleHost (world_of staleIndex)). run.
Defined.

(** ** The trace of the pass on the sample game *)

Lemma updateGlobalInfo_entry_witness :
  arr_get (globalInfo (exec samplePass (world_of staleIndex))) 4
  = @pass_entry sampleHost (world_of staleIndex) (seq 0 4) 4 ∧
  (@missing sampleHost staleIndex 4 = true →
   is_done (@loadObject sampleHost (@makeSavename sampleHost 4)) = true).
Proof.
  apply (@updateGlobalInfo_entry sampleHost (world_of staleIndex) true 4); run.
Defined.

Lemma updateGlobalInfo_timestamps_witness :
  ∃ x y, arr_get (globalInfo (exec samplePass (world_of staleIndex))) 1 = Obj x ∧
         arr_get (globalInfo (exec samplePass (world_of staleIndex))) 4 = Obj y ∧
         (timestamp x ≤ timestamp y)%Z.
Proof.
  apply (@updateGlobalInfo_timestamps sampleHost (world_of staleIndex) true 1 4);
    [intros k k' Hk; simpl; lia | run | lia | run..].
Defined.

Lemma forSlots_permutation_witness :
  eval (@forSlots sampleHost _ [4; 2; 1] false) (world_of []) = Done true ∧
  ∀ j, forget_timestamp (arr_get (globalInfo
         (exec (@forSlots sampleHost _ [4; 2; 1] false) (world_of []))) j) =
       forget_timestamp (arr_get (globalInfo
         (exec (@forSlots sampleHost _ [1; 2; 4] false) (world_of []))) j).
Proof.
  apply (@forSlots_permutation sampleHost [1; 2; 4] [4; 2; 1] false true (world_of []));
    [symmetry; apply (reverse_Permutation [1; 2; 4])
    |apply (bool_decide_unpack _); vm_compute; exact I
    |run].
Defined.

(** The stale index and the array read back from its serialisation, in
    which the hole left by the deletion of slot 0 would be [null]. *)
Lemma updateGlobalInfo_equiv_witness :
  let w := world_of (Hole :: staleIndex) in
  let w' := world_of (json_array (Hole :: staleIndex)) in
  eval (@updateGlobalInfo sampleHost _) w = eval (@updateGlobalInfo sampleHost _) w' ∧
  world_equiv (exec (@updateGlobalInfo sampleHost _) w)
    (exec (@updateGlobalInfo sampleHost _) w').
Proof.
  apply (@updateGlobalInfo_equiv sampleHost).
  split; [reflexivity|]. split; [reflexivity|]. symmetry. apply json_array_equiv.
Defined.

(** ** The jobs of the chain on the sample game *)

(** The chain on the stale index after four jobs: it waits for the payload
    of file 4. *)
Definition midChain : Config :=
  @run_jobs sampleHost 4 (LoadingIndex, world_of staleIndex).

Lemma chain_unpublished_witness :
  (midChain.1 ≠ Finished → visible midChain.2 = visible (world_of staleIndex)) ∧
  (midChain.1 = Finished → _globalInfo midChain.2 = Some (globalInfo midChain.2)).
Proof.
  apply (@chain_unpublished sampleHost (world_of staleIndex)).
  apply (@run_jobs_rtc sampleHost).
Defined.

Lemma chain_loop_invariant_witness : @loop_invariant sampleHost midChain.
Proof.
  apply (@chain_loop_invariant sampleHost (world_of staleIndex)).
  apply (@run_jobs_rtc sampleHost).
Defined.

(** ** The shape of the records of the sample game *)

Lemma makeMissingSaveInfo_well_formed_witness :
  wf_info (restored4 1000).
Proof.
  apply (@makeMissingSaveInfo_well_formed sampleHost 4 (world_of [])). run.
Defined.

Lemma chain_well_formed_witness : wf_config midChain.
Proof.
  apply (@chain_well_formed sampleHost (world_of staleIndex));
    [apply (bool_decide_unpack _); vm_compute; exact I
    |apply (@run_jobs_rtc sampleHost)].
Defined.

(** ** The chain among other jobs, on the sample game *)

(** Another job of the engine reads the clock. *)
Definition tick (w : World) : World := set_clockReads S w.

Lemma frame_tick w : frame w (tick w).
Proof. split; try done. simpl. lia. Qed.

(** The chain on the stale index, run without a pause. *)
Definition eagerRun : nat → Config :=
  @eager sampleHost (LoadingIndex, world_of staleIndex).

(** The same chain with the clock read before its first job and again
    while it waits for the payload of file 1. *)
Definition interrupted : Config :=
  let c := @run_jobs sampleHost 2 (LoadingIndex, tick (world_of staleIndex)) in
  @run_jobs sampleHost 5 (c.1, tick c.2).

Lemma interrupted_steps :
  rtc (@step sampleHost frame) (LoadingIndex, world_of staleIndex) interrupted.
Proof.
  eapply rtc_l; [apply step_env, frame_tick|].
  etrans; [apply (@eager_steps sampleHost frame 2)|].
  eapply rtc_l; [apply step_env_world, frame_tick|]. apply eager_steps.
Qed.

(** The records of the interrupted run are stamped later than those of
    the sequential program. *)
Example interrupted_timestamps :
  globalInfo interrupted.2 =
    [Hole; Obj (restored1 1001); Obj staleInfo; Hole; Obj (restored4 1003)] ∧
  globalInfo (exec sampleChain (world_of staleIndex)) =
    [Hole; Obj (restored1 1000); Obj staleInfo; Hole; Obj (restored4 1001)].
Proof. split; vm_compute; reflexivity. Qed.

Lemma chain_fair_terminates_witness : stabilises (λ c, c.1 = Finished) eagerRun.
Proof.
  apply (@chain_fair_terminates sampleHost frame);
    [apply eager_run, _|apply eager_fair].
Defined.

Lemma chain_jobs_bounded_witness : length [0; 1; 2; 3] ≤ 3 + 2 * @slotCount sampleHost.
Proof.
  apply (@chain_jobs_bounded sampleHost frame eagerRun);
    [apply eager_run, _|apply (bool_decide_unpack _); vm_compute; exact I|].
  intros n Hn. apply job_run.
  repeat (apply elem_of_cons in Hn as [->|Hn]; [vm_compute; reflexivity|]).
  by apply elem_of_nil in Hn.
Defined.

Lemma chain_fair_publishes_witness :
  ((λ c, c.1 = LoadingIndex) ~~> (λ c, published c ∧ @pending_synced sampleHost c))%T
    eagerRun.
Proof.
  apply (@chain_fair_publishes sampleHost frame);
    [by intros w w' []|apply eager_run, _|apply eager_fair|run].
Defined.

Lemma interleaved_refines_witness :
  let w' := exec sampleChain (world_of staleIndex) in
  erase_array <$> _globalInfo interrupted.2 = erase_array <$> _globalInfo w' ∧
  cmap erase_array (storedGlobal interrupted.2) = cmap erase_array (storedGlobal w') ∧
  erase_array (globalInfo interrupted.2) = erase_array (globalInfo w').
Proof.
  apply (@interleaved_refines sampleHost frame);
    [done|apply interrupted_steps|run].
Defined.

Lemma chain_fair_converges_witness :
  stabilises
    (λ c, similar c (Finished, exec sampleChain (world_of staleIndex))) eagerRun.
Proof.
  apply (@chain_fair_converges sampleHost frame);
    [done|apply eager_run, _|apply eager_fair|reflexivity].
Defined.

(** ** Save files that change under the chain *)

(** The save directory of the sample game. *)
Definition sampleDisk : Disk :=
  list_to_map
    [("file1", sampleLoad "file1"); ("file2", sampleLoad "file2");
     ("file4", sampleLoad "file4")].

Definition sampleStart : DConfig := (LoadingIndex, world_of [], sampleDisk).

(** The chain after four jobs, waiting for the payload of file 2, and the
    same with file 2 removed behind its back. *)
Definition atFile2 : DConfig := run_djobs sampleHost 4 sampleStart.

Definition file2Removed : DConfig := (atFile2.1, delete "file2" atFile2.2).

(** A file that goes away after the check of line 124, before the load
    started on line 156 has read it, rejects the pass: slot 4 is never
    looked at, and the index with the one record of file 1 is published
    and not persisted. *)
Example file_removed_under_the_loop :
  atFile2.1.1 = LoadingPayload 2 (@defaultInfo sampleHost 1001) ∧
  let x := run_djobs sampleHost 3 file2Removed in
  x.1.1 = Finished ∧
  _globalInfo x.1.2 = Some [Hole; Obj (restored1 1000)] ∧
  storedGlobal x.1.2 = Done [] ∧
  list.last (console x.1.2) = Some (UpdateFailed (LoadError "file2")).
Proof. vm_compute. done. Qed.

(** A file that arrives after the loop has passed its slot is not seen:
    the chain ends with file 0 on the disk and no record for slot 0. *)
Example file_written_behind_the_loop :
  let x2 := run_djobs sampleHost 2 sampleStart in
  let x := run_djobs sampleHost 7 (x2.1, <["file0" := sampleLoad "file1"]> x2.2) in
  x.1.1 = Finished ∧ on_disk sampleHost x.2 0 = true ∧
  _globalInfo x.1.2 =
    Some [Hole; Obj (restored1 1000); Obj (restored2 1001); Hole; Obj (restored4 1002)].
Proof. vm_compute. done. Qed.

(** The environment that may remove file 2 and does nothing else. *)
Definition removesFile2 : relation (World * Disk) :=
  λ a b, b.1 = a.1 ∧ (b.2 = a.2 ∨ b.2 = delete "file2" a.2).

#[export] Instance removesFile2_refl : Reflexive removesFile2.
Proof. intros a. split; auto. Qed.

(** The run in which file 2 is removed while the chain waits for it. *)
Definition removalRun : nat → DConfig :=
  splice 5 (λ n, run_djobs sampleHost n sampleStart)
    (λ n, run_djobs sampleHost n file2Removed).

Lemma removalRun_run : run (dstep sampleHost removesFile2) removalRun.
Proof.
  apply run_splice.
  - intros n _. apply (run_djobs_run sampleHost removesFile2 sampleStart _ n).
  - intros _. apply (dstep_env sampleHost removesFile2 _ _ _ atFile2.2).
    split; [done|by right].
  - apply run_djobs_run, _.
Qed.

Lemma disk_fair_terminates_witness : stabilises (λ x, x.1.1 = Finished) removalRun.
Proof.
  apply (disk_fair_terminates sampleHost removesFile2);
    [apply removalRun_run|apply weakly_fair_splice, run_djobs_fair].
Defined.

(** Slot 1, whose file is left alone, is settled in the run that loses
    file 2. *)
Lemma disk_stable_slot_witness :
  always (slot_settled sampleHost 1 true ∘ fst) removalRun.
Proof.
  apply (disk_stable_slot sampleHost removesFile2 1);
    [by intros w d w' d' [[= ->] _]
    |intros w d w' d' [_ [[= ->]| [= ->]]]; [done|];
     change (@makeSavename sampleHost 1) with "file1"; by rewrite lookup_delete_ne
    |apply removalRun_run|done].
Defined.

(** ** Calls of [loadGlobalInfo] that overlap *)

(** [loadGlobalInfo] called twice on the stale index, and the run in
    which the two chains take turns. *)
Definition twoCalls : Calls := two_calls (world_of staleIndex).

Definition overlapped : nat → Calls := @behind sampleHost twoCalls.

(** A second call when the first chain is about to run its last job,
    and a third call while two chains are under way. *)
Definition lateCall : nat → Calls :=
  @scheduled sampleHost ([None] ++ replicate 6 (Some 0) ++ [None])
    ([], world_of staleIndex).

Definition threeCalls : nat → Calls :=
  @scheduled sampleHost [None; None; Some 1; None] ([], world_of staleIndex).

(** The index with the records of slots 1 and 4 stamped [t1] and [t4]. *)
Definition repaired (gap : elem SaveInfo) (t1 t4 : Z) : jsarray SaveInfo :=
  [gap; Obj (restored1 t1); Obj staleInfo; gap; Obj (restored4 t4)].

(** Taking turns, both chains repair the index and both write it to the
    storage. The engine is left with the records of the chain that ended
    last; those of the first chain, which it had seen and saved, are
    gone. *)
Example overlap_taking_turns :
  let s := overlapped 14 in
  s.1 = [(Finished, repaired Hole 1000 1002); (Finished, repaired Hole 1001 1003)] ∧
  _globalInfo s.2 = Some (repaired Hole 1001 1003) ∧
  storedGlobal s.2 = Done (repaired Null 1001 1003).
Proof. split_and!; vm_compute; reflexivity. Qed.

(** One call after the other: the second chain loads what the first has
    saved, finds nothing to repair and logs the load alone. *)
Example overlap_one_after_the_other :
  let s := @run_schedule sampleHost
    ([None] ++ replicate 7 (Some 0) ++ [None] ++ replicate 7 (Some 1))
    ([], world_of staleIndex) in
  s.1 = [(Finished, repaired Hole 1000 1001); (Finished, repaired Null 1000 1001)] ∧
  _globalInfo s.2 = Some (repaired Null 1000 1001) ∧
  storedGlobal s.2 = Done (repaired Null 1000 1001) ∧
  console s.2 =
    [GlobalInfoLoaded; Restoring 1; Restored 1; Restoring 4;
     RestoreFailed 4 (TypeError "_framesOnSave"); CanStillLoad 4; GlobalInfoLoaded].
Proof. split_and!; vm_compute; reflexivity. Qed.

(** A call just before the first chain saves: the second chain loads the
    index that is out of date, the first saves its repair, and the
    second repairs the old index once more and saves over it. *)
Example overlap_late_call :
  let s := lateCall 16 in
  s.1 = [(Finished, repaired Hole 1000 1001); (Finished, repaired Hole 1002 1003)] ∧
  _globalInfo s.2 = Some (repaired Hole 1002 1003) ∧
  storedGlobal s.2 = Done (repaired Null 1002 1003) ∧
  console s.2 =
    [GlobalInfoLoaded; Restoring 1; Restored 1; Restoring 4;
     RestoreFailed 4 (TypeError "_framesOnSave"); CanStillLoad 4;
     GlobalInfoLoaded; Restoring 1; Restored 1; Restoring 4;
     RestoreFailed 4 (TypeError "_framesOnSave"); CanStillLoad 4].
Proof. split_and!; vm_compute; reflexivity. Qed.

(** Three chains at once: each repairs the index, and the engine is left
    with the records of the third. *)
Example overlap_three_calls :
  let s := threeCalls 24 in
  s.1 = [(Finished, repaired Hole 1000 1003); (Finished, repaired Hole 1001 1004);
         (Finished, repaired Hole 1002 1005)] ∧
  _globalInfo s.2 = Some (repaired Hole 1002 1005) ∧
  storedGlobal s.2 = Done (repaired Null 1002 1005).
Proof. split_and!; vm_compute; reflexivity. Qed.

Lemma overlap_publishes_witness :
  stabilises (λ s, all_finished s ∧
    ∃ x, x ∈ s.1 ∧ _globalInfo s.2 = Some x.2 ∧ @agrees sampleHost x.2) threeCalls.
Proof.
  apply (@overlap_publishes sampleHost frame (λ w w' Hw, frame__globalInfo w w' Hw) 3);
    [apply scheduled_run, _|intros k; apply scheduled_fair|exact (f_equal fst (scheduled_start _ _))
    |apply (@scheduled_calls sampleHost)|lia|run].
Defined.

(** The late call, compared with a single call: the records are those of
    [chain_on_stale_index], with other timestamps. *)
Lemma overlap_refines_witness :
  stabilises (λ s, all_finished s ∧
    @published_as_once sampleHost (world_of staleIndex) s ∧
    @stored_as_once sampleHost (world_of staleIndex) s) lateCall.
Proof.
  apply (@overlap_refines sampleHost (world_of staleIndex) frame (λ w w' Hw, Hw) 2);
    [apply scheduled_run, _|intros k; apply scheduled_fair|apply scheduled_start
    |apply (@scheduled_calls sampleHost)|lia].
Defined.

(** A run that is not fair: the first chain ends, a second call gets
    two jobs and no more. The engine sees and stores the records of a
    single call all the same. *)
Definition starved : nat → Calls :=
  @stalled sampleHost ([None] ++ replicate 7 (Some 0) ++ [None; Some 1; Some 1])
    ([], world_of staleIndex).

Example overlap_starved :
  let s := starved 20 in
  (fst <$> s.1) = [Finished; PassSettled (Done false)] ∧
  _globalInfo s.2 = Some (repaired Hole 1000 1001) ∧
  storedGlobal s.2 = Done (repaired Null 1000 1001).
Proof. split_and!; vm_compute; reflexivity. Qed.

Lemma overlap_settled_witness :
  always (λ s, (∃ x, x ∈ s.1 ∧ x.1 = Finished) →
    @published_as_once sampleHost (world_of staleIndex) s ∧
    @stored_as_once sampleHost (world_of staleIndex) s) starved.
Proof.
  apply (@overlap_settled sampleHost (world_of staleIndex) frame (λ w w' Hw, Hw));
    [apply stalled_run, _|done].
Defined.

(** Two calls on an empty index with the payload of file 2 unreadable:
    both passes throw at slot 2, both chains publish their half repaired
    index and neither writes the storage. *)
Example overlap_both_abort :
  let s := @behind faultyHost (two_calls (world_of [])) 14 in
  s.1 = [(Finished, [Hole; Obj (restored1 1000)]);
         (Finished, [Hole; Obj (restored1 1001)])] ∧
  _globalInfo s.2 = Some [Hole; Obj (restored1 1001)] ∧
  storedGlobal s.2 = Done [] ∧
  console s.2 =
    [GlobalInfoLoaded; GlobalInfoLoaded; Restoring 1; Restoring 1;
     Restored 1; Restored 1; Restoring 2; Restoring 2;
     UpdateFailed (LoadError "file2"); UpdateFailed (LoadError "file2")].
Proof. split_and!; vm_compute; reflexivity. Qed.

(** A second call after a pass that threw: it throws at the same slot
    and publishes the same records. *)
Example reload_after_abort :
  let w1 := exec faultyChain (world_of []) in
  let w2 := exec faultyChain w1 in
  _globalInfo w1 = Some [Hole; Obj (restored1 1000)] ∧
  _globalInfo w2 = Some [Hole; Obj (restored1 1002)] ∧
  storedGlobal w2 = Done [].
Proof. split_and!; vm_compute; reflexivity. Qed.

(** ** Calls that overlap on a directory that changes *)

(** Two calls on the empty index. File 2 is removed while the first
    chain waits for the payload of file 1, before the second call; file
    0 is written when both loops are past slot 0. File 1 is left
    alone. *)
Definition editedRun : nat → DCalls :=
  dscheduled sampleHost
    [NewCall; JobOf 0; JobOf 0; RemoveFile "file2"; NewCall; JobOf 1; JobOf 1;
     WriteFile "file0" (sampleLoad "file1")]
    (([], world_of []), sampleDisk).

(** Neither chain sees file 0, which came too late, nor file 2, which
    was gone when they came to it; both restore files 1 and 4, and the
    chain that ends last is the one whose records are published and
    stored. *)
Example overlap_on_edited_directory :
  (fst <$> (editedRun 8).1.1) =
    [LoadingPayload 1 (@defaultInfo sampleHost 1000);
     LoadingPayload 1 (@defaultInfo sampleHost 1001)] ∧
  let y := editedRun 30 in
  (fst <$> y.1.1) = [Finished; Finished] ∧
  on_disk sampleHost y.2 0 = true ∧ on_disk sampleHost y.2 2 = false ∧
  _globalInfo y.1.2 =
    Some [Hole; Obj (restored1 1001); Hole; Hole; Obj (restored4 1003)] ∧
  storedGlobal y.1.2 =
    Done [Null; Obj (restored1 1001); Null; Null; Obj (restored4 1003)].
Proof. split; [|cbv zeta; split_and!]; vm_compute; reflexivity. Qed.

Lemma dcalls_fair_terminate_witness : stabilises (λ y, all_finished y.1) editedRun.
Proof.
  apply (dcalls_fair_terminate sampleHost (edits "file1") 2);
    [by apply dscheduled_run|intros k; apply dscheduled_fair|apply dscheduled_calls].
Defined.

Lemma dcalls_well_formed_witness : always (λ y, wf_calls y.1) editedRun.
Proof.
  apply (dcalls_well_formed sampleHost (edits "file1"));
    [by intros w d w' d' [[= ->] _]|by apply dscheduled_run
    |split; [constructor|apply (bool_decide_unpack _); vm_compute; exact I]].
Defined.

(** Slot 1, whose file is left alone, is settled in every chain. *)
Lemma dcalls_stable_slot_witness :
  always (λ y, chains_settled sampleHost 1 true y.1) editedRun.
Proof.
  apply (dcalls_stable_slot sampleHost (edits "file1") 1);
    [by intros w d w' d' [_ Hkeep]|by apply dscheduled_run|done].
Defined.

(** ** The console *)

(** The lines of a call on the stale index, and of a call after it. *)
Example chain_log_stale :
  @chain_log sampleHost (world_of staleIndex) =
    [GlobalInfoLoaded; Restoring 1; Restored 1; Restoring 4;
     RestoreFailed 4 (TypeError "_framesOnSave"); CanStillLoad 4] ∧
  @chain_log sampleHost (exec sampleChain (world_of staleIndex)) = [GlobalInfoLoaded].
Proof. split; vm_compute; reflexivity. Qed.

(** After a pass that threw, a second call writes the lines of the
    first once more. *)
Example chain_log_faulty :
  @chain_log faultyHost (world_of []) =
    [GlobalInfoLoaded; Restoring 1; Restored 1; Restoring 2;
     UpdateFailed (LoadError "file2")] ∧
  @chain_log faultyHost (exec faultyChain (world_of [])) =
  @chain_log faultyHost (world_of []).
Proof. split; vm_compute; reflexivity. Qed.

(** The console of two calls whose chains take turns: stream 0 is that
    of the engine, which is silent; both chains found the stale index
    and write the lines of the repair, line by line in turn. *)
Definition turns : list (nat * LogEntry) :=
  [(1, GlobalInfoLoaded); (2, GlobalInfoLoaded); (1, Restoring 1); (2, Restoring 1);
   (1, Restored 1); (2, Restored 1); (1, Restoring 4); (2, Restoring 4);
   (1, RestoreFailed 4 (TypeError "_framesOnSave")); (1, CanStillLoad 4);
   (2, RestoreFailed 4 (TypeError "_framesOnSave")); (2, CanStillLoad 4)].

Example overlap_console_turns :
  let log := @chain_log sampleHost (world_of staleIndex) in
  console (overlapped 14).2 = turns.*2 ∧ deal 3 turns = [[]; log; log] ∧
  merged [[]; log; log] (console (overlapped 14).2).
Proof.
  assert (console (overlapped 14).2 = turns.*2 ∧
    deal 3 turns = [[]; @chain_log sampleHost (world_of staleIndex);
                    @chain_log sampleHost (world_of staleIndex)]) as [Hc Hd]
    by (split; vm_compute; reflexivity).
  split_and!; [done..|]. rewrite Hc, <-Hd. apply deal_merged.
  apply (bool_decide_unpack _). vm_compute. exact I.
Qed.

(** A call after the first chain has ended finds the repaired index and
    writes the line of the load. *)
Example overlap_console_starved :
  console (starved 20).2 =
  @chain_log sampleHost (world_of staleIndex) ++
  @chain_log sampleHost (exec sampleChain (world_of staleIndex)).
Proof. vm_compute. reflexivity. Qed.

(** The engine that reads the clock and writes nothing. *)
Definition ticks : relation World := λ w w', frame w w' ∧ console w' = console w.

Lemma interrupted_ticks :
  rtc (@step sampleHost ticks) (LoadingIndex, world_of staleIndex) interrupted.
Proof.
  eapply rtc_l; [by apply step_env; split; [apply frame_tick|]|].
  etrans; [apply (@eager_steps sampleHost ticks 2)|].
  eapply rtc_l; [by apply step_env_world; split; [apply frame_tick|]|].
  apply eager_steps.
Qed.

(** The interrupted run, whose engine writes nothing, has on its console
    the lines of the sequential program and no other. *)
Lemma interleaved_console_witness :
  shared_console (λ _, False) (world_of staleIndex) interrupted.2
    (@chain_log sampleHost (world_of staleIndex)).
Proof.
  apply (@interleaved_console sampleHost ticks (λ _, False));
    [by intros w w' []|by intros w w' m []; apply silent_writes
    |apply interrupted_ticks|run].
Defined.

(** The late call of [lateCall] finds the stale index as the first call
    does: once both chains have ended the console holds the lines of
    the repair twice. *)
Lemma overlap_console_ended_late :
  stabilises (λ s, ∃ l envl logs, console s.2 = console (world_of staleIndex) ++ l ∧
    merged (envl :: logs) l ∧ Forall (λ _, False) envl ∧ length logs = 2 ∧
    Forall (λ m, m = @chain_log sampleHost (world_of staleIndex) ∨
                 m = @chain_log sampleHost (@once sampleHost (world_of staleIndex)))
      logs) lateCall.
Proof.
  apply (@overlap_console_ended sampleHost (world_of staleIndex) (λ _, False) eq);
    [by intros w w' ->|by intros w w' m ->; apply silent_writes
    |apply scheduled_run, _|intros k; apply scheduled_fair|apply scheduled_start
    |apply (@scheduled_calls sampleHost)].
Qed.

Lemma overlap_console_witness :
  always (console_merged (world_of staleIndex) (λ _, False)
            (@chain_logged sampleHost (world_of staleIndex))) starved.
Proof.
  apply (@overlap_console sampleHost (world_of staleIndex) (λ _, False) eq);
    [by intros w w' ->|by intros w w' m ->; apply silent_writes
    |apply stalled_run, _|done].
Defined.
